(** * FB-PIC field solver: a shallow embedding of [fbpic/fields/fields.py]

    The development follows the source file class by class:
    [InterpolationGrid], [SpectralGrid], [PsatdCoeffs],
    [SpectralTransformer], the utility function [binomial_filter] and the
    orchestrating class [Fields].

    Conventions of the embedding.
    - A numpy [float64] is a real number and a [complex128] a pair of
      reals: every statement below is about exact arithmetic.
    - A 2-D numpy array is a list of rows; the first axis is z and the
      second one is r, as in the source.
    - A method that mutates [self] is a function from the object to an
      outcome and the object afterwards, so that the state left behind
      by a raised exception is visible.
    - The source is embedded on its CPU path ([use_cuda = False]), the one
      [Fields.__init__] falls back to when [cuda_methods] cannot be
      imported. *)

From Stdlib Require Import Reals Lra Lia RNsatz.
From stdpp Require Import base list strings.

Open Scope R_scope.

(** ** Complex numbers *)

Module Cplx.

Definition complex : Type := (R * R)%type.

Definition Re (z : complex) : R := fst z.
Definition Im (z : complex) : R := snd z.
Definition RtoC (x : R) : complex := (x, 0).
Definition Ci : complex := (0, 1).
Definition Cadd (a b : complex) : complex := (Re a + Re b, Im a + Im b).
Definition Csub (a b : complex) : complex := (Re a - Re b, Im a - Im b).
Definition Copp (a : complex) : complex := (- Re a, - Im a).
Definition Cmul (a b : complex) : complex :=
  (Re a * Re b - Im a * Im b, Re a * Im b + Im a * Re b).
(** [abs(z)**2] *)
Definition Cnorm2 (z : complex) : R := Re z * Re z + Im z * Im z.

End Cplx.
Export Cplx.

Declare Scope C_scope.
Delimit Scope C_scope with cx.
Bind Scope C_scope with complex.
Infix "+" := Cadd : C_scope.
Infix "-" := Csub : C_scope.
Infix "*" := Cmul : C_scope.
Notation "- z" := (Copp z) : C_scope.

(** ** Two-dimensional arrays *)

Module Arr.

Abbreviation arr2 T := (list (list T)).

Section Generic.
Context {T U V : Type}.

Definition amap (f : T -> U) (A : arr2 T) : arr2 U :=
  fmap (M := list) (fmap (M := list) f) A.

Definition amap2 (f : T -> U -> V) (A : arr2 T) (B : arr2 U) : arr2 V :=
  zip_with (zip_with f) A B.

(** [np.zeros((nz, nr))] and friends: a constant array. *)
Definition afull (nz nr : nat) (x : T) : arr2 T := replicate nz (replicate nr x).

(** [A[i, j]] as an option: [None] is numpy's IndexError. *)
Definition get (A : arr2 T) (i j : nat) : option T :=
  match A !! i with Some row => row !! j | None => None end.

(** Every row has [nr] entries and there are [nz] rows:
    [A.shape == (nz, nr)]. *)
Definition shaped (nz nr : nat) (A : arr2 T) : Prop :=
  length A = nz /\ Forall (fun row => length row = nr) A.

End Generic.

#[export] Instance R_inhabited : Inhabited R := populate 0.

(** [A[i, j]] for an index inside the array; the default is never reached
    on the indices of the shape. *)
Definition at2 {T} `{Inhabited T} (A : arr2 T) (i j : nat) : T :=
  default inhabitant (get A i j).

End Arr.
Export Arr.

(** ** numpy's element-wise arithmetic

    Arrays that meet in one expression of the source have one shape
    (every constructor allocates [(Nz, Nr)]), so that numpy's
    element-wise operators are [amap2]; on arrays of different shapes,
    where numpy broadcasts or raises, [amap2] keeps the common part.
    A real array that meets a complex one is promoted to complex first,
    as numpy does. *)

Module Np.

Definition Reqb (x y : R) : bool := if Req_dec_T x y then true else false.

(** complex arrays *)
Definition cadd (A B : arr2 complex) : arr2 complex := amap2 Cadd A B.
Definition csub (A B : arr2 complex) : arr2 complex := amap2 Csub A B.
Definition cmul (A B : arr2 complex) : arr2 complex := amap2 Cmul A B.
Definition cscal (s : complex) (A : arr2 complex) : arr2 complex := amap (Cmul s) A.
(** real arrays *)
Definition radd (A B : arr2 R) : arr2 R := amap2 Rplus A B.
Definition rsub (A B : arr2 R) : arr2 R := amap2 Rminus A B.
Definition rmul (A B : arr2 R) : arr2 R := amap2 Rmult A B.
Definition rscal (s : R) (A : arr2 R) : arr2 R := amap (Rmult s) A.
Definition rneg (A : arr2 R) : arr2 R := amap Ropp A.
(** [A**2] *)
Definition rsq (A : arr2 R) : arr2 R := amap (fun x => x ^ 2) A.
(** [1./A] *)
Definition rinv (A : arr2 R) : arr2 R := amap (fun x => 1 / x) A.
(** [s - A], a scalar minus an array *)
Definition rsubl (s : R) (A : arr2 R) : arr2 R := amap (fun x => s - x) A.
(** promotion of a real array in a complex expression *)
Definition upcast (A : arr2 R) : arr2 complex := amap RtoC A.
(** [A == x] *)
Definition req (A : arr2 R) (x : R) : arr2 bool := amap (fun a => Reqb a x) A.
(** [M1 & M2] *)
Definition band (M1 M2 : arr2 bool) : arr2 bool := amap2 andb M1 M2.
(** [np.where(mask, x, A)] with a scalar [x] *)
Definition where_ {T} (mask : arr2 bool) (x : T) (A : arr2 T) : arr2 T :=
  amap2 (fun (b : bool) a => if b then x else a) mask A.
(** [A[mask] = x] *)
Definition mask_set {T} (A : arr2 T) (mask : arr2 bool) (x : T) : arr2 T :=
  amap2 (fun a (b : bool) => if b then x else a) A mask.
(** [dst[:,:] = src]: every cell of [dst] receives the cell of [src]. *)
Definition assign {T} (dst src : arr2 T) : arr2 T :=
  amap2 (fun _ s => s) dst src.
(** [dst[:,:] = x] with a scalar [x] *)
Definition fill {T} (dst : arr2 T) (x : T) : arr2 T := amap (fun _ => x) dst.
(** [np.zeros((nz, nr), dtype='complex')] *)
Definition zeros (nz nr : nat) : arr2 complex := afull nz nr (RtoC 0).
(** [A.sum()] of a real array *)
Definition rsum (A : arr2 R) : R :=
  foldr (fun row acc => foldr Rplus 0 row + acc) 0 A.

End Np.
Export Np.

Declare Scope np_scope.
Delimit Scope np_scope with np.
Infix "⊞" := cadd (at level 50, left associativity) : np_scope.
Infix "⊟" := csub (at level 50, left associativity) : np_scope.
Infix "⊠" := cmul (at level 40, left associativity) : np_scope.
Infix "⊡" := cscal (at level 40, left associativity) : np_scope.
Infix "⊕" := radd (at level 50, left associativity) : np_scope.
Infix "⊖" := rsub (at level 50, left associativity) : np_scope.
Infix "⊗" := rmul (at level 40, left associativity) : np_scope.
Infix "⊙" := rscal (at level 40, left associativity) : np_scope.
Notation "⇑ A" := (upcast A) (at level 35, right associativity) : np_scope.
Open Scope np_scope.

(** The complex literal [1.j] and a real literal in a complex product. *)
Notation "'1j'" := Ci.

(** ** Exceptions and mutable objects *)

Module Py.

Inductive exn : Type :=
| ValueError (msg : string)
| AssertionError
| ZeroDivisionError
| IndexError.

Inductive outcome (A : Type) : Type :=
| Return (a : A)
| Raise (e : exn).
Arguments Return {A} a.
Arguments Raise {A} e.

(** A method of an object of class [S]: the outcome of the call and the
    object as the call leaves it. *)
Definition M (S A : Type) : Type := S -> outcome A * S.

Definition ret {S A} (a : A) : M S A := fun s => (Return a, s).
Definition raise {S A} (e : exn) : M S A := fun s => (Raise e, s).
Definition bind {S A B} (m : M S A) (k : A -> M S B) : M S B :=
  fun s => match m s with
           | (Return a, s') => k a s'
           | (Raise e, s') => (Raise e, s')
           end.
Definition self {S} : M S S := fun s => (Return s, s).
Definition modify {S} (f : S -> S) : M S unit := fun s => (Return tt, f s).

(** The object after the call. *)
Definition exec {S A} (m : M S A) (s : S) : S := snd (m s).
(** Whether the call returned. *)
Definition returns {S A} (m : M S A) (s : S) : Prop :=
  exists a, fst (m s) = Return a.

(** [for i in l: body(i)] *)
Fixpoint for_each {S} (l : list nat) (body : nat -> M S unit) : M S unit :=
  match l with
  | [] => ret tt
  | i :: l' => bind (body i) (fun _ => for_each l' body)
  end.

(** [for i in range(n): body(i)] *)
Definition for_range {S} (n : nat) (body : nat -> M S unit) : M S unit :=
  for_each (seq 0 n) body.

(** The message of [raise ValueError('Invalid string for fieldtype: %s'
    %fieldtype)]. *)
Definition invalid_fieldtype (fieldtype : string) : exn :=
  ValueError ("Invalid string for fieldtype: " +:+ fieldtype).

End Py.
Export Py.

#[export] Instance outcome_ret : MRet outcome := fun A a => Return a.
#[export] Instance outcome_bind : MBind outcome :=
  fun A B k o => match o with Return a => k a | Raise e => Raise e end.

(** A statement that computes the new value of the object and may raise
    before it assigns. *)
Definition try_update {S} (f : S -> outcome S) : M S unit :=
  fun s => match f s with
           | Return s' => (Return tt, s')
           | Raise e => (Raise e, s)
           end.

#[export] Instance M_ret {S} : MRet (M S) := fun A a => ret a.
#[export] Instance M_bind {S} : MBind (M S) := fun A B k m => bind m k.

(** ** Physical constants

    [from scipy.constants import c, mu_0, epsilon_0]: the speed of light,
    the vacuum permeability and the vacuum permittivity are taken from
    the environment. *)

Class Constants : Type := {
  c : R;
  mu_0 : R;
  epsilon_0 : R
}.

(** More of numpy: functions applied to every cell. *)

Module NpFun.

(** [A * s], an array times a scalar on the right *)
Definition rscalr (A : arr2 R) (s : R) : arr2 R := amap (fun x => x * s) A.
Definition cscalr (A : arr2 complex) (s : complex) : arr2 complex :=
  amap (fun x => Cmul x s) A.
Definition np_sqrt (A : arr2 R) : arr2 R := amap sqrt A.
Definition np_cos (A : arr2 R) : arr2 R := amap cos A.
Definition np_sin (A : arr2 R) : arr2 R := amap sin A.

(** [np.meshgrid(kz, kr, indexing='ij')] *)
Definition meshgrid_ij (kz kr : list R) : arr2 R * arr2 R :=
  (fmap (M := list) (fun z => fmap (M := list) (fun _ => z) kr) kz,
   fmap (M := list) (fun _ => kr) kz).

(** [a.max()] of a 1-D array; numpy raises a ValueError on an empty one. *)
Definition np_max (a : list R) : outcome R :=
  match a with
  | [] => Raise (ValueError "zero-size array to reduction operation maximum which has no identity")
  | x :: a' => Return (foldl Rmax x a')
  end.

(** [u[:, np.newaxis] * v[np.newaxis, :]] *)
Definition outer (u v : list R) : arr2 R :=
  fmap (M := list) (fun x => fmap (M := list) (fun y => x * y) v) u.

End NpFun.
Export NpFun.

(** ** [get_filter_array] *)

Definition get_filter_array (kz kr : list R) : outcome (arr2 R) :=
  (* Find the 1D filter in z *)
  match np_max kz with
  | Raise e => Raise e
  | Return kz_max =>
    let coef_z := 1 / kz_max * PI / 2 in
    let filt_z := fmap (M := list) (fun k => 1 - sin (k * coef_z) ^ 2) kz in
    (* Find the 1D filter in r *)
    match np_max kr with
    | Raise e => Raise e
    | Return kr_max =>
      let coef_r := 1 / kr_max * PI / 2 in
      let filt_r := fmap (M := list) (fun k => 1 - sin (k * coef_r) ^ 2) kr in
      (* Build the 2D filter by taking the product *)
      Return (outer filt_z filt_r)
    end
  end.

(** ** class [PsatdCoeffs] *)

Module PsatdCoeffs.

Record t : Type := mk {
  m : nat;
  dt : R;
  C : arr2 R;
  S_w : arr2 R;
  j_coef : arr2 R;
  rho_prev_coef : arr2 R;
  rho_next_coef : arr2 R;
  Ep : arr2 complex;
  Em : arr2 complex;
  Ez : arr2 complex
}.

Definition set_Ep (v : arr2 complex) (g : t) : t :=
  mk (m g) (dt g) (C g) (S_w g) (j_coef g) (rho_prev_coef g) (rho_next_coef g) v (Em g) (Ez g).
Definition set_Em (v : arr2 complex) (g : t) : t :=
  mk (m g) (dt g) (C g) (S_w g) (j_coef g) (rho_prev_coef g) (rho_next_coef g) (Ep g) v (Ez g).
Definition set_Ez (v : arr2 complex) (g : t) : t :=
  mk (m g) (dt g) (C g) (S_w g) (j_coef g) (rho_prev_coef g) (rho_next_coef g) (Ep g) (Em g) v.

Section Init.
Context `{Constants}.

(** [PsatdCoeffs.__init__( self, kz, kr, m, dt, Nz, Nr )]; [kz] and [kr]
    are the 2-D meshes of the spectral grid. The denominator of [inv_w]
    is kept as a definition of its own: it is the only array the
    constructor divides by. *)
Definition omega (kz kr : arr2 R) : arr2 R :=
  c ⊙ np_sqrt (rsq kz ⊕ rsq kr).

Definition inv_w_denominator (w : arr2 R) : arr2 R :=
  where_ (req w 0) 1 w.

Definition init (kz kr : arr2 R) (m : nat) (dt : R) (Nz Nr : nat)
  : outcome t :=
  (* Construct the omega and inverse omega array *)
  let w := omega kz kr in
  let inv_w := rinv (inv_w_denominator w) in
  (* Construct the C coefficient arrays *)
  let C := np_cos (rscalr w dt) in
  (* Construct the S/w coefficient arrays *)
  let S_w := np_sin (rscalr w dt) ⊗ inv_w in
  let S_w := mask_set S_w (req w 0) dt in
  (* Construct the mu0 c2 (1-C)/w2 array *)
  let j_coef := (mu_0 * c ^ 2) ⊙ rsubl 1 C ⊗ rsq inv_w in
  let j_coef := mask_set j_coef (req w 0) (mu_0 * c ^ 2 * (0.5 * dt ^ 2)) in
  (* Construct rho_prev coefficient array *)
  if Reqb dt 0 then Raise ZeroDivisionError else
  let inv_dt := 1 / dt in
  let rho_prev_coef :=
    (c ^ 2 / epsilon_0) ⊙ (C ⊖ inv_dt ⊙ S_w) ⊗ rsq inv_w in
  let rho_prev_coef :=
    mask_set rho_prev_coef (req w 0) (c ^ 2 / epsilon_0 * (- 1 / 3 * dt ^ 2)) in
  (* Construct rho_next coefficient array *)
  let rho_next_coef :=
    (c ^ 2 / epsilon_0) ⊙ rsubl 1 (inv_dt ⊙ S_w) ⊗ rsq inv_w in
  let rho_next_coef :=
    mask_set rho_next_coef (req w 0) (c ^ 2 / epsilon_0 * (1 / 6 * dt ^ 2)) in
  (* Allocate useful auxiliary matrices *)
  Return (mk m dt C S_w j_coef rho_prev_coef rho_next_coef
             (zeros Nz Nr) (zeros Nz Nr) (zeros Nz Nr)).

(** The coefficient arrays of [ps] are the ones the constructor computes
    for the meshes [kz], [kr] and the time step [dt]; the scratch arrays,
    which [push_eb_with] overwrites, have the shape of the grid. *)
Definition built_for (kz kr : arr2 R) (m0 : nat) (dt0 : R) (Nz Nr : nat)
    (ps : t) : Prop :=
  exists ps0,
    init kz kr m0 dt0 Nz Nr = Return ps0 /\
    m ps = m ps0 /\ dt ps = dt ps0 /\ C ps = C ps0 /\ S_w ps = S_w ps0 /\
    j_coef ps = j_coef ps0 /\ rho_prev_coef ps = rho_prev_coef ps0 /\
    rho_next_coef ps = rho_next_coef ps0 /\
    shaped Nz Nr (Ep ps) /\ shaped Nz Nr (Em ps) /\ shaped Nz Nr (Ez ps).

End Init.

End PsatdCoeffs.

(** ** class [SpectralGrid] *)

Module SpectralGrid.

Record t : Type := mk {
  Nr : nat;
  Nz : nat;
  m : nat;
  kz : arr2 R;
  kr : arr2 R;
  Ep : arr2 complex;
  Em : arr2 complex;
  Ez : arr2 complex;
  Bp : arr2 complex;
  Bm : arr2 complex;
  Bz : arr2 complex;
  Jp : arr2 complex;
  Jm : arr2 complex;
  Jz : arr2 complex;
  rho_prev : arr2 complex;
  rho_next : arr2 complex;
  F : arr2 complex;
  inv_k2 : arr2 R;
  filter_array : arr2 R
}.

Definition set_Ep (v : arr2 complex) (g : t) : t :=
  mk (Nr g) (Nz g) (m g) (kz g) (kr g) v (Em g) (Ez g) (Bp g) (Bm g) (Bz g) (Jp g) (Jm g) (Jz g) (rho_prev g) (rho_next g) (F g) (inv_k2 g) (filter_array g).
Definition set_Em (v : arr2 complex) (g : t) : t :=
  mk (Nr g) (Nz g) (m g) (kz g) (kr g) (Ep g) v (Ez g) (Bp g) (Bm g) (Bz g) (Jp g) (Jm g) (Jz g) (rho_prev g) (rho_next g) (F g) (inv_k2 g) (filter_array g).
Definition set_Ez (v : arr2 complex) (g : t) : t :=
  mk (Nr g) (Nz g) (m g) (kz g) (kr g) (Ep g) (Em g) v (Bp g) (Bm g) (Bz g) (Jp g) (Jm g) (Jz g) (rho_prev g) (rho_next g) (F g) (inv_k2 g) (filter_array g).
Definition set_Bp (v : arr2 complex) (g : t) : t :=
  mk (Nr g) (Nz g) (m g) (kz g) (kr g) (Ep g) (Em g) (Ez g) v (Bm g) (Bz g) (Jp g) (Jm g) (Jz g) (rho_prev g) (rho_next g) (F g) (inv_k2 g) (filter_array g).
Definition set_Bm (v : arr2 complex) (g : t) : t :=
  mk (Nr g) (Nz g) (m g) (kz g) (kr g) (Ep g) (Em g) (Ez g) (Bp g) v (Bz g) (Jp g) (Jm g) (Jz g) (rho_prev g) (rho_next g) (F g) (inv_k2 g) (filter_array g).
Definition set_Bz (v : arr2 complex) (g : t) : t :=
  mk (Nr g) (Nz g) (m g) (kz g) (kr g) (Ep g) (Em g) (Ez g) (Bp g) (Bm g) v (Jp g) (Jm g) (Jz g) (rho_prev g) (rho_next g) (F g) (inv_k2 g) (filter_array g).
Definition set_Jp (v : arr2 complex) (g : t) : t :=
  mk (Nr g) (Nz g) (m g) (kz g) (kr g) (Ep g) (Em g) (Ez g) (Bp g) (Bm g) (Bz g) v (Jm g) (Jz g) (rho_prev g) (rho_next g) (F g) (inv_k2 g) (filter_array g).
Definition set_Jm (v : arr2 complex) (g : t) : t :=
  mk (Nr g) (Nz g) (m g) (kz g) (kr g) (Ep g) (Em g) (Ez g) (Bp g) (Bm g) (Bz g) (Jp g) v (Jz g) (rho_prev g) (rho_next g) (F g) (inv_k2 g) (filter_array g).
Definition set_Jz (v : arr2 complex) (g : t) : t :=
  mk (Nr g) (Nz g) (m g) (kz g) (kr g) (Ep g) (Em g) (Ez g) (Bp g) (Bm g) (Bz g) (Jp g) (Jm g) v (rho_prev g) (rho_next g) (F g) (inv_k2 g) (filter_array g).
Definition set_rho_prev (v : arr2 complex) (g : t) : t :=
  mk (Nr g) (Nz g) (m g) (kz g) (kr g) (Ep g) (Em g) (Ez g) (Bp g) (Bm g) (Bz g) (Jp g) (Jm g) (Jz g) v (rho_next g) (F g) (inv_k2 g) (filter_array g).
Definition set_rho_next (v : arr2 complex) (g : t) : t :=
  mk (Nr g) (Nz g) (m g) (kz g) (kr g) (Ep g) (Em g) (Ez g) (Bp g) (Bm g) (Bz g) (Jp g) (Jm g) (Jz g) (rho_prev g) v (F g) (inv_k2 g) (filter_array g).
Definition set_F (v : arr2 complex) (g : t) : t :=
  mk (Nr g) (Nz g) (m g) (kz g) (kr g) (Ep g) (Em g) (Ez g) (Bp g) (Bm g) (Bz g) (Jp g) (Jm g) (Jz g) (rho_prev g) (rho_next g) v (inv_k2 g) (filter_array g).

(** The two lines of [__init__] that build [inv_k2]:
    [1./np.where((kz == 0) & (kr == 0), 1., kz**2 + kr**2)], then
    [inv_k2[(kz == 0) & (kr == 0)] = 0.] *)
Definition inv_k2_denominator (kz kr : arr2 R) : arr2 R :=
  where_ (band (req kz 0) (req kr 0)) 1 (rsq kz ⊕ rsq kr).

Definition make_inv_k2 (kz kr : arr2 R) : arr2 R :=
  let inv_k2 := rinv (inv_k2_denominator kz kr) in
  (* No correction for k=0 *)
  mask_set inv_k2 (band (req kz 0) (req kr 0)) 0.

(** [SpectralGrid.__init__(self, kz, kr, m)] from the 1-D arrays [kz] and
    [kr]. *)
Definition init (kz kr : list R) (m : nat) : outcome t :=
  (* Register the arrays and their length *)
  let Nz := length kz in
  let Nr := length kr in
  let '(kz2, kr2) := meshgrid_ij kz kr in
  (* Allocate the fields arrays *)
  let Z := zeros Nz Nr in
  (* Auxiliary arrays *)
  let inv_k2 := make_inv_k2 kz2 kr2 in
  match get_filter_array kz kr with
  | Raise e => Raise e
  | Return filter_array =>
    Return (mk Nr Nz m kz2 kr2 Z Z Z Z Z Z Z Z Z Z Z Z inv_k2 filter_array)
  end.

(** [SpectralGrid.correct_currents(self, dt)] *)
Definition correct_currents (dt : R) : M t unit :=
  (* Precalculate useful coefficient *)
  if Reqb dt 0 then raise ZeroDivisionError else
  let inv_dt := 1 / dt in
  (* Calculate the intermediate variable F *)
  modify (fun g =>
    set_F (assign (F g)
      (⇑(rneg (inv_k2 g)) ⊠
         (cscalr (rho_next g ⊟ rho_prev g) (RtoC inv_dt)
          ⊞ 1j ⊡ ⇑(kz g) ⊠ Jz g
          ⊞ ⇑(kr g) ⊠ (Jp g ⊟ Jm g)))) g) ;;
  (* Correct the current accordingly *)
  modify (fun g => set_Jp (Jp g ⊞ ⇑(0.5 ⊙ kr g) ⊠ F g) g) ;;
  modify (fun g => set_Jm (Jm g ⊞ ⇑((- 0.5) ⊙ kr g) ⊠ F g) g) ;;
  modify (fun g => set_Jz (Jz g ⊞ (Copp 1j) ⊡ ⇑(kz g) ⊠ F g) g).

(** The left-hand side of the continuity equation, as an array:
    [(rho_next - rho_prev)/dt + i kz Jz + kr (Jp - Jm)]. *)
Definition continuity_residual (dt : R) (g : t) : arr2 complex :=
  cscalr (rho_next g ⊟ rho_prev g) (RtoC (1 / dt))
  ⊞ 1j ⊡ ⇑(kz g) ⊠ Jz g
  ⊞ ⇑(kr g) ⊠ (Jp g ⊟ Jm g).

(** [SpectralGrid.push_rho(self)] *)
Definition push_rho : M t unit :=
  modify (fun g => set_rho_prev (assign (rho_prev g) (rho_next g)) g) ;;
  modify (fun g => set_rho_next (fill (rho_next g) (RtoC 0)) g).

(** [SpectralGrid.filter(self, fieldtype)] *)
Definition filter (fieldtype : string) : M t unit :=
  if decide (fieldtype = "rho_prev") then
    modify (fun g => set_rho_prev (rho_prev g ⊠ ⇑(filter_array g)) g)
  else if decide (fieldtype = "rho_next") then
    modify (fun g => set_rho_next (rho_next g ⊠ ⇑(filter_array g)) g)
  else if decide (fieldtype = "J") then
    modify (fun g => set_Jp (Jp g ⊠ ⇑(filter_array g)) g) ;;
    modify (fun g => set_Jm (Jm g ⊠ ⇑(filter_array g)) g) ;;
    modify (fun g => set_Jz (Jz g ⊠ ⇑(filter_array g)) g)
  else if decide (fieldtype = "E") then
    modify (fun g => set_Ep (Ep g ⊠ ⇑(filter_array g)) g) ;;
    modify (fun g => set_Em (Em g ⊠ ⇑(filter_array g)) g) ;;
    modify (fun g => set_Ez (Ez g ⊠ ⇑(filter_array g)) g)
  else if decide (fieldtype = "B") then
    modify (fun g => set_Bp (Bp g ⊠ ⇑(filter_array g)) g) ;;
    modify (fun g => set_Bm (Bm g ⊠ ⇑(filter_array g)) g) ;;
    modify (fun g => set_Bz (Bz g ⊠ ⇑(filter_array g)) g)
  else raise (invalid_fieldtype fieldtype).

Section Push.
Context `{Constants}.

Abbreviation state := (t * PsatdCoeffs.t)%type.

Definition on_grid (f : t -> PsatdCoeffs.t -> t) : M state unit :=
  modify (fun s : state => (f (fst s) (snd s), snd s)).
Definition on_coeffs (f : t -> PsatdCoeffs.t -> PsatdCoeffs.t) : M state unit :=
  modify (fun s : state => (fst s, f (fst s) (snd s))).

(** [SpectralGrid.push_eb_with(self, ps, ptcl_feedback, use_true_rho)];
    the call mutates the grid and the scratch arrays of [ps]. *)
Definition push_eb_with (ptcl_feedback use_true_rho : bool) : M state unit :=
  s0 ← self;
  (* Check that psatd object passed as argument is the right one *)
  if negb (m (fst s0) =? PsatdCoeffs.m (snd s0))%nat then raise AssertionError
  else
  (* Define a few constants *)
  let i := 1j in
  let c2 := c ^ 2 in
  (* Save the electric fields, since it is needed for the B push *)
  on_coeffs (fun g ps =>
    PsatdCoeffs.set_Ep (assign (PsatdCoeffs.Ep ps) (Ep g)) ps) ;;
  on_coeffs (fun g ps =>
    PsatdCoeffs.set_Em (assign (PsatdCoeffs.Em ps) (Em g)) ps) ;;
  on_coeffs (fun g ps =>
    PsatdCoeffs.set_Ez (assign (PsatdCoeffs.Ez ps) (Ez g)) ps) ;;
  if ptcl_feedback then
    (* With particle feedback *)
    s ← self;
    let g := fst s in
    let ps := snd s in
    (* Calculate useful auxiliary arrays *)
    let rho_diff :=
      if use_true_rho then
        (* Evaluation using the rho projected on the grid *)
        ⇑(PsatdCoeffs.rho_next_coef ps) ⊠ rho_next g
        ⊟ ⇑(PsatdCoeffs.rho_prev_coef ps) ⊠ rho_prev g
      else
        (* Evaluation using div(E) and div(J) *)
        ⇑(rscalr (PsatdCoeffs.rho_next_coef ps ⊖ PsatdCoeffs.rho_prev_coef ps)
            epsilon_0)
          ⊠ (⇑(kr g) ⊠ Ep g ⊟ ⇑(kr g) ⊠ Em g ⊞ i ⊡ ⇑(kz g) ⊠ Ez g)
        ⊟ ⇑(rscalr (PsatdCoeffs.rho_next_coef ps) (PsatdCoeffs.dt ps))
          ⊠ (⇑(kr g) ⊠ Jp g ⊟ ⇑(kr g) ⊠ Jm g ⊞ i ⊡ ⇑(kz g) ⊠ Jz g) in
    (* Push the E field *)
    on_grid (fun g ps => set_Ep (assign (Ep g)
      (⇑(PsatdCoeffs.C ps) ⊠ Ep g ⊞ ⇑(0.5 ⊙ kr g) ⊠ rho_diff
       ⊞ ⇑(c2 ⊙ PsatdCoeffs.S_w ps)
         ⊠ ((Copp i * RtoC 0.5)%cx ⊡ ⇑(kr g) ⊠ Bz g ⊞ ⇑(kz g) ⊠ Bp g
            ⊟ RtoC mu_0 ⊡ Jp g))) g) ;;
    on_grid (fun g ps => set_Em (assign (Em g)
      (⇑(PsatdCoeffs.C ps) ⊠ Em g ⊟ ⇑(0.5 ⊙ kr g) ⊠ rho_diff
       ⊞ ⇑(c2 ⊙ PsatdCoeffs.S_w ps)
         ⊠ ((Copp i * RtoC 0.5)%cx ⊡ ⇑(kr g) ⊠ Bz g ⊟ ⇑(kz g) ⊠ Bm g
            ⊟ RtoC mu_0 ⊡ Jm g))) g) ;;
    on_grid (fun g ps => set_Ez (assign (Ez g)
      (⇑(PsatdCoeffs.C ps) ⊠ Ez g ⊟ i ⊡ ⇑(kz g) ⊠ rho_diff
       ⊞ ⇑(c2 ⊙ PsatdCoeffs.S_w ps)
         ⊠ (i ⊡ ⇑(kr g) ⊠ Bp g ⊞ i ⊡ ⇑(kr g) ⊠ Bm g
            ⊟ RtoC mu_0 ⊡ Jz g))) g) ;;
    (* Push the B field *)
    on_grid (fun g ps => set_Bp (assign (Bp g)
      (⇑(PsatdCoeffs.C ps) ⊠ Bp g
       ⊟ ⇑(PsatdCoeffs.S_w ps)
         ⊠ ((Copp i * RtoC 0.5)%cx ⊡ ⇑(kr g) ⊠ PsatdCoeffs.Ez ps
            ⊞ ⇑(kz g) ⊠ PsatdCoeffs.Ep ps)
       ⊞ ⇑(PsatdCoeffs.j_coef ps)
         ⊠ ((Copp i * RtoC 0.5)%cx ⊡ ⇑(kr g) ⊠ Jz g ⊞ ⇑(kz g) ⊠ Jp g))) g) ;;
    on_grid (fun g ps => set_Bm (assign (Bm g)
      (⇑(PsatdCoeffs.C ps) ⊠ Bm g
       ⊟ ⇑(PsatdCoeffs.S_w ps)
         ⊠ ((Copp i * RtoC 0.5)%cx ⊡ ⇑(kr g) ⊠ PsatdCoeffs.Ez ps
            ⊟ ⇑(kz g) ⊠ PsatdCoeffs.Em ps)
       ⊞ ⇑(PsatdCoeffs.j_coef ps)
         ⊠ ((Copp i * RtoC 0.5)%cx ⊡ ⇑(kr g) ⊠ Jz g ⊟ ⇑(kz g) ⊠ Jm g))) g) ;;
    on_grid (fun g ps => set_Bz (assign (Bz g)
      (⇑(PsatdCoeffs.C ps) ⊠ Bz g
       ⊟ ⇑(PsatdCoeffs.S_w ps)
         ⊠ (i ⊡ ⇑(kr g) ⊠ PsatdCoeffs.Ep ps ⊞ i ⊡ ⇑(kr g) ⊠ PsatdCoeffs.Em ps)
       ⊞ ⇑(PsatdCoeffs.j_coef ps)
         ⊠ (i ⊡ ⇑(kr g) ⊠ Jp g ⊞ i ⊡ ⇑(kr g) ⊠ Jm g))) g)
  else
    (* Without particle feedback *)
    (* Push the E field *)
    on_grid (fun g ps => set_Ep (assign (Ep g)
      (⇑(PsatdCoeffs.C ps) ⊠ Ep g
       ⊞ ⇑(c2 ⊙ PsatdCoeffs.S_w ps)
         ⊠ ((Copp i * RtoC 0.5)%cx ⊡ ⇑(kr g) ⊠ Bz g ⊞ ⇑(kz g) ⊠ Bp g))) g) ;;
    on_grid (fun g ps => set_Em (assign (Em g)
      (⇑(PsatdCoeffs.C ps) ⊠ Em g
       ⊞ ⇑(c2 ⊙ PsatdCoeffs.S_w ps)
         ⊠ ((Copp i * RtoC 0.5)%cx ⊡ ⇑(kr g) ⊠ Bz g ⊟ ⇑(kz g) ⊠ Bm g))) g) ;;
    on_grid (fun g ps => set_Ez (assign (Ez g)
      (⇑(PsatdCoeffs.C ps) ⊠ Ez g
       ⊞ ⇑(c2 ⊙ PsatdCoeffs.S_w ps)
         ⊠ (i ⊡ ⇑(kr g) ⊠ Bp g ⊞ i ⊡ ⇑(kr g) ⊠ Bm g))) g) ;;
    (* Push the B field *)
    on_grid (fun g ps => set_Bp (assign (Bp g)
      (⇑(PsatdCoeffs.C ps) ⊠ Bp g
       ⊟ ⇑(PsatdCoeffs.S_w ps)
         ⊠ ((Copp i * RtoC 0.5)%cx ⊡ ⇑(kr g) ⊠ PsatdCoeffs.Ez ps
            ⊞ ⇑(kz g) ⊠ PsatdCoeffs.Ep ps))) g) ;;
    on_grid (fun g ps => set_Bm (assign (Bm g)
      (⇑(PsatdCoeffs.C ps) ⊠ Bm g
       ⊟ ⇑(PsatdCoeffs.S_w ps)
         ⊠ ((Copp i * RtoC 0.5)%cx ⊡ ⇑(kr g) ⊠ PsatdCoeffs.Ez ps
            ⊟ ⇑(kz g) ⊠ PsatdCoeffs.Em ps))) g) ;;
    on_grid (fun g ps => set_Bz (assign (Bz g)
      (⇑(PsatdCoeffs.C ps) ⊠ Bz g
       ⊟ ⇑(PsatdCoeffs.S_w ps)
         ⊠ (i ⊡ ⇑(kr g) ⊠ PsatdCoeffs.Ep ps
            ⊞ i ⊡ ⇑(kr g) ⊠ PsatdCoeffs.Em ps))) g).

End Push.

(** Every array of the grid has the shape [(Nz, Nr)] the constructor
    allocates. *)
Definition well_shaped (g : t) : Prop :=
  shaped (Nz g) (Nr g) (kz g) /\ shaped (Nz g) (Nr g) (kr g) /\
  shaped (Nz g) (Nr g) (Ep g) /\ shaped (Nz g) (Nr g) (Em g) /\
  shaped (Nz g) (Nr g) (Ez g) /\ shaped (Nz g) (Nr g) (Bp g) /\
  shaped (Nz g) (Nr g) (Bm g) /\ shaped (Nz g) (Nr g) (Bz g) /\
  shaped (Nz g) (Nr g) (Jp g) /\ shaped (Nz g) (Nr g) (Jm g) /\
  shaped (Nz g) (Nr g) (Jz g) /\ shaped (Nz g) (Nr g) (rho_prev g) /\
  shaped (Nz g) (Nr g) (rho_next g) /\ shaped (Nz g) (Nr g) (F g) /\
  shaped (Nz g) (Nr g) (inv_k2 g) /\ shaped (Nz g) (Nr g) (filter_array g).

(** What the constructor establishes and no method changes: the shapes,
    and [inv_k2] as computed from the meshes [kz] and [kr]. *)
Definition invariant (g : t) : Prop :=
  well_shaped g /\ inv_k2 g = make_inv_k2 (kz g) (kr g).

End SpectralGrid.

(** ** Python indices and slices *)

Module Slice.

Section Slice.
Context {T : Type}.

(** The bound of a slice, brought into [0 .. n]: a negative bound counts
    from the end. *)
Definition bound (n : nat) (i : Z) : nat :=
  Z.to_nat (if (i <? 0)%Z then Z.max 0 (Z.of_nat n + i)
            else Z.min i (Z.of_nat n)).

(** [l[start:stop]]; [stop = None] is an omitted bound, [l[start:]]. *)
Definition slice (start : Z) (stop : option Z) (l : list T) : list T :=
  let a := bound (length l) start in
  let b := match stop with
           | Some s => bound (length l) s
           | None => length l
           end in
  take (b - a) (drop a l).

(** [l[i]]; [None] is Python's IndexError. *)
Definition index (i : Z) (l : list T) : option T :=
  if (i <? 0)%Z then
    if (Z.of_nat (length l) + i <? 0)%Z then None
    else l !! Z.to_nat (Z.of_nat (length l) + i)
  else l !! Z.to_nat i.

(** [l[start:stop] = v] for a [v] of the length of the slice. *)
Definition set_slice (start : Z) (stop : option Z) (l v : list T) : list T :=
  let a := bound (length l) start in
  let b := match stop with
           | Some s => bound (length l) s
           | None => length l
           end in
  take a l ++ v ++ drop (Nat.max a b) l.

(** [l[i] = x] *)
Definition set_index (i : Z) (x : T) (l : list T) : option (list T) :=
  if (i <? 0)%Z then
    if (Z.of_nat (length l) + i <? 0)%Z then None
    else if (Z.to_nat (Z.of_nat (length l) + i) <? length l)%nat
         then Some (<[Z.to_nat (Z.of_nat (length l) + i) := x]> l)
         else None
  else if (Z.to_nat i <? length l)%nat then Some (<[Z.to_nat i := x]> l)
       else None.

(** The same along the second axis of a 2-D array, row by row:
    [A[:, start:stop]], [A[:, j]], [A[:, start:stop] = V] and
    [A[:, j] = v]. An index out of range raises an IndexError. *)
Definition cols (start : Z) (stop : option Z) (A : arr2 T) : arr2 T :=
  fmap (M := list) (slice start stop) A.

Definition col (j : Z) (A : arr2 T) : outcome (list T) :=
  match mapM (index j) A with
  | Some v => Return v
  | None => Raise IndexError
  end.

Definition set_cols (start : Z) (stop : option Z) (A V : arr2 T) : arr2 T :=
  zip_with (set_slice start stop) A V.

Definition set_col (j : Z) (v : list T) (A : arr2 T) : outcome (arr2 T) :=
  match mapM (fun rx => set_index j (snd rx) (fst rx)) (zip A v) with
  | Some A' => Return A'
  | None => Raise IndexError
  end.

End Slice.

(** Along the first axis: [A[i, :]] and [A[i, :] = row]. *)
Definition row {T} (i : Z) (A : arr2 T) : outcome (list T) :=
  match index i A with
  | Some r => Return r
  | None => Raise IndexError
  end.

Definition set_row {T} (i : Z) (r : list T) (A : arr2 T) : outcome (arr2 T) :=
  match index i A with
  | Some old =>
      match set_index i (zip_with (fun _ x => x) old r) A with
      | Some A' => Return A'
      | None => Raise IndexError
      end
  | None => Raise IndexError
  end.

(** 1-D complex arrays: [s*u] and [u + v]. *)
Definition vscal (s : complex) (u : list complex) : list complex :=
  fmap (M := list) (Cmul s) u.
Definition vadd (u v : list complex) : list complex := zip_with Cadd u v.

End Slice.

(** ** [binomial_filter] *)

(** [binomial_filter( F, direction, sign_guard )]: the array [F] is
    filtered in place. The copy [F_unfiltered] is the array before the
    call. An array with no row raises no IndexError here, where numpy
    still checks the second axis. *)
Definition binomial_filter (direction : string) (sign_guard : Z)
  : M (arr2 complex) unit :=
  F_unfiltered ← (self : M (arr2 complex) (arr2 complex));
  if decide (direction = "z") then
    (* Periodic boundaries *)
    modify (fun F => Slice.set_slice 1 (Some (-1)%Z) F
      (RtoC 0.25 ⊡ Slice.slice 0 (Some (-2)%Z) F_unfiltered
       ⊞ RtoC 0.5 ⊡ Slice.slice 1 (Some (-1)%Z) F_unfiltered
       ⊞ RtoC 0.25 ⊡ Slice.slice 2 None F_unfiltered)) ;;
    try_update (fun F =>
      rl ← Slice.row (-1) F_unfiltered;
      r0 ← Slice.row 0 F_unfiltered;
      r1 ← Slice.row 1 F_unfiltered;
      Slice.set_row 0
        (Slice.vadd (Slice.vadd (Slice.vscal (RtoC 0.25) rl)
                       (Slice.vscal (RtoC 0.5) r0))
           (Slice.vscal (RtoC 0.25) r1)) F) ;;
    try_update (fun F =>
      rl2 ← Slice.row (-2) F_unfiltered;
      rl ← Slice.row (-1) F_unfiltered;
      r0 ← Slice.row 0 F_unfiltered;
      Slice.set_row (-1)
        (Slice.vadd (Slice.vadd (Slice.vscal (RtoC 0.25) rl2)
                       (Slice.vscal (RtoC 0.5) rl))
           (Slice.vscal (RtoC 0.25) r0)) F)
  else if decide (direction = "r") then
    (* Non-periodic boundaries *)
    modify (fun F => Slice.set_cols 1 (Some (-1)%Z) F
      (RtoC 0.25 ⊡ Slice.cols 0 (Some (-2)%Z) F_unfiltered
       ⊞ RtoC 0.5 ⊡ Slice.cols 1 (Some (-1)%Z) F_unfiltered
       ⊞ RtoC 0.25 ⊡ Slice.cols 2 None F_unfiltered)) ;;
    (* Assume that the guard cell below the axis has the same value as
       the cell above the axis, up to the sign sign_guard *)
    try_update (fun F =>
      c0 ← Slice.col 0 F_unfiltered;
      c1 ← Slice.col 1 F_unfiltered;
      Slice.set_col 0
        (Slice.vadd (Slice.vadd
           (Slice.vscal (RtoC (0.25 * IZR sign_guard)) c0)
           (Slice.vscal (RtoC 0.5) c0))
           (Slice.vscal (RtoC 0.5) c1)) F) ;;
    (* Assume that the guard cell above the boundary has the same value
       as the cell below it *)
    try_update (fun F =>
      cl ← Slice.col (-1) F_unfiltered;
      cl2 ← Slice.col (-2) F_unfiltered;
      Slice.set_col (-1)
        (Slice.vadd (Slice.vadd (Slice.vscal (RtoC 0.25) cl)
                       (Slice.vscal (RtoC 0.5) cl))
           (Slice.vscal (RtoC 0.25) cl2)) F)
  else raise (ValueError ("Unrecognized `direction` : " +:+ direction)).

(** ** class [InterpolationGrid] *)

Module InterpolationGrid.

Record t : Type := mk {
  Nz : nat;
  z : list R;
  Nr : nat;
  r : list R;
  m : nat;
  dr : R;
  dz : R;
  invvol : list R;
  Er : arr2 complex;
  Et : arr2 complex;
  Ez : arr2 complex;
  Br : arr2 complex;
  Bt : arr2 complex;
  Bz : arr2 complex;
  Jr : arr2 complex;
  Jt : arr2 complex;
  Jz : arr2 complex;
  rho : arr2 complex
}.

Definition set_Er (v : arr2 complex) (g : t) : t :=
  mk (Nz g) (z g) (Nr g) (r g) (m g) (dr g) (dz g) (invvol g) v (Et g) (Ez g) (Br g) (Bt g) (Bz g) (Jr g) (Jt g) (Jz g) (rho g).
Definition set_Et (v : arr2 complex) (g : t) : t :=
  mk (Nz g) (z g) (Nr g) (r g) (m g) (dr g) (dz g) (invvol g) (Er g) v (Ez g) (Br g) (Bt g) (Bz g) (Jr g) (Jt g) (Jz g) (rho g).
Definition set_Ez (v : arr2 complex) (g : t) : t :=
  mk (Nz g) (z g) (Nr g) (r g) (m g) (dr g) (dz g) (invvol g) (Er g) (Et g) v (Br g) (Bt g) (Bz g) (Jr g) (Jt g) (Jz g) (rho g).
Definition set_Br (v : arr2 complex) (g : t) : t :=
  mk (Nz g) (z g) (Nr g) (r g) (m g) (dr g) (dz g) (invvol g) (Er g) (Et g) (Ez g) v (Bt g) (Bz g) (Jr g) (Jt g) (Jz g) (rho g).
Definition set_Bt (v : arr2 complex) (g : t) : t :=
  mk (Nz g) (z g) (Nr g) (r g) (m g) (dr g) (dz g) (invvol g) (Er g) (Et g) (Ez g) (Br g) v (Bz g) (Jr g) (Jt g) (Jz g) (rho g).
Definition set_Bz (v : arr2 complex) (g : t) : t :=
  mk (Nz g) (z g) (Nr g) (r g) (m g) (dr g) (dz g) (invvol g) (Er g) (Et g) (Ez g) (Br g) (Bt g) v (Jr g) (Jt g) (Jz g) (rho g).
Definition set_Jr (v : arr2 complex) (g : t) : t :=
  mk (Nz g) (z g) (Nr g) (r g) (m g) (dr g) (dz g) (invvol g) (Er g) (Et g) (Ez g) (Br g) (Bt g) (Bz g) v (Jt g) (Jz g) (rho g).
Definition set_Jt (v : arr2 complex) (g : t) : t :=
  mk (Nz g) (z g) (Nr g) (r g) (m g) (dr g) (dz g) (invvol g) (Er g) (Et g) (Ez g) (Br g) (Bt g) (Bz g) (Jr g) v (Jz g) (rho g).
Definition set_Jz (v : arr2 complex) (g : t) : t :=
  mk (Nz g) (z g) (Nr g) (r g) (m g) (dr g) (dz g) (invvol g) (Er g) (Et g) (Ez g) (Br g) (Bt g) (Bz g) (Jr g) (Jt g) v (rho g).
Definition set_rho (v : arr2 complex) (g : t) : t :=
  mk (Nz g) (z g) (Nr g) (r g) (m g) (dr g) (dz g) (invvol g) (Er g) (Et g) (Ez g) (Br g) (Bt g) (Bz g) (Jr g) (Jt g) (Jz g) v.

(** [InterpolationGrid.__init__(self, z, r, m)]. [r[1]] and [z[1]]
    raise an IndexError on an array with fewer than two points, the
    radial one first. The attributes [invdr], [invdz], [rmin], [rmax],
    [zmin] and [zmax], which only [show] reads, are not part of the
    record. Where a cell volume is 0, numpy stores [inf] in [invvol];
    the real numbers have no such value, and nothing is stated about
    those cells. *)
Definition init (z r : list R) (m : nat) : outcome t :=
  let Nz := length z in
  let Nr := length r in
  match r !! 1%nat, r !! 0%nat with
  | Some r1, Some r0 =>
      let dr := r1 - r0 in
      match z !! 1%nat, z !! 0%nat with
      | Some z1, Some z0 =>
          let dz := z1 - z0 in
          (* Cell volume (assuming an evenly-spaced grid) *)
          let vol :=
            fmap (M := list)
              (fun rj => PI * dz * ((rj + 0.5 * dr) ^ 2 - (rj - 0.5 * dr) ^ 2))
              r in
          Return
            (mk Nz z Nr r m dr dz (fmap (M := list) (fun v => 1 / v) vol)
               (zeros Nz Nr) (zeros Nz Nr) (zeros Nz Nr)
               (zeros Nz Nr) (zeros Nz Nr) (zeros Nz Nr)
               (zeros Nz Nr) (zeros Nz Nr) (zeros Nz Nr)
               (zeros Nz Nr))
      | _, _ => Raise IndexError
      end
  | _, _ => Raise IndexError
  end.

(** A function that mutates the array passed to it, called on an
    attribute of the object. *)
Definition on_array {A} (get : t -> arr2 complex)
    (set : arr2 complex -> t -> t) (act : M (arr2 complex) A) : M t A :=
  fun g => (fst (act (get g)), set (snd (act (get g))) g).

(** [InterpolationGrid.filter(self, fieldtype, direction)] *)
Definition filter (fieldtype direction : string) : M t unit :=
  g ← (self : M t t);
  let sign := ((-1) ^ Z.of_nat (m g))%Z in
  if decide (fieldtype = "rho") then
    on_array rho set_rho (binomial_filter direction sign)
  else if decide (fieldtype = "J") then
    on_array Jr set_Jr (binomial_filter direction (- sign)) ;;
    on_array Jt set_Jt (binomial_filter direction (- sign)) ;;
    on_array Jz set_Jz (binomial_filter direction sign)
  else if decide (fieldtype = "E") then
    on_array Er set_Er (binomial_filter direction (- sign)) ;;
    on_array Et set_Et (binomial_filter direction (- sign)) ;;
    on_array Ez set_Ez (binomial_filter direction sign)
  else if decide (fieldtype = "B") then
    on_array Br set_Br (binomial_filter direction (- sign)) ;;
    on_array Bt set_Bt (binomial_filter direction (- sign)) ;;
    on_array Bz set_Bz (binomial_filter direction sign)
  else raise (invalid_fieldtype fieldtype).

(** The value of the filtered field on the axis as the specification
    words it: the guard cell [sign * F[:,0]] and the stencil
    (1/4, 1/2, 1/4). *)
Definition claimed_axis_value (sign : Z) (F0 F1 : complex) : complex :=
  (RtoC (0.25 * IZR sign) * F0 + RtoC 0.5 * F0 + RtoC 0.25 * F1)%cx.

End InterpolationGrid.

(** ** class [SpectralTransformer] *)

(** The discrete Hankel transform of [fbpic.hankel_dt] is not part of
    this file. A [DHT] object is taken as a pair of operators on 2-D
    arrays: [transform(F, G)] writes [transform F] into [G] and
    [inverse_transform(F, G)] writes [inverse_transform F] into [G]. *)
Record DHT : Type := {
  transform : arr2 complex -> arr2 complex;
  inverse_transform : arr2 complex -> arr2 complex
}.

Module SpectralTransformer.

(** A [pyfftw.FFTW] plan is taken as the operator it applies along the
    axis 0, from its input buffer to its output buffer: [fft_r] and
    [fft_t] are forward plans, [ifft_r] and [ifft_t] backward plans.
    [spect_buffer_p] and [spect_buffer_m] are second names of the arrays
    [spect_buffer_r] and [spect_buffer_t]. *)
Record t : Type := mk {
  dht0 : DHT;
  dhtp : DHT;
  dhtm : DHT;
  interp_buffer_r : arr2 complex;
  spect_buffer_r : arr2 complex;
  fft_r : arr2 complex -> arr2 complex;
  ifft_r : arr2 complex -> arr2 complex;
  interp_buffer_t : arr2 complex;
  spect_buffer_t : arr2 complex;
  fft_t : arr2 complex -> arr2 complex;
  ifft_t : arr2 complex -> arr2 complex
}.

Definition set_interp_buffer_r (v : arr2 complex) (g : t) : t :=
  mk (dht0 g) (dhtp g) (dhtm g) v (spect_buffer_r g) (fft_r g) (ifft_r g) (interp_buffer_t g) (spect_buffer_t g) (fft_t g) (ifft_t g).
Definition set_spect_buffer_r (v : arr2 complex) (g : t) : t :=
  mk (dht0 g) (dhtp g) (dhtm g) (interp_buffer_r g) v (fft_r g) (ifft_r g) (interp_buffer_t g) (spect_buffer_t g) (fft_t g) (ifft_t g).
Definition set_interp_buffer_t (v : arr2 complex) (g : t) : t :=
  mk (dht0 g) (dhtp g) (dhtm g) (interp_buffer_r g) (spect_buffer_r g) (fft_r g) (ifft_r g) v (spect_buffer_t g) (fft_t g) (ifft_t g).
Definition set_spect_buffer_t (v : arr2 complex) (g : t) : t :=
  mk (dht0 g) (dhtp g) (dhtm g) (interp_buffer_r g) (spect_buffer_r g) (fft_r g) (ifft_r g) (interp_buffer_t g) v (fft_t g) (ifft_t g).

(** Two names for the same array *)
Abbreviation spect_buffer_p := spect_buffer_r.
Abbreviation spect_buffer_m := spect_buffer_t.
Abbreviation set_spect_buffer_p := set_spect_buffer_r.
Abbreviation set_spect_buffer_m := set_spect_buffer_t.

(** [spect2interp_scal( self, spect_array, interp_array )]; the value
    returned is the content of [interp_array] after the call. *)
Definition spect2interp_scal (spect_array interp_array : arr2 complex)
  : M t (arr2 complex) :=
  (* Perform the inverse DHT first *)
  modify (fun T =>
    set_spect_buffer_r (inverse_transform (dht0 T) spect_array) T) ;;
  (* Then perform the inverse FFT *)
  modify (fun T => set_interp_buffer_r (ifft_r T (spect_buffer_r T)) T) ;;
  (* Copy to the output array *)
  T ← (self : M t t);
  mret (assign interp_array (interp_buffer_r T)).

(** [spect2interp_vect( self, spect_array_p, spect_array_m,
    interp_array_r, interp_array_t )]; the values returned are the
    contents of [interp_array_r] and [interp_array_t] after the call. *)
Definition spect2interp_vect (spect_array_p spect_array_m
    interp_array_r interp_array_t : arr2 complex)
  : M t (arr2 complex * arr2 complex) :=
  (* Perform the inverse DHT first *)
  modify (fun T =>
    set_spect_buffer_p (inverse_transform (dhtp T) spect_array_p) T) ;;
  modify (fun T =>
    set_spect_buffer_m (inverse_transform (dhtm T) spect_array_m) T) ;;
  (* Combine them to obtain the actual r and t components: both
     right-hand sides are evaluated before either buffer is written *)
  T ← (self : M t t);
  let new_r := spect_buffer_r T ⊞ spect_buffer_t T in
  let new_t := 1j ⊡ (spect_buffer_r T ⊟ spect_buffer_t T) in
  modify (fun T => set_spect_buffer_p (assign (spect_buffer_p T) new_r) T) ;;
  modify (fun T => set_spect_buffer_m (assign (spect_buffer_m T) new_t) T) ;;
  (* Finally perform the FFT *)
  modify (fun T => set_interp_buffer_r (ifft_r T (spect_buffer_r T)) T) ;;
  T1 ← (self : M t t);
  let out_r := assign interp_array_r (interp_buffer_r T1) in
  modify (fun T => set_interp_buffer_t (ifft_t T (spect_buffer_t T)) T) ;;
  T2 ← (self : M t t);
  let out_t := assign interp_array_t (interp_buffer_t T2) in
  mret (out_r, out_t).

(** [interp2spect_scal( self, interp_array, spect_array )]; the value
    returned is the content of [spect_array] after the call. *)
Definition interp2spect_scal (interp_array spect_array : arr2 complex)
  : M t (arr2 complex) :=
  (* Perform the FFT first *)
  modify (fun T =>
    set_interp_buffer_r (assign (interp_buffer_r T) interp_array) T) ;;
  modify (fun T => set_spect_buffer_r (fft_r T (interp_buffer_r T)) T) ;;
  (* Then perform the DHT *)
  T ← (self : M t t);
  mret (transform (dht0 T) (spect_buffer_r T)).

(** [interp2spect_vect( self, interp_array_r, interp_array_t,
    spect_array_p, spect_array_m )]; the values returned are the contents
    of [spect_array_p] and [spect_array_m] after the call. *)
Definition interp2spect_vect (interp_array_r interp_array_t
    spect_array_p spect_array_m : arr2 complex)
  : M t (arr2 complex * arr2 complex) :=
  (* Perform the FFT first *)
  modify (fun T =>
    set_interp_buffer_r (assign (interp_buffer_r T) interp_array_r) T) ;;
  modify (fun T => set_spect_buffer_r (fft_r T (interp_buffer_r T)) T) ;;
  modify (fun T =>
    set_interp_buffer_t (assign (interp_buffer_t T) interp_array_t) T) ;;
  modify (fun T => set_spect_buffer_t (fft_t T (interp_buffer_t T)) T) ;;
  (* Combine the r and t components to obtain the p and m components:
     both right-hand sides are evaluated before either buffer is
     written *)
  T ← (self : M t t);
  let new_p := RtoC 0.5 ⊡ (spect_buffer_r T ⊟ 1j ⊡ spect_buffer_t T) in
  let new_m := RtoC 0.5 ⊡ (spect_buffer_r T ⊞ 1j ⊡ spect_buffer_t T) in
  modify (fun T => set_spect_buffer_p (assign (spect_buffer_p T) new_p) T) ;;
  modify (fun T => set_spect_buffer_m (assign (spect_buffer_m T) new_m) T) ;;
  (* Perform the DHT *)
  T1 ← (self : M t t);
  mret (transform (dhtp T1) (spect_buffer_p T1),
        transform (dhtm T1) (spect_buffer_m T1)).

(** The contracts of the injected operators on arrays of the shape of
    the grid: the inverse operator undoes the forward one, and both keep
    the shape. *)
Definition inverse_pair (nz nr : nat)
    (forward backward : arr2 complex -> arr2 complex) : Prop :=
  forall A, shaped nz nr A ->
    shaped nz nr (forward A) /\ shaped nz nr (backward A) /\
    backward (forward A) = A.

Definition contracts (nz nr : nat) (T : t) : Prop :=
  inverse_pair nz nr (transform (dht0 T)) (inverse_transform (dht0 T)) /\
  inverse_pair nz nr (transform (dhtp T)) (inverse_transform (dhtp T)) /\
  inverse_pair nz nr (transform (dhtm T)) (inverse_transform (dhtm T)) /\
  inverse_pair nz nr (fft_r T) (ifft_r T) /\
  inverse_pair nz nr (fft_t T) (ifft_t T) /\
  shaped nz nr (interp_buffer_r T) /\ shaped nz nr (spect_buffer_r T) /\
  shaped nz nr (interp_buffer_t T) /\ shaped nz nr (spect_buffer_t T).

(** The backward operators are linear: they send the zero array to the
    zero array. *)
Definition backward_zero (nz nr : nat) (T : t) : Prop :=
  inverse_transform (dht0 T) (zeros nz nr) = zeros nz nr /\
  ifft_r T (zeros nz nr) = zeros nz nr.

End SpectralTransformer.

(** ** class [Fields] *)

Module Fields.

(** One object of each class per azimuthal mode, in four lists. *)
Record t : Type := mk {
  Nz : nat;
  Nr : nat;
  rmax : R;
  Nm : nat;
  dt : R;
  trans : list SpectralTransformer.t;
  interp : list InterpolationGrid.t;
  spect : list SpectralGrid.t;
  psatd : list PsatdCoeffs.t
}.

Definition set_trans (v : list SpectralTransformer.t) (g : t) : t :=
  mk (Nz g) (Nr g) (rmax g) (Nm g) (dt g) v (interp g) (spect g) (psatd g).
Definition set_interp (v : list InterpolationGrid.t) (g : t) : t :=
  mk (Nz g) (Nr g) (rmax g) (Nm g) (dt g) (trans g) v (spect g) (psatd g).
Definition set_spect (v : list SpectralGrid.t) (g : t) : t :=
  mk (Nz g) (Nr g) (rmax g) (Nm g) (dt g) (trans g) (interp g) v (psatd g).
Definition set_psatd (v : list PsatdCoeffs.t) (g : t) : t :=
  mk (Nz g) (Nr g) (rmax g) (Nm g) (dt g) (trans g) (interp g) (spect g) v.

(** [xs[m]] read from an attribute that is a list; an index out of range
    raises an IndexError. *)
Definition item {X} (proj : t -> list X) (m : nat) : M t X :=
  fun s => match proj s !! m with
           | Some x => (Return x, s)
           | None => (Raise IndexError, s)
           end.

(** A method called on the object [xs[m]], which it mutates in place. *)
Definition on_item {X A} (proj : t -> list X) (upd : list X -> t -> t)
    (m : nat) (act : M X A) : M t A :=
  fun s => match proj s !! m with
           | Some x => (fst (act x), upd (<[m := snd (act x)]> (proj s)) s)
           | None => (Raise IndexError, s)
           end.

(** A method of [spect[m]] that also mutates [psatd[m]]. *)
Definition on_spect_psatd {A} (m : nat)
    (act : M (SpectralGrid.t * PsatdCoeffs.t) A) : M t A :=
  fun s => match spect s !! m, psatd s !! m with
           | Some g, Some ps =>
               (fst (act (g, ps)),
                set_psatd (<[m := snd (snd (act (g, ps)))]> (psatd s))
                  (set_spect (<[m := fst (snd (act (g, ps)))]> (spect s)) s))
           | _, _ => (Raise IndexError, s)
           end.

Definition on_trans {A} := @on_item SpectralTransformer.t A trans set_trans.
Definition on_interp {A} := @on_item InterpolationGrid.t A interp set_interp.
Definition on_spect {A} := @on_item SpectralGrid.t A spect set_spect.

Section Push.
Context `{Constants}.

(** [Fields.push(self, ptcl_feedback)] *)
Definition push (ptcl_feedback : bool) : M t unit :=
  s ← (self : M t t);
  for_range (Nm s) (fun m =>
    on_spect_psatd m (SpectralGrid.push_eb_with ptcl_feedback false) ;;
    on_spect m SpectralGrid.push_rho).

End Push.

(** [Fields.correct_currents(self)] *)
Definition correct_currents : M t unit :=
  s ← (self : M t t);
  for_range (Nm s) (fun m =>
    s ← (self : M t t);
    on_spect m (SpectralGrid.correct_currents (dt s))).

(** One call of [trans[m].interp2spect_scal] or [spect2interp_scal] on a
    pair of attributes of [interp[m]] and [spect[m]], and one call of the
    vector methods. *)
Definition scal_to_spect (m : nat)
    (src : InterpolationGrid.t -> arr2 complex)
    (dst : SpectralGrid.t -> arr2 complex)
    (set_dst : arr2 complex -> SpectralGrid.t -> SpectralGrid.t)
  : M t unit :=
  _ ← item trans m;
  ig ← item interp m;
  sg ← item spect m;
  new ← on_trans m (SpectralTransformer.interp2spect_scal (src ig) (dst sg));
  on_spect m (modify (set_dst new)).

Definition vect_to_spect (m : nat)
    (src_r src_t : InterpolationGrid.t -> arr2 complex)
    (dst_p dst_m : SpectralGrid.t -> arr2 complex)
    (set_p set_m : arr2 complex -> SpectralGrid.t -> SpectralGrid.t)
  : M t unit :=
  _ ← item trans m;
  ig ← item interp m;
  sg ← item spect m;
  new ← on_trans m (SpectralTransformer.interp2spect_vect
                      (src_r ig) (src_t ig) (dst_p sg) (dst_m sg));
  on_spect m (modify (fun g => set_m (snd new) (set_p (fst new) g))).

Definition scal_to_interp (m : nat)
    (src : SpectralGrid.t -> arr2 complex)
    (dst : InterpolationGrid.t -> arr2 complex)
    (set_dst : arr2 complex -> InterpolationGrid.t -> InterpolationGrid.t)
  : M t unit :=
  _ ← item trans m;
  sg ← item spect m;
  ig ← item interp m;
  new ← on_trans m (SpectralTransformer.spect2interp_scal (src sg) (dst ig));
  on_interp m (modify (set_dst new)).

Definition vect_to_interp (m : nat)
    (src_p src_m : SpectralGrid.t -> arr2 complex)
    (dst_r dst_t : InterpolationGrid.t -> arr2 complex)
    (set_r set_t : arr2 complex -> InterpolationGrid.t -> InterpolationGrid.t)
  : M t unit :=
  _ ← item trans m;
  sg ← item spect m;
  ig ← item interp m;
  new ← on_trans m (SpectralTransformer.spect2interp_vect
                      (src_p sg) (src_m sg) (dst_r ig) (dst_t ig));
  on_interp m (modify (fun g => set_t (snd new) (set_r (fst new) g))).

(** [Fields.interp2spect(self, fieldtype)] *)
Definition interp2spect (fieldtype : string) : M t unit :=
  s ← (self : M t t);
  if decide (fieldtype = "E") then
    for_range (Nm s) (fun m =>
      scal_to_spect m InterpolationGrid.Ez SpectralGrid.Ez SpectralGrid.set_Ez ;;
      vect_to_spect m InterpolationGrid.Er InterpolationGrid.Et
        SpectralGrid.Ep SpectralGrid.Em SpectralGrid.set_Ep SpectralGrid.set_Em)
  else if decide (fieldtype = "B") then
    for_range (Nm s) (fun m =>
      scal_to_spect m InterpolationGrid.Bz SpectralGrid.Bz SpectralGrid.set_Bz ;;
      vect_to_spect m InterpolationGrid.Br InterpolationGrid.Bt
        SpectralGrid.Bp SpectralGrid.Bm SpectralGrid.set_Bp SpectralGrid.set_Bm)
  else if decide (fieldtype = "J") then
    for_range (Nm s) (fun m =>
      scal_to_spect m InterpolationGrid.Jz SpectralGrid.Jz SpectralGrid.set_Jz ;;
      vect_to_spect m InterpolationGrid.Jr InterpolationGrid.Jt
        SpectralGrid.Jp SpectralGrid.Jm SpectralGrid.set_Jp SpectralGrid.set_Jm)
  else if decide (fieldtype = "rho_next") then
    for_range (Nm s) (fun m =>
      scal_to_spect m InterpolationGrid.rho SpectralGrid.rho_next
        SpectralGrid.set_rho_next)
  else if decide (fieldtype = "rho_prev") then
    for_range (Nm s) (fun m =>
      scal_to_spect m InterpolationGrid.rho SpectralGrid.rho_prev
        SpectralGrid.set_rho_prev)
  else raise (invalid_fieldtype fieldtype).

(** [Fields.spect2interp(self, fieldtype)] *)
Definition spect2interp (fieldtype : string) : M t unit :=
  s ← (self : M t t);
  if decide (fieldtype = "E") then
    for_range (Nm s) (fun m =>
      scal_to_interp m SpectralGrid.Ez InterpolationGrid.Ez
        InterpolationGrid.set_Ez ;;
      vect_to_interp m SpectralGrid.Ep SpectralGrid.Em
        InterpolationGrid.Er InterpolationGrid.Et
        InterpolationGrid.set_Er InterpolationGrid.set_Et)
  else if decide (fieldtype = "B") then
    for_range (Nm s) (fun m =>
      scal_to_interp m SpectralGrid.Bz InterpolationGrid.Bz
        InterpolationGrid.set_Bz ;;
      vect_to_interp m SpectralGrid.Bp SpectralGrid.Bm
        InterpolationGrid.Br InterpolationGrid.Bt
        InterpolationGrid.set_Br InterpolationGrid.set_Bt)
  else if decide (fieldtype = "J") then
    for_range (Nm s) (fun m =>
      scal_to_interp m SpectralGrid.Jz InterpolationGrid.Jz
        InterpolationGrid.set_Jz ;;
      vect_to_interp m SpectralGrid.Jp SpectralGrid.Jm
        InterpolationGrid.Jr InterpolationGrid.Jt
        InterpolationGrid.set_Jr InterpolationGrid.set_Jt)
  else if decide (fieldtype = "rho") then
    for_range (Nm s) (fun m =>
      scal_to_interp m SpectralGrid.rho_next InterpolationGrid.rho
        InterpolationGrid.set_rho)
  else raise (invalid_fieldtype fieldtype).

(** [A[:,:] = 0.] on an attribute of [interp[m]] *)
Definition erase_array (m : nat)
    (get : InterpolationGrid.t -> arr2 complex)
    (set : arr2 complex -> InterpolationGrid.t -> InterpolationGrid.t)
  : M t unit :=
  on_interp m (modify (fun g => set (fill (get g) (RtoC 0)) g)).

(** [Fields.erase(self, fieldtype)] *)
Definition erase (fieldtype : string) : M t unit :=
  s ← (self : M t t);
  if decide (fieldtype = "rho") then
    for_range (Nm s) (fun m =>
      erase_array m InterpolationGrid.rho InterpolationGrid.set_rho)
  else if decide (fieldtype = "J") then
    for_range (Nm s) (fun m =>
      erase_array m InterpolationGrid.Jr InterpolationGrid.set_Jr ;;
      erase_array m InterpolationGrid.Jt InterpolationGrid.set_Jt ;;
      erase_array m InterpolationGrid.Jz InterpolationGrid.set_Jz)
  else if decide (fieldtype = "E") then
    for_range (Nm s) (fun m =>
      erase_array m InterpolationGrid.Er InterpolationGrid.set_Er ;;
      erase_array m InterpolationGrid.Et InterpolationGrid.set_Et ;;
      erase_array m InterpolationGrid.Ez InterpolationGrid.set_Ez)
  else if decide (fieldtype = "B") then
    for_range (Nm s) (fun m =>
      erase_array m InterpolationGrid.Br InterpolationGrid.set_Br ;;
      erase_array m InterpolationGrid.Bt InterpolationGrid.set_Bt ;;
      erase_array m InterpolationGrid.Bz InterpolationGrid.set_Bz)
  else raise (invalid_fieldtype fieldtype).

(** [Fields.filter_interp(self, fieldtype, direction)] *)
Definition filter_interp (fieldtype direction : string) : M t unit :=
  s ← (self : M t t);
  for_range (Nm s) (fun m =>
    on_interp m (InterpolationGrid.filter fieldtype direction)).

(** [Fields.filter_spect(self, fieldtype)] *)
Definition filter_spect (fieldtype : string) : M t unit :=
  s ← (self : M t t);
  for_range (Nm s) (fun m => on_spect m (SpectralGrid.filter fieldtype)).

(** [A * invvol[np.newaxis,:]]: every row of [A] times the 1-D array. *)
Definition times_row (A : arr2 complex) (v : list R) : arr2 complex :=
  fmap (M := list) (fun row => zip_with (fun x k => Cmul x (RtoC k)) row v) A.

Definition divide_array (m : nat)
    (get : InterpolationGrid.t -> arr2 complex)
    (set : arr2 complex -> InterpolationGrid.t -> InterpolationGrid.t)
  : M t unit :=
  on_interp m (modify (fun g =>
    set (times_row (get g) (InterpolationGrid.invvol g)) g)).

(** [Fields.divide_by_volume(self, fieldtype)] *)
Definition divide_by_volume (fieldtype : string) : M t unit :=
  s ← (self : M t t);
  if decide (fieldtype = "rho") then
    for_range (Nm s) (fun m =>
      divide_array m InterpolationGrid.rho InterpolationGrid.set_rho)
  else if decide (fieldtype = "J") then
    for_range (Nm s) (fun m =>
      divide_array m InterpolationGrid.Jr InterpolationGrid.set_Jr ;;
      divide_array m InterpolationGrid.Jt InterpolationGrid.set_Jt ;;
      divide_array m InterpolationGrid.Jz InterpolationGrid.set_Jz)
  else raise (invalid_fieldtype fieldtype).

(** The field-group strings each method recognizes. *)
Definition erase_kinds : list string := ["rho"; "J"; "E"; "B"].
Definition filter_interp_kinds : list string := ["rho"; "J"; "E"; "B"].
Definition filter_spect_kinds : list string :=
  ["rho_prev"; "rho_next"; "J"; "E"; "B"].
Definition divide_by_volume_kinds : list string := ["rho"; "J"].
Definition interp2spect_kinds : list string :=
  ["E"; "B"; "J"; "rho_next"; "rho_prev"].
Definition spect2interp_kinds : list string := ["E"; "B"; "J"; "rho"].

(** The methods that dispatch on a field-group string, and a call of
    one of them. *)
Inductive operation : Type :=
| Erase | FilterInterp | FilterSpect | DivideByVolume
| Interp2Spect | Spect2Interp.

Definition kinds (op : operation) : list string :=
  match op with
  | Erase => erase_kinds
  | FilterInterp => filter_interp_kinds
  | FilterSpect => filter_spect_kinds
  | DivideByVolume => divide_by_volume_kinds
  | Interp2Spect => interp2spect_kinds
  | Spect2Interp => spect2interp_kinds
  end.

Definition call (op : operation) (fieldtype direction : string) : M t unit :=
  match op with
  | Erase => erase fieldtype
  | FilterInterp => filter_interp fieldtype direction
  | FilterSpect => filter_spect fieldtype
  | DivideByVolume => divide_by_volume fieldtype
  | Interp2Spect => interp2spect fieldtype
  | Spect2Interp => spect2interp fieldtype
  end.

(** The two filters test the string inside the loop over the modes, in
    the method [filter] of each grid; the other methods test it before
    the loop. *)
Definition tests_in_loop (op : operation) : bool :=
  match op with
  | FilterInterp | FilterSpect => true
  | _ => false
  end.

(** The objects of the mode [m], and their replacement. *)
Abbreviation mode :=
  (SpectralTransformer.t * InterpolationGrid.t * SpectralGrid.t
   * PsatdCoeffs.t)%type.

Definition mode_at (s : t) (m : nat) : option mode :=
  match trans s !! m, interp s !! m, spect s !! m, psatd s !! m with
  | Some tr, Some ig, Some sg, Some ps => Some (tr, ig, sg, ps)
  | _, _, _, _ => None
  end.

Definition put_mode (m : nat) (x : mode) (s : t) : t :=
  let '(tr, ig, sg, ps) := x in
  mk (Nz s) (Nr s) (rmax s) (Nm s) (dt s)
     (<[m := tr]> (trans s)) (<[m := ig]> (interp s))
     (<[m := sg]> (spect s)) (<[m := ps]> (psatd s)).

(** What one call of [trans[m].interp2spect_scal] and of
    [trans[m].spect2interp_scal] does to the objects of the mode. *)
Definition scal_to_spect_mode
    (src : InterpolationGrid.t -> arr2 complex)
    (set_dst : arr2 complex -> SpectralGrid.t -> SpectralGrid.t)
    (x : mode) : mode :=
  let '(tr, ig, sg, ps) := x in
  let b := assign (SpectralTransformer.interp_buffer_r tr) (src ig) in
  let z := SpectralTransformer.fft_r tr b in
  (SpectralTransformer.set_spect_buffer_r z
     (SpectralTransformer.set_interp_buffer_r b tr),
   ig,
   set_dst (transform (SpectralTransformer.dht0 tr) z) sg,
   ps).

Definition scal_to_interp_mode
    (src : SpectralGrid.t -> arr2 complex)
    (dst : InterpolationGrid.t -> arr2 complex)
    (set_dst : arr2 complex -> InterpolationGrid.t -> InterpolationGrid.t)
    (x : mode) : mode :=
  let '(tr, ig, sg, ps) := x in
  let sb := inverse_transform (SpectralTransformer.dht0 tr) (src sg) in
  let ib := SpectralTransformer.ifft_r tr sb in
  (SpectralTransformer.set_interp_buffer_r ib
     (SpectralTransformer.set_spect_buffer_r sb tr),
   set_dst (assign (dst ig) ib) ig,
   sg,
   ps).

(** What one call of [trans[m].interp2spect_vect] and of
    [trans[m].spect2interp_vect] does to the objects of the mode. *)
Definition vect_to_spect_mode
    (src_r src_t : InterpolationGrid.t -> arr2 complex)
    (set_p set_m : arr2 complex -> SpectralGrid.t -> SpectralGrid.t)
    (x : mode) : mode :=
  let '(tr, ig, sg, ps) := x in
  let br := assign (SpectralTransformer.interp_buffer_r tr) (src_r ig) in
  let bt := assign (SpectralTransformer.interp_buffer_t tr) (src_t ig) in
  let zr := SpectralTransformer.fft_r tr br in
  let zt := SpectralTransformer.fft_t tr bt in
  let p := assign zr (RtoC 0.5 ⊡ (zr ⊟ 1j ⊡ zt)) in
  let m := assign zt (RtoC 0.5 ⊡ (zr ⊞ 1j ⊡ zt)) in
  (SpectralTransformer.set_spect_buffer_t m
     (SpectralTransformer.set_spect_buffer_r p
        (SpectralTransformer.set_interp_buffer_t bt
           (SpectralTransformer.set_interp_buffer_r br tr))),
   ig,
   set_m (transform (SpectralTransformer.dhtm tr) m)
     (set_p (transform (SpectralTransformer.dhtp tr) p) sg),
   ps).

Definition vect_to_interp_mode
    (src_p src_m : SpectralGrid.t -> arr2 complex)
    (dst_r dst_t : InterpolationGrid.t -> arr2 complex)
    (set_r set_t : arr2 complex -> InterpolationGrid.t -> InterpolationGrid.t)
    (x : mode) : mode :=
  let '(tr, ig, sg, ps) := x in
  let p := inverse_transform (SpectralTransformer.dhtp tr) (src_p sg) in
  let m := inverse_transform (SpectralTransformer.dhtm tr) (src_m sg) in
  let r := assign p (p ⊞ m) in
  let t := assign m (1j ⊡ (p ⊟ m)) in
  let ir := SpectralTransformer.ifft_r tr r in
  let it := SpectralTransformer.ifft_t tr t in
  (SpectralTransformer.set_interp_buffer_t it
     (SpectralTransformer.set_interp_buffer_r ir
        (SpectralTransformer.set_spect_buffer_t t
           (SpectralTransformer.set_spect_buffer_r r tr))),
   set_t (assign (dst_t ig) it) (set_r (assign (dst_r ig) ir) ig),
   sg,
   ps).

(** The four lists hold one object per mode. *)
Definition one_per_mode (s : t) : Prop :=
  length (trans s) = Nm s /\ length (interp s) = Nm s /\
  length (spect s) = Nm s /\ length (psatd s) = Nm s.

End Fields.

(** ** Quantities the statements about the field push are about *)

Module Energy.

(** [np.abs(A)**2] *)
Definition np_abs2 (A : arr2 complex) : arr2 R := amap Cnorm2 A.

Section Densities.
Context `{Constants}.

(** The quadratic form of the vacuum-energy property as the
    specification words it:
    [|Ep|^2 + |Em|^2 + |Ez|^2 + c^2 (|Bp|^2 + |Bm|^2 + |Bz|^2)],
    per point of the spectral grid. *)
Definition claimed_density (g : SpectralGrid.t) : arr2 R :=
  np_abs2 (SpectralGrid.Ep g) ⊕ np_abs2 (SpectralGrid.Em g)
  ⊕ np_abs2 (SpectralGrid.Ez g)
  ⊕ c ^ 2 ⊙ (np_abs2 (SpectralGrid.Bp g) ⊕ np_abs2 (SpectralGrid.Bm g)
             ⊕ np_abs2 (SpectralGrid.Bz g)).

(** The same form with the transverse components counted twice:
    [2|Ep|^2 + 2|Em|^2 + |Ez|^2 + c^2 (2|Bp|^2 + 2|Bm|^2 + |Bz|^2)],
    which is [|Er|^2 + |Et|^2 + |Ez|^2 + c^2 |B|^2] for
    [Ep = (Er - i Et)/2] and [Em = (Er + i Et)/2]. *)
Definition weighted_density (g : SpectralGrid.t) : arr2 R :=
  2 ⊙ np_abs2 (SpectralGrid.Ep g) ⊕ 2 ⊙ np_abs2 (SpectralGrid.Em g)
  ⊕ np_abs2 (SpectralGrid.Ez g)
  ⊕ c ^ 2 ⊙ (2 ⊙ np_abs2 (SpectralGrid.Bp g) ⊕ 2 ⊙ np_abs2 (SpectralGrid.Bm g)
             ⊕ np_abs2 (SpectralGrid.Bz g)).

(** The two forms and the divergence at one point. *)
Definition claimed_point (Ep Em Ez Bp Bm Bz : complex) : R :=
  Cnorm2 Ep + Cnorm2 Em + Cnorm2 Ez
  + c ^ 2 * (Cnorm2 Bp + Cnorm2 Bm + Cnorm2 Bz).

Definition weighted_point (Ep Em Ez Bp Bm Bz : complex) : R :=
  2 * Cnorm2 Ep + 2 * Cnorm2 Em + Cnorm2 Ez
  + c ^ 2 * (2 * Cnorm2 Bp + 2 * Cnorm2 Bm + Cnorm2 Bz).

End Densities.

Definition divergence_point (kz kr : R) (Xp Xm Xz : complex) : complex :=
  (RtoC kr * Xp - RtoC kr * Xm + 1j * RtoC kz * Xz)%cx.

(** The divergence of a vector field [(Xp, Xm, Xz)] in spectral space,
    [kr Xp - kr Xm + i kz Xz], the combination [push_eb_with] forms of
    [E] and of [J]. *)
Definition divergence (g : SpectralGrid.t) (Xp Xm Xz : arr2 complex)
  : arr2 complex :=
  ⇑(SpectralGrid.kr g) ⊠ Xp ⊟ ⇑(SpectralGrid.kr g) ⊠ Xm
  ⊞ 1j ⊡ ⇑(SpectralGrid.kz g) ⊠ Xz.

(** [E] and [B] have no divergence at any point of the grid. *)
Definition divergence_free (g : SpectralGrid.t) : Prop :=
  forall i j, (i < SpectralGrid.Nz g)%nat -> (j < SpectralGrid.Nr g)%nat ->
    at2 (divergence g (SpectralGrid.Ep g) (SpectralGrid.Em g)
           (SpectralGrid.Ez g)) i j = RtoC 0 /\
    at2 (divergence g (SpectralGrid.Bp g) (SpectralGrid.Bm g)
           (SpectralGrid.Bz g)) i j = RtoC 0.

End Energy.

(** ** Sample objects

    Small concrete objects on which the statements below are
    instantiated. *)

Module Samples.

(** A 2 x 2 spectral grid that contains the point [kz = kr = 0]. *)
Definition grid : SpectralGrid.t :=
  let '(kz2, kr2) := meshgrid_ij [0; 1] [0; 1] in
  SpectralGrid.mk 2 2 0 kz2 kr2
    [[(1, 0); (0, 1)]; [(2, 1); (1, 1)]]
    [[(0, 1); (1, 0)]; [(1, 2); (0, 0)]]
    [[(1, 1); (2, 0)]; [(0, 0); (3, 1)]]
    [[(0, 0); (1, 0)]; [(0, 1); (1, 1)]]
    [[(1, 0); (0, 0)]; [(0, 2); (1, 0)]]
    [[(0, 1); (1, 1)]; [(1, 0); (0, 0)]]
    [[(1, 2); (3, 4)]; [(5, 6); (7, 8)]]
    [[(2, 1); (4, 3)]; [(6, 5); (8, 7)]]
    [[(1, 0); (0, 1)]; [(1, 1); (2, 2)]]
    [[(1, 0); (2, 0)]; [(3, 0); (4, 0)]]
    [[(2, 0); (1, 0)]; [(0, 0); (5, 0)]]
    (zeros 2 2)
    (SpectralGrid.make_inv_k2 kz2 kr2)
    (afull 2 2 1).

(** A grid of one point, [kz = 3] and [kr = 4], with a transverse
    electric field without divergence ([Ep = Em], [Ez = 0]) and no
    magnetic field. *)
Definition vacuum_grid : SpectralGrid.t :=
  SpectralGrid.mk 1 1 0 [[3]] [[4]]
    [[(1, 0)]] [[(1, 0)]] [[(0, 0)]]
    (zeros 1 1) (zeros 1 1) (zeros 1 1)
    (zeros 1 1) (zeros 1 1) (zeros 1 1)
    (zeros 1 1) (zeros 1 1)
    (zeros 1 1)
    (SpectralGrid.make_inv_k2 [[3]] [[4]])
    [[0]].

(** The same grid with an electric field along [k]:
    [Ep = 2i], [Em = -2i], [Ez = 3]. *)
Definition longitudinal_grid : SpectralGrid.t :=
  SpectralGrid.mk 1 1 0 [[3]] [[4]]
    [[(0, 2)]] [[(0, -2)]] [[(3, 0)]]
    (zeros 1 1) (zeros 1 1) (zeros 1 1)
    (zeros 1 1) (zeros 1 1) (zeros 1 1)
    (zeros 1 1) (zeros 1 1)
    (zeros 1 1)
    (SpectralGrid.make_inv_k2 [[3]] [[4]])
    [[0]].

(** A time step for which [c |k| dt = 1] on these grids. *)
Definition vacuum_dt : R := 1 / (5 * 299792458).

(** A real grid of 2 x 3 points for the mode 0, with a charge density
    that is 1 everywhere. *)
Definition interp_grid : InterpolationGrid.t :=
  InterpolationGrid.mk 2 [0.5; 1.5] 3 [0.5; 1.5; 2.5] 0 1 1
    (fmap (M := list)
       (fun r => 1 / (PI * 1 * ((r + 0.5 * 1) ^ 2 - (r - 0.5 * 1) ^ 2)))
       [0.5; 1.5; 2.5])
    (zeros 2 3) (zeros 2 3) (zeros 2 3)
    (zeros 2 3) (zeros 2 3) (zeros 2 3)
    (zeros 2 3) (zeros 2 3) (zeros 2 3)
    [[(1, 0); (1, 0); (1, 0)]; [(1, 0); (1, 0); (1, 0)]].

(** A transformer whose injected operators are the identity, with
    buffers of 2 x 3 points. *)
Definition identity_dht : DHT :=
  {| transform := fun A => A; inverse_transform := fun A => A |}.

Definition transformer : SpectralTransformer.t :=
  SpectralTransformer.mk identity_dht identity_dht identity_dht
    (zeros 2 3) (zeros 2 3) (fun A => A) (fun A => A)
    (zeros 2 3) (zeros 2 3) (fun A => A) (fun A => A).

(** A spectral grid of 2 x 3 points for the mode 0, with a charge
    density in [rho_next] and another one in [rho_prev]. *)
Definition spect_grid : SpectralGrid.t :=
  let '(kz2, kr2) := meshgrid_ij [0; 1] [1; 2; 3] in
  SpectralGrid.mk 3 2 0 kz2 kr2
    (zeros 2 3) (zeros 2 3) (zeros 2 3)
    (zeros 2 3) (zeros 2 3) (zeros 2 3)
    (zeros 2 3) (zeros 2 3) (zeros 2 3)
    [[(1, 0); (2, 0); (3, 0)]; [(4, 0); (5, 0); (6, 0)]]
    [[(0, 1); (0, 2); (0, 3)]; [(0, 4); (0, 5); (0, 6)]]
    (zeros 2 3)
    (SpectralGrid.make_inv_k2 kz2 kr2)
    (afull 2 3 1).

Definition coeffs : PsatdCoeffs.t :=
  PsatdCoeffs.mk 0 1 (afull 2 3 1) (afull 2 3 1) (afull 2 3 1)
    (afull 2 3 1) (afull 2 3 1) (zeros 2 3) (zeros 2 3) (zeros 2 3).

(** A [Fields] object with one mode, and one with no mode
    ([Nm = 0]). *)
Definition fields : Fields.t :=
  Fields.mk 2 3 3 1 1 [transformer] [interp_grid] [spect_grid] [coeffs].

Definition no_modes : Fields.t :=
  Fields.mk 3 3 3 0 1 [] [] [] [].

(** The constants as [scipy.constants] defines them (SI units). *)
Definition scipy_constants : Constants :=
  {| c := 299792458;
     mu_0 := 4 * PI / 10000000;
     epsilon_0 := 1 / (4 * PI / 10000000 * 299792458 ^ 2) |}.

End Samples.

(** ** The stencils of [binomial_filter]

    The statement [l[1:-1] = a*l[:-2] + b*l[1:-1] + c*l[2:]] of both
    branches, on a list [l] of cells (branch ['r'], row by row) or of
    rows (branch ['z']). *)
Definition interior_stencil {T} (a b c : T -> T) (add : T -> T -> T)
    (l : list T) : list T :=
  Slice.set_slice 1 (Some (-1)%Z) l
    (zip_with add
       (zip_with add
          (fmap (M := list) a (Slice.slice 0 (Some (-2)%Z) l))
          (fmap (M := list) b (Slice.slice 1 (Some (-1)%Z) l)))
       (fmap (M := list) c (Slice.slice 2 None l))).

(** [0.25*x + 0.5*y + 0.25*z] on three rows, as the branch ['z'] assigns
    to the first and to the last row. *)
Definition row_stencil (x y z : list complex) : list complex :=
  Slice.vadd (Slice.vadd (Slice.vscal (RtoC 0.25) x) (Slice.vscal (RtoC 0.5) y))
    (Slice.vscal (RtoC 0.25) z).

(** [sum(f(i) for i in range(n))] *)
Fixpoint csum (n : nat) (f : nat -> complex) : complex :=
  match n with
  | O => RtoC 0
  | S k => (csum k f + f k)%cx
  end.

(** The arrays of the fields of a spectral grid, in the order [__init__]
    allocates them. *)
Definition spectral_fields (g : SpectralGrid.t) : list (arr2 complex) :=
  [SpectralGrid.Ep g; SpectralGrid.Em g; SpectralGrid.Ez g;
   SpectralGrid.Bp g; SpectralGrid.Bm g; SpectralGrid.Bz g;
   SpectralGrid.Jp g; SpectralGrid.Jm g; SpectralGrid.Jz g;
   SpectralGrid.rho_prev g; SpectralGrid.rho_next g].

(** What one iteration of the loop of [Fields.push] does to the objects
    of a mode. *)
Definition push_mode `{Constants} (ptcl_feedback : bool) (x : Fields.mode)
  : Fields.mode :=
  let '(tr, ig, sg, ps) := x in
  let s1 := exec (SpectralGrid.push_eb_with ptcl_feedback false) (sg, ps) in
  (tr, ig, exec SpectralGrid.push_rho (fst s1), snd s1).

(** The field arrays of an interpolation grid by name, and the arrays a
    field-group string designates in the methods of [Fields]. *)
Module Component.

Inductive t : Type := Er | Et | Ez | Br | Bt | Bz | Jr | Jt | Jz | rho.

#[global] Instance eq_dec : EqDecision t.
Proof. solve_decision. Defined.

Definition get (c : t) : InterpolationGrid.t -> arr2 complex :=
  match c with
  | Er => InterpolationGrid.Er | Et => InterpolationGrid.Et
  | Ez => InterpolationGrid.Ez
  | Br => InterpolationGrid.Br | Bt => InterpolationGrid.Bt
  | Bz => InterpolationGrid.Bz
  | Jr => InterpolationGrid.Jr | Jt => InterpolationGrid.Jt
  | Jz => InterpolationGrid.Jz
  | rho => InterpolationGrid.rho
  end.

Definition group (fieldtype : string) : list t :=
  if decide (fieldtype = "rho") then [rho]
  else if decide (fieldtype = "J") then [Jr; Jt; Jz]
  else if decide (fieldtype = "E") then [Er; Et; Ez]
  else if decide (fieldtype = "B") then [Br; Bt; Bz]
  else [].

(** The components along r and theta, whose guard cell below the axis
    has the sign [-(-1)**m] in [InterpolationGrid.filter]. *)
Definition transverse : list t := [Er; Et; Br; Bt; Jr; Jt].

End Component.

(** The field types with a z component and two transverse ones. *)
Definition vector_kinds : list string := ["E"; "B"; "J"].

(** ** Sample objects with fields, currents and charges loaded *)

Module Loaded.

(** A grid of one point, [kz = 3] and [kr = 4], for the time step
    [Samples.vacuum_dt]: [Ep = 1], [Em = 0], [Ez = -i], so that
    [kr Ep - kr Em + i kz Ez = 7] and [rho_prev = 7 epsilon_0];
    [Jp = 1], [Jm = 0], [Jz = i], so that [i kz Jz + kr (Jp - Jm) = 1]
    and [rho_next = rho_prev - dt]. *)
Definition charged_grid : SpectralGrid.t :=
  let e0 := @epsilon_0 Samples.scipy_constants in
  SpectralGrid.mk 1 1 0 [[3]] [[4]]
    [[(1, 0)]] [[(0, 0)]] [[(0, -1)]]
    (zeros 1 1) (zeros 1 1) (zeros 1 1)
    [[(1, 0)]] [[(0, 0)]] [[(0, 1)]]
    [[(7 * e0, 0)]] [[(7 * e0 - Samples.vacuum_dt, 0)]]
    (zeros 1 1)
    (SpectralGrid.make_inv_k2 [[3]] [[4]])
    [[0]].

(** An array of 2 x 2 points that holds no zero. *)
Definition field_2_2 : arr2 complex :=
  [[(1, 2); (3, 4)]; [(5, 6); (7, 8)]].

(** [Samples.interp_grid] with an electric field. *)
Definition interp_grid : InterpolationGrid.t :=
  InterpolationGrid.set_Er [[(1, 0); (2, 0); (3, 0)]; [(4, 0); (5, 0); (6, 0)]]
    (InterpolationGrid.set_Et
       [[(0, 1); (0, 2); (0, 3)]; [(0, 4); (0, 5); (0, 6)]]
       (InterpolationGrid.set_Ez
          [[(1, 1); (2, 2); (3, 3)]; [(4, 4); (5, 5); (6, 6)]]
          Samples.interp_grid)).

Definition fields : Fields.t :=
  Fields.mk 2 3 3 1 1 [Samples.transformer] [interp_grid]
    [Samples.spect_grid] [Samples.coeffs].

(** [Samples.spect_grid] as the grid of the mode 1. *)
Definition spect_grid_1 : SpectralGrid.t :=
  let '(kz2, kr2) := meshgrid_ij [0; 1] [1; 2; 3] in
  SpectralGrid.mk 3 2 1 kz2 kr2
    (zeros 2 3) (zeros 2 3) (zeros 2 3)
    (zeros 2 3) (zeros 2 3) (zeros 2 3)
    (zeros 2 3) (zeros 2 3) (zeros 2 3)
    [[(1, 0); (2, 0); (3, 0)]; [(4, 0); (5, 0); (6, 0)]]
    [[(0, 1); (0, 2); (0, 3)]; [(0, 4); (0, 5); (0, 6)]]
    (zeros 2 3)
    (SpectralGrid.make_inv_k2 kz2 kr2)
    (afull 2 3 1).

(** A [Fields] object with two modes, where the coefficients of the
    second mode are those of the mode 0. *)
Definition two_modes : Fields.t :=
  Fields.mk 2 3 3 2 1
    [Samples.transformer; Samples.transformer]
    [Samples.interp_grid; Samples.interp_grid]
    [Samples.spect_grid; spect_grid_1]
    [Samples.coeffs; Samples.coeffs].

End Loaded.

(** * Properties *)

(** ** Complex numbers and arrays *)

Lemma C_eq (a b : complex) : Re a = Re b -> Im a = Im b -> a = b.
Proof. destruct a, b; simpl; intros -> ->; reflexivity. Qed.

Lemma C_eq_inv (a b : complex) : a = b -> Re a = Re b /\ Im a = Im b.
Proof. intros ->; split; reflexivity. Qed.

(** Reduces an equation between complex numbers to its two real
    components. *)
Ltac Cunfold :=
  cbv beta iota delta [Cadd Csub Cmul Copp RtoC Ci Cnorm2 Re Im fst snd] in *.
Ltac Csplit := apply C_eq; Cunfold.

Lemma Reqb_true x y : Reqb x y = true <-> x = y.
Proof. unfold Reqb. destruct (Req_dec_T x y); split; congruence. Qed.

Lemma Reqb_false x y : Reqb x y = false <-> x <> y.
Proof. unfold Reqb. destruct (Req_dec_T x y); split; congruence. Qed.

Section ArrLemmas.
Context {T U V : Type}.

Lemma get_amap (f : T -> U) A i j :
  get (amap f A) i j = f <$> get A i j.
Proof.
  unfold get, amap. rewrite list_lookup_fmap.
  destruct (A !! i) as [row|]; simpl; [|reflexivity].
  apply list_lookup_fmap.
Qed.

Lemma get_amap2 (f : T -> U -> V) A B i j :
  get (amap2 f A B) i j =
  match get A i j, get B i j with
  | Some a, Some b => Some (f a b)
  | _, _ => None
  end.
Proof.
  unfold get, amap2. rewrite lookup_zip_with.
  destruct (A !! i) as [ra|]; simpl; [|reflexivity].
  destruct (B !! i) as [rb|]; simpl.
  - rewrite lookup_zip_with.
    destruct (ra !! j), (rb !! j); reflexivity.
  - destruct (ra !! j); reflexivity.
Qed.

Lemma get_afull nz nr (x : T) i j :
  (i < nz)%nat -> (j < nr)%nat -> get (afull nz nr x) i j = Some x.
Proof.
  intros Hi Hj. unfold get, afull.
  rewrite lookup_replicate_2 by assumption.
  apply lookup_replicate_2; assumption.
Qed.

Lemma shaped_get nz nr (A : arr2 T) i j :
  shaped nz nr A -> (i < nz)%nat -> (j < nr)%nat -> is_Some (get A i j).
Proof.
  intros [Hl Hr] Hi Hj. unfold get.
  destruct (lookup_lt_is_Some_2 A i) as [row Hrow]; [lia|].
  rewrite Hrow. apply lookup_lt_is_Some_2.
  rewrite Forall_lookup in Hr. rewrite (Hr _ _ Hrow). exact Hj.
Qed.

Lemma get_shaped_lt nz nr (A : arr2 T) i j x :
  shaped nz nr A -> get A i j = Some x -> (i < nz)%nat /\ (j < nr)%nat.
Proof.
  intros [Hl Hr]. unfold get.
  destruct (A !! i) as [row|] eqn:Hrow; [|discriminate].
  intros Hj. split.
  - rewrite <- Hl. eapply lookup_lt_Some; eassumption.
  - rewrite Forall_lookup in Hr. rewrite <- (Hr _ _ Hrow).
    eapply lookup_lt_Some; eassumption.
Qed.

Lemma shaped_amap nz nr (f : T -> U) A :
  shaped nz nr A -> shaped nz nr (amap f A).
Proof.
  intros [Hl Hr]. split.
  - unfold amap. rewrite length_fmap. exact Hl.
  - unfold amap. rewrite Forall_lookup. intros i row.
    rewrite list_lookup_fmap.
    destruct (A !! i) as [r0|] eqn:E; simpl; [|discriminate].
    intros [= <-]. rewrite length_fmap.
    rewrite Forall_lookup in Hr. eauto.
Qed.

Lemma shaped_amap2 nz nr (f : T -> U -> V) A B :
  shaped nz nr A -> shaped nz nr B -> shaped nz nr (amap2 f A B).
Proof.
  intros [Hl Hr] [Hl' Hr']. split.
  - unfold amap2. rewrite length_zip_with. lia.
  - unfold amap2. rewrite Forall_lookup. intros i row.
    rewrite lookup_zip_with.
    destruct (A !! i) as [ra|] eqn:Ea; simpl; [|discriminate].
    destruct (B !! i) as [rb|] eqn:Eb; simpl; [|discriminate].
    intros [= <-]. rewrite length_zip_with.
    rewrite Forall_lookup in Hr. rewrite Forall_lookup in Hr'.
    rewrite (Hr _ _ Ea), (Hr' _ _ Eb). lia.
Qed.

Lemma shaped_afull nz nr (x : T) : shaped nz nr (afull nz nr x).
Proof.
  split.
  - apply length_replicate.
  - unfold afull. apply Forall_replicate, length_replicate.
Qed.

(** Two arrays of one shape with the same entries are the same array. *)
Lemma arr2_ext nz nr (A B : arr2 T) :
  shaped nz nr A -> shaped nz nr B ->
  (forall i j, (i < nz)%nat -> (j < nr)%nat -> get A i j = get B i j) ->
  A = B.
Proof.
  intros [Hl Hr] [Hl' Hr'] H.
  apply list_eq. intros i.
  destruct (A !! i) as [ra|] eqn:Ea.
  - assert (Hi : (i < nz)%nat) by (rewrite <- Hl; eapply lookup_lt_Some; eauto).
    destruct (lookup_lt_is_Some_2 B i) as [rb Eb]; [lia|].
    rewrite Eb. f_equal. apply list_eq. intros j.
    rewrite Forall_lookup in Hr. rewrite Forall_lookup in Hr'.
    pose proof (Hr _ _ Ea) as La. pose proof (Hr' _ _ Eb) as Lb.
    destruct (decide (j < nr)%nat) as [Hj|Hj].
    + specialize (H i j Hi Hj). unfold get in H.
      rewrite Ea, Eb in H. exact H.
    + rewrite !lookup_ge_None_2 by lia. reflexivity.
  - symmetry. apply lookup_ge_None_2.
    apply lookup_ge_None_1 in Ea. lia.
Qed.

End ArrLemmas.

Create HintDb shape.
#[export] Hint Resolve shaped_amap shaped_amap2 shaped_afull : shape.

Section NpLemmas.
Context {T : Type}.

Lemma assign_same_shape nz nr (dst src : arr2 T) :
  shaped nz nr dst -> shaped nz nr src -> assign dst src = src.
Proof.
  intros Hd Hs. apply (arr2_ext nz nr); [unfold assign; auto with shape|exact Hs|].
  intros i j Hi Hj. unfold assign. rewrite get_amap2.
  destruct (shaped_get nz nr dst i j Hd Hi Hj) as [x ->].
  destruct (get src i j); reflexivity.
Qed.

Lemma get_fill (dst : arr2 T) (x : T) i j :
  get (fill dst x) i j = (fun _ => x) <$> get dst i j.
Proof. apply get_amap. Qed.

End NpLemmas.

Lemma shaped_zeros nz nr : shaped nz nr (zeros nz nr).
Proof. apply shaped_afull. Qed.
#[export] Hint Resolve shaped_zeros : shape.

(** Equal arrays have equal sums; the sum of an array is determined by
    its cells. *)
Lemma rsum_ext nz nr (A B : arr2 R) :
  shaped nz nr A -> shaped nz nr B ->
  (forall i j, (i < nz)%nat -> (j < nr)%nat -> get A i j = get B i j) ->
  rsum A = rsum B.
Proof. intros HA HB H. rewrite (arr2_ext nz nr A B HA HB H). reflexivity. Qed.

Lemma at2_get {T} `{Inhabited T} nz nr (A : arr2 T) i j :
  shaped nz nr A -> (i < nz)%nat -> (j < nr)%nat ->
  get A i j = Some (at2 A i j).
Proof.
  intros HA Hi Hj. unfold at2.
  destruct (shaped_get nz nr A i j HA Hi Hj) as [x ->]. reflexivity.
Qed.

Section At2Lemmas.
Context {T U V : Type} `{Inhabited T, Inhabited U, Inhabited V}.

Lemma at2_amap nz nr (f : T -> U) (A : arr2 T) i j :
  shaped nz nr A -> (i < nz)%nat -> (j < nr)%nat ->
  at2 (amap f A) i j = f (at2 A i j).
Proof.
  intros HA Hi Hj. unfold at2 at 1. rewrite get_amap.
  rewrite (at2_get nz nr A i j HA Hi Hj). reflexivity.
Qed.

Lemma at2_amap2 nz nr (f : T -> U -> V) (A : arr2 T) (B : arr2 U) i j :
  shaped nz nr A -> shaped nz nr B -> (i < nz)%nat -> (j < nr)%nat ->
  at2 (amap2 f A B) i j = f (at2 A i j) (at2 B i j).
Proof.
  intros HA HB Hi Hj. unfold at2 at 1. rewrite get_amap2.
  rewrite (at2_get nz nr A i j HA Hi Hj).
  rewrite (at2_get nz nr B i j HB Hi Hj). reflexivity.
Qed.

End At2Lemmas.

Lemma at2_afull {T} `{Inhabited T} nz nr (x : T) i j :
  (i < nz)%nat -> (j < nr)%nat -> at2 (afull nz nr x) i j = x.
Proof. intros Hi Hj. unfold at2. rewrite get_afull by assumption. reflexivity. Qed.

(** Two arrays of one shape that agree cell by cell are equal. *)
Lemma arr2_ext_at2 {T} `{Inhabited T} nz nr (A B : arr2 T) :
  shaped nz nr A -> shaped nz nr B ->
  (forall i j, (i < nz)%nat -> (j < nr)%nat -> at2 A i j = at2 B i j) ->
  A = B.
Proof.
  intros HA HB Hpt. apply (arr2_ext nz nr); try assumption.
  intros i j Hi Hj.
  rewrite (at2_get nz nr A i j HA Hi Hj), (at2_get nz nr B i j HB Hi Hj).
  f_equal. apply Hpt; assumption.
Qed.

(** Decimal literals of the source, as fractions. *)
Lemma dec_0_5 : 0.5 = 1 / 2.
Proof. lra. Qed.
Lemma dec_m0_5 : -0.5 = - (1 / 2).
Proof. lra. Qed.
Lemma dec_0_25 : 0.25 = 1 / 4.
Proof. lra. Qed.
Lemma dec_0_75 : 0.75 = 3 / 4.
Proof. lra. Qed.
Lemma dec_1_25 : 1.25 = 5 / 4.
Proof. lra. Qed.

Ltac decimals := rewrite ?dec_0_5, ?dec_m0_5, ?dec_0_25, ?dec_0_75, ?dec_1_25 in *.

(** Unfolds numpy's operators to [amap] and [amap2]; [at2_simpl nz nr]
    then pushes a cell access [at2 _ i j] down to the arrays the
    expression is built from. *)
Ltac np_unfold :=
  unfold cadd, csub, cmul, cscal, cscalr, radd, rsub, rmul, rscal, rscalr,
    rneg, rsq, rinv, rsubl, upcast, req, band, where_, mask_set, assign,
    fill, np_sqrt, np_cos, np_sin, zeros in *.

Ltac at2_simpl nz nr :=
  repeat first
    [ rewrite (at2_amap2 nz nr) by (auto 30 with shape)
    | rewrite (at2_amap nz nr) by (auto 30 with shape)
    | rewrite (at2_afull nz nr) by assumption ].

Lemma Return_inj {A} (a b : A) : Return a = Return b -> a = b.
Proof. intros Heq. injection Heq. exact (fun e => e). Qed.

(** Runs the monadic code of a method on an object. *)
Ltac run :=
  unfold exec, returns, for_range, mbind, M_bind, bind, modify, raise, ret,
    mret, M_ret, self in *; simpl.

(** ** [SpectralGrid]: shapes *)

Ltac shapes H :=
  destruct H as (Hkz & Hkr & HEp & HEm & HEz & HBp & HBm & HBz & HJp & HJm
                 & HJz & Hrp & Hrn & HF & Hik & Hfa).

(** ** [SpectralGrid.push_rho] *)

(** C5. After [push_rho] the array [rho_prev] is the array [rho_next]
    held before the call, and [rho_next] is zero at every point: it is
    the zero array of the shape of the grid. The call returns. *)
Theorem push_rho_rotation (g : SpectralGrid.t) :
  SpectralGrid.well_shaped g ->
  returns SpectralGrid.push_rho g /\
  SpectralGrid.rho_prev (exec SpectralGrid.push_rho g)
    = SpectralGrid.rho_next g /\
  SpectralGrid.rho_next (exec SpectralGrid.push_rho g)
    = zeros (SpectralGrid.Nz g) (SpectralGrid.Nr g) /\
  (forall i j, (i < SpectralGrid.Nz g)%nat -> (j < SpectralGrid.Nr g)%nat ->
     at2 (SpectralGrid.rho_next (exec SpectralGrid.push_rho g)) i j = RtoC 0).
Proof.
  intros Hg. shapes Hg.
  unfold SpectralGrid.push_rho. run.
  split; [eexists; reflexivity|].
  split; [eapply assign_same_shape; eassumption|].
  assert (Hz : forall i j, (i < SpectralGrid.Nz g)%nat ->
                           (j < SpectralGrid.Nr g)%nat ->
            at2 (fill (SpectralGrid.rho_next g) (RtoC 0)) i j = RtoC 0).
  { intros i j Hi Hj. np_unfold.
    at2_simpl (SpectralGrid.Nz g) (SpectralGrid.Nr g). reflexivity. }
  split; [|exact Hz].
  apply (arr2_ext_at2 (SpectralGrid.Nz g) (SpectralGrid.Nr g)).
  - np_unfold. auto with shape.
  - auto with shape.
  - intros i j Hi Hj. rewrite Hz by assumption.
    np_unfold. at2_simpl (SpectralGrid.Nz g) (SpectralGrid.Nr g). reflexivity.
Qed.

Lemma shaped_make_inv_k2 nz nr kz kr :
  shaped nz nr kz -> shaped nz nr kr ->
  shaped nz nr (SpectralGrid.make_inv_k2 kz kr).
Proof.
  intros. unfold SpectralGrid.make_inv_k2, SpectralGrid.inv_k2_denominator.
  np_unfold. auto 20 with shape.
Qed.
#[export] Hint Resolve shaped_make_inv_k2 : shape.

Lemma shaped_concrete_2_2 {T} (a b c d : T) : shaped 2 2 [[a; b]; [c; d]].
Proof. split; [reflexivity|repeat constructor]. Qed.
#[export] Hint Resolve shaped_concrete_2_2 : shape.

Lemma sample_grid_invariant : SpectralGrid.invariant Samples.grid.
Proof.
  split; [|reflexivity].
  unfold SpectralGrid.well_shaped, Samples.grid; simpl.
  repeat match goal with |- _ /\ _ => split end; auto with shape.
Qed.

Lemma sample_grid_well_shaped : SpectralGrid.well_shaped Samples.grid.
Proof. exact (proj1 sample_grid_invariant). Qed.

Lemma push_rho_rotation_witness :
  SpectralGrid.rho_prev (exec SpectralGrid.push_rho Samples.grid)
    = SpectralGrid.rho_next Samples.grid.
Proof.
  exact (proj1 (proj2 (push_rho_rotation Samples.grid sample_grid_well_shaped))).
Defined.

(** ** [SpectralGrid.correct_currents] *)

Lemma Reqb_pos_false dt : 0 < dt -> Reqb dt 0 = false.
Proof. intros Hdt. apply Reqb_false. lra. Qed.

(** C9. [correct_currents] rewrites [Jp], [Jm], [Jz] and the scratch
    array [F] only: the fields [Ep], [Em], [Ez], [Bp], [Bm], [Bz] and the
    densities [rho_prev], [rho_next] are the arrays they were before
    the call, which returns. *)
Theorem correct_currents_frame (g : SpectralGrid.t) (dt : R) :
  0 < dt ->
  returns (SpectralGrid.correct_currents dt) g /\
  let g' := exec (SpectralGrid.correct_currents dt) g in
  SpectralGrid.Ep g' = SpectralGrid.Ep g /\
  SpectralGrid.Em g' = SpectralGrid.Em g /\
  SpectralGrid.Ez g' = SpectralGrid.Ez g /\
  SpectralGrid.Bp g' = SpectralGrid.Bp g /\
  SpectralGrid.Bm g' = SpectralGrid.Bm g /\
  SpectralGrid.Bz g' = SpectralGrid.Bz g /\
  SpectralGrid.rho_prev g' = SpectralGrid.rho_prev g /\
  SpectralGrid.rho_next g' = SpectralGrid.rho_next g.
Proof.
  intros Hdt. unfold SpectralGrid.correct_currents.
  rewrite (Reqb_pos_false dt Hdt). run.
  split; [eexists; reflexivity|]. repeat split; reflexivity.
Qed.

Lemma correct_currents_frame_witness :
  SpectralGrid.Ep (exec (SpectralGrid.correct_currents 1) Samples.grid)
    = SpectralGrid.Ep Samples.grid.
Proof.
  exact (proj1 (proj2 (correct_currents_frame Samples.grid 1 ltac:(lra)))).
Defined.

(** The cell of [inv_k2] that the constructor computes at a point of the
    mesh. *)
Lemma make_inv_k2_at nz nr (kz kr : arr2 R) i j :
  shaped nz nr kz -> shaped nz nr kr -> (i < nz)%nat -> (j < nr)%nat ->
  at2 (SpectralGrid.make_inv_k2 kz kr) i j =
  if Reqb (at2 kz i j) 0 && Reqb (at2 kr i j) 0 then 0
  else 1 / (at2 kz i j ^ 2 + at2 kr i j ^ 2).
Proof.
  intros Hkz Hkr Hi Hj.
  unfold SpectralGrid.make_inv_k2, SpectralGrid.inv_k2_denominator.
  np_unfold. at2_simpl nz nr.
  destruct (Reqb (at2 kz i j) 0 && Reqb (at2 kr i j) 0); reflexivity.
Qed.

Lemma sum_squares_zero (x y : R) : x ^ 2 + y ^ 2 = 0 <-> x = 0 /\ y = 0.
Proof.
  split.
  - intros Hs. split; nra.
  - intros [-> ->]. ring.
Qed.

Lemma both_zero_test (x y : R) :
  Reqb x 0 && Reqb y 0 = false <-> x ^ 2 + y ^ 2 <> 0.
Proof.
  rewrite sum_squares_zero. rewrite andb_false_iff, !Reqb_false. split.
  - intros [Hx|Hy] [Hx' Hy']; contradiction.
  - intros Hn. destruct (Req_dec_T x 0) as [->|Hx]; [right|left; exact Hx].
    intros ->. apply Hn. split; reflexivity.
Qed.

(** The algebra of the correction at one point: with [q (kz^2 + kr^2) = 1]
    the corrected currents cancel the residual [D] they were computed
    from. *)
Lemma continuity_point (X Jp Jm Jz : complex) (kz kr q : R) :
  q * (kz ^ 2 + kr ^ 2) = 1 ->
  let F := (RtoC (- q) * (X + 1j * RtoC kz * Jz + RtoC kr * (Jp - Jm)))%cx in
  (X + 1j * RtoC kz * (Jz + - 1j * RtoC kz * F)
   + RtoC kr * (Jp + RtoC (0.5 * kr) * F - (Jm + RtoC (-0.5 * kr) * F)))%cx
  = RtoC 0.
Proof.
  intros Hq F; subst F.
  destruct X as [x1 x2], Jp as [jp1 jp2], Jm as [jm1 jm2], Jz as [jz1 jz2].
  Csplit.
  all: decimals.
  - transitivity ((x1 - kz * jz2 + kr * (jp1 - jm1))
                  * (1 - q * (kz ^ 2 + kr ^ 2))); [field|rewrite Hq; ring].
  - transitivity ((x2 + kz * jz1 + kr * (jp2 - jm2))
                  * (1 - q * (kz ^ 2 + kr ^ 2))); [field|rewrite Hq; ring].
Qed.

(** The state [correct_currents] leaves, array by array. *)
Lemma correct_currents_state (g : SpectralGrid.t) (dt : R) :
  0 < dt ->
  let g' := exec (SpectralGrid.correct_currents dt) g in
  let F' := assign (SpectralGrid.F g)
    (⇑(rneg (SpectralGrid.inv_k2 g)) ⊠ SpectralGrid.continuity_residual dt g) in
  fst (SpectralGrid.correct_currents dt g) = Return tt /\
  (SpectralGrid.Nz g' = SpectralGrid.Nz g /\
   SpectralGrid.Nr g' = SpectralGrid.Nr g /\
   SpectralGrid.kz g' = SpectralGrid.kz g /\
   SpectralGrid.kr g' = SpectralGrid.kr g /\
   SpectralGrid.inv_k2 g' = SpectralGrid.inv_k2 g /\
   SpectralGrid.filter_array g' = SpectralGrid.filter_array g /\
   SpectralGrid.rho_prev g' = SpectralGrid.rho_prev g /\
   SpectralGrid.rho_next g' = SpectralGrid.rho_next g) /\
  (SpectralGrid.Ep g' = SpectralGrid.Ep g /\
   SpectralGrid.Em g' = SpectralGrid.Em g /\
   SpectralGrid.Ez g' = SpectralGrid.Ez g /\
   SpectralGrid.Bp g' = SpectralGrid.Bp g /\
   SpectralGrid.Bm g' = SpectralGrid.Bm g /\
   SpectralGrid.Bz g' = SpectralGrid.Bz g) /\
  SpectralGrid.F g' = F' /\
  SpectralGrid.Jp g' = SpectralGrid.Jp g ⊞ ⇑(0.5 ⊙ SpectralGrid.kr g) ⊠ F' /\
  SpectralGrid.Jm g' = SpectralGrid.Jm g ⊞ ⇑((- 0.5) ⊙ SpectralGrid.kr g) ⊠ F' /\
  SpectralGrid.Jz g' = SpectralGrid.Jz g
                       ⊞ (Copp 1j) ⊡ ⇑(SpectralGrid.kz g) ⊠ F'.
Proof.
  intros Hdt. cbv zeta. unfold SpectralGrid.correct_currents, exec.
  rewrite (Reqb_pos_false dt Hdt).
  repeat match goal with |- _ /\ _ => split end; reflexivity.
Qed.

Lemma correct_currents_invariant (g : SpectralGrid.t) (dt : R) :
  SpectralGrid.invariant g -> 0 < dt ->
  SpectralGrid.invariant (exec (SpectralGrid.correct_currents dt) g).
Proof.
  intros [Hg Hinv] Hdt. shapes Hg.
  destruct (correct_currents_state g dt Hdt)
    as (_ & (E1 & E2 & E3 & E4 & E5 & E6 & E7 & E8)
        & (A1 & A2 & A3 & A4 & A5 & A6) & EF & EJp & EJm & EJz).
  cbv zeta in *.
  assert (HF' : shaped (SpectralGrid.Nz g) (SpectralGrid.Nr g)
            (assign (SpectralGrid.F g)
               (⇑(rneg (SpectralGrid.inv_k2 g))
                ⊠ SpectralGrid.continuity_residual dt g))).
  { unfold SpectralGrid.continuity_residual. np_unfold. auto 40 with shape. }
  split.
  - unfold SpectralGrid.well_shaped.
    rewrite E1, E2, E3, E4, E5, E6, E7, E8, A1, A2, A3, A4, A5, A6, EF, EJp,
      EJm, EJz.
    repeat match goal with |- _ /\ _ => split end; try assumption;
      np_unfold; auto 40 with shape.
  - rewrite E3, E4, E5. exact Hinv.
Qed.

(** After the correction the residual is zero wherever [k] is not. *)
Lemma corrected_residual_at (g : SpectralGrid.t) (dt : R) (i j : nat) :
  SpectralGrid.invariant g -> 0 < dt ->
  (i < SpectralGrid.Nz g)%nat -> (j < SpectralGrid.Nr g)%nat ->
  at2 (SpectralGrid.kz g) i j ^ 2 + at2 (SpectralGrid.kr g) i j ^ 2 <> 0 ->
  at2 (SpectralGrid.continuity_residual dt
         (exec (SpectralGrid.correct_currents dt) g)) i j = RtoC 0.
Proof.
  intros [Hg Hinv] Hdt Hi Hj Hk. shapes Hg.
  unfold SpectralGrid.correct_currents.
  rewrite (Reqb_pos_false dt Hdt). run.
  unfold SpectralGrid.continuity_residual; simpl.
  np_unfold. at2_simpl (SpectralGrid.Nz g) (SpectralGrid.Nr g).
  rewrite Hinv.
  rewrite (make_inv_k2_at (SpectralGrid.Nz g) (SpectralGrid.Nr g)) by assumption.
  apply both_zero_test in Hk as Hb. rewrite Hb.
  apply continuity_point. field. exact Hk.
Qed.

(** The same, with the residual read as [A[i, j]]: the point is inside
    the array. *)
Lemma corrected_residual_get (g : SpectralGrid.t) (dt : R) (i j : nat) :
  SpectralGrid.invariant g -> 0 < dt ->
  (i < SpectralGrid.Nz g)%nat -> (j < SpectralGrid.Nr g)%nat ->
  at2 (SpectralGrid.kz g) i j ^ 2 + at2 (SpectralGrid.kr g) i j ^ 2 <> 0 ->
  get (SpectralGrid.continuity_residual dt
         (exec (SpectralGrid.correct_currents dt) g)) i j = Some (RtoC 0).
Proof.
  intros Hinv Hdt Hi Hj Hk.
  rewrite <- (corrected_residual_at g dt i j Hinv Hdt Hi Hj Hk).
  destruct (correct_currents_invariant g dt Hinv Hdt) as [Hg' _].
  destruct (correct_currents_state g dt Hdt) as (_ & (E1 & E2 & _) & _).
  cbv zeta in E1, E2.
  shapes Hg'. rewrite E1, E2 in *.
  apply (at2_get (SpectralGrid.Nz g) (SpectralGrid.Nr g)); try assumption.
  unfold SpectralGrid.continuity_residual. np_unfold. auto 40 with shape.
Qed.

(** C1. For a grid in the state its constructor and methods leave it in
    and a time step [dt > 0], [correct_currents] returns and leaves the
    grid in such a state again, with the sizes, the meshes and the charge
    densities it had; and the continuity residual
    [(rho_next - rho_prev)/dt + i kz Jz + kr (Jp - Jm)] recomputed from
    the corrected currents holds zero at every point of the grid where
    [kz^2 + kr^2] is not zero. *)
Theorem correct_currents_continuity (g : SpectralGrid.t) (dt : R) (i j : nat) :
  SpectralGrid.invariant g ->
  0 < dt ->
  (i < SpectralGrid.Nz g)%nat -> (j < SpectralGrid.Nr g)%nat ->
  at2 (SpectralGrid.kz g) i j ^ 2 + at2 (SpectralGrid.kr g) i j ^ 2 <> 0 ->
  let g' := exec (SpectralGrid.correct_currents dt) g in
  returns (SpectralGrid.correct_currents dt) g /\
  SpectralGrid.invariant g' /\
  SpectralGrid.Nz g' = SpectralGrid.Nz g /\
  SpectralGrid.Nr g' = SpectralGrid.Nr g /\
  SpectralGrid.kz g' = SpectralGrid.kz g /\
  SpectralGrid.kr g' = SpectralGrid.kr g /\
  SpectralGrid.rho_prev g' = SpectralGrid.rho_prev g /\
  SpectralGrid.rho_next g' = SpectralGrid.rho_next g /\
  get (SpectralGrid.continuity_residual dt g') i j = Some (RtoC 0).
Proof.
  intros Hinv Hdt Hi Hj Hk. cbv zeta.
  destruct (correct_currents_state g dt Hdt)
    as (Hret & (E1 & E2 & E3 & E4 & _ & _ & E7 & E8) & _).
  cbv zeta in *.
  split.
  { unfold returns. unfold exec.
    destruct (SpectralGrid.correct_currents dt g) as [o g1].
    cbn [fst snd] in *. rewrite Hret. eexists. reflexivity. }
  split; [exact (correct_currents_invariant g dt Hinv Hdt)|].
  repeat (split; [assumption|]).
  exact (corrected_residual_get g dt i j Hinv Hdt Hi Hj Hk).
Qed.

(** C4. At every point of the grid where [kz = 0] and [kr = 0] the array
    [inv_k2] holds 0, the array it was obtained from by division holds 1
    there (no division by zero takes place), and [correct_currents]
    leaves the entries of [Jp], [Jm] and [Jz] at that point as they
    were. *)
Theorem correct_currents_zero_mode (g : SpectralGrid.t) (dt : R) (i j : nat) :
  SpectralGrid.invariant g ->
  0 < dt ->
  (i < SpectralGrid.Nz g)%nat -> (j < SpectralGrid.Nr g)%nat ->
  at2 (SpectralGrid.kz g) i j = 0 -> at2 (SpectralGrid.kr g) i j = 0 ->
  at2 (SpectralGrid.inv_k2 g) i j = 0 /\
  at2 (SpectralGrid.inv_k2_denominator (SpectralGrid.kz g) (SpectralGrid.kr g))
      i j = 1 /\
  let g' := exec (SpectralGrid.correct_currents dt) g in
  at2 (SpectralGrid.Jp g') i j = at2 (SpectralGrid.Jp g) i j /\
  at2 (SpectralGrid.Jm g') i j = at2 (SpectralGrid.Jm g) i j /\
  at2 (SpectralGrid.Jz g') i j = at2 (SpectralGrid.Jz g) i j.
Proof.
  intros [Hg Hinv] Hdt Hi Hj Hkz0 Hkr0. shapes Hg.
  assert (Hb : Reqb (at2 (SpectralGrid.kz g) i j) 0
               && Reqb (at2 (SpectralGrid.kr g) i j) 0 = true).
  { apply andb_true_iff. split; apply Reqb_true; assumption. }
  split; [|split].
  - rewrite Hinv.
    rewrite (make_inv_k2_at (SpectralGrid.Nz g) (SpectralGrid.Nr g)) by assumption.
    rewrite Hb. reflexivity.
  - unfold SpectralGrid.inv_k2_denominator. np_unfold.
    at2_simpl (SpectralGrid.Nz g) (SpectralGrid.Nr g).
    rewrite Hb. reflexivity.
  - unfold SpectralGrid.correct_currents.
    rewrite (Reqb_pos_false dt Hdt). run.
    np_unfold. at2_simpl (SpectralGrid.Nz g) (SpectralGrid.Nr g).
    rewrite Hkz0, Hkr0.
    destruct (at2 (SpectralGrid.rho_next g) i j) as [rn1 rn2].
    destruct (at2 (SpectralGrid.rho_prev g) i j) as [rp1 rp2].
    destruct (at2 (SpectralGrid.Jp g) i j) as [jp1 jp2].
    destruct (at2 (SpectralGrid.Jm g) i j) as [jm1 jm2].
    destruct (at2 (SpectralGrid.Jz g) i j) as [jz1 jz2].
    repeat split; Csplit; decimals; ring.
Qed.

(** *** The constructor establishes the invariant *)

Lemma shaped_meshgrid_ij (kz kr : list R) :
  shaped (length kz) (length kr) (fst (meshgrid_ij kz kr)) /\
  shaped (length kz) (length kr) (snd (meshgrid_ij kz kr)).
Proof.
  unfold meshgrid_ij; simpl. split; split.
  - apply length_fmap.
  - apply Forall_fmap, Forall_forall. intros z _. simpl. apply length_fmap.
  - apply length_fmap.
  - apply Forall_fmap, Forall_forall. intros z _. reflexivity.
Qed.

Lemma shaped_outer (u v : list R) : shaped (length u) (length v) (outer u v).
Proof.
  unfold outer. split.
  - apply length_fmap.
  - apply Forall_fmap, Forall_forall. intros x _. simpl. apply length_fmap.
Qed.

Lemma get_filter_array_shaped kz kr fa :
  get_filter_array kz kr = Return fa -> shaped (length kz) (length kr) fa.
Proof.
  unfold get_filter_array.
  destruct (np_max kz); [|discriminate].
  destruct (np_max kr); [|discriminate].
  intros [= <-].
  pose proof (shaped_outer
    (fmap (M := list) (fun k => 1 - sin (k * (1 / a * PI / 2)) ^ 2) kz)
    (fmap (M := list) (fun k => 1 - sin (k * (1 / a0 * PI / 2)) ^ 2) kr)) as Hs.
  rewrite !length_fmap in Hs. exact Hs.
Qed.

Lemma init_invariant kz kr m g :
  SpectralGrid.init kz kr m = Return g -> SpectralGrid.invariant g.
Proof.
  unfold SpectralGrid.init.
  destruct (shaped_meshgrid_ij kz kr) as [Hz Hr].
  destruct (meshgrid_ij kz kr) as [kz2 kr2]; simpl in Hz, Hr.
  destruct (get_filter_array kz kr) as [fa|] eqn:Hfa; [|discriminate].
  apply get_filter_array_shaped in Hfa.
  intros [= <-]. split; [|reflexivity].
  unfold SpectralGrid.well_shaped; simpl.
  repeat match goal with |- _ /\ _ => split end;
    first [apply shaped_zeros | apply Hz | apply Hr | apply Hfa
          | apply shaped_make_inv_k2; assumption].
Qed.

Lemma at2_sample_2_2 {T} `{Inhabited T} (a b c d : T) :
  at2 [[a; b]; [c; d]] 0 0 = a /\ at2 [[a; b]; [c; d]] 0 1 = b /\
  at2 [[a; b]; [c; d]] 1 0 = c /\ at2 [[a; b]; [c; d]] 1 1 = d.
Proof. repeat split; reflexivity. Qed.

Lemma correct_currents_continuity_witness :
  0 < 1 /\
  let g' := exec (SpectralGrid.correct_currents 1) Samples.grid in
  shaped 2 2 (SpectralGrid.Jp g') /\
  get (SpectralGrid.continuity_residual 1 g') 1 1 = Some (RtoC 0).
Proof.
  split; [lra|]. cbv zeta.
  destruct (correct_currents_continuity Samples.grid 1 1 1)
    as (_ & [Hg' _] & E1 & E2 & _ & _ & _ & _ & Hres).
  - exact sample_grid_invariant.
  - lra.
  - simpl; lia.
  - simpl; lia.
  - unfold at2, get; simpl. lra.
  - split; [|exact Hres].
    shapes Hg'. rewrite E1, E2 in HJp. exact HJp.
Defined.

Lemma correct_currents_zero_mode_witness :
  at2 (SpectralGrid.kz Samples.grid) 0 0 = 0 /\
  at2 (SpectralGrid.kr Samples.grid) 0 0 = 0 /\
  at2 (SpectralGrid.inv_k2 Samples.grid) 0 0 = 0 /\
  at2 (SpectralGrid.Jp (exec (SpectralGrid.correct_currents 1) Samples.grid)) 0 0
    = (1, 2).
Proof.
  assert (Hz : at2 (SpectralGrid.kz Samples.grid) 0 0 = 0) by reflexivity.
  assert (Hr : at2 (SpectralGrid.kr Samples.grid) 0 0 = 0) by reflexivity.
  destruct (correct_currents_zero_mode Samples.grid 1 0 0
              sample_grid_invariant ltac:(lra) ltac:(simpl; lia)
              ltac:(simpl; lia) Hz Hr) as (H0 & _ & HJ).
  cbv zeta in HJ. destruct HJ as (HJp & _).
  split; [exact Hz|]. split; [exact Hr|]. split; [exact H0|].
  rewrite HJp. reflexivity.
Defined.

(** ** [PsatdCoeffs.__init__] *)

Section Psatd.
Context `{Constants}.

(** The angular frequency at a point of the mesh. *)
Lemma omega_at nz nr (kz kr : arr2 R) i j :
  shaped nz nr kz -> shaped nz nr kr -> (i < nz)%nat -> (j < nr)%nat ->
  at2 (PsatdCoeffs.omega kz kr) i j
    = c * sqrt (at2 kz i j ^ 2 + at2 kr i j ^ 2).
Proof.
  intros Hkz Hkr Hi Hj. unfold PsatdCoeffs.omega. np_unfold.
  at2_simpl nz nr. reflexivity.
Qed.

Lemma shaped_omega nz nr (kz kr : arr2 R) :
  shaped nz nr kz -> shaped nz nr kr -> shaped nz nr (PsatdCoeffs.omega kz kr).
Proof. intros. unfold PsatdCoeffs.omega. np_unfold. auto 10 with shape. Qed.

(** C3. For meshes [kz], [kr] of one shape, a mode [m] and [dt > 0] the
    constructor returns an object whose coefficient arrays hold, at every
    point, with [w = c sqrt(kz^2 + kr^2)]: [C = cos(w dt)]; where [w] is
    not zero, [S_w = sin(w dt)/w], [j_coef = mu_0 c^2 (1 - C)/w^2],
    [rho_prev_coef = (c^2/epsilon_0) (C - S_w/dt)/w^2] and
    [rho_next_coef = (c^2/epsilon_0) (1 - S_w/dt)/w^2]; where [w] is
    zero, the closed forms [S_w = dt], [j_coef = mu_0 c^2 dt^2/2],
    [rho_prev_coef = - (c^2/epsilon_0) dt^2/3] and
    [rho_next_coef = (c^2/epsilon_0) dt^2/6]. The array the constructor
    divides by holds [w] where [w] is not zero and 1 where it is: no
    division by [w = 0] takes place. *)
Theorem psatd_coefficients (kz kr : arr2 R) (m : nat) (dt : R) (Nz Nr : nat) :
  shaped Nz Nr kz -> shaped Nz Nr kr -> 0 < dt ->
  exists ps,
    PsatdCoeffs.init kz kr m dt Nz Nr = Return ps /\
    PsatdCoeffs.m ps = m /\ PsatdCoeffs.dt ps = dt /\
    forall i j, (i < Nz)%nat -> (j < Nr)%nat ->
      let w := c * sqrt (at2 kz i j ^ 2 + at2 kr i j ^ 2) in
      let C := at2 (PsatdCoeffs.C ps) i j in
      let S_w := at2 (PsatdCoeffs.S_w ps) i j in
      C = cos (w * dt) /\
      at2 (PsatdCoeffs.inv_w_denominator (PsatdCoeffs.omega kz kr)) i j <> 0 /\
      (w <> 0 ->
         at2 (PsatdCoeffs.inv_w_denominator (PsatdCoeffs.omega kz kr)) i j = w /\
         S_w = sin (w * dt) / w /\
         at2 (PsatdCoeffs.j_coef ps) i j = mu_0 * c ^ 2 * (1 - C) / w ^ 2 /\
         at2 (PsatdCoeffs.rho_prev_coef ps) i j
           = c ^ 2 / epsilon_0 * (C - S_w / dt) / w ^ 2 /\
         at2 (PsatdCoeffs.rho_next_coef ps) i j
           = c ^ 2 / epsilon_0 * (1 - S_w / dt) / w ^ 2) /\
      (w = 0 ->
         at2 (PsatdCoeffs.inv_w_denominator (PsatdCoeffs.omega kz kr)) i j = 1 /\
         S_w = dt /\
         at2 (PsatdCoeffs.j_coef ps) i j = mu_0 * c ^ 2 * dt ^ 2 / 2 /\
         at2 (PsatdCoeffs.rho_prev_coef ps) i j
           = - (c ^ 2 / epsilon_0) * dt ^ 2 / 3 /\
         at2 (PsatdCoeffs.rho_next_coef ps) i j
           = c ^ 2 / epsilon_0 * dt ^ 2 / 6).
Proof.
  intros Hkz Hkr Hdt. unfold PsatdCoeffs.init.
  rewrite (Reqb_pos_false dt Hdt).
  eexists. split; [reflexivity|].
  cbn [PsatdCoeffs.m PsatdCoeffs.dt PsatdCoeffs.C PsatdCoeffs.S_w
       PsatdCoeffs.j_coef PsatdCoeffs.rho_prev_coef PsatdCoeffs.rho_next_coef].
  split; [reflexivity|]. split; [reflexivity|].
  intros i j Hi Hj.
  pose proof (shaped_omega Nz Nr kz kr Hkz Hkr) as Hw.
  pose proof (omega_at Nz Nr kz kr i j Hkz Hkr Hi Hj) as Ew.
  unfold PsatdCoeffs.inv_w_denominator.
  np_unfold. at2_simpl Nz Nr. rewrite Ew.
  remember (c * sqrt (at2 kz i j ^ 2 + at2 kr i j ^ 2)) as w eqn:Hwdef.
  clear Hwdef Ew.
  split; [reflexivity|].
  generalize (c ^ 2 / epsilon_0). intros k.
  destruct (Reqb w 0) eqn:Hb.
  - apply Reqb_true in Hb. split; [lra|]. split; [intros Hn; contradiction|].
    intros _. decimals. repeat split; try reflexivity; field.
  - apply Reqb_false in Hb. split; [exact Hb|]. split; [|intros Hz; contradiction].
    intros _. repeat split; try reflexivity; field; repeat split; lra.
Qed.

End Psatd.

Lemma psatd_coefficients_witness :
  0 < 1 /\
  exists ps,
    PsatdCoeffs.init (H := Samples.scipy_constants)
      (SpectralGrid.kz Samples.grid) (SpectralGrid.kr Samples.grid) 0 1 2 2
      = Return ps /\
    at2 (PsatdCoeffs.S_w ps) 0 0 = 1.
Proof.
  split; [lra|].
  destruct (psatd_coefficients (H := Samples.scipy_constants)
              (SpectralGrid.kz Samples.grid) (SpectralGrid.kr Samples.grid)
              0 1 2 2) as (ps & Hps & _ & _ & Hpt).
  - apply shaped_concrete_2_2.
  - apply shaped_concrete_2_2.
  - lra.
  - exists ps. split; [exact Hps|].
    destruct (Hpt 0%nat 0%nat ltac:(lia) ltac:(lia)) as (_ & _ & _ & Hzero).
    apply Hzero.
    change (at2 (SpectralGrid.kz Samples.grid) 0 0) with 0.
    change (at2 (SpectralGrid.kr Samples.grid) 0 0) with 0.
    replace (0 ^ 2 + 0 ^ 2) with 0 by ring. rewrite sqrt_0. ring.
Defined.

(** ** [SpectralGrid.push_eb_with] without particle feedback *)

Section PushVacuum.
Context `{Constants}.

(** The coefficient arrays of the constructor have the shape of the
    meshes. *)
Lemma init_shapes kz kr m dt Nz Nr ps :
  shaped Nz Nr kz -> shaped Nz Nr kr ->
  PsatdCoeffs.init kz kr m dt Nz Nr = Return ps ->
  shaped Nz Nr (PsatdCoeffs.C ps) /\ shaped Nz Nr (PsatdCoeffs.S_w ps) /\
  shaped Nz Nr (PsatdCoeffs.j_coef ps) /\
  shaped Nz Nr (PsatdCoeffs.rho_prev_coef ps) /\
  shaped Nz Nr (PsatdCoeffs.rho_next_coef ps).
Proof.
  intros Hkz Hkr. unfold PsatdCoeffs.init.
  destruct (Reqb dt 0); [discriminate|].
  intros Heq. apply Return_inj in Heq. subst ps.
  pose proof (shaped_omega Nz Nr kz kr Hkz Hkr) as Hw.
  cbn [PsatdCoeffs.C PsatdCoeffs.S_w PsatdCoeffs.j_coef
       PsatdCoeffs.rho_prev_coef PsatdCoeffs.rho_next_coef].
  unfold PsatdCoeffs.inv_w_denominator. np_unfold.
  repeat match goal with |- _ /\ _ => split end; auto 30 with shape.
Qed.

(** [C] and [S_w] at a point of the mesh. *)
Lemma init_C_S_w_at kz kr m dt Nz Nr ps i j :
  shaped Nz Nr kz -> shaped Nz Nr kr ->
  PsatdCoeffs.init kz kr m dt Nz Nr = Return ps ->
  (i < Nz)%nat -> (j < Nr)%nat ->
  let w := c * sqrt (at2 kz i j ^ 2 + at2 kr i j ^ 2) in
  at2 (PsatdCoeffs.C ps) i j = cos (w * dt) /\
  at2 (PsatdCoeffs.S_w ps) i j = if Reqb w 0 then dt else sin (w * dt) / w.
Proof.
  intros Hkz Hkr. unfold PsatdCoeffs.init.
  destruct (Reqb dt 0); [discriminate|].
  intros Heq Hi Hj. apply Return_inj in Heq. subst ps.
  pose proof (shaped_omega Nz Nr kz kr Hkz Hkr) as Hw.
  pose proof (omega_at Nz Nr kz kr i j Hkz Hkr Hi Hj) as Ew.
  cbn [PsatdCoeffs.C PsatdCoeffs.S_w].
  unfold PsatdCoeffs.inv_w_denominator. np_unfold. at2_simpl Nz Nr.
  rewrite Ew. cbv zeta.
  generalize (c * sqrt (at2 kz i j ^ 2 + at2 kr i j ^ 2)). intros w.
  split; [reflexivity|].
  destruct (Reqb w 0) eqn:Hb; [reflexivity|].
  apply Reqb_false in Hb. field. exact Hb.
Qed.

(** The propagator is a rotation: [C^2 + w^2 S_w^2 = 1], also where
    [w = 0]. *)
Lemma propagator_unit (kz kr dt : R) :
  let w := c * sqrt (kz ^ 2 + kr ^ 2) in
  let S := if Reqb w 0 then dt else sin (w * dt) / w in
  cos (w * dt) ^ 2 + c ^ 2 * (kz ^ 2 + kr ^ 2) * S ^ 2 = 1.
Proof.
  intros w S.
  assert (Hw2 : c ^ 2 * (kz ^ 2 + kr ^ 2) = w ^ 2).
  { unfold w. rewrite Rpow_mult_distr. f_equal.
    assert (Hq : 0 <= kz ^ 2 + kr ^ 2) by nra.
    pose proof (sqrt_sqrt _ Hq) as Hs. rewrite <- Hs at 1. ring. }
  rewrite Hw2. unfold S.
  destruct (Reqb w 0) eqn:Hb.
  - apply Reqb_true in Hb. rewrite Hb. rewrite Rmult_0_l, cos_0. ring.
  - apply Reqb_false in Hb.
    replace (w ^ 2 * (sin (w * dt) / w) ^ 2) with (sin (w * dt) ^ 2)
      by (field; exact Hb).
    pose proof (sin2_cos2 (w * dt)) as Hsc. unfold Rsqr in Hsc. lra.
Qed.

Lemma exec_bind_self {S A} (k : S -> M S A) (s : S) :
  exec (s0 ← self; k s0) s = exec (k s) s.
Proof. reflexivity. Qed.

Lemma outcome_bind_self {S A} (k : S -> M S A) (s : S) :
  fst ((s0 ← self; k s0) s) = fst (k s s).
Proof. reflexivity. Qed.

(** The state [push_eb_with] leaves behind when it is called without
    particle feedback: every array it assigns, in terms of the arrays
    before the call. The scratch arrays of [ps] receive the old [E]; the
    new [E] is computed from the old [B], and the new [B] from the old
    [B] and the old [E] kept in the scratch arrays. *)
Lemma push_vacuum_state (g : SpectralGrid.t) (ps : PsatdCoeffs.t) (utr : bool) :
  SpectralGrid.m g = PsatdCoeffs.m ps ->
  let s' := exec (SpectralGrid.push_eb_with false utr) (g, ps) in
  let g' := fst s' in
  let ps' := snd s' in
  let sEp := assign (PsatdCoeffs.Ep ps) (SpectralGrid.Ep g) in
  let sEm := assign (PsatdCoeffs.Em ps) (SpectralGrid.Em g) in
  let sEz := assign (PsatdCoeffs.Ez ps) (SpectralGrid.Ez g) in
  let kz := SpectralGrid.kz g in
  let kr := SpectralGrid.kr g in
  let mih := (Copp 1j * RtoC 0.5)%cx in
  fst (SpectralGrid.push_eb_with false utr (g, ps)) = Return tt /\
  (SpectralGrid.Nz g' = SpectralGrid.Nz g /\
   SpectralGrid.Nr g' = SpectralGrid.Nr g /\
   SpectralGrid.m g' = SpectralGrid.m g /\
   SpectralGrid.kz g' = kz /\ SpectralGrid.kr g' = kr /\
   SpectralGrid.Jp g' = SpectralGrid.Jp g /\
   SpectralGrid.Jm g' = SpectralGrid.Jm g /\
   SpectralGrid.Jz g' = SpectralGrid.Jz g /\
   SpectralGrid.rho_prev g' = SpectralGrid.rho_prev g /\
   SpectralGrid.rho_next g' = SpectralGrid.rho_next g /\
   SpectralGrid.F g' = SpectralGrid.F g /\
   SpectralGrid.inv_k2 g' = SpectralGrid.inv_k2 g /\
   SpectralGrid.filter_array g' = SpectralGrid.filter_array g) /\
  (PsatdCoeffs.m ps' = PsatdCoeffs.m ps /\
   PsatdCoeffs.dt ps' = PsatdCoeffs.dt ps /\
   PsatdCoeffs.C ps' = PsatdCoeffs.C ps /\
   PsatdCoeffs.S_w ps' = PsatdCoeffs.S_w ps /\
   PsatdCoeffs.j_coef ps' = PsatdCoeffs.j_coef ps /\
   PsatdCoeffs.rho_prev_coef ps' = PsatdCoeffs.rho_prev_coef ps /\
   PsatdCoeffs.rho_next_coef ps' = PsatdCoeffs.rho_next_coef ps /\
   PsatdCoeffs.Ep ps' = sEp /\ PsatdCoeffs.Em ps' = sEm /\
   PsatdCoeffs.Ez ps' = sEz) /\
  SpectralGrid.Ep g' = assign (SpectralGrid.Ep g)
    (⇑(PsatdCoeffs.C ps) ⊠ SpectralGrid.Ep g
     ⊞ ⇑(c ^ 2 ⊙ PsatdCoeffs.S_w ps)
       ⊠ (mih ⊡ ⇑kr ⊠ SpectralGrid.Bz g ⊞ ⇑kz ⊠ SpectralGrid.Bp g)) /\
  SpectralGrid.Em g' = assign (SpectralGrid.Em g)
    (⇑(PsatdCoeffs.C ps) ⊠ SpectralGrid.Em g
     ⊞ ⇑(c ^ 2 ⊙ PsatdCoeffs.S_w ps)
       ⊠ (mih ⊡ ⇑kr ⊠ SpectralGrid.Bz g ⊟ ⇑kz ⊠ SpectralGrid.Bm g)) /\
  SpectralGrid.Ez g' = assign (SpectralGrid.Ez g)
    (⇑(PsatdCoeffs.C ps) ⊠ SpectralGrid.Ez g
     ⊞ ⇑(c ^ 2 ⊙ PsatdCoeffs.S_w ps)
       ⊠ (1j ⊡ ⇑kr ⊠ SpectralGrid.Bp g ⊞ 1j ⊡ ⇑kr ⊠ SpectralGrid.Bm g)) /\
  SpectralGrid.Bp g' = assign (SpectralGrid.Bp g)
    (⇑(PsatdCoeffs.C ps) ⊠ SpectralGrid.Bp g
     ⊟ ⇑(PsatdCoeffs.S_w ps) ⊠ (mih ⊡ ⇑kr ⊠ sEz ⊞ ⇑kz ⊠ sEp)) /\
  SpectralGrid.Bm g' = assign (SpectralGrid.Bm g)
    (⇑(PsatdCoeffs.C ps) ⊠ SpectralGrid.Bm g
     ⊟ ⇑(PsatdCoeffs.S_w ps) ⊠ (mih ⊡ ⇑kr ⊠ sEz ⊟ ⇑kz ⊠ sEm)) /\
  SpectralGrid.Bz g' = assign (SpectralGrid.Bz g)
    (⇑(PsatdCoeffs.C ps) ⊠ SpectralGrid.Bz g
     ⊟ ⇑(PsatdCoeffs.S_w ps) ⊠ (1j ⊡ ⇑kr ⊠ sEp ⊞ 1j ⊡ ⇑kr ⊠ sEm)).
Proof.
  intros Hm. cbv zeta.
  unfold SpectralGrid.push_eb_with.
  rewrite !exec_bind_self, outcome_bind_self.
  cbn [fst snd].
  apply Nat.eqb_eq in Hm. rewrite Hm. cbn [negb].
  repeat match goal with |- _ /\ _ => split end; reflexivity.
Qed.

(** What the push without feedback does at one point of the grid. *)
Lemma push_vacuum_at (g : SpectralGrid.t) (ps : PsatdCoeffs.t) (utr : bool)
    (i j : nat) :
  SpectralGrid.well_shaped g ->
  shaped (SpectralGrid.Nz g) (SpectralGrid.Nr g) (PsatdCoeffs.C ps) ->
  shaped (SpectralGrid.Nz g) (SpectralGrid.Nr g) (PsatdCoeffs.S_w ps) ->
  shaped (SpectralGrid.Nz g) (SpectralGrid.Nr g) (PsatdCoeffs.Ep ps) ->
  shaped (SpectralGrid.Nz g) (SpectralGrid.Nr g) (PsatdCoeffs.Em ps) ->
  shaped (SpectralGrid.Nz g) (SpectralGrid.Nr g) (PsatdCoeffs.Ez ps) ->
  SpectralGrid.m g = PsatdCoeffs.m ps ->
  (i < SpectralGrid.Nz g)%nat -> (j < SpectralGrid.Nr g)%nat ->
  let g' := fst (exec (SpectralGrid.push_eb_with false utr) (g, ps)) in
  let Cc := RtoC (at2 (PsatdCoeffs.C ps) i j) in
  let S := at2 (PsatdCoeffs.S_w ps) i j in
  let kz := RtoC (at2 (SpectralGrid.kz g) i j) in
  let kr := RtoC (at2 (SpectralGrid.kr g) i j) in
  let Ep := at2 (SpectralGrid.Ep g) i j in
  let Em := at2 (SpectralGrid.Em g) i j in
  let Ez := at2 (SpectralGrid.Ez g) i j in
  let Bp := at2 (SpectralGrid.Bp g) i j in
  let Bm := at2 (SpectralGrid.Bm g) i j in
  let Bz := at2 (SpectralGrid.Bz g) i j in
  let mih := (Copp 1j * RtoC 0.5)%cx in
  at2 (SpectralGrid.Ep g') i j
    = (Cc * Ep + RtoC (c ^ 2 * S) * (mih * kr * Bz + kz * Bp))%cx /\
  at2 (SpectralGrid.Em g') i j
    = (Cc * Em + RtoC (c ^ 2 * S) * (mih * kr * Bz - kz * Bm))%cx /\
  at2 (SpectralGrid.Ez g') i j
    = (Cc * Ez + RtoC (c ^ 2 * S) * (1j * kr * Bp + 1j * kr * Bm))%cx /\
  at2 (SpectralGrid.Bp g') i j
    = (Cc * Bp - RtoC S * (mih * kr * Ez + kz * Ep))%cx /\
  at2 (SpectralGrid.Bm g') i j
    = (Cc * Bm - RtoC S * (mih * kr * Ez - kz * Em))%cx /\
  at2 (SpectralGrid.Bz g') i j
    = (Cc * Bz - RtoC S * (1j * kr * Ep + 1j * kr * Em))%cx.
Proof.
  intros Hg HC HS HpEp HpEm HpEz Hm Hi Hj. shapes Hg.
  destruct (push_vacuum_state g ps utr Hm)
    as (_ & _ & _ & HEp' & HEm' & HEz' & HBp' & HBm' & HBz').
  cbv zeta in *.
  rewrite HEp', HEm', HEz', HBp', HBm', HBz'.
  np_unfold.
  repeat match goal with |- _ /\ _ => split end;
    at2_simpl (SpectralGrid.Nz g) (SpectralGrid.Nr g); reflexivity.
Qed.

(** The shapes after the push. *)
Lemma push_vacuum_shapes (g : SpectralGrid.t) (ps : PsatdCoeffs.t) (utr : bool) :
  SpectralGrid.well_shaped g ->
  shaped (SpectralGrid.Nz g) (SpectralGrid.Nr g) (PsatdCoeffs.C ps) ->
  shaped (SpectralGrid.Nz g) (SpectralGrid.Nr g) (PsatdCoeffs.S_w ps) ->
  shaped (SpectralGrid.Nz g) (SpectralGrid.Nr g) (PsatdCoeffs.Ep ps) ->
  shaped (SpectralGrid.Nz g) (SpectralGrid.Nr g) (PsatdCoeffs.Em ps) ->
  shaped (SpectralGrid.Nz g) (SpectralGrid.Nr g) (PsatdCoeffs.Ez ps) ->
  SpectralGrid.m g = PsatdCoeffs.m ps ->
  let s' := exec (SpectralGrid.push_eb_with false utr) (g, ps) in
  SpectralGrid.well_shaped (fst s') /\
  shaped (SpectralGrid.Nz g) (SpectralGrid.Nr g) (PsatdCoeffs.Ep (snd s')) /\
  shaped (SpectralGrid.Nz g) (SpectralGrid.Nr g) (PsatdCoeffs.Em (snd s')) /\
  shaped (SpectralGrid.Nz g) (SpectralGrid.Nr g) (PsatdCoeffs.Ez (snd s')).
Proof.
  intros Hg HC HS HpEp HpEm HpEz Hm. shapes Hg.
  destruct (push_vacuum_state g ps utr Hm)
    as (_ & Hfr & Hps & HEp' & HEm' & HEz' & HBp' & HBm' & HBz').
  cbv zeta in *.
  destruct Hfr as (E1 & E2 & _ & E3 & E4 & E5 & E6 & E7 & E8 & E9 & E10 & E11 & E12).
  destruct Hps as (_ & _ & _ & _ & _ & _ & _ & P1 & P2 & P3).
  unfold SpectralGrid.well_shaped.
  rewrite E1, E2, E3, E4, E5, E6, E7, E8, E9, E10, E11, E12, P1, P2, P3.
  rewrite HEp', HEm', HEz', HBp', HBm', HBz'.
  np_unfold.
  repeat match goal with |- _ /\ _ => split end; auto 30 with shape.
Qed.

(** The energy balance of the vacuum propagator at one point: the
    weighted form is multiplied by [C^2 + c^2 k^2 S_w^2] and loses what
    the divergences of [E] and [B] carry. *)
Lemma vacuum_energy_balance (Cc S kz kr : R) (Ep Em Ez Bp Bm Bz : complex) :
  let mih := (Copp 1j * RtoC 0.5)%cx in
  let Ep' := (RtoC Cc * Ep + RtoC (c ^ 2 * S)
              * (mih * RtoC kr * Bz + RtoC kz * Bp))%cx in
  let Em' := (RtoC Cc * Em + RtoC (c ^ 2 * S)
              * (mih * RtoC kr * Bz - RtoC kz * Bm))%cx in
  let Ez' := (RtoC Cc * Ez + RtoC (c ^ 2 * S)
              * (1j * RtoC kr * Bp + 1j * RtoC kr * Bm))%cx in
  let Bp' := (RtoC Cc * Bp - RtoC S * (mih * RtoC kr * Ez + RtoC kz * Ep))%cx in
  let Bm' := (RtoC Cc * Bm - RtoC S * (mih * RtoC kr * Ez - RtoC kz * Em))%cx in
  let Bz' := (RtoC Cc * Bz
              - RtoC S * (1j * RtoC kr * Ep + 1j * RtoC kr * Em))%cx in
  Energy.weighted_point Ep' Em' Ez' Bp' Bm' Bz' =
  (Cc ^ 2 + c ^ 2 * (kz ^ 2 + kr ^ 2) * S ^ 2)
    * Energy.weighted_point Ep Em Ez Bp Bm Bz
  - c ^ 2 * S ^ 2 * (Cnorm2 (Energy.divergence_point kz kr Ep Em Ez)
                     + c ^ 2 * Cnorm2 (Energy.divergence_point kz kr Bp Bm Bz)).
Proof.
  intros. subst mih Ep' Em' Ez' Bp' Bm' Bz'.
  unfold Energy.weighted_point, Energy.divergence_point.
  destruct Ep as [a1 a2], Em as [b1 b2], Ez as [e1 e2],
           Bp as [p1 p2], Bm as [q1 q2], Bz as [r1 r2].
  Cunfold. decimals. field.
Qed.

(** The propagator maps fields without divergence to fields without
    divergence: the divergence of a curl is zero. *)
Lemma vacuum_divergence (Cc S kz kr : R) (Ep Em Ez Bp Bm Bz : complex) :
  let mih := (Copp 1j * RtoC 0.5)%cx in
  let Ep' := (RtoC Cc * Ep + RtoC (c ^ 2 * S)
              * (mih * RtoC kr * Bz + RtoC kz * Bp))%cx in
  let Em' := (RtoC Cc * Em + RtoC (c ^ 2 * S)
              * (mih * RtoC kr * Bz - RtoC kz * Bm))%cx in
  let Ez' := (RtoC Cc * Ez + RtoC (c ^ 2 * S)
              * (1j * RtoC kr * Bp + 1j * RtoC kr * Bm))%cx in
  let Bp' := (RtoC Cc * Bp - RtoC S * (mih * RtoC kr * Ez + RtoC kz * Ep))%cx in
  let Bm' := (RtoC Cc * Bm - RtoC S * (mih * RtoC kr * Ez - RtoC kz * Em))%cx in
  let Bz' := (RtoC Cc * Bz
              - RtoC S * (1j * RtoC kr * Ep + 1j * RtoC kr * Em))%cx in
  Energy.divergence_point kz kr Ep' Em' Ez'
    = (RtoC Cc * Energy.divergence_point kz kr Ep Em Ez)%cx /\
  Energy.divergence_point kz kr Bp' Bm' Bz'
    = (RtoC Cc * Energy.divergence_point kz kr Bp Bm Bz)%cx.
Proof.
  intros. subst mih Ep' Em' Ez' Bp' Bm' Bz'.
  unfold Energy.divergence_point.
  destruct Ep as [a1 a2], Em as [b1 b2], Ez as [e1 e2],
           Bp as [p1 p2], Bm as [q1 q2], Bz as [r1 r2].
  split; Csplit; decimals; field.
Qed.

Lemma init_m_dt kz kr m dt Nz Nr ps :
  PsatdCoeffs.init kz kr m dt Nz Nr = Return ps ->
  PsatdCoeffs.m ps = m /\ PsatdCoeffs.dt ps = dt.
Proof.
  unfold PsatdCoeffs.init. destruct (Reqb dt 0); [discriminate|].
  intros Heq. apply Return_inj in Heq. subst ps. split; reflexivity.
Qed.

Lemma weighted_density_at (g : SpectralGrid.t) i j :
  SpectralGrid.well_shaped g ->
  (i < SpectralGrid.Nz g)%nat -> (j < SpectralGrid.Nr g)%nat ->
  at2 (Energy.weighted_density g) i j =
  Energy.weighted_point
    (at2 (SpectralGrid.Ep g) i j) (at2 (SpectralGrid.Em g) i j)
    (at2 (SpectralGrid.Ez g) i j) (at2 (SpectralGrid.Bp g) i j)
    (at2 (SpectralGrid.Bm g) i j) (at2 (SpectralGrid.Bz g) i j).
Proof.
  intros Hg Hi Hj. shapes Hg.
  unfold Energy.weighted_density, Energy.np_abs2. np_unfold.
  at2_simpl (SpectralGrid.Nz g) (SpectralGrid.Nr g). reflexivity.
Qed.

Lemma claimed_density_at (g : SpectralGrid.t) i j :
  SpectralGrid.well_shaped g ->
  (i < SpectralGrid.Nz g)%nat -> (j < SpectralGrid.Nr g)%nat ->
  at2 (Energy.claimed_density g) i j =
  Energy.claimed_point
    (at2 (SpectralGrid.Ep g) i j) (at2 (SpectralGrid.Em g) i j)
    (at2 (SpectralGrid.Ez g) i j) (at2 (SpectralGrid.Bp g) i j)
    (at2 (SpectralGrid.Bm g) i j) (at2 (SpectralGrid.Bz g) i j).
Proof.
  intros Hg Hi Hj. shapes Hg.
  unfold Energy.claimed_density, Energy.np_abs2. np_unfold.
  at2_simpl (SpectralGrid.Nz g) (SpectralGrid.Nr g). reflexivity.
Qed.

Lemma shaped_weighted_density (g : SpectralGrid.t) :
  SpectralGrid.well_shaped g ->
  shaped (SpectralGrid.Nz g) (SpectralGrid.Nr g) (Energy.weighted_density g).
Proof.
  intros Hg. shapes Hg.
  unfold Energy.weighted_density, Energy.np_abs2. np_unfold.
  auto 30 with shape.
Qed.

Lemma shaped_claimed_density (g : SpectralGrid.t) :
  SpectralGrid.well_shaped g ->
  shaped (SpectralGrid.Nz g) (SpectralGrid.Nr g) (Energy.claimed_density g).
Proof.
  intros Hg. shapes Hg.
  unfold Energy.claimed_density, Energy.np_abs2. np_unfold.
  auto 30 with shape.
Qed.

Lemma divergence_at (g : SpectralGrid.t) (Xp Xm Xz : arr2 complex) i j :
  SpectralGrid.well_shaped g ->
  shaped (SpectralGrid.Nz g) (SpectralGrid.Nr g) Xp ->
  shaped (SpectralGrid.Nz g) (SpectralGrid.Nr g) Xm ->
  shaped (SpectralGrid.Nz g) (SpectralGrid.Nr g) Xz ->
  (i < SpectralGrid.Nz g)%nat -> (j < SpectralGrid.Nr g)%nat ->
  at2 (Energy.divergence g Xp Xm Xz) i j =
  Energy.divergence_point (at2 (SpectralGrid.kz g) i j)
    (at2 (SpectralGrid.kr g) i j) (at2 Xp i j) (at2 Xm i j) (at2 Xz i j).
Proof.
  intros Hg Hp Hm Hz Hi Hj. shapes Hg.
  unfold Energy.divergence. np_unfold.
  at2_simpl (SpectralGrid.Nz g) (SpectralGrid.Nr g). reflexivity.
Qed.

(** What [built_for] gives at a point of the grid. *)
Lemma built_for_facts (g : SpectralGrid.t) (dt : R) (ps : PsatdCoeffs.t) :
  SpectralGrid.well_shaped g ->
  PsatdCoeffs.built_for (SpectralGrid.kz g) (SpectralGrid.kr g)
    (SpectralGrid.m g) dt (SpectralGrid.Nz g) (SpectralGrid.Nr g) ps ->
  SpectralGrid.m g = PsatdCoeffs.m ps /\
  shaped (SpectralGrid.Nz g) (SpectralGrid.Nr g) (PsatdCoeffs.C ps) /\
  shaped (SpectralGrid.Nz g) (SpectralGrid.Nr g) (PsatdCoeffs.S_w ps) /\
  shaped (SpectralGrid.Nz g) (SpectralGrid.Nr g) (PsatdCoeffs.Ep ps) /\
  shaped (SpectralGrid.Nz g) (SpectralGrid.Nr g) (PsatdCoeffs.Em ps) /\
  shaped (SpectralGrid.Nz g) (SpectralGrid.Nr g) (PsatdCoeffs.Ez ps) /\
  forall i j, (i < SpectralGrid.Nz g)%nat -> (j < SpectralGrid.Nr g)%nat ->
    at2 (PsatdCoeffs.C ps) i j ^ 2
    + c ^ 2 * (at2 (SpectralGrid.kz g) i j ^ 2 + at2 (SpectralGrid.kr g) i j ^ 2)
      * at2 (PsatdCoeffs.S_w ps) i j ^ 2 = 1.
Proof.
  intros Hg (ps0 & Hinit & Em & _ & EC & ES & _ & _ & _ & HsEp & HsEm & HsEz).
  pose proof Hg as Hg'. shapes Hg'.
  destruct (init_m_dt _ _ _ _ _ _ _ Hinit) as [Hm0 _].
  destruct (init_shapes _ _ _ _ _ _ _ Hkz Hkr Hinit) as (HC & HS & _).
  rewrite EC, ES.
  repeat match goal with |- _ /\ _ => split end; try assumption.
  - congruence.
  - intros i j Hi Hj.
    destruct (init_C_S_w_at _ _ _ _ _ _ _ i j Hkz Hkr Hinit Hi Hj) as [-> ->].
    apply propagator_unit.
Qed.

(** C2, as the code has it. For fields without divergence at every point
    of the grid, [push_eb_with] called without particle feedback, with
    the coefficients built for this grid and a time step [dt > 0],
    returns and leaves the weighted quadratic form
    [2|Ep|^2 + 2|Em|^2 + |Ez|^2 + c^2 (2|Bp|^2 + 2|Bm|^2 + |Bz|^2)]
    unchanged at every point of the grid, hence also its sum over the
    grid. The state after the call satisfies the hypotheses again, so
    that this holds for every call of a sequence. *)
Theorem vacuum_energy_conserved (g : SpectralGrid.t) (ps : PsatdCoeffs.t)
    (dt : R) (use_true_rho : bool) :
  SpectralGrid.well_shaped g ->
  0 < dt ->
  PsatdCoeffs.built_for (SpectralGrid.kz g) (SpectralGrid.kr g)
    (SpectralGrid.m g) dt (SpectralGrid.Nz g) (SpectralGrid.Nr g) ps ->
  Energy.divergence_free g ->
  let s' := exec (SpectralGrid.push_eb_with false use_true_rho) (g, ps) in
  returns (SpectralGrid.push_eb_with false use_true_rho) (g, ps) /\
  (forall i j, (i < SpectralGrid.Nz g)%nat -> (j < SpectralGrid.Nr g)%nat ->
     at2 (Energy.weighted_density (fst s')) i j
     = at2 (Energy.weighted_density g) i j) /\
  rsum (Energy.weighted_density (fst s')) = rsum (Energy.weighted_density g) /\
  SpectralGrid.well_shaped (fst s') /\
  PsatdCoeffs.built_for (SpectralGrid.kz (fst s')) (SpectralGrid.kr (fst s'))
    (SpectralGrid.m (fst s')) dt (SpectralGrid.Nz (fst s'))
    (SpectralGrid.Nr (fst s')) (snd s') /\
  Energy.divergence_free (fst s').
Proof.
  intros Hg Hdt Hps Hdiv. cbv zeta.
  set (s' := exec (SpectralGrid.push_eb_with false use_true_rho) (g, ps)).
  destruct (built_for_facts g dt ps Hg Hps)
    as (Hm & HC & HS & HsEp & HsEm & HsEz & Hunit).
  destruct (push_vacuum_state g ps use_true_rho Hm) as (Hret & Hfr & Hpsfr & _).
  cbv zeta in Hfr, Hpsfr. fold s' in Hfr, Hpsfr.
  destruct Hfr as (ENz & ENr & Emm & Ekz & Ekr & _).
  destruct (push_vacuum_shapes g ps use_true_rho Hg HC HS HsEp HsEm HsEz Hm)
    as (Hg' & HsEp' & HsEm' & HsEz').
  fold s' in Hg', HsEp', HsEm', HsEz'.
  assert (Hpt : forall i j, (i < SpectralGrid.Nz g)%nat ->
                            (j < SpectralGrid.Nr g)%nat ->
     at2 (Energy.weighted_density (fst s')) i j
     = at2 (Energy.weighted_density g) i j /\
     Energy.divergence_point (at2 (SpectralGrid.kz g) i j)
       (at2 (SpectralGrid.kr g) i j) (at2 (SpectralGrid.Ep (fst s')) i j)
       (at2 (SpectralGrid.Em (fst s')) i j)
       (at2 (SpectralGrid.Ez (fst s')) i j) = RtoC 0 /\
     Energy.divergence_point (at2 (SpectralGrid.kz g) i j)
       (at2 (SpectralGrid.kr g) i j) (at2 (SpectralGrid.Bp (fst s')) i j)
       (at2 (SpectralGrid.Bm (fst s')) i j)
       (at2 (SpectralGrid.Bz (fst s')) i j) = RtoC 0).
  { intros i j Hi Hj.
    destruct (Hdiv i j Hi Hj) as [HdE HdB].
    pose proof Hg as Hg0. shapes Hg0.
    rewrite divergence_at in HdE, HdB by assumption.
    rewrite weighted_density_at by (try assumption; rewrite ?ENz, ?ENr; assumption).
    rewrite (weighted_density_at g) by assumption.
    pose proof (push_vacuum_at g ps use_true_rho i j Hg HC HS HsEp HsEm HsEz
                  Hm Hi Hj) as Hat.
    cbv zeta in Hat. fold s' in Hat.
    destruct Hat as (-> & -> & -> & -> & -> & ->).
    rewrite vacuum_energy_balance.
    destruct (vacuum_divergence (at2 (PsatdCoeffs.C ps) i j)
                (at2 (PsatdCoeffs.S_w ps) i j)
                (at2 (SpectralGrid.kz g) i j) (at2 (SpectralGrid.kr g) i j)
                (at2 (SpectralGrid.Ep g) i j) (at2 (SpectralGrid.Em g) i j)
                (at2 (SpectralGrid.Ez g) i j) (at2 (SpectralGrid.Bp g) i j)
                (at2 (SpectralGrid.Bm g) i j) (at2 (SpectralGrid.Bz g) i j))
      as [-> ->].
    rewrite HdE, HdB, (Hunit i j Hi Hj).
    split; [|split].
    - unfold Cnorm2, RtoC, Re, Im; cbn [fst snd]. ring.
    - Csplit; ring.
    - Csplit; ring. }
  split; [eexists; exact Hret|].
  split; [intros i j Hi Hj; apply (Hpt i j Hi Hj)|].
  split.
  { apply (rsum_ext (SpectralGrid.Nz g) (SpectralGrid.Nr g)).
    - rewrite <- ENz, <- ENr. apply shaped_weighted_density, Hg'.
    - apply shaped_weighted_density, Hg.
    - intros i j Hi Hj.
      pose proof (shaped_weighted_density _ Hg') as Hs'.
      rewrite ENz, ENr in Hs'.
      rewrite (at2_get _ _ _ i j Hs' Hi Hj).
      rewrite (at2_get _ _ _ i j (shaped_weighted_density _ Hg) Hi Hj).
      f_equal. apply (Hpt i j Hi Hj). }
  split; [exact Hg'|].
  split.
  { rewrite Ekz, Ekr, Emm, ENz, ENr.
    destruct Hps as (ps0 & Hinit & E1 & E2 & E3 & E4 & E5 & E6 & E7 & _).
    destruct Hpsfr as (F1 & F2 & F3 & F4 & F5 & F6 & F7 & _).
    exists ps0. split; [exact Hinit|].
    rewrite F1, F2, F3, F4, F5, F6, F7.
    repeat match goal with |- _ /\ _ => split end; assumption. }
  intros i j Hi Hj. rewrite ENz in Hi. rewrite ENr in Hj.
  pose proof Hg' as Hg1. shapes Hg1.
  rewrite !divergence_at by (try assumption; rewrite ?ENz, ?ENr; assumption).
  rewrite Ekz, Ekr. destruct (Hpt i j Hi Hj) as (_ & HE & HB).
  split; assumption.
Qed.

End PushVacuum.

(** *** The quadratic form of the specification is not conserved *)

Lemma shaped_concrete_1_1 {T} (a : T) : shaped 1 1 [[a]].
Proof. split; [reflexivity|repeat constructor]. Qed.
#[export] Hint Resolve shaped_concrete_1_1 : shape.

Lemma rsum_1_1 (A : arr2 R) : shaped 1 1 A -> rsum A = at2 A 0 0.
Proof.
  intros [Hl Hr].
  destruct A as [|row [|row' A']]; try discriminate.
  apply Forall_inv in Hr.
  destruct row as [|x [|x' row'']]; try discriminate.
  unfold rsum, at2, get. cbn [foldr lookup list_lookup default from_option].
  simpl. ring.
Qed.

Lemma init_built_for `{Constants} kz kr m dt Nz Nr ps :
  PsatdCoeffs.init kz kr m dt Nz Nr = Return ps ->
  PsatdCoeffs.built_for kz kr m dt Nz Nr ps.
Proof.
  intros Hinit. exists ps. split; [exact Hinit|].
  repeat match goal with |- _ /\ _ => split end; try reflexivity;
    revert Hinit; unfold PsatdCoeffs.init;
    (destruct (Reqb dt 0); [discriminate|]);
    intros Heq; apply Return_inj in Heq; subst ps; apply shaped_zeros.
Qed.

Lemma init_returns `{Constants} kz kr m dt Nz Nr :
  0 < dt -> exists ps, PsatdCoeffs.init kz kr m dt Nz Nr = Return ps.
Proof.
  intros Hdt. unfold PsatdCoeffs.init. rewrite (Reqb_pos_false dt Hdt).
  eexists. reflexivity.
Qed.

Lemma sample_vacuum_dt_pos : 0 < Samples.vacuum_dt.
Proof. unfold Samples.vacuum_dt. apply Rdiv_lt_0_compat; lra. Qed.

Lemma sample_vacuum_grid_shaped : SpectralGrid.well_shaped Samples.vacuum_grid.
Proof.
  unfold SpectralGrid.well_shaped, Samples.vacuum_grid.
  cbn [SpectralGrid.Nz SpectralGrid.Nr SpectralGrid.kz SpectralGrid.kr
       SpectralGrid.Ep SpectralGrid.Em SpectralGrid.Ez SpectralGrid.Bp
       SpectralGrid.Bm SpectralGrid.Bz SpectralGrid.Jp SpectralGrid.Jm
       SpectralGrid.Jz SpectralGrid.rho_prev SpectralGrid.rho_next
       SpectralGrid.F SpectralGrid.inv_k2 SpectralGrid.filter_array].
  repeat match goal with |- _ /\ _ => split end; auto with shape.
Qed.

Lemma sample_omega_dt :
  @c Samples.scipy_constants * sqrt (3 ^ 2 + 4 ^ 2) * Samples.vacuum_dt = 1.
Proof.
  replace (3 ^ 2 + 4 ^ 2) with (5 * 5) by ring.
  rewrite sqrt_square by lra.
  unfold Samples.vacuum_dt. cbn [c Samples.scipy_constants]. field.
Qed.

Lemma sin_1_pos : 0 < sin 1.
Proof.
  apply sin_gt_0; [lra|]. pose proof PI2_1. lra.
Qed.

Section VacuumSamples.
#[local] Existing Instance Samples.scipy_constants.

Lemma sqrt_3_4 : sqrt (3 ^ 2 + 4 ^ 2) = 5.
Proof.
  replace (3 ^ 2 + 4 ^ 2) with (5 * 5) by ring. apply sqrt_square. lra.
Qed.

(** The coefficients at the point of the sample grids: [C = cos 1] and
    [S_w = sin 1 / (5 c)]. *)
Lemma sample_coefficients ps :
  PsatdCoeffs.init [[3]] [[4]] 0 Samples.vacuum_dt 1 1 = Return ps ->
  at2 (PsatdCoeffs.C ps) 0 0 = cos 1 /\
  at2 (PsatdCoeffs.S_w ps) 0 0 = sin 1 / (5 * c).
Proof.
  intros Hinit.
  destruct (init_C_S_w_at [[3]] [[4]] 0 Samples.vacuum_dt 1 1 ps 0 0
              (shaped_concrete_1_1 3) (shaped_concrete_1_1 4) Hinit
              ltac:(lia) ltac:(lia)) as [HC HS].
  change (at2 [[3]] 0 0) with 3 in HC, HS.
  change (at2 [[4]] 0 0) with 4 in HC, HS.
  rewrite sample_omega_dt in HC, HS. split; [exact HC|].
  rewrite HS.
  assert (Hw : c * sqrt (3 ^ 2 + 4 ^ 2) <> 0).
  { rewrite sqrt_3_4. cbn [c Samples.scipy_constants]. lra. }
  apply Reqb_false in Hw. rewrite Hw. rewrite sqrt_3_4.
  f_equal. ring.
Qed.

(** C2, as the specification words it, fails. On a grid of one point with
    [kz = 3], [kr = 4], [c |k| dt = 1], and the field [Ep = Em = 1],
    [Ez = 0], [B = 0], which has no divergence, the sum of
    [|Ep|^2 + |Em|^2 + |Ez|^2 + c^2 (|Bp|^2 + |Bm|^2 + |Bz|^2)] is 2
    before [push_eb_with] without feedback and [2 + 32/25 sin(1)^2]
    after it. *)
Lemma vacuum_energy_claim_fails :
  exists ps,
    PsatdCoeffs.init (SpectralGrid.kz Samples.vacuum_grid)
      (SpectralGrid.kr Samples.vacuum_grid) 0 Samples.vacuum_dt 1 1
      = Return ps /\
    let g' := fst (exec (SpectralGrid.push_eb_with false false)
                     (Samples.vacuum_grid, ps)) in
    rsum (Energy.claimed_density Samples.vacuum_grid) = 2 /\
    rsum (Energy.claimed_density g') = 2 + 32 / 25 * sin 1 ^ 2 /\
    rsum (Energy.claimed_density g')
      <> rsum (Energy.claimed_density Samples.vacuum_grid).
Proof.
  destruct (init_returns [[3]] [[4]] 0 Samples.vacuum_dt 1 1
              sample_vacuum_dt_pos) as [ps Hinit].
  exists ps. split; [exact Hinit|]. cbv zeta.
  pose proof sample_vacuum_grid_shaped as Hg.
  pose proof (init_built_for _ _ _ _ _ _ _ Hinit) as Hbf.
  destruct (built_for_facts Samples.vacuum_grid Samples.vacuum_dt ps Hg Hbf)
    as (Hm & HC & HS & HsEp & HsEm & HsEz & _).
  destruct (push_vacuum_shapes Samples.vacuum_grid ps false Hg HC HS HsEp HsEm
              HsEz Hm) as (Hg' & _).
  destruct (push_vacuum_state Samples.vacuum_grid ps false Hm)
    as (_ & (ENz & ENr & _) & _).
  cbv zeta in ENz, ENr.
  pose proof (push_vacuum_at Samples.vacuum_grid ps false 0 0 Hg HC HS HsEp
                HsEm HsEz Hm ltac:(cbn; lia) ltac:(cbn; lia)) as Hat.
  cbv zeta in Hat.
  destruct (sample_coefficients ps Hinit) as [EC ES].
  rewrite EC, ES in Hat.
  change (at2 (SpectralGrid.kz Samples.vacuum_grid) 0 0) with 3 in Hat.
  change (at2 (SpectralGrid.kr Samples.vacuum_grid) 0 0) with 4 in Hat.
  change (at2 (SpectralGrid.Ep Samples.vacuum_grid) 0 0) with (1, 0) in Hat.
  change (at2 (SpectralGrid.Em Samples.vacuum_grid) 0 0) with (1, 0) in Hat.
  change (at2 (SpectralGrid.Ez Samples.vacuum_grid) 0 0) with (0, 0) in Hat.
  change (at2 (SpectralGrid.Bp Samples.vacuum_grid) 0 0) with (0, 0) in Hat.
  change (at2 (SpectralGrid.Bm Samples.vacuum_grid) 0 0) with (0, 0) in Hat.
  change (at2 (SpectralGrid.Bz Samples.vacuum_grid) 0 0) with (0, 0) in Hat.
  destruct Hat as (HEp & HEm & HEz & HBp & HBm & HBz).
  assert (Hbefore : rsum (Energy.claimed_density Samples.vacuum_grid) = 2).
  { rewrite rsum_1_1 by (apply (shaped_claimed_density _ Hg)).
    rewrite claimed_density_at by (try exact Hg; cbn; lia).
    unfold Energy.claimed_point.
    change (at2 (SpectralGrid.Ep Samples.vacuum_grid) 0 0) with (1, 0).
    change (at2 (SpectralGrid.Em Samples.vacuum_grid) 0 0) with (1, 0).
    change (at2 (SpectralGrid.Ez Samples.vacuum_grid) 0 0) with (0, 0).
    change (at2 (SpectralGrid.Bp Samples.vacuum_grid) 0 0) with (0, 0).
    change (at2 (SpectralGrid.Bm Samples.vacuum_grid) 0 0) with (0, 0).
    change (at2 (SpectralGrid.Bz Samples.vacuum_grid) 0 0) with (0, 0).
    Cunfold. ring. }
  assert (Hafter :
    rsum (Energy.claimed_density
            (fst (exec (SpectralGrid.push_eb_with false false)
                    (Samples.vacuum_grid, ps))))
    = 2 + 32 / 25 * sin 1 ^ 2).
  { rewrite rsum_1_1
      by (pose proof (shaped_claimed_density _ Hg') as Hs;
          rewrite ENz, ENr in Hs; exact Hs).
    rewrite claimed_density_at by (try exact Hg'; rewrite ?ENz, ?ENr; cbn; lia).
    rewrite HEp, HEm, HEz, HBp, HBm, HBz.
    unfold Energy.claimed_point.
    pose proof (sin2_cos2 1) as Hsc. unfold Rsqr in Hsc.
    assert (Hc : c <> 0) by (cbn [c Samples.scipy_constants]; lra).
    generalize dependent c. intros c0 _ _ _ _ _ _ _ Hc.
    Cunfold. decimals.
    match goal with
    | |- ?L = _ =>
        replace L with (2 * (cos 1 * cos 1) + 82 / 25 * (sin 1 * sin 1))
          by (field; exact Hc)
    end.
    replace (sin 1 ^ 2) with (sin 1 * sin 1) by ring.
    set (u := cos 1 * cos 1) in *. set (v := sin 1 * sin 1) in *. lra. }
  split; [exact Hbefore|]. split; [exact Hafter|].
  rewrite Hbefore, Hafter.
  pose proof sin_1_pos as Hs. nra.
Qed.

Lemma sample_vacuum_grid_divergence_free :
  Energy.divergence_free Samples.vacuum_grid.
Proof.
  intros i j Hi Hj. cbn in Hi, Hj.
  assert (i = 0%nat) as -> by lia. assert (j = 0%nat) as -> by lia.
  pose proof sample_vacuum_grid_shaped as Hg. pose proof Hg as Hg'. shapes Hg'.
  rewrite !divergence_at by (try assumption; cbn; lia).
  change (at2 (SpectralGrid.kz Samples.vacuum_grid) 0 0) with 3.
  change (at2 (SpectralGrid.kr Samples.vacuum_grid) 0 0) with 4.
  change (at2 (SpectralGrid.Ep Samples.vacuum_grid) 0 0) with (1, 0).
  change (at2 (SpectralGrid.Em Samples.vacuum_grid) 0 0) with (1, 0).
  change (at2 (SpectralGrid.Ez Samples.vacuum_grid) 0 0) with (0, 0).
  change (at2 (SpectralGrid.Bp Samples.vacuum_grid) 0 0) with (0, 0).
  change (at2 (SpectralGrid.Bm Samples.vacuum_grid) 0 0) with (0, 0).
  change (at2 (SpectralGrid.Bz Samples.vacuum_grid) 0 0) with (0, 0).
  unfold Energy.divergence_point. split; Csplit; ring.
Qed.

Lemma vacuum_energy_conserved_witness :
  0 < Samples.vacuum_dt /\
  Energy.divergence_free Samples.vacuum_grid /\
  exists ps,
    PsatdCoeffs.init (SpectralGrid.kz Samples.vacuum_grid)
      (SpectralGrid.kr Samples.vacuum_grid) 0 Samples.vacuum_dt 1 1
      = Return ps /\
    rsum (Energy.weighted_density
            (fst (exec (SpectralGrid.push_eb_with false false)
                    (Samples.vacuum_grid, ps))))
    = rsum (Energy.weighted_density Samples.vacuum_grid).
Proof.
  split; [exact sample_vacuum_dt_pos|].
  split; [exact sample_vacuum_grid_divergence_free|].
  destruct (init_returns [[3]] [[4]] 0 Samples.vacuum_dt 1 1
              sample_vacuum_dt_pos) as [ps Hinit].
  exists ps. split; [exact Hinit|].
  exact (proj1 (proj2 (proj2
    (vacuum_energy_conserved Samples.vacuum_grid ps Samples.vacuum_dt false
       sample_vacuum_grid_shaped sample_vacuum_dt_pos
       (init_built_for _ _ _ _ _ _ _ Hinit)
       sample_vacuum_grid_divergence_free)))).
Defined.

Lemma sample_longitudinal_grid_shaped :
  SpectralGrid.well_shaped Samples.longitudinal_grid.
Proof.
  unfold SpectralGrid.well_shaped, Samples.longitudinal_grid.
  cbn [SpectralGrid.Nz SpectralGrid.Nr SpectralGrid.kz SpectralGrid.kr
       SpectralGrid.Ep SpectralGrid.Em SpectralGrid.Ez SpectralGrid.Bp
       SpectralGrid.Bm SpectralGrid.Bz SpectralGrid.Jp SpectralGrid.Jm
       SpectralGrid.Jz SpectralGrid.rho_prev SpectralGrid.rho_next
       SpectralGrid.F SpectralGrid.inv_k2 SpectralGrid.filter_array].
  repeat match goal with |- _ /\ _ => split end; auto with shape.
Qed.

(** The hypothesis on the divergence cannot be dropped: for an electric
    field along [k] the propagator without feedback multiplies the field
    by [cos(w dt)], and the weighted form goes from 25 to
    [25 cos(1)^2] on the sample grid. *)
Lemma vacuum_energy_needs_divergence_free :
  exists ps,
    PsatdCoeffs.init (SpectralGrid.kz Samples.longitudinal_grid)
      (SpectralGrid.kr Samples.longitudinal_grid) 0 Samples.vacuum_dt 1 1
      = Return ps /\
    let g' := fst (exec (SpectralGrid.push_eb_with false false)
                     (Samples.longitudinal_grid, ps)) in
    rsum (Energy.weighted_density Samples.longitudinal_grid) = 25 /\
    rsum (Energy.weighted_density g') = 25 * cos 1 ^ 2 /\
    rsum (Energy.weighted_density g')
      <> rsum (Energy.weighted_density Samples.longitudinal_grid).
Proof.
  destruct (init_returns [[3]] [[4]] 0 Samples.vacuum_dt 1 1
              sample_vacuum_dt_pos) as [ps Hinit].
  exists ps. split; [exact Hinit|]. cbv zeta.
  pose proof sample_longitudinal_grid_shaped as Hg.
  pose proof (init_built_for _ _ _ _ _ _ _ Hinit) as Hbf.
  destruct (built_for_facts Samples.longitudinal_grid Samples.vacuum_dt ps Hg Hbf)
    as (Hm & HC & HS & HsEp & HsEm & HsEz & _).
  destruct (push_vacuum_shapes Samples.longitudinal_grid ps false Hg HC HS HsEp
              HsEm HsEz Hm) as (Hg' & _).
  destruct (push_vacuum_state Samples.longitudinal_grid ps false Hm)
    as (_ & (ENz & ENr & _) & _).
  cbv zeta in ENz, ENr.
  pose proof (push_vacuum_at Samples.longitudinal_grid ps false 0 0 Hg HC HS
                HsEp HsEm HsEz Hm ltac:(cbn; lia) ltac:(cbn; lia)) as Hat.
  cbv zeta in Hat.
  destruct (sample_coefficients ps Hinit) as [EC ES].
  rewrite EC, ES in Hat.
  change (at2 (SpectralGrid.kz Samples.longitudinal_grid) 0 0) with 3 in Hat.
  change (at2 (SpectralGrid.kr Samples.longitudinal_grid) 0 0) with 4 in Hat.
  change (at2 (SpectralGrid.Ep Samples.longitudinal_grid) 0 0) with (0, 2) in Hat.
  change (at2 (SpectralGrid.Em Samples.longitudinal_grid) 0 0) with (0, -2) in Hat.
  change (at2 (SpectralGrid.Ez Samples.longitudinal_grid) 0 0) with (3, 0) in Hat.
  change (at2 (SpectralGrid.Bp Samples.longitudinal_grid) 0 0) with (0, 0) in Hat.
  change (at2 (SpectralGrid.Bm Samples.longitudinal_grid) 0 0) with (0, 0) in Hat.
  change (at2 (SpectralGrid.Bz Samples.longitudinal_grid) 0 0) with (0, 0) in Hat.
  destruct Hat as (HEp & HEm & HEz & HBp & HBm & HBz).
  assert (Hbefore : rsum (Energy.weighted_density Samples.longitudinal_grid) = 25).
  { rewrite rsum_1_1 by (apply (shaped_weighted_density _ Hg)).
    rewrite weighted_density_at by (try exact Hg; cbn; lia).
    unfold Energy.weighted_point.
    change (at2 (SpectralGrid.Ep Samples.longitudinal_grid) 0 0) with (0, 2).
    change (at2 (SpectralGrid.Em Samples.longitudinal_grid) 0 0) with (0, -2).
    change (at2 (SpectralGrid.Ez Samples.longitudinal_grid) 0 0) with (3, 0).
    change (at2 (SpectralGrid.Bp Samples.longitudinal_grid) 0 0) with (0, 0).
    change (at2 (SpectralGrid.Bm Samples.longitudinal_grid) 0 0) with (0, 0).
    change (at2 (SpectralGrid.Bz Samples.longitudinal_grid) 0 0) with (0, 0).
    Cunfold. ring. }
  assert (Hafter :
    rsum (Energy.weighted_density
            (fst (exec (SpectralGrid.push_eb_with false false)
                    (Samples.longitudinal_grid, ps))))
    = 25 * cos 1 ^ 2).
  { rewrite rsum_1_1
      by (pose proof (shaped_weighted_density _ Hg') as Hs;
          rewrite ENz, ENr in Hs; exact Hs).
    rewrite weighted_density_at by (try exact Hg'; rewrite ?ENz, ?ENr; cbn; lia).
    rewrite HEp, HEm, HEz, HBp, HBm, HBz.
    unfold Energy.weighted_point.
    assert (Hc : c <> 0) by (cbn [c Samples.scipy_constants]; lra).
    generalize dependent c. intros c0 _ _ _ _ _ _ _ Hc.
    Cunfold. decimals. field. exact Hc. }
  split; [exact Hbefore|]. split; [exact Hafter|].
  rewrite Hbefore, Hafter.
  pose proof sin_1_pos as Hs.
  pose proof (sin2_cos2 1) as Hsc. unfold Rsqr in Hsc. nra.
Qed.

End VacuumSamples.

(** ** [binomial_filter] along r *)

(** Evaluates a call on concrete lists, the arithmetic left as it is. *)
Ltac eval_lists :=
  cbv -[Rplus Rmult Rminus Ropp Rinv Rdiv IZR Cadd Csub Cmul Copp RtoC PI
        sin cos sqrt].

(** The filter along r on an array of 2 x 3 arbitrary entries: the
    stencil (1/4, 1/2, 1/4) at the interior index, the last value
    duplicated at the outer boundary, and at the axis the weight 0.5 on
    the neighbour [F[:,1]]. *)
Lemma binomial_filter_r_2_3 (sign_guard : Z) (a0 a1 a2 b0 b1 b2 : complex) :
  binomial_filter "r" sign_guard [[a0; a1; a2]; [b0; b1; b2]] =
  (Return tt,
   [[(RtoC (0.25 * IZR sign_guard) * a0 + RtoC 0.5 * a0 + RtoC 0.5 * a1)%cx;
     (RtoC 0.25 * a0 + RtoC 0.5 * a1 + RtoC 0.25 * a2)%cx;
     (RtoC 0.75 * a2 + RtoC 0.25 * a1)%cx];
    [(RtoC (0.25 * IZR sign_guard) * b0 + RtoC 0.5 * b0 + RtoC 0.5 * b1)%cx;
     (RtoC 0.25 * b0 + RtoC 0.5 * b1 + RtoC 0.25 * b2)%cx;
     (RtoC 0.75 * b2 + RtoC 0.25 * b1)%cx]]).
Proof.
  destruct a0 as [x0 y0], a1 as [x1 y1], a2 as [x2 y2],
           b0 as [u0 v0], b1 as [u1 v1], b2 as [u2 v2].
  eval_lists.
  repeat (f_equal; try (Csplit; lra)).
Qed.

(** C6, at a failing input. A charge density equal to 1 at every point
    of a 2 x 3 grid of the mode 0 is filtered along r. The interior value
    and the value at the outer boundary stay 1, as the stencil
    (1/4, 1/2, 1/4) and the duplicated last value give; on the axis the
    code returns 1.25, where the guard cell [sign * F[:,0]] with
    [sign = (-1)^0 = 1] and the stencil (1/4, 1/2, 1/4) give 1: the code
    weights the neighbour [F[:,1]] by 0.5. *)
Theorem filter_axis_weight :
  let g := Samples.interp_grid in
  let g' := exec (InterpolationGrid.filter "rho" "r") g in
  fst (InterpolationGrid.filter "rho" "r" g) = Return tt /\
  at2 (InterpolationGrid.rho g') 0 1 = (1, 0) /\
  at2 (InterpolationGrid.rho g') 0 2 = (1, 0) /\
  at2 (InterpolationGrid.rho g') 0 0 = (1.25, 0) /\
  InterpolationGrid.claimed_axis_value ((-1) ^ Z.of_nat (InterpolationGrid.m g))
    (at2 (InterpolationGrid.rho g) 0 0) (at2 (InterpolationGrid.rho g) 0 1)
    = (1, 0) /\
  at2 (InterpolationGrid.rho g') 0 0 <>
  InterpolationGrid.claimed_axis_value ((-1) ^ Z.of_nat (InterpolationGrid.m g))
    (at2 (InterpolationGrid.rho g) 0 0) (at2 (InterpolationGrid.rho g) 0 1).
Proof.
  eval_lists.
  repeat match goal with |- _ /\ _ => split end;
    try reflexivity; try (Csplit; lra).
  intros Heq. apply C_eq_inv in Heq. Cunfold. lra.
Qed.

(** ** [SpectralTransformer]: round trips *)

Ltac st_proj :=
  cbn [SpectralTransformer.dht0 SpectralTransformer.dhtp
       SpectralTransformer.dhtm SpectralTransformer.interp_buffer_r
       SpectralTransformer.spect_buffer_r SpectralTransformer.fft_r
       SpectralTransformer.ifft_r SpectralTransformer.interp_buffer_t
       SpectralTransformer.spect_buffer_t SpectralTransformer.fft_t
       SpectralTransformer.ifft_t SpectralTransformer.set_interp_buffer_r
       SpectralTransformer.set_spect_buffer_r
       SpectralTransformer.set_interp_buffer_t
       SpectralTransformer.set_spect_buffer_t] in *.

(** What the four methods compute, in terms of the injected operators. *)
Lemma interp2spect_scal_eq T F S0 :
  let b := assign (SpectralTransformer.interp_buffer_r T) F in
  SpectralTransformer.interp2spect_scal F S0 T =
  (Return (transform (SpectralTransformer.dht0 T)
             (SpectralTransformer.fft_r T b)),
   SpectralTransformer.set_spect_buffer_r (SpectralTransformer.fft_r T b)
     (SpectralTransformer.set_interp_buffer_r b T)).
Proof. reflexivity. Qed.

Lemma spect2interp_scal_eq T S D0 :
  let sb := inverse_transform (SpectralTransformer.dht0 T) S in
  let ib := SpectralTransformer.ifft_r T sb in
  SpectralTransformer.spect2interp_scal S D0 T =
  (Return (assign D0 ib),
   SpectralTransformer.set_interp_buffer_r ib
     (SpectralTransformer.set_spect_buffer_r sb T)).
Proof. reflexivity. Qed.

Lemma interp2spect_vect_eq T Fr Ft Sp0 Sm0 :
  let br := assign (SpectralTransformer.interp_buffer_r T) Fr in
  let bt := assign (SpectralTransformer.interp_buffer_t T) Ft in
  let zr := SpectralTransformer.fft_r T br in
  let zt := SpectralTransformer.fft_t T bt in
  let p := assign zr (RtoC 0.5 ⊡ (zr ⊟ 1j ⊡ zt)) in
  let m := assign zt (RtoC 0.5 ⊡ (zr ⊞ 1j ⊡ zt)) in
  SpectralTransformer.interp2spect_vect Fr Ft Sp0 Sm0 T =
  (Return (transform (SpectralTransformer.dhtp T) p,
           transform (SpectralTransformer.dhtm T) m),
   SpectralTransformer.set_spect_buffer_t m
     (SpectralTransformer.set_spect_buffer_r p
        (SpectralTransformer.set_interp_buffer_t bt
           (SpectralTransformer.set_interp_buffer_r br T)))).
Proof. reflexivity. Qed.

Lemma spect2interp_vect_eq T Sp Sm Dr0 Dt0 :
  let p := inverse_transform (SpectralTransformer.dhtp T) Sp in
  let m := inverse_transform (SpectralTransformer.dhtm T) Sm in
  let r := assign p (p ⊞ m) in
  let t := assign m (1j ⊡ (p ⊟ m)) in
  let ir := SpectralTransformer.ifft_r T r in
  let it := SpectralTransformer.ifft_t T t in
  SpectralTransformer.spect2interp_vect Sp Sm Dr0 Dt0 T =
  (Return (assign Dr0 ir, assign Dt0 it),
   SpectralTransformer.set_interp_buffer_t it
     (SpectralTransformer.set_interp_buffer_r ir
        (SpectralTransformer.set_spect_buffer_t t
           (SpectralTransformer.set_spect_buffer_r r T)))).
Proof. reflexivity. Qed.

(** The p/m combination and the recombination are inverse to each other,
    cell by cell. *)
Lemma pm_round_trip (r t : complex) :
  let p := (RtoC 0.5 * (r - 1j * t))%cx in
  let m := (RtoC 0.5 * (r + 1j * t))%cx in
  (p + m)%cx = r /\ (1j * (p - m))%cx = t.
Proof.
  destruct r as [r1 r2], t as [t1 t2]. cbv zeta.
  split; Csplit; lra.
Qed.

Lemma pm_round_trip_arrays nz nr (R T : arr2 complex) :
  shaped nz nr R -> shaped nz nr T ->
  let p := RtoC 0.5 ⊡ (R ⊟ 1j ⊡ T) in
  let m := RtoC 0.5 ⊡ (R ⊞ 1j ⊡ T) in
  shaped nz nr p /\ shaped nz nr m /\
  p ⊞ m = R /\ 1j ⊡ (p ⊟ m) = T.
Proof.
  intros HR HT p m. subst p m.
  assert (Hp : shaped nz nr (RtoC 0.5 ⊡ (R ⊟ 1j ⊡ T)))
    by (np_unfold; auto 10 with shape).
  assert (Hm : shaped nz nr (RtoC 0.5 ⊡ (R ⊞ 1j ⊡ T)))
    by (np_unfold; auto 10 with shape).
  split; [exact Hp|]. split; [exact Hm|].
  split.
  - apply (arr2_ext_at2 nz nr); [np_unfold; auto 10 with shape|exact HR|].
    intros i j Hi Hj. np_unfold. at2_simpl nz nr.
    apply (pm_round_trip (at2 R i j) (at2 T i j)).
  - apply (arr2_ext_at2 nz nr); [np_unfold; auto 10 with shape|exact HT|].
    intros i j Hi Hj. np_unfold. at2_simpl nz nr.
    apply (pm_round_trip (at2 R i j) (at2 T i j)).
Qed.

(** C7. For a transformer whose injected operators satisfy their
    forward/inverse contracts on arrays of the shape of the grid (whatever
    the mode the Hankel operators were built for), a scalar field [F] of
    that shape comes back from [interp2spect_scal] followed by
    [spect2interp_scal], and a pair [(Fr, Ft)] comes back jointly from
    [interp2spect_vect], which forms [p = (Z[r] - i Z[t])/2] and
    [m = (Z[r] + i Z[t])/2], followed by [spect2interp_vect], which
    recombines [r = p + m] and [t = i (p - m)]. *)
Theorem transform_round_trip (nz nr : nat) (T : SpectralTransformer.t)
    (F Fr Ft S0 Sp0 Sm0 D0 Dr0 Dt0 : arr2 complex) :
  SpectralTransformer.contracts nz nr T ->
  shaped nz nr F -> shaped nz nr Fr -> shaped nz nr Ft ->
  shaped nz nr D0 -> shaped nz nr Dr0 -> shaped nz nr Dt0 ->
  (exists S T1 T2,
     SpectralTransformer.interp2spect_scal F S0 T = (Return S, T1) /\
     SpectralTransformer.spect2interp_scal S D0 T1 = (Return F, T2)) /\
  (exists Sp Sm T1 T2,
     SpectralTransformer.interp2spect_vect Fr Ft Sp0 Sm0 T
       = (Return (Sp, Sm), T1) /\
     SpectralTransformer.spect2interp_vect Sp Sm Dr0 Dt0 T1
       = (Return (Fr, Ft), T2)).
Proof.
  intros (H0 & Hp & Hm & Hfr & Hft & Hbir & Hbsr & Hbit & Hbst)
         HF HFr HFt HD0 HDr0 HDt0.
  split.
  - do 3 eexists. split; [apply interp2spect_scal_eq|].
    rewrite spect2interp_scal_eq. cbv zeta. st_proj.
    rewrite (assign_same_shape nz nr _ F Hbir HF).
    destruct (Hfr F HF) as (HzF & _ & Ez).
    destruct (H0 _ HzF) as (_ & _ & E0).
    rewrite E0, Ez. rewrite (assign_same_shape nz nr D0 F HD0 HF).
    reflexivity.
  - do 4 eexists. split; [apply interp2spect_vect_eq|].
    rewrite spect2interp_vect_eq. cbv zeta. st_proj.
    rewrite (assign_same_shape nz nr _ Fr Hbir HFr).
    rewrite (assign_same_shape nz nr _ Ft Hbit HFt).
    destruct (Hfr Fr HFr) as (Hzr & _ & Ezr).
    destruct (Hft Ft HFt) as (Hzt & _ & Ezt).
    destruct (pm_round_trip_arrays nz nr _ _ Hzr Hzt) as (Hsp & Hsm & Er & Et).
    cbv zeta in Hsp, Hsm, Er, Et.
    rewrite (assign_same_shape nz nr _ _ Hzr Hsp).
    rewrite (assign_same_shape nz nr _ _ Hzt Hsm).
    destruct (Hp _ Hsp) as (_ & _ & Ep). destruct (Hm _ Hsm) as (_ & _ & Em).
    rewrite Ep, Em, Er, Et.
    rewrite (assign_same_shape nz nr _ _ Hsp Hzr).
    rewrite (assign_same_shape nz nr _ _ Hsm Hzt).
    rewrite Ezr, Ezt.
    rewrite (assign_same_shape nz nr Dr0 Fr HDr0 HFr).
    rewrite (assign_same_shape nz nr Dt0 Ft HDt0 HFt).
    reflexivity.
Qed.

Lemma shaped_concrete_2_3 {T} (a b c d e f : T) :
  shaped 2 3 [[a; b; c]; [d; e; f]].
Proof. split; [reflexivity|repeat constructor]. Qed.
#[export] Hint Resolve shaped_concrete_2_3 : shape.

Lemma sample_transformer_contracts :
  SpectralTransformer.contracts 2 3 Samples.transformer.
Proof.
  unfold SpectralTransformer.contracts, SpectralTransformer.inverse_pair.
  repeat match goal with |- _ /\ _ => split end;
    try apply shaped_zeros;
    intros A HA; (split; [exact HA|split; [exact HA|reflexivity]]).
Qed.

Lemma transform_round_trip_witness :
  SpectralTransformer.contracts 2 3 Samples.transformer /\
  exists S T1 T2,
    SpectralTransformer.interp2spect_scal
      (InterpolationGrid.rho Samples.interp_grid) (zeros 2 3)
      Samples.transformer = (Return S, T1) /\
    SpectralTransformer.spect2interp_scal S (zeros 2 3) T1
      = (Return (InterpolationGrid.rho Samples.interp_grid), T2).
Proof.
  split; [exact sample_transformer_contracts|].
  exact (proj1 (transform_round_trip 2 3 Samples.transformer
    (InterpolationGrid.rho Samples.interp_grid)
    (zeros 2 3) (zeros 2 3) (zeros 2 3) (zeros 2 3) (zeros 2 3)
    (zeros 2 3) (zeros 2 3) (zeros 2 3)
    sample_transformer_contracts
    (shaped_concrete_2_3 _ _ _ _ _ _) (shaped_zeros 2 3) (shaped_zeros 2 3)
    (shaped_zeros 2 3) (shaped_zeros 2 3) (shaped_zeros 2 3))).
Defined.

(** ** [Fields]: an unrecognized field-group string *)

Lemma run_bind_self {S A} (k : S -> M S A) (s : S) :
  (s0 ← (self : M S S); k s0) s = k s s.
Proof. reflexivity. Qed.

Lemma run_bind_raise {S A B} (m : M S A) (k : A -> M S B) (s s' : S) e :
  m s = (Raise e, s') -> (x ← m; k x) s = (Raise e, s').
Proof.
  intros Hm. unfold mbind, M_bind, bind. rewrite Hm. reflexivity.
Qed.

(** Decides the tests [fieldtype == '...'] of a dispatch on a string that
    is in none of the recognized groups. *)
Ltac unrecognized Hn :=
  repeat case_decide; try reflexivity;
  exfalso; apply Hn; subst; repeat constructor.

Lemma interp_filter_invalid (g : InterpolationGrid.t)
    (fieldtype direction : string) :
  fieldtype ∉ Fields.filter_interp_kinds ->
  InterpolationGrid.filter fieldtype direction g
    = (Raise (invalid_fieldtype fieldtype), g).
Proof.
  intros Hn. unfold InterpolationGrid.filter. rewrite run_bind_self.
  cbv zeta. unrecognized Hn.
Qed.

Lemma spect_filter_invalid (g : SpectralGrid.t) (fieldtype : string) :
  fieldtype ∉ Fields.filter_spect_kinds ->
  SpectralGrid.filter fieldtype g = (Raise (invalid_fieldtype fieldtype), g).
Proof.
  intros Hn. unfold SpectralGrid.filter. unrecognized Hn.
Qed.

Lemma set_interp_same (s : Fields.t) : Fields.set_interp (Fields.interp s) s = s.
Proof. destruct s; reflexivity. Qed.

Lemma set_spect_same (s : Fields.t) : Fields.set_spect (Fields.spect s) s = s.
Proof. destruct s; reflexivity. Qed.

Lemma first_mode_exists {X} (l : list X) (n : nat) :
  length l = n -> (0 < n)%nat -> exists x, l !! 0%nat = Some x.
Proof.
  intros Hl Hn. destruct l as [|x l]; [simpl in Hl; lia|].
  exists x. reflexivity.
Qed.

Lemma for_range_first_raises {S} (n : nat) (body : nat -> M S unit)
    (s s' : S) e :
  (0 < n)%nat -> body 0%nat s = (Raise e, s') ->
  for_range n body s = (Raise e, s').
Proof.
  intros Hn Hb. destruct n as [|n]; [lia|].
  unfold for_range. cbn [seq for_each]. unfold bind. rewrite Hb. reflexivity.
Qed.

(** C8, as the code has it. A string that is in none of the field groups
    a method recognizes makes [erase], [divide_by_volume],
    [interp2spect] and [spect2interp] raise the ValueError for an invalid
    field type on every [Fields] object, and makes [filter_interp] and
    [filter_spect], which test the string inside the loop over the modes,
    raise it on every object with at least one mode; the object is left
    as it was. *)
Theorem invalid_fieldtype_raises (op : Fields.operation) (s : Fields.t)
    (fieldtype direction : string) :
  fieldtype ∉ Fields.kinds op ->
  Fields.one_per_mode s ->
  (Fields.tests_in_loop op = true -> (0 < Fields.Nm s)%nat) ->
  Fields.call op fieldtype direction s
    = (Raise (invalid_fieldtype fieldtype), s).
Proof.
  intros Hn (Htr & Hin & Hsp & Hps) Hloop.
  destruct op; cbn [Fields.call Fields.kinds Fields.tests_in_loop] in *.
  - unfold Fields.erase. rewrite run_bind_self. unrecognized Hn.
  - specialize (Hloop eq_refl).
    unfold Fields.filter_interp. rewrite run_bind_self.
    destruct (first_mode_exists _ _ Hin Hloop) as [g Hg].
    apply for_range_first_raises; [exact Hloop|].
    unfold Fields.on_interp, Fields.on_item. rewrite Hg.
    rewrite (interp_filter_invalid g fieldtype direction Hn).
    cbn [fst snd]. rewrite (list_insert_id _ _ _ Hg).
    rewrite set_interp_same. reflexivity.
  - specialize (Hloop eq_refl).
    unfold Fields.filter_spect. rewrite run_bind_self.
    destruct (first_mode_exists _ _ Hsp Hloop) as [g Hg].
    apply for_range_first_raises; [exact Hloop|].
    unfold Fields.on_spect, Fields.on_item. rewrite Hg.
    rewrite (spect_filter_invalid g fieldtype Hn).
    cbn [fst snd]. rewrite (list_insert_id _ _ _ Hg).
    rewrite set_spect_same. reflexivity.
  - unfold Fields.divide_by_volume. rewrite run_bind_self. unrecognized Hn.
  - unfold Fields.interp2spect. rewrite run_bind_self. unrecognized Hn.
  - unfold Fields.spect2interp. rewrite run_bind_self. unrecognized Hn.
Qed.

Lemma bogus_unrecognized (op : Fields.operation) : "bogus" ∉ Fields.kinds op.
Proof.
  destruct op; cbn [Fields.kinds]; intros Hin;
    repeat (apply elem_of_cons in Hin as [Hin|Hin]; [discriminate|]);
    apply elem_of_nil in Hin; exact Hin.
Qed.

Lemma sample_fields_one_per_mode : Fields.one_per_mode Samples.fields.
Proof. repeat split. Qed.

Lemma invalid_fieldtype_raises_witness :
  ("bogus" ∉ Fields.kinds Fields.FilterInterp) /\
  Fields.one_per_mode Samples.fields /\
  Fields.call Fields.FilterInterp "bogus" "r" Samples.fields
    = (Raise (invalid_fieldtype "bogus"), Samples.fields).
Proof.
  split; [apply bogus_unrecognized|].
  split; [exact sample_fields_one_per_mode|].
  apply (invalid_fieldtype_raises Fields.FilterInterp Samples.fields).
  - apply bogus_unrecognized.
  - exact sample_fields_one_per_mode.
  - intros _. cbn. lia.
Defined.

(** C8, as the specification words it, fails for the filters: on a
    [Fields] object without modes ([Nm = 0], which the constructor
    accepts) the loop of [filter_interp] has no iteration, the string is
    never tested and the call returns. *)
Lemma filter_without_mode_returns :
  ("bogus" ∉ Fields.kinds Fields.FilterInterp) /\
  Fields.one_per_mode Samples.no_modes /\
  Fields.call Fields.FilterInterp "bogus" "r" Samples.no_modes
    = (Return tt, Samples.no_modes) /\
  Fields.call Fields.FilterInterp "bogus" "r" Samples.no_modes
    <> (Raise (invalid_fieldtype "bogus"), Samples.no_modes).
Proof.
  split; [apply bogus_unrecognized|].
  split; [repeat split|].
  split; [reflexivity|].
  intros Heq. discriminate Heq.
Qed.

(** ** [Fields]: loops over the modes *)

Lemma for_each_app {S} (l1 l2 : list nat) (body : nat -> M S unit) (s : S) :
  for_each (l1 ++ l2) body s =
  match for_each l1 body s with
  | (Return _, s') => for_each l2 body s'
  | (Raise e, s') => (Raise e, s')
  end.
Proof.
  revert s. induction l1 as [|i l1 IH]; intros s.
  - reflexivity.
  - cbn [app for_each]. unfold bind.
    destruct (body i s) as [[[]|e] s1]; [apply IH|reflexivity].
Qed.

Lemma mode_at_is_Some (s : Fields.t) (m : nat) :
  Fields.one_per_mode s -> (m < Fields.Nm s)%nat ->
  exists x, Fields.mode_at s m = Some x.
Proof.
  intros (Htr & Hin & Hsp & Hps) Hm. unfold Fields.mode_at.
  destruct (lookup_lt_is_Some_2 (Fields.trans s) m) as [a ->]; [lia|].
  destruct (lookup_lt_is_Some_2 (Fields.interp s) m) as [b ->]; [lia|].
  destruct (lookup_lt_is_Some_2 (Fields.spect s) m) as [c0 ->]; [lia|].
  destruct (lookup_lt_is_Some_2 (Fields.psatd s) m) as [d ->]; [lia|].
  eexists. reflexivity.
Qed.

Lemma mode_at_components (s : Fields.t) (m : nat) tr ig sg ps :
  Fields.mode_at s m = Some (tr, ig, sg, ps) <->
  Fields.trans s !! m = Some tr /\ Fields.interp s !! m = Some ig /\
  Fields.spect s !! m = Some sg /\ Fields.psatd s !! m = Some ps.
Proof.
  unfold Fields.mode_at.
  destruct (Fields.trans s !! m), (Fields.interp s !! m),
           (Fields.spect s !! m), (Fields.psatd s !! m);
    split; try (intros [= -> -> -> ->]; auto);
    try discriminate; try (intros (? & ? & ? & ?); congruence).
Qed.

Lemma put_mode_one_per_mode (m : nat) (x : Fields.mode) (s : Fields.t) :
  Fields.one_per_mode s ->
  Fields.one_per_mode (Fields.put_mode m x s) /\
  Fields.Nm (Fields.put_mode m x s) = Fields.Nm s /\
  Fields.dt (Fields.put_mode m x s) = Fields.dt s.
Proof.
  intros (Htr & Hin & Hsp & Hps). destruct x as [[[tr ig] sg] ps].
  unfold Fields.one_per_mode, Fields.put_mode.
  cbn [Fields.trans Fields.interp Fields.spect Fields.psatd Fields.Nm Fields.dt].
  rewrite !length_insert. auto.
Qed.

Lemma mode_at_put_mode (m k : nat) (x : Fields.mode) (s : Fields.t) :
  Fields.one_per_mode s -> (m < Fields.Nm s)%nat ->
  Fields.mode_at (Fields.put_mode m x s) k =
  if decide (k = m) then Some x else Fields.mode_at s k.
Proof.
  intros (Htr & Hin & Hsp & Hps) Hm. destruct x as [[[tr ig] sg] ps].
  unfold Fields.mode_at, Fields.put_mode.
  cbn [Fields.trans Fields.interp Fields.spect Fields.psatd].
  destruct (decide (k = m)) as [->|Hne].
  - rewrite !list_lookup_insert_eq by lia. reflexivity.
  - rewrite !list_lookup_insert_ne by congruence. reflexivity.
Qed.

(** A loop whose body replaces the objects of the mode [m] by a function
    of these objects: after [for m in range(n)], the modes below [n] are
    the images of the modes before the loop, and the others are as they
    were. *)
Lemma for_range_modes (body : nat -> M Fields.t unit)
    (f : nat -> Fields.mode -> Fields.mode) :
  (forall m s x, Fields.mode_at s m = Some x ->
     body m s = (Return tt, Fields.put_mode m (f m x) s)) ->
  forall n s, Fields.one_per_mode s -> (n <= Fields.Nm s)%nat ->
  exists s',
    for_range n body s = (Return tt, s') /\
    Fields.one_per_mode s' /\ Fields.Nm s' = Fields.Nm s /\
    Fields.dt s' = Fields.dt s /\
    forall k, Fields.mode_at s' k =
      if (k <? n)%nat then f k <$> Fields.mode_at s k
      else Fields.mode_at s k.
Proof.
  intros Hbody n. induction n as [|n IH]; intros s Hs Hn.
  - exists s. split; [reflexivity|]. split; [exact Hs|].
    split; [reflexivity|]. split; [reflexivity|]. intros k. reflexivity.
  - destruct (IH s Hs ltac:(lia)) as (s1 & Hrun & Hs1 & HNm & Hdt & Hmodes).
    unfold for_range in *. rewrite seq_S, for_each_app, Hrun.
    cbn [for_each Nat.add]. unfold bind.
    destruct (mode_at_is_Some s n Hs ltac:(lia)) as [x Hx].
    assert (Hx1 : Fields.mode_at s1 n = Some x).
    { rewrite Hmodes. rewrite (proj2 (Nat.ltb_ge n n)) by lia. exact Hx. }
    rewrite (Hbody n s1 x Hx1). cbn [ret].
    exists (Fields.put_mode n (f n x) s1).
    destruct (put_mode_one_per_mode n (f n x) s1 Hs1) as (Hs' & HNm' & Hdt').
    split; [reflexivity|]. split; [exact Hs'|].
    split; [congruence|]. split; [congruence|].
    intros k. rewrite mode_at_put_mode by (try assumption; lia).
    destruct (decide (k = n)) as [->|Hne].
    + rewrite (proj2 (Nat.ltb_lt n (S n))) by lia. rewrite Hx. reflexivity.
    + rewrite Hmodes.
      destruct (Nat.ltb_spec k n) as [Hlt|Hge].
      * rewrite (proj2 (Nat.ltb_lt k (S n))) by lia. reflexivity.
      * rewrite (proj2 (Nat.ltb_ge k (S n))) by lia. reflexivity.
Qed.

Lemma put_mode_eq (s : Fields.t) (m : nat) tr ig sg ps tr' ig' sg' ps' :
  Fields.mode_at s m = Some (tr, ig, sg, ps) ->
  Fields.set_psatd (<[m := ps']> (Fields.psatd s))
    (Fields.set_spect (<[m := sg']> (Fields.spect s))
       (Fields.set_interp (<[m := ig']> (Fields.interp s))
          (Fields.set_trans (<[m := tr']> (Fields.trans s)) s)))
  = Fields.put_mode m (tr', ig', sg', ps') s.
Proof. intros _. destruct s; reflexivity. Qed.

Lemma scal_to_spect_body (m : nat) src dst set_dst (s : Fields.t) x :
  Fields.mode_at s m = Some x ->
  Fields.scal_to_spect m src dst set_dst s
  = (Return tt, Fields.put_mode m (Fields.scal_to_spect_mode src set_dst x) s).
Proof.
  destruct x as [[[tr ig] sg] ps]. intros Hx.
  pose proof (proj1 (mode_at_components s m tr ig sg ps) Hx)
    as (Htr & Hig & Hsg & Hps).
  unfold Fields.scal_to_spect, Fields.item, Fields.on_trans, Fields.on_spect,
    Fields.on_item, mbind, M_bind, bind.
  rewrite Htr, Hig, Hsg.
  cbn [Fields.spect Fields.set_trans fst snd]. rewrite Htr.
  rewrite interp2spect_scal_eq. cbv zeta.
  cbn [Fields.spect Fields.set_trans fst snd modify]. rewrite Hsg.
  cbn [fst snd].
  unfold Fields.scal_to_spect_mode.
  rewrite <- (put_mode_eq s m tr ig sg ps _ _ _ _ Hx).
  rewrite (list_insert_id _ _ _ Hig), (list_insert_id _ _ _ Hps).
  destruct s; reflexivity.
Qed.

Lemma scal_to_interp_body (m : nat) src dst set_dst (s : Fields.t) x :
  Fields.mode_at s m = Some x ->
  Fields.scal_to_interp m src dst set_dst s
  = (Return tt,
     Fields.put_mode m (Fields.scal_to_interp_mode src dst set_dst x) s).
Proof.
  destruct x as [[[tr ig] sg] ps]. intros Hx.
  pose proof (proj1 (mode_at_components s m tr ig sg ps) Hx)
    as (Htr & Hig & Hsg & Hps).
  unfold Fields.scal_to_interp, Fields.item, Fields.on_trans, Fields.on_interp,
    Fields.on_item, mbind, M_bind, bind.
  rewrite Htr, Hsg, Hig.
  cbn [Fields.interp Fields.set_trans fst snd]. rewrite Htr.
  rewrite spect2interp_scal_eq. cbv zeta.
  cbn [Fields.interp Fields.set_trans fst snd modify]. rewrite Hig.
  cbn [fst snd].
  unfold Fields.scal_to_interp_mode.
  rewrite <- (put_mode_eq s m tr ig sg ps _ _ _ _ Hx).
  rewrite (list_insert_id _ _ _ Hsg), (list_insert_id _ _ _ Hps).
  destruct s; reflexivity.
Qed.

Lemma mode_at_lt (s : Fields.t) (m : nat) x :
  Fields.one_per_mode s -> Fields.mode_at s m = Some x ->
  (m < Fields.Nm s)%nat.
Proof.
  intros (Htr & _) Hx. destruct x as [[[tr ig] sg] ps].
  apply mode_at_components in Hx as (Ht & _).
  rewrite <- Htr. eapply lookup_lt_Some; exact Ht.
Qed.

(** A loop over all the modes whose body maps the objects of each mode. *)
Lemma for_all_modes (body : nat -> M Fields.t unit)
    (f : Fields.mode -> Fields.mode) (s : Fields.t) :
  (forall m s x, Fields.mode_at s m = Some x ->
     body m s = (Return tt, Fields.put_mode m (f x) s)) ->
  Fields.one_per_mode s ->
  exists s',
    for_range (Fields.Nm s) body s = (Return tt, s') /\
    Fields.one_per_mode s' /\ Fields.Nm s' = Fields.Nm s /\
    forall m x, Fields.mode_at s m = Some x ->
                Fields.mode_at s' m = Some (f x).
Proof.
  intros Hbody Hs.
  destruct (for_range_modes body (fun _ => f) Hbody (Fields.Nm s) s Hs
              ltac:(lia)) as (s' & Hrun & Hs' & HNm & _ & Hmodes).
  exists s'. split; [exact Hrun|]. split; [exact Hs'|]. split; [exact HNm|].
  intros m x Hx. rewrite Hmodes.
  rewrite (proj2 (Nat.ltb_lt m (Fields.Nm s))) by (eapply mode_at_lt; eauto).
  rewrite Hx. reflexivity.
Qed.

Lemma interp2spect_rho_next_modes (s : Fields.t) :
  Fields.one_per_mode s ->
  exists s',
    Fields.interp2spect "rho_next" s = (Return tt, s') /\
    forall m x, Fields.mode_at s m = Some x ->
      Fields.mode_at s' m
      = Some (Fields.scal_to_spect_mode InterpolationGrid.rho
                SpectralGrid.set_rho_next x).
Proof.
  intros Hs. unfold Fields.interp2spect. rewrite run_bind_self.
  repeat (case_decide; [discriminate|]). case_decide; [|congruence].
  destruct (for_all_modes _ _ s
    (fun m s x => scal_to_spect_body m InterpolationGrid.rho
                    SpectralGrid.rho_next SpectralGrid.set_rho_next s x) Hs)
    as (s' & Hrun & _ & _ & Hm).
  exists s'. split; [exact Hrun|exact Hm].
Qed.

Lemma interp2spect_rho_prev_modes (s : Fields.t) :
  Fields.one_per_mode s ->
  exists s',
    Fields.interp2spect "rho_prev" s = (Return tt, s') /\
    forall m x, Fields.mode_at s m = Some x ->
      Fields.mode_at s' m
      = Some (Fields.scal_to_spect_mode InterpolationGrid.rho
                SpectralGrid.set_rho_prev x).
Proof.
  intros Hs. unfold Fields.interp2spect. rewrite run_bind_self.
  repeat (case_decide; [discriminate|]). case_decide; [|congruence].
  destruct (for_all_modes _ _ s
    (fun m s x => scal_to_spect_body m InterpolationGrid.rho
                    SpectralGrid.rho_prev SpectralGrid.set_rho_prev s x) Hs)
    as (s' & Hrun & _ & _ & Hm).
  exists s'. split; [exact Hrun|exact Hm].
Qed.

Lemma spect2interp_rho_modes (s : Fields.t) :
  Fields.one_per_mode s ->
  exists s',
    Fields.spect2interp "rho" s = (Return tt, s') /\
    forall m x, Fields.mode_at s m = Some x ->
      Fields.mode_at s' m
      = Some (Fields.scal_to_interp_mode SpectralGrid.rho_next
                InterpolationGrid.rho InterpolationGrid.set_rho x).
Proof.
  intros Hs. unfold Fields.spect2interp. rewrite run_bind_self.
  repeat (case_decide; [discriminate|]). case_decide; [|congruence].
  destruct (for_all_modes _ _ s
    (fun m s x => scal_to_interp_body m SpectralGrid.rho_next
                    InterpolationGrid.rho InterpolationGrid.set_rho s x) Hs)
    as (s' & Hrun & _ & _ & Hm).
  exists s'. split; [exact Hrun|exact Hm].
Qed.

Lemma fill_zeros nz nr (A : arr2 complex) :
  shaped nz nr A -> fill A (RtoC 0) = zeros nz nr.
Proof.
  intros HA. apply (arr2_ext_at2 nz nr).
  - np_unfold. auto with shape.
  - apply shaped_zeros.
  - intros i j Hi Hj. np_unfold. at2_simpl nz nr. reflexivity.
Qed.

(** [push_rho] on a grid of well-shaped arrays leaves the zero array in
    [rho_next]. *)
Lemma push_rho_next_zero (g : SpectralGrid.t) :
  SpectralGrid.well_shaped g ->
  SpectralGrid.rho_next (exec SpectralGrid.push_rho g)
    = zeros (SpectralGrid.Nz g) (SpectralGrid.Nr g).
Proof.
  intros Hg. shapes Hg.
  change (SpectralGrid.rho_next (exec SpectralGrid.push_rho g))
    with (fill (SpectralGrid.rho_next g) (RtoC 0)).
  apply fill_zeros. exact Hrn.
Qed.

(** C10. For a [Fields] object with one object per mode and every mode
    [m]: [interp2spect('rho_prev')] and [interp2spect('rho_next')] both
    transform the real-grid array [rho] of the mode; after the first the
    array [rho_prev] of its spectral grid holds the transform and
    [rho_next] is the array it was, after the second [rho_next] holds it
    and [rho_prev] is the array it was, and the real grid is untouched.
    After [spect2interp('rho')] the real-grid [rho] holds the inverse
    transform of the spectral [rho_next], and the spectral grid is
    untouched. After [push_rho] on the spectral grid of the mode,
    [spect2interp('rho')] leaves the zero array in the real-grid [rho],
    the backward operators being linear. *)
Theorem rho_dispatch (s : Fields.t) (m : nat) (tr : SpectralTransformer.t)
    (ig : InterpolationGrid.t) (sg : SpectralGrid.t) (ps : PsatdCoeffs.t) :
  Fields.one_per_mode s ->
  Fields.mode_at s m = Some (tr, ig, sg, ps) ->
  let spectral_rho :=
    transform (SpectralTransformer.dht0 tr)
      (SpectralTransformer.fft_r tr
         (assign (SpectralTransformer.interp_buffer_r tr)
            (InterpolationGrid.rho ig))) in
  let real_rho :=
    assign (InterpolationGrid.rho ig)
      (SpectralTransformer.ifft_r tr
         (inverse_transform (SpectralTransformer.dht0 tr)
            (SpectralGrid.rho_next sg))) in
  (exists s' sg',
     Fields.interp2spect "rho_prev" s = (Return tt, s') /\
     Fields.interp s' !! m = Some ig /\
     Fields.spect s' !! m = Some sg' /\
     SpectralGrid.rho_prev sg' = spectral_rho /\
     SpectralGrid.rho_next sg' = SpectralGrid.rho_next sg) /\
  (exists s' sg',
     Fields.interp2spect "rho_next" s = (Return tt, s') /\
     Fields.interp s' !! m = Some ig /\
     Fields.spect s' !! m = Some sg' /\
     SpectralGrid.rho_next sg' = spectral_rho /\
     SpectralGrid.rho_prev sg' = SpectralGrid.rho_prev sg) /\
  (exists s' ig',
     Fields.spect2interp "rho" s = (Return tt, s') /\
     Fields.spect s' !! m = Some sg /\
     Fields.interp s' !! m = Some ig' /\
     InterpolationGrid.rho ig' = real_rho) /\
  (SpectralGrid.well_shaped sg ->
   shaped (SpectralGrid.Nz sg) (SpectralGrid.Nr sg) (InterpolationGrid.rho ig) ->
   SpectralTransformer.backward_zero (SpectralGrid.Nz sg) (SpectralGrid.Nr sg) tr ->
   exists s' ig',
     Fields.spect2interp "rho"
       (exec (Fields.on_spect m SpectralGrid.push_rho) s) = (Return tt, s') /\
     Fields.interp s' !! m = Some ig' /\
     InterpolationGrid.rho ig'
     = zeros (SpectralGrid.Nz sg) (SpectralGrid.Nr sg)).
Proof.
  intros Hs Hx. cbv zeta.
  split; [|split; [|split]].
  - destruct (interp2spect_rho_prev_modes s Hs) as (s' & Hrun & Hm).
    exists s'. eexists. split; [exact Hrun|].
    apply Hm in Hx. apply mode_at_components in Hx as (_ & Hig & Hsg & _).
    split; [exact Hig|]. split; [exact Hsg|]. split; reflexivity.
  - destruct (interp2spect_rho_next_modes s Hs) as (s' & Hrun & Hm).
    exists s'. eexists. split; [exact Hrun|].
    apply Hm in Hx. apply mode_at_components in Hx as (_ & Hig & Hsg & _).
    split; [exact Hig|]. split; [exact Hsg|]. split; reflexivity.
  - destruct (spect2interp_rho_modes s Hs) as (s' & Hrun & Hm).
    exists s'. eexists. split; [exact Hrun|].
    apply Hm in Hx. apply mode_at_components in Hx as (_ & Hig & Hsg & _).
    split; [exact Hsg|]. split; [exact Hig|]. reflexivity.
  - intros Hsg Hrho [Hz0 Hzf].
    pose proof (proj1 (mode_at_components s m tr ig sg ps) Hx)
      as (Etr & Eig & Esg & Eps).
    set (s1 := exec (Fields.on_spect m SpectralGrid.push_rho) s).
    assert (Es1 : s1 = Fields.set_spect
                         (<[m := exec SpectralGrid.push_rho sg]> (Fields.spect s)) s).
    { unfold s1, exec, Fields.on_spect, Fields.on_item. rewrite Esg. reflexivity. }
    assert (Hs1 : Fields.one_per_mode s1).
    { rewrite Es1. destruct Hs as (H1 & H2 & H3 & H4).
      unfold Fields.one_per_mode.
      cbn [Fields.trans Fields.interp Fields.spect Fields.psatd Fields.Nm
           Fields.set_spect].
      rewrite length_insert. auto. }
    assert (Hx1 : Fields.mode_at s1 m
                  = Some (tr, ig, exec SpectralGrid.push_rho sg, ps)).
    { apply mode_at_components. rewrite Es1.
      cbn [Fields.trans Fields.interp Fields.spect Fields.psatd Fields.set_spect].
      repeat split; try assumption.
      apply list_lookup_insert_eq. eapply lookup_lt_Some; exact Esg. }
    destruct (spect2interp_rho_modes s1 Hs1) as (s' & Hrun & Hm).
    exists s'. eexists. split; [exact Hrun|].
    apply Hm in Hx1. apply mode_at_components in Hx1 as (_ & Hig & _ & _).
    split; [exact Hig|].
    change (assign (InterpolationGrid.rho ig)
              (SpectralTransformer.ifft_r tr
                 (inverse_transform (SpectralTransformer.dht0 tr)
                    (SpectralGrid.rho_next (exec SpectralGrid.push_rho sg))))
            = zeros (SpectralGrid.Nz sg) (SpectralGrid.Nr sg)).
    rewrite (push_rho_next_zero sg Hsg), Hz0, Hzf.
    apply (assign_same_shape _ _ _ _ Hrho (shaped_zeros _ _)).
Qed.

(** Samples for the loops over the modes. *)
Lemma sample_spect_grid_invariant : SpectralGrid.invariant Samples.spect_grid.
Proof.
  split; [|reflexivity].
  unfold SpectralGrid.well_shaped, Samples.spect_grid; simpl.
  repeat match goal with |- _ /\ _ => split end;
    first [apply shaped_zeros
          | apply (shaped_afull 2 3)
          | apply (shaped_make_inv_k2 2 3)
          | idtac];
    split; try reflexivity; repeat constructor.
Qed.

Lemma sample_fields_mode (m : nat) tr ig sg ps :
  Fields.mode_at Samples.fields m = Some (tr, ig, sg, ps) ->
  m = 0%nat /\ tr = Samples.transformer /\ ig = Samples.interp_grid /\
  sg = Samples.spect_grid /\ ps = Samples.coeffs.
Proof.
  destruct m as [|m]; [|discriminate].
  intros Heq. apply (inj Some) in Heq.
  injection Heq as -> -> -> ->. repeat split; reflexivity.
Qed.

Lemma sample_interp_grid_shaped (c : Component.t) :
  shaped 2 3 (Component.get c Samples.interp_grid).
Proof.
  destruct c; first [apply shaped_zeros
                    | split; [reflexivity|repeat constructor]].
Qed.

Lemma sample_transformer_backward_zero :
  SpectralTransformer.backward_zero 2 3 Samples.transformer.
Proof. split; reflexivity. Qed.

Lemma rho_dispatch_witness :
  Fields.one_per_mode Samples.fields /\
  Fields.mode_at Samples.fields 0
    = Some (Samples.transformer, Samples.interp_grid, Samples.spect_grid,
            Samples.coeffs) /\
  (exists s' ig',
     Fields.spect2interp "rho" Samples.fields = (Return tt, s') /\
     Fields.spect s' !! 0%nat = Some Samples.spect_grid /\
     Fields.interp s' !! 0%nat = Some ig' /\
     InterpolationGrid.rho ig' = SpectralGrid.rho_next Samples.spect_grid) /\
  (exists s' ig',
     Fields.spect2interp "rho"
       (exec (Fields.on_spect 0 SpectralGrid.push_rho) Samples.fields)
     = (Return tt, s') /\
     Fields.interp s' !! 0%nat = Some ig' /\
     InterpolationGrid.rho ig' = zeros 2 3).
Proof.
  split; [exact sample_fields_one_per_mode|].
  split; [reflexivity|].
  destruct (rho_dispatch Samples.fields 0 Samples.transformer
              Samples.interp_grid Samples.spect_grid Samples.coeffs
              sample_fields_one_per_mode eq_refl)
    as (_ & _ & H3 & H4).
  split; [exact H3|].
  apply H4.
  - exact (proj1 sample_spect_grid_invariant).
  - apply (sample_interp_grid_shaped Component.rho).
  - exact sample_transformer_backward_zero.
Defined.

(** * Further properties of the code *)

(** ** [SpectralGrid.push_eb_with]: the mode check and the frame *)

(** X1. [push_eb_with] called with coefficients built for another mode
    fails on its assertion before anything is assigned: neither the grid
    nor the coefficients object is changed. *)
Theorem push_eb_with_mode_mismatch `{Constants} (g : SpectralGrid.t)
    (ps : PsatdCoeffs.t) (ptcl_feedback use_true_rho : bool) :
  SpectralGrid.m g <> PsatdCoeffs.m ps ->
  SpectralGrid.push_eb_with ptcl_feedback use_true_rho (g, ps)
    = (Raise AssertionError, (g, ps)).
Proof.
  intros Hm. unfold SpectralGrid.push_eb_with. rewrite run_bind_self.
  cbn [fst snd]. apply Nat.eqb_neq in Hm. rewrite Hm. reflexivity.
Qed.

Lemma push_eb_with_mode_mismatch_witness :
  SpectralGrid.m Samples.grid <> 1%nat /\
  SpectralGrid.push_eb_with (H := Samples.scipy_constants) true false
    (Samples.grid,
     PsatdCoeffs.mk 1 1 [] [] [] [] [] [] [] [])
  = (Raise AssertionError,
     (Samples.grid, PsatdCoeffs.mk 1 1 [] [] [] [] [] [] [] [])).
Proof.
  split; [cbn; lia|].
  apply (push_eb_with_mode_mismatch (H := Samples.scipy_constants)).
  cbn. lia.
Defined.

(** X2. Whatever the flags, [push_eb_with] assigns the fields [E] and
    [B] of the grid and the scratch copies of [E] in the coefficients
    object only: the sizes and the mode of the grid, the currents, the
    charge densities, the meshes, [inv_k2], the filter and the scratch
    array [F], and the mode, the time step and the coefficient arrays of
    the coefficients object are what they were. *)
Theorem push_eb_with_frame `{Constants} (g : SpectralGrid.t)
    (ps : PsatdCoeffs.t) (ptcl_feedback use_true_rho : bool) :
  let s' := exec (SpectralGrid.push_eb_with ptcl_feedback use_true_rho)
              (g, ps) in
  (SpectralGrid.Nz (fst s') = SpectralGrid.Nz g /\
   SpectralGrid.Nr (fst s') = SpectralGrid.Nr g /\
   SpectralGrid.m (fst s') = SpectralGrid.m g /\
   SpectralGrid.Jp (fst s') = SpectralGrid.Jp g /\
   SpectralGrid.Jm (fst s') = SpectralGrid.Jm g /\
   SpectralGrid.Jz (fst s') = SpectralGrid.Jz g /\
   SpectralGrid.rho_prev (fst s') = SpectralGrid.rho_prev g /\
   SpectralGrid.rho_next (fst s') = SpectralGrid.rho_next g /\
   SpectralGrid.kz (fst s') = SpectralGrid.kz g /\
   SpectralGrid.kr (fst s') = SpectralGrid.kr g /\
   SpectralGrid.inv_k2 (fst s') = SpectralGrid.inv_k2 g /\
   SpectralGrid.filter_array (fst s') = SpectralGrid.filter_array g /\
   SpectralGrid.F (fst s') = SpectralGrid.F g) /\
  (PsatdCoeffs.C (snd s') = PsatdCoeffs.C ps /\
   PsatdCoeffs.S_w (snd s') = PsatdCoeffs.S_w ps /\
   PsatdCoeffs.j_coef (snd s') = PsatdCoeffs.j_coef ps /\
   PsatdCoeffs.rho_prev_coef (snd s') = PsatdCoeffs.rho_prev_coef ps /\
   PsatdCoeffs.rho_next_coef (snd s') = PsatdCoeffs.rho_next_coef ps /\
   PsatdCoeffs.m (snd s') = PsatdCoeffs.m ps /\
   PsatdCoeffs.dt (snd s') = PsatdCoeffs.dt ps).
Proof.
  cbv zeta. unfold SpectralGrid.push_eb_with. rewrite !exec_bind_self.
  cbn [fst snd].
  destruct (SpectralGrid.m g =? PsatdCoeffs.m ps)%nat; cbn [negb];
    [destruct ptcl_feedback|];
    repeat match goal with |- _ /\ _ => split end; reflexivity.
Qed.

(** ** [SpectralGrid.push_eb_with] with particle feedback *)

Section PushFeedback.
Context `{Constants}.

(** The two evaluations of the auxiliary array [rho_diff]. *)
Lemma push_feedback_state (g : SpectralGrid.t) (ps : PsatdCoeffs.t)
    (utr : bool) :
  SpectralGrid.m g = PsatdCoeffs.m ps ->
  let s' := exec (SpectralGrid.push_eb_with true utr) (g, ps) in
  let g' := fst s' in
  let sEp := assign (PsatdCoeffs.Ep ps) (SpectralGrid.Ep g) in
  let sEm := assign (PsatdCoeffs.Em ps) (SpectralGrid.Em g) in
  let sEz := assign (PsatdCoeffs.Ez ps) (SpectralGrid.Ez g) in
  let kz := SpectralGrid.kz g in
  let kr := SpectralGrid.kr g in
  let mih := (Copp 1j * RtoC 0.5)%cx in
  let rho_diff :=
    if utr then
      ⇑(PsatdCoeffs.rho_next_coef ps) ⊠ SpectralGrid.rho_next g
      ⊟ ⇑(PsatdCoeffs.rho_prev_coef ps) ⊠ SpectralGrid.rho_prev g
    else
      ⇑(rscalr (PsatdCoeffs.rho_next_coef ps ⊖ PsatdCoeffs.rho_prev_coef ps)
          epsilon_0)
        ⊠ (⇑kr ⊠ SpectralGrid.Ep g ⊟ ⇑kr ⊠ SpectralGrid.Em g
           ⊞ 1j ⊡ ⇑kz ⊠ SpectralGrid.Ez g)
      ⊟ ⇑(rscalr (PsatdCoeffs.rho_next_coef ps) (PsatdCoeffs.dt ps))
        ⊠ (⇑kr ⊠ SpectralGrid.Jp g ⊟ ⇑kr ⊠ SpectralGrid.Jm g
           ⊞ 1j ⊡ ⇑kz ⊠ SpectralGrid.Jz g) in
  fst (SpectralGrid.push_eb_with true utr (g, ps)) = Return tt /\
  (SpectralGrid.Nz g' = SpectralGrid.Nz g /\
   SpectralGrid.Nr g' = SpectralGrid.Nr g /\
   SpectralGrid.kz g' = kz /\ SpectralGrid.kr g' = kr /\
   SpectralGrid.rho_prev g' = SpectralGrid.rho_prev g /\
   SpectralGrid.rho_next g' = SpectralGrid.rho_next g) /\
  SpectralGrid.Ep g' = assign (SpectralGrid.Ep g)
    (⇑(PsatdCoeffs.C ps) ⊠ SpectralGrid.Ep g ⊞ ⇑(0.5 ⊙ kr) ⊠ rho_diff
     ⊞ ⇑(c ^ 2 ⊙ PsatdCoeffs.S_w ps)
       ⊠ (mih ⊡ ⇑kr ⊠ SpectralGrid.Bz g ⊞ ⇑kz ⊠ SpectralGrid.Bp g
          ⊟ RtoC mu_0 ⊡ SpectralGrid.Jp g)) /\
  SpectralGrid.Em g' = assign (SpectralGrid.Em g)
    (⇑(PsatdCoeffs.C ps) ⊠ SpectralGrid.Em g ⊟ ⇑(0.5 ⊙ kr) ⊠ rho_diff
     ⊞ ⇑(c ^ 2 ⊙ PsatdCoeffs.S_w ps)
       ⊠ (mih ⊡ ⇑kr ⊠ SpectralGrid.Bz g ⊟ ⇑kz ⊠ SpectralGrid.Bm g
          ⊟ RtoC mu_0 ⊡ SpectralGrid.Jm g)) /\
  SpectralGrid.Ez g' = assign (SpectralGrid.Ez g)
    (⇑(PsatdCoeffs.C ps) ⊠ SpectralGrid.Ez g ⊟ 1j ⊡ ⇑kz ⊠ rho_diff
     ⊞ ⇑(c ^ 2 ⊙ PsatdCoeffs.S_w ps)
       ⊠ (1j ⊡ ⇑kr ⊠ SpectralGrid.Bp g ⊞ 1j ⊡ ⇑kr ⊠ SpectralGrid.Bm g
          ⊟ RtoC mu_0 ⊡ SpectralGrid.Jz g)) /\
  SpectralGrid.Bp g' = assign (SpectralGrid.Bp g)
    (⇑(PsatdCoeffs.C ps) ⊠ SpectralGrid.Bp g
     ⊟ ⇑(PsatdCoeffs.S_w ps) ⊠ (mih ⊡ ⇑kr ⊠ sEz ⊞ ⇑kz ⊠ sEp)
     ⊞ ⇑(PsatdCoeffs.j_coef ps)
       ⊠ (mih ⊡ ⇑kr ⊠ SpectralGrid.Jz g ⊞ ⇑kz ⊠ SpectralGrid.Jp g)) /\
  SpectralGrid.Bm g' = assign (SpectralGrid.Bm g)
    (⇑(PsatdCoeffs.C ps) ⊠ SpectralGrid.Bm g
     ⊟ ⇑(PsatdCoeffs.S_w ps) ⊠ (mih ⊡ ⇑kr ⊠ sEz ⊟ ⇑kz ⊠ sEm)
     ⊞ ⇑(PsatdCoeffs.j_coef ps)
       ⊠ (mih ⊡ ⇑kr ⊠ SpectralGrid.Jz g ⊟ ⇑kz ⊠ SpectralGrid.Jm g)) /\
  SpectralGrid.Bz g' = assign (SpectralGrid.Bz g)
    (⇑(PsatdCoeffs.C ps) ⊠ SpectralGrid.Bz g
     ⊟ ⇑(PsatdCoeffs.S_w ps) ⊠ (1j ⊡ ⇑kr ⊠ sEp ⊞ 1j ⊡ ⇑kr ⊠ sEm)
     ⊞ ⇑(PsatdCoeffs.j_coef ps)
       ⊠ (1j ⊡ ⇑kr ⊠ SpectralGrid.Jp g ⊞ 1j ⊡ ⇑kr ⊠ SpectralGrid.Jm g)).
Proof.
  intros Hm. cbv zeta.
  unfold SpectralGrid.push_eb_with.
  rewrite !exec_bind_self, outcome_bind_self.
  cbn [fst snd].
  apply Nat.eqb_eq in Hm. rewrite Hm. cbn [negb].
  destruct utr;
    repeat match goal with |- _ /\ _ => split end; reflexivity.
Qed.

(** The source coefficients at a point of the mesh where [w] is not
    zero, in terms of [C] and [S_w] at that point. *)
Lemma init_source_coefs_at kz kr m dt Nz Nr ps i j :
  shaped Nz Nr kz -> shaped Nz Nr kr ->
  PsatdCoeffs.init kz kr m dt Nz Nr = Return ps ->
  (i < Nz)%nat -> (j < Nr)%nat ->
  let w := c * sqrt (at2 kz i j ^ 2 + at2 kr i j ^ 2) in
  w <> 0 ->
  at2 (PsatdCoeffs.rho_prev_coef ps) i j
    = c ^ 2 / epsilon_0
      * (at2 (PsatdCoeffs.C ps) i j - 1 / dt * at2 (PsatdCoeffs.S_w ps) i j)
      * (1 / w) ^ 2 /\
  at2 (PsatdCoeffs.rho_next_coef ps) i j
    = c ^ 2 / epsilon_0
      * (1 - 1 / dt * at2 (PsatdCoeffs.S_w ps) i j) * (1 / w) ^ 2 /\
  at2 (PsatdCoeffs.j_coef ps) i j
    = mu_0 * c ^ 2 * (1 - at2 (PsatdCoeffs.C ps) i j) * (1 / w) ^ 2.
Proof.
  intros Hkz Hkr. unfold PsatdCoeffs.init.
  destruct (Reqb dt 0); [discriminate|].
  intros Heq Hi Hj. apply Return_inj in Heq. subst ps.
  pose proof (shaped_omega Nz Nr kz kr Hkz Hkr) as Hw.
  pose proof (omega_at Nz Nr kz kr i j Hkz Hkr Hi Hj) as Ew.
  cbn [PsatdCoeffs.C PsatdCoeffs.S_w PsatdCoeffs.j_coef
       PsatdCoeffs.rho_prev_coef PsatdCoeffs.rho_next_coef].
  unfold PsatdCoeffs.inv_w_denominator. np_unfold. at2_simpl Nz Nr.
  rewrite Ew. cbv zeta.
  generalize (c * sqrt (at2 kz i j ^ 2 + at2 kr i j ^ 2)). intros w Hw0.
  apply Reqb_false in Hw0. rewrite Hw0.
  repeat split; reflexivity.
Qed.

(** What the push with feedback, [rho_diff] evaluated from the deposited
    charge, assigns to [E] at one point of the grid. *)
Lemma push_feedback_E_at (g : SpectralGrid.t) (ps : PsatdCoeffs.t)
    (i j : nat) :
  SpectralGrid.well_shaped g ->
  shaped (SpectralGrid.Nz g) (SpectralGrid.Nr g) (PsatdCoeffs.C ps) ->
  shaped (SpectralGrid.Nz g) (SpectralGrid.Nr g) (PsatdCoeffs.S_w ps) ->
  shaped (SpectralGrid.Nz g) (SpectralGrid.Nr g) (PsatdCoeffs.rho_prev_coef ps) ->
  shaped (SpectralGrid.Nz g) (SpectralGrid.Nr g) (PsatdCoeffs.rho_next_coef ps) ->
  SpectralGrid.m g = PsatdCoeffs.m ps ->
  (i < SpectralGrid.Nz g)%nat -> (j < SpectralGrid.Nr g)%nat ->
  let g' := fst (exec (SpectralGrid.push_eb_with true true) (g, ps)) in
  let Cc := RtoC (at2 (PsatdCoeffs.C ps) i j) in
  let S := at2 (PsatdCoeffs.S_w ps) i j in
  let kz := at2 (SpectralGrid.kz g) i j in
  let kr := at2 (SpectralGrid.kr g) i j in
  let rho_diff :=
    (RtoC (at2 (PsatdCoeffs.rho_next_coef ps) i j)
       * at2 (SpectralGrid.rho_next g) i j
     - RtoC (at2 (PsatdCoeffs.rho_prev_coef ps) i j)
       * at2 (SpectralGrid.rho_prev g) i j)%cx in
  let mih := (Copp 1j * RtoC 0.5)%cx in
  (shaped (SpectralGrid.Nz g) (SpectralGrid.Nr g) (SpectralGrid.Ep g') /\
   shaped (SpectralGrid.Nz g) (SpectralGrid.Nr g) (SpectralGrid.Em g') /\
   shaped (SpectralGrid.Nz g) (SpectralGrid.Nr g) (SpectralGrid.Ez g')) /\
  at2 (SpectralGrid.Ep g') i j
    = (Cc * at2 (SpectralGrid.Ep g) i j + RtoC (0.5 * kr) * rho_diff
       + RtoC (c ^ 2 * S)
         * (mih * RtoC kr * at2 (SpectralGrid.Bz g) i j
            + RtoC kz * at2 (SpectralGrid.Bp g) i j
            - RtoC mu_0 * at2 (SpectralGrid.Jp g) i j))%cx /\
  at2 (SpectralGrid.Em g') i j
    = (Cc * at2 (SpectralGrid.Em g) i j - RtoC (0.5 * kr) * rho_diff
       + RtoC (c ^ 2 * S)
         * (mih * RtoC kr * at2 (SpectralGrid.Bz g) i j
            - RtoC kz * at2 (SpectralGrid.Bm g) i j
            - RtoC mu_0 * at2 (SpectralGrid.Jm g) i j))%cx /\
  at2 (SpectralGrid.Ez g') i j
    = (Cc * at2 (SpectralGrid.Ez g) i j - 1j * RtoC kz * rho_diff
       + RtoC (c ^ 2 * S)
         * (1j * RtoC kr * at2 (SpectralGrid.Bp g) i j
            + 1j * RtoC kr * at2 (SpectralGrid.Bm g) i j
            - RtoC mu_0 * at2 (SpectralGrid.Jz g) i j))%cx.
Proof.
  intros Hg HC HS Hcp Hcn Hm Hi Hj. shapes Hg.
  destruct (push_feedback_state g ps true Hm)
    as (_ & _ & HEp' & HEm' & HEz' & _).
  cbv zeta in *.
  rewrite HEp', HEm', HEz'.
  np_unfold.
  split; [repeat match goal with |- _ /\ _ => split end; auto 40 with shape|].
  repeat match goal with |- _ /\ _ => split end;
    at2_simpl (SpectralGrid.Nz g) (SpectralGrid.Nr g); reflexivity.
Qed.

(** Gauss's law at one point: with [epsilon_0 div E = rho_prev] and the
    continuity equation between [rho_prev], [rho_next] and [J], the
    pushed field satisfies [epsilon_0 div E' = rho_next]. *)
Lemma gauss_point (Cc S kz kr dt w : R)
    (Ep Em Ez Bp Bm Bz Jp Jm Jz rp rn : complex) :
  mu_0 * epsilon_0 * c ^ 2 = 1 -> w <> 0 ->
  w ^ 2 = c ^ 2 * (kz ^ 2 + kr ^ 2) ->
  let rpc := c ^ 2 / epsilon_0 * (Cc - 1 / dt * S) * (1 / w) ^ 2 in
  let rnc := c ^ 2 / epsilon_0 * (1 - 1 / dt * S) * (1 / w) ^ 2 in
  let rho_diff := (RtoC rnc * rn - RtoC rpc * rp)%cx in
  let mih := (Copp 1j * RtoC 0.5)%cx in
  let Ep' := (RtoC Cc * Ep + RtoC (0.5 * kr) * rho_diff
       + RtoC (c ^ 2 * S)
         * (mih * RtoC kr * Bz + RtoC kz * Bp - RtoC mu_0 * Jp))%cx in
  let Em' := (RtoC Cc * Em - RtoC (0.5 * kr) * rho_diff
       + RtoC (c ^ 2 * S)
         * (mih * RtoC kr * Bz - RtoC kz * Bm - RtoC mu_0 * Jm))%cx in
  let Ez' := (RtoC Cc * Ez - 1j * RtoC kz * rho_diff
       + RtoC (c ^ 2 * S)
         * (1j * RtoC kr * Bp + 1j * RtoC kr * Bm - RtoC mu_0 * Jz))%cx in
  (RtoC epsilon_0 * Energy.divergence_point kz kr Ep Em Ez)%cx = rp ->
  ((rn - rp) * RtoC (1 / dt) + 1j * RtoC kz * Jz + RtoC kr * (Jp - Jm))%cx
    = RtoC 0 ->
  (RtoC epsilon_0 * Energy.divergence_point kz kr Ep' Em' Ez')%cx = rn.
Proof.
  intros Hc Hw Hw2 rpc rnc rho_diff mih Ep' Em' Ez' HG HCont.
  assert (He : epsilon_0 <> 0) by (intros E0; rewrite E0 in Hc; lra).
  assert (Hdiv :
    (RtoC epsilon_0 * Energy.divergence_point kz kr Ep' Em' Ez')%cx
    = (RtoC Cc * (RtoC epsilon_0 * Energy.divergence_point kz kr Ep Em Ez)
       + RtoC (epsilon_0 * (kz ^ 2 + kr ^ 2)) * rho_diff
       - RtoC (epsilon_0 * c ^ 2 * S * mu_0)
         * Energy.divergence_point kz kr Jp Jm Jz)%cx).
  { subst Ep' Em' Ez' mih. generalize rho_diff. intros rd.
    unfold Energy.divergence_point.
    destruct Ep as [a1 a2], Em as [b1 b2], Ez as [e1 e2],
             Bp as [p1 p2], Bm as [q1 q2], Bz as [r1 r2],
             Jp as [x1 x2], Jm as [y1 y2], Jz as [z1 z2], rd as [d1 d2].
    Csplit; decimals; field. }
  rewrite Hdiv, HG.
  assert (Hn : epsilon_0 * (kz ^ 2 + kr ^ 2) * rnc = 1 - 1 / dt * S).
  { unfold rnc. generalize (1 / dt). intros t.
    transitivity ((1 - t * S)
                  * (c ^ 2 * (kz ^ 2 + kr ^ 2) * (1 / w) ^ 2)).
    - generalize ((1 / w) ^ 2). intros iw. field. exact He.
    - rewrite <- Hw2. field. exact Hw. }
  assert (Hp : epsilon_0 * (kz ^ 2 + kr ^ 2) * rpc = Cc - 1 / dt * S).
  { unfold rpc. generalize (1 / dt). intros t.
    transitivity ((Cc - t * S)
                  * (c ^ 2 * (kz ^ 2 + kr ^ 2) * (1 / w) ^ 2)).
    - generalize ((1 / w) ^ 2). intros iw. field. exact He.
    - rewrite <- Hw2. field. exact Hw. }
  assert (Hm : epsilon_0 * c ^ 2 * S * mu_0 = S).
  { transitivity (S * (mu_0 * epsilon_0 * c ^ 2)); [ring|rewrite Hc; ring]. }
  rewrite Hm. clear Hdiv HG Ep' Em' Ez'. subst rho_diff.
  unfold Energy.divergence_point in *.
  destruct rp as [rp1 rp2], rn as [rn1 rn2],
           Jp as [x1 x2], Jm as [y1 y2], Jz as [z1 z2].
  apply C_eq_inv in HCont. destruct HCont as [Hc1 Hc2].
  remember (1 / dt) as t eqn:Et.
  remember (epsilon_0 * (kz ^ 2 + kr ^ 2)) as K eqn:EK.
  remember rnc as a eqn:Ea. remember rpc as b eqn:Eb.
  clear Et EK Ea Eb rnc rpc Hc Hw Hw2 He Hm mih.
  Cunfold. Csplit; nsatz.
Qed.

Lemma divergence_same_mesh (g g' : SpectralGrid.t) (Xp Xm Xz : arr2 complex) :
  SpectralGrid.kz g' = SpectralGrid.kz g ->
  SpectralGrid.kr g' = SpectralGrid.kr g ->
  Energy.divergence g' Xp Xm Xz = Energy.divergence g Xp Xm Xz.
Proof. intros Hz Hr. unfold Energy.divergence. rewrite Hz, Hr. reflexivity. Qed.

Lemma continuity_residual_at (g : SpectralGrid.t) (dt : R) i j :
  SpectralGrid.well_shaped g ->
  (i < SpectralGrid.Nz g)%nat -> (j < SpectralGrid.Nr g)%nat ->
  at2 (SpectralGrid.continuity_residual dt g) i j =
  ((at2 (SpectralGrid.rho_next g) i j - at2 (SpectralGrid.rho_prev g) i j)
     * RtoC (1 / dt)
   + 1j * RtoC (at2 (SpectralGrid.kz g) i j) * at2 (SpectralGrid.Jz g) i j
   + RtoC (at2 (SpectralGrid.kr g) i j)
     * (at2 (SpectralGrid.Jp g) i j - at2 (SpectralGrid.Jm g) i j))%cx.
Proof.
  intros Hg Hi Hj. shapes Hg. unfold SpectralGrid.continuity_residual.
  np_unfold. at2_simpl (SpectralGrid.Nz g) (SpectralGrid.Nr g). reflexivity.
Qed.

(** X3. The push with particle feedback and the deposited charge
    ([use_true_rho = True]) keeps Gauss's law: with constants such that
    [mu_0 epsilon_0 c^2 = 1] and the coefficients built for the grid, at
    every point with [kz^2 + kr^2 <> 0] where
    [epsilon_0 (kr Ep - kr Em + i kz Ez) = rho_prev] and the continuity
    residual of [rho_prev], [rho_next] and [J] is zero, the field after
    the call satisfies [epsilon_0 (kr Ep - kr Em + i kz Ez) = rho_next].
    The call returns; the arrays of [E] keep the shape of the grid, and
    the sizes, the meshes and the charge densities are what they were. *)
Theorem push_keeps_gauss (g : SpectralGrid.t) (ps : PsatdCoeffs.t) (dt : R)
    (i j : nat) :
  SpectralGrid.well_shaped g ->
  0 < dt ->
  PsatdCoeffs.built_for (SpectralGrid.kz g) (SpectralGrid.kr g)
    (SpectralGrid.m g) dt (SpectralGrid.Nz g) (SpectralGrid.Nr g) ps ->
  mu_0 * epsilon_0 * c ^ 2 = 1 ->
  (i < SpectralGrid.Nz g)%nat -> (j < SpectralGrid.Nr g)%nat ->
  at2 (SpectralGrid.kz g) i j ^ 2 + at2 (SpectralGrid.kr g) i j ^ 2 <> 0 ->
  (RtoC epsilon_0
   * at2 (Energy.divergence g (SpectralGrid.Ep g) (SpectralGrid.Em g)
            (SpectralGrid.Ez g)) i j)%cx
    = at2 (SpectralGrid.rho_prev g) i j ->
  at2 (SpectralGrid.continuity_residual dt g) i j = RtoC 0 ->
  let g' := fst (exec (SpectralGrid.push_eb_with true true) (g, ps)) in
  fst (SpectralGrid.push_eb_with true true (g, ps)) = Return tt /\
  (SpectralGrid.Nz g' = SpectralGrid.Nz g /\
   SpectralGrid.Nr g' = SpectralGrid.Nr g /\
   SpectralGrid.kz g' = SpectralGrid.kz g /\
   SpectralGrid.kr g' = SpectralGrid.kr g /\
   SpectralGrid.rho_prev g' = SpectralGrid.rho_prev g /\
   SpectralGrid.rho_next g' = SpectralGrid.rho_next g) /\
  (shaped (SpectralGrid.Nz g) (SpectralGrid.Nr g) (SpectralGrid.Ep g') /\
   shaped (SpectralGrid.Nz g) (SpectralGrid.Nr g) (SpectralGrid.Em g') /\
   shaped (SpectralGrid.Nz g) (SpectralGrid.Nr g) (SpectralGrid.Ez g')) /\
  (RtoC epsilon_0
   * at2 (Energy.divergence g' (SpectralGrid.Ep g') (SpectralGrid.Em g')
            (SpectralGrid.Ez g')) i j)%cx
    = at2 (SpectralGrid.rho_next g') i j.
Proof.
  intros Hg Hdt Hps Hc Hi Hj Hk HG HCont. cbv zeta.
  destruct (built_for_facts g dt ps Hg Hps)
    as (Hm & HC & HS & _ & _ & _ & _).
  destruct Hps as (ps0 & Hinit & _ & _ & EC & ES & _ & Erp & Ern & _).
  pose proof Hg as Hg0. shapes Hg0.
  destruct (init_shapes _ _ _ _ _ _ _ Hkz Hkr Hinit) as (_ & _ & _ & Hsp & Hsn).
  rewrite <- Erp in Hsp. rewrite <- Ern in Hsn.
  assert (Hc0 : c <> 0) by (intros E0; rewrite E0 in Hc; lra).
  assert (Hq : 0 < at2 (SpectralGrid.kz g) i j ^ 2
                   + at2 (SpectralGrid.kr g) i j ^ 2) by nra.
  assert (Hw : c * sqrt (at2 (SpectralGrid.kz g) i j ^ 2
                         + at2 (SpectralGrid.kr g) i j ^ 2) <> 0).
  { apply Rmult_integral_contrapositive. split; [exact Hc0|].
    pose proof (sqrt_lt_R0 _ Hq). lra. }
  destruct (init_source_coefs_at _ _ _ _ _ _ _ i j Hkz Hkr Hinit Hi Hj Hw)
    as (Vp & Vn & _).
  rewrite <- Erp, <- EC, <- ES in Vp. rewrite <- Ern, <- ES in Vn.
  destruct (push_feedback_state g ps true Hm)
    as (Hret & (ENz & ENr & Ekz & Ekr & Eprev & Enext) & _).
  cbv zeta in ENz, ENr, Ekz, Ekr, Eprev, Enext.
  split; [exact Hret|].
  split; [repeat split; assumption|].
  split;
    [exact (proj1 (push_feedback_E_at g ps i j Hg HC HS Hsp Hsn Hm Hi Hj))|].
  rewrite (divergence_same_mesh g _ _ _ _ Ekz Ekr), Enext.
  pose proof (push_feedback_E_at g ps i j Hg HC HS Hsp Hsn Hm Hi Hj) as Hat.
  cbv zeta in Hat. destruct Hat as ((S1 & S2 & S3) & AEp & AEm & AEz).
  rewrite divergence_at by assumption.
  rewrite divergence_at in HG by assumption.
  rewrite continuity_residual_at in HCont by assumption.
  rewrite AEp, AEm, AEz, Vp, Vn.
  apply (gauss_point _ _ _ _ dt
           (c * sqrt (at2 (SpectralGrid.kz g) i j ^ 2
                      + at2 (SpectralGrid.kr g) i j ^ 2))); try assumption.
  rewrite Rpow_mult_distr. f_equal.
  apply pow2_sqrt. lra.
Qed.

(** The two evaluations of [rho_diff] at one point, when Gauss's law
    holds for [rho_prev] and the continuity equation holds. *)
Lemma rho_diff_point (rnc rpc dt kz kr : R)
    (Ep Em Ez Jp Jm Jz rp rn : complex) :
  dt <> 0 ->
  (RtoC epsilon_0 * Energy.divergence_point kz kr Ep Em Ez)%cx = rp ->
  ((rn - rp) * RtoC (1 / dt) + 1j * RtoC kz * Jz + RtoC kr * (Jp - Jm))%cx
    = RtoC 0 ->
  (RtoC rnc * rn - RtoC rpc * rp)%cx
  = (RtoC ((rnc - rpc) * epsilon_0)
       * (RtoC kr * Ep - RtoC kr * Em + 1j * RtoC kz * Ez)
     - RtoC (rnc * dt)
       * (RtoC kr * Jp - RtoC kr * Jm + 1j * RtoC kz * Jz))%cx.
Proof.
  intros Hdt HG HC. subst rp. unfold Energy.divergence_point in *.
  assert (Ht : 1 / dt * dt = 1) by (field; exact Hdt).
  revert Ht HC. generalize (1 / dt). intros t Ht HC.
  generalize dependent epsilon_0. intros e HC.
  destruct rn as [rn1 rn2], Ep as [a1 a2], Em as [b1 b2], Ez as [e1 e2],
           Jp as [x1 x2], Jm as [y1 y2], Jz as [z1 z2].
  apply C_eq_inv in HC. destruct HC as [Hc1 Hc2].
  Cunfold. Csplit; nsatz.
Qed.

Lemma run_bind_modify {S A} (f : S -> S) (k : M S A) (s : S) :
  (modify f ;; k) s = k (f s).
Proof. reflexivity. Qed.

(** X4. The two ways [push_eb_with] evaluates the charge term agree on a
    consistent state: if [epsilon_0 (kr Ep - kr Em + i kz Ez) = rho_prev]
    and the continuity residual for the time step [ps.dt] is zero at every
    point of the grid, the call with [use_true_rho = True] and the call
    with [use_true_rho = False] have the same outcome and leave the same
    grid and the same coefficients object. *)
Theorem push_rho_evaluations_agree (g : SpectralGrid.t) (ps : PsatdCoeffs.t) :
  SpectralGrid.well_shaped g ->
  shaped (SpectralGrid.Nz g) (SpectralGrid.Nr g)
    (PsatdCoeffs.rho_prev_coef ps) ->
  shaped (SpectralGrid.Nz g) (SpectralGrid.Nr g)
    (PsatdCoeffs.rho_next_coef ps) ->
  PsatdCoeffs.dt ps <> 0 ->
  (forall i j, (i < SpectralGrid.Nz g)%nat -> (j < SpectralGrid.Nr g)%nat ->
     (RtoC epsilon_0
      * at2 (Energy.divergence g (SpectralGrid.Ep g) (SpectralGrid.Em g)
               (SpectralGrid.Ez g)) i j)%cx
     = at2 (SpectralGrid.rho_prev g) i j) ->
  (forall i j, (i < SpectralGrid.Nz g)%nat -> (j < SpectralGrid.Nr g)%nat ->
     at2 (SpectralGrid.continuity_residual (PsatdCoeffs.dt ps) g) i j
     = RtoC 0) ->
  SpectralGrid.push_eb_with true true (g, ps)
  = SpectralGrid.push_eb_with true false (g, ps).
Proof.
  intros Hg Hcp Hcn Hdt HG HC.
  assert (Hrd :
    ⇑(PsatdCoeffs.rho_next_coef ps) ⊠ SpectralGrid.rho_next g
    ⊟ ⇑(PsatdCoeffs.rho_prev_coef ps) ⊠ SpectralGrid.rho_prev g
    = ⇑(rscalr (PsatdCoeffs.rho_next_coef ps ⊖ PsatdCoeffs.rho_prev_coef ps)
          epsilon_0)
        ⊠ (⇑(SpectralGrid.kr g) ⊠ SpectralGrid.Ep g
           ⊟ ⇑(SpectralGrid.kr g) ⊠ SpectralGrid.Em g
           ⊞ 1j ⊡ ⇑(SpectralGrid.kz g) ⊠ SpectralGrid.Ez g)
      ⊟ ⇑(rscalr (PsatdCoeffs.rho_next_coef ps) (PsatdCoeffs.dt ps))
        ⊠ (⇑(SpectralGrid.kr g) ⊠ SpectralGrid.Jp g
           ⊟ ⇑(SpectralGrid.kr g) ⊠ SpectralGrid.Jm g
           ⊞ 1j ⊡ ⇑(SpectralGrid.kz g) ⊠ SpectralGrid.Jz g)).
  { pose proof Hg as Hg'. shapes Hg'.
    apply (arr2_ext_at2 (SpectralGrid.Nz g) (SpectralGrid.Nr g)).
    - np_unfold. auto 40 with shape.
    - np_unfold. auto 40 with shape.
    - intros i j Hi Hj. specialize (HG i j Hi Hj). specialize (HC i j Hi Hj).
      rewrite divergence_at in HG by assumption.
      rewrite continuity_residual_at in HC by assumption.
      np_unfold. at2_simpl (SpectralGrid.Nz g) (SpectralGrid.Nr g).
      apply (rho_diff_point _ _ _ _ _ _ _ _ _ _ _ _ _ Hdt HG HC). }
  unfold SpectralGrid.push_eb_with. rewrite !run_bind_self. cbn [fst snd].
  destruct (negb (SpectralGrid.m g =? PsatdCoeffs.m ps)%nat); [reflexivity|].
  unfold SpectralGrid.on_coeffs.
  rewrite !run_bind_modify, !run_bind_self.
  cbv zeta. cbn [fst snd].
  unfold PsatdCoeffs.set_Ep, PsatdCoeffs.set_Em, PsatdCoeffs.set_Ez.
  cbn [PsatdCoeffs.rho_next_coef PsatdCoeffs.rho_prev_coef PsatdCoeffs.dt].
  rewrite Hrd. reflexivity.
Qed.

End PushFeedback.

Section FeedbackSamples.
#[local] Existing Instance Samples.scipy_constants.

Lemma sample_constants_consistent : mu_0 * epsilon_0 * c ^ 2 = 1.
Proof.
  cbn [mu_0 epsilon_0 c Samples.scipy_constants].
  pose proof PI_RGT_0. field. lra.
Qed.

Lemma sample_charged_grid_shaped : SpectralGrid.well_shaped Loaded.charged_grid.
Proof.
  unfold SpectralGrid.well_shaped, Loaded.charged_grid.
  cbn [SpectralGrid.Nz SpectralGrid.Nr SpectralGrid.kz SpectralGrid.kr
       SpectralGrid.Ep SpectralGrid.Em SpectralGrid.Ez SpectralGrid.Bp
       SpectralGrid.Bm SpectralGrid.Bz SpectralGrid.Jp SpectralGrid.Jm
       SpectralGrid.Jz SpectralGrid.rho_prev SpectralGrid.rho_next
       SpectralGrid.F SpectralGrid.inv_k2 SpectralGrid.filter_array].
  repeat match goal with |- _ /\ _ => split end; auto with shape.
Qed.

(** On the loaded grid the divergence of [E] is 7 and the charge density
    is not zero. *)
Lemma sample_charged_grid_gauss :
  (RtoC epsilon_0
   * at2 (Energy.divergence Loaded.charged_grid
            (SpectralGrid.Ep Loaded.charged_grid)
            (SpectralGrid.Em Loaded.charged_grid)
            (SpectralGrid.Ez Loaded.charged_grid)) 0 0)%cx
  = at2 (SpectralGrid.rho_prev Loaded.charged_grid) 0 0.
Proof.
  pose proof sample_charged_grid_shaped as Hg. pose proof Hg as Hg'. shapes Hg'.
  rewrite divergence_at by (try assumption; cbn; lia).
  change (at2 (SpectralGrid.kz Loaded.charged_grid) 0 0) with 3.
  change (at2 (SpectralGrid.kr Loaded.charged_grid) 0 0) with 4.
  change (at2 (SpectralGrid.Ep Loaded.charged_grid) 0 0) with (1, 0).
  change (at2 (SpectralGrid.Em Loaded.charged_grid) 0 0) with (0, 0).
  change (at2 (SpectralGrid.Ez Loaded.charged_grid) 0 0) with (0, -1).
  change (at2 (SpectralGrid.rho_prev Loaded.charged_grid) 0 0)
    with (7 * epsilon_0, 0).
  unfold Energy.divergence_point. generalize epsilon_0. intros e.
  Csplit; ring.
Qed.

Lemma sample_charged_grid_continuity :
  at2 (SpectralGrid.continuity_residual Samples.vacuum_dt Loaded.charged_grid)
    0 0 = RtoC 0.
Proof.
  rewrite continuity_residual_at
    by (try exact sample_charged_grid_shaped; cbn; lia).
  change (at2 (SpectralGrid.kz Loaded.charged_grid) 0 0) with 3.
  change (at2 (SpectralGrid.kr Loaded.charged_grid) 0 0) with 4.
  change (at2 (SpectralGrid.Jp Loaded.charged_grid) 0 0) with (1, 0).
  change (at2 (SpectralGrid.Jm Loaded.charged_grid) 0 0) with (0, 0).
  change (at2 (SpectralGrid.Jz Loaded.charged_grid) 0 0) with (0, 1).
  change (at2 (SpectralGrid.rho_prev Loaded.charged_grid) 0 0)
    with (7 * epsilon_0, 0).
  change (at2 (SpectralGrid.rho_next Loaded.charged_grid) 0 0)
    with (7 * epsilon_0 - Samples.vacuum_dt, 0).
  pose proof sample_vacuum_dt_pos as Hdt.
  assert (Ht : Samples.vacuum_dt * (1 / Samples.vacuum_dt) = 1)
    by (field; lra).
  revert Ht. generalize (1 / Samples.vacuum_dt). generalize Samples.vacuum_dt.
  generalize epsilon_0. intros e d t Ht.
  Csplit; nsatz.
Qed.

Lemma sample_charged_grid_sources :
  at2 (SpectralGrid.rho_prev Loaded.charged_grid) 0 0 <> RtoC 0 /\
  at2 (SpectralGrid.rho_next Loaded.charged_grid) 0 0
    <> at2 (SpectralGrid.rho_prev Loaded.charged_grid) 0 0 /\
  at2 (SpectralGrid.Jz Loaded.charged_grid) 0 0 <> RtoC 0.
Proof.
  change (at2 (SpectralGrid.rho_prev Loaded.charged_grid) 0 0)
    with (7 * epsilon_0, 0).
  change (at2 (SpectralGrid.rho_next Loaded.charged_grid) 0 0)
    with (7 * epsilon_0 - Samples.vacuum_dt, 0).
  change (at2 (SpectralGrid.Jz Loaded.charged_grid) 0 0) with (0, 1).
  pose proof sample_vacuum_dt_pos as Hdt.
  assert (He : 0 < epsilon_0).
  { cbn [epsilon_0 Samples.scipy_constants]. pose proof PI_RGT_0.
    apply Rdiv_lt_0_compat; [lra|].
    apply Rmult_lt_0_compat; [|nra].
    apply Rdiv_lt_0_compat; lra. }
  repeat split; intros E; apply C_eq_inv in E; destruct E as [E1 E2];
    Cunfold; lra.
Qed.

Lemma push_keeps_gauss_witness :
  at2 (SpectralGrid.rho_prev Loaded.charged_grid) 0 0 <> RtoC 0 /\
  exists ps,
    PsatdCoeffs.init (SpectralGrid.kz Loaded.charged_grid)
      (SpectralGrid.kr Loaded.charged_grid) 0 Samples.vacuum_dt 1 1
      = Return ps /\
    let g' := fst (exec (SpectralGrid.push_eb_with true true)
                     (Loaded.charged_grid, ps)) in
    shaped 1 1 (SpectralGrid.Ez g') /\
    (RtoC epsilon_0
     * at2 (Energy.divergence g' (SpectralGrid.Ep g') (SpectralGrid.Em g')
              (SpectralGrid.Ez g')) 0 0)%cx
    = at2 (SpectralGrid.rho_next Loaded.charged_grid) 0 0.
Proof.
  split; [exact (proj1 sample_charged_grid_sources)|].
  destruct (init_returns [[3]] [[4]] 0 Samples.vacuum_dt 1 1
              sample_vacuum_dt_pos) as [ps Hinit].
  exists ps. split; [exact Hinit|].
  destruct (push_keeps_gauss Loaded.charged_grid ps Samples.vacuum_dt 0 0
       sample_charged_grid_shaped sample_vacuum_dt_pos
       (init_built_for _ _ _ _ _ _ _ Hinit)
       sample_constants_consistent)
    as (_ & (_ & _ & _ & _ & _ & En) & (_ & _ & Sz) & HG).
  - cbn; lia.
  - cbn; lia.
  - change (at2 (SpectralGrid.kz Loaded.charged_grid) 0 0) with 3.
    change (at2 (SpectralGrid.kr Loaded.charged_grid) 0 0) with 4. lra.
  - exact sample_charged_grid_gauss.
  - exact sample_charged_grid_continuity.
  - cbv zeta. split; [exact Sz|]. rewrite <- En. exact HG.
Defined.

Lemma push_rho_evaluations_agree_witness :
  at2 (SpectralGrid.rho_next Loaded.charged_grid) 0 0
    <> at2 (SpectralGrid.rho_prev Loaded.charged_grid) 0 0 /\
  exists ps,
    PsatdCoeffs.init (SpectralGrid.kz Loaded.charged_grid)
      (SpectralGrid.kr Loaded.charged_grid) 0 Samples.vacuum_dt 1 1
      = Return ps /\
    SpectralGrid.push_eb_with true true (Loaded.charged_grid, ps)
    = SpectralGrid.push_eb_with true false (Loaded.charged_grid, ps).
Proof.
  split; [exact (proj1 (proj2 sample_charged_grid_sources))|].
  destruct (init_returns [[3]] [[4]] 0 Samples.vacuum_dt 1 1
              sample_vacuum_dt_pos) as [ps Hinit].
  exists ps. split; [exact Hinit|].
  pose proof sample_charged_grid_shaped as Hg. pose proof Hg as Hg'. shapes Hg'.
  destruct (init_shapes _ _ _ _ _ _ _ Hkz Hkr Hinit)
    as (_ & _ & _ & Hsp & Hsn).
  destruct (init_m_dt _ _ _ _ _ _ _ Hinit) as [_ Edt].
  pose proof sample_vacuum_dt_pos as Hdt.
  apply (push_rho_evaluations_agree Loaded.charged_grid ps Hg Hsp Hsn).
  - rewrite Edt. lra.
  - intros i j Hi Hj. cbn in Hi, Hj.
    assert (i = 0%nat) as -> by lia. assert (j = 0%nat) as -> by lia.
    exact sample_charged_grid_gauss.
  - intros i j Hi Hj. cbn in Hi, Hj.
    assert (i = 0%nat) as -> by lia. assert (j = 0%nat) as -> by lia.
    rewrite Edt. exact sample_charged_grid_continuity.
Defined.

End FeedbackSamples.

(** ** [binomial_filter]: the stencils on arrays of any shape *)

(** Python's indices and slices on lists. *)
Lemma bound_nonneg (n : nat) (i : nat) :
  Slice.bound n (Z.of_nat i) = Nat.min i n.
Proof. unfold Slice.bound. destruct (Z.ltb_spec (Z.of_nat i) 0); lia. Qed.

Lemma bound_neg (n : nat) (i : nat) :
  (0 < i)%nat -> Slice.bound n (- Z.of_nat i) = (n - i)%nat.
Proof. intros Hi. unfold Slice.bound. destruct (Z.ltb_spec (- Z.of_nat i) 0); lia. Qed.

Lemma index_nonneg {T} (l : list T) (k : nat) :
  Slice.index (Z.of_nat k) l = l !! k.
Proof.
  unfold Slice.index. destruct (Z.ltb_spec (Z.of_nat k) 0); [lia|].
  rewrite Nat2Z.id. reflexivity.
Qed.

Lemma index_neg {T} (l : list T) (k : nat) :
  (0 < k)%nat -> (k <= length l)%nat ->
  Slice.index (- Z.of_nat k) l = l !! (length l - k)%nat.
Proof.
  intros Hk Hl. unfold Slice.index.
  destruct (Z.ltb_spec (- Z.of_nat k) 0); [|lia].
  destruct (Z.ltb_spec (Z.of_nat (length l) + - Z.of_nat k) 0); [lia|].
  f_equal. lia.
Qed.

Lemma index_neg_out {T} (l : list T) (k : nat) :
  (length l < k)%nat -> Slice.index (- Z.of_nat k) l = None.
Proof.
  intros Hl. unfold Slice.index.
  destruct (Z.ltb_spec (- Z.of_nat k) 0); [|lia].
  destruct (Z.ltb_spec (Z.of_nat (length l) + - Z.of_nat k) 0); [reflexivity|lia].
Qed.

Lemma set_index_nonneg {T} (l : list T) (k : nat) (x : T) :
  (k < length l)%nat ->
  Slice.set_index (Z.of_nat k) x l = Some (<[k := x]> l).
Proof.
  intros Hk. unfold Slice.set_index.
  destruct (Z.ltb_spec (Z.of_nat k) 0); [lia|].
  rewrite Nat2Z.id. destruct (Nat.ltb_spec k (length l)); [reflexivity|lia].
Qed.

Lemma set_index_neg {T} (l : list T) (k : nat) (x : T) :
  (0 < k)%nat -> (k <= length l)%nat ->
  Slice.set_index (- Z.of_nat k) x l = Some (<[(length l - k)%nat := x]> l).
Proof.
  intros Hk Hl. unfold Slice.set_index.
  destruct (Z.ltb_spec (- Z.of_nat k) 0); [|lia].
  destruct (Z.ltb_spec (Z.of_nat (length l) + - Z.of_nat k) 0); [lia|].
  replace (Z.to_nat (Z.of_nat (length l) + - Z.of_nat k)) with (length l - k)%nat by lia.
  destruct (Nat.ltb_spec (length l - k) (length l)); [reflexivity|lia].
Qed.

Lemma col_lookup {T} `{Inhabited T} (j : Z) (k nr : nat) (A : arr2 T) :
  (forall l : list T, length l = nr -> Slice.index j l = l !! k) ->
  (k < nr)%nat ->
  Forall (fun row => length row = nr) A ->
  Slice.col j A = Return (fmap (M := list) (fun l => l !!! k) A).
Proof.
  intros Hidx Hk HA. unfold Slice.col.
  assert (E : mapM (Slice.index j) A = Some (fmap (M := list) (fun l => l !!! k) A)).
  { induction HA as [|l A Hl HA IH]; [reflexivity|].
    cbn [mapM]. rewrite (Hidx l Hl), IH.
    destruct (lookup_lt_is_Some_2 l k) as [x Hx]; [lia|].
    rewrite Hx. cbn. rewrite (list_lookup_total_correct _ _ _ Hx). reflexivity. }
  rewrite E. reflexivity.
Qed.

Lemma col_out {T} (j : Z) (nr : nat) (A : arr2 T) :
  (forall l : list T, length l = nr -> Slice.index j l = None) ->
  Forall (fun row => length row = nr) A -> A <> [] ->
  Slice.col j A = Raise IndexError.
Proof.
  intros Hidx HA Hne. unfold Slice.col.
  destruct HA as [|l A Hl HA]; [congruence|].
  cbn [mapM]. rewrite (Hidx l Hl). reflexivity.
Qed.

Lemma set_col_insert {T} (j : Z) (k nr : nat) (A : arr2 T) (v : list T) :
  (forall (l : list T) x, length l = nr -> Slice.set_index j x l = Some (<[k := x]> l)) ->
  Forall (fun row => length row = nr) A ->
  Slice.set_col j v A
  = Return (zip_with (fun l x => <[k := x]> l) A v).
Proof.
  intros Hidx HA. unfold Slice.set_col.
  assert (E : mapM (fun rx : list T * T => Slice.set_index j (snd rx) (fst rx)) (zip A v)
              = Some (zip_with (fun l x => <[k := x]> l) A v)).
  { revert v. induction HA as [|l A Hl HA IH]; intros v; [reflexivity|].
    destruct v as [|x v]; [reflexivity|].
    cbn [zip zip_with mapM fst snd]. rewrite (Hidx l x Hl), IH. reflexivity. }
  rewrite E. reflexivity.
Qed.

Lemma at2_lookup {T} `{Inhabited T} (A : arr2 T) i j l :
  A !! i = Some l -> (j < length l)%nat -> at2 A i j = l !!! j.
Proof.
  intros Hi Hj. unfold at2, get. rewrite Hi.
  destruct (lookup_lt_is_Some_2 l j Hj) as [x Hx].
  rewrite Hx. symmetry. apply list_lookup_total_correct. exact Hx.
Qed.



Lemma interior_stencil_facts {T} (a b c : T -> T) (add : T -> T -> T)
    (l : list T) :
  (2 <= length l)%nat ->
  length (interior_stencil a b c add l) = length l /\
  (forall j x y z, (0 < j)%nat -> (j + 1 < length l)%nat ->
     l !! (j - 1)%nat = Some x -> l !! j = Some y ->
     l !! (j + 1)%nat = Some z ->
     interior_stencil a b c add l !! j = Some (add (add (a x) (b y)) (c z))) /\
  (forall j, (j = 0 \/ j + 1 = length l)%nat ->
     interior_stencil a b c add l !! j = l !! j).
Proof.
  intros Hn. unfold interior_stencil, Slice.set_slice, Slice.slice.
  set (n := length l) in *.
  assert (B1 : Slice.bound n 1 = 1%nat) by (unfold Slice.bound; cbn; lia).
  assert (B0 : Slice.bound n 0 = 0%nat) by (unfold Slice.bound; cbn; lia).
  assert (B2 : Slice.bound n 2 = 2%nat) by (unfold Slice.bound; cbn; lia).
  assert (Bm1 : Slice.bound n (-1) = (n - 1)%nat)
    by (unfold Slice.bound; cbn; lia).
  assert (Bm2 : Slice.bound n (-2) = (n - 2)%nat)
    by (unfold Slice.bound; cbn; lia).
  rewrite B0, B1, B2, Bm1, Bm2.
  replace (n - 2 - 0)%nat with (n - 2)%nat by lia.
  replace (n - 1 - 1)%nat with (n - 2)%nat by lia.
  replace (Nat.max 1 (n - 1)) with (n - 1)%nat by lia.
  set (v := zip_with add _ _).
  assert (Lv : length v = (n - 2)%nat).
  { unfold v. rewrite !length_zip_with, !length_fmap, !length_take, !length_drop.
    fold n. lia. }
  split; [|split].
  - rewrite !length_app, length_take, length_drop, Lv. fold n. lia.
  - intros j x y z Hj0 Hj1 Hx Hy Hz.
    rewrite lookup_app_r by (rewrite length_take; fold n; lia).
    rewrite length_take. fold n. replace (1 `min` n)%nat with 1%nat by lia.
    rewrite lookup_app_l by (rewrite Lv; lia).
    unfold v. rewrite !lookup_zip_with, !list_lookup_fmap.
    rewrite !lookup_take. rewrite !decide_True by lia. rewrite !lookup_drop.
    replace (0 + (j - 1))%nat with (j - 1)%nat by lia.
    replace (1 + (j - 1))%nat with j by lia.
    replace (2 + (j - 1))%nat with (j + 1)%nat by lia.
    rewrite Hx, Hy, Hz. reflexivity.
  - intros j [-> | Hj].
    + rewrite lookup_app_l by (rewrite length_take; fold n; lia).
      rewrite lookup_take, decide_True by lia. reflexivity.
    + rewrite lookup_app_r by (rewrite length_take; fold n; lia).
      rewrite length_take. fold n. replace (1 `min` n)%nat with 1%nat by lia.
      rewrite lookup_app_r by (rewrite Lv; lia).
      rewrite Lv, lookup_drop. f_equal. lia.
Qed.

Lemma interior_stencil_short {T} (a b c : T -> T) (add : T -> T -> T)
    (l : list T) :
  (length l < 2)%nat -> interior_stencil a b c add l = l.
Proof.
  destruct l as [|x [|y l]]; [reflexivity|reflexivity|cbn; lia].
Qed.

Lemma run_try_update_return {S} (f : S -> outcome S) (s s' : S) :
  f s = Return s' -> try_update f s = (Return tt, s').
Proof. intros E. unfold try_update. rewrite E. reflexivity. Qed.

Lemma run_bind_try_update_return {S A} (f : S -> outcome S) (k : M S A)
    (s s' : S) :
  f s = Return s' -> (try_update f ;; k) s = k s'.
Proof.
  intros E. unfold mbind, M_bind, bind, try_update. rewrite E. reflexivity.
Qed.

Lemma run_bind_try_update_raise {S A} (f : S -> outcome S) (k : M S A)
    (s : S) e :
  f s = Raise e -> (try_update f ;; k) s = (Raise e, s).
Proof.
  intros E. unfold mbind, M_bind, bind, try_update. rewrite E. reflexivity.
Qed.

(** The first statement of the branch ['r'], row by row. *)
Lemma set_cols_rows (F : arr2 complex) :
  Slice.set_cols 1 (Some (-1)%Z) F
    (RtoC 0.25 ⊡ Slice.cols 0 (Some (-2)%Z) F
     ⊞ RtoC 0.5 ⊡ Slice.cols 1 (Some (-1)%Z) F
     ⊞ RtoC 0.25 ⊡ Slice.cols 2 None F)
  = fmap (M := list)
      (interior_stencil (Cmul (RtoC 0.25)) (Cmul (RtoC 0.5))
         (Cmul (RtoC 0.25)) Cadd) F.
Proof.
  unfold Slice.set_cols, Slice.cols, cadd, cscal, amap, amap2.
  induction F as [|l F IH]; [reflexivity|].
  cbn [fmap list_fmap zip_with]. rewrite <- IH. reflexivity.
Qed.

(** The array the filter along r leaves, row by row. *)
Lemma binomial_filter_r_rows (sign_guard : Z) (F : arr2 complex) (nr : nat) :
  Forall (fun row => length row = nr) F -> (2 <= nr)%nat ->
  binomial_filter "r" sign_guard F =
  (Return tt,
   fmap (M := list) (fun l =>
     <[(nr - 1)%nat :=
        (RtoC 0.25 * l !!! (nr - 1)%nat + RtoC 0.5 * l !!! (nr - 1)%nat
         + RtoC 0.25 * l !!! (nr - 2)%nat)%cx]>
       (<[0%nat :=
           (RtoC (0.25 * IZR sign_guard) * l !!! 0%nat + RtoC 0.5 * l !!! 0%nat
            + RtoC 0.5 * l !!! 1%nat)%cx]>
          (interior_stencil (Cmul (RtoC 0.25)) (Cmul (RtoC 0.5))
             (Cmul (RtoC 0.25)) Cadd l))) F).
Proof.
  intros HF Hnr. unfold binomial_filter. rewrite run_bind_self.
  destruct (decide ("r" = "z")) as [E|_]; [discriminate E|].
  destruct (decide ("r" = "r")) as [_|E]; [|congruence].
  rewrite run_bind_modify, set_cols_rows.
  set (st := interior_stencil _ _ _ _).
  assert (HF1 : Forall (fun row : list complex => length row = nr)
                  (fmap (M := list) st F)).
  { rewrite Forall_fmap. eapply Forall_impl; [exact HF|].
    intros l Hl. cbn in Hl. cbn. unfold st.
    destruct (interior_stencil_facts (Cmul (RtoC 0.25)) (Cmul (RtoC 0.5))
                (Cmul (RtoC 0.25)) Cadd l) as [E _]; [lia|].
    rewrite E. exact Hl. }
  assert (C0 : Slice.col 0 F
               = Return (fmap (M := list) (fun l => l !!! 0%nat) F)).
  { apply (col_lookup 0 0 nr); [|lia|exact HF].
    intros l _. apply (index_nonneg l 0). }
  assert (C1 : Slice.col 1 F
               = Return (fmap (M := list) (fun l => l !!! 1%nat) F)).
  { apply (col_lookup 1 1 nr); [|lia|exact HF].
    intros l _. apply (index_nonneg l 1). }
  assert (Cl : Slice.col (-1) F
               = Return (fmap (M := list) (fun l => l !!! (nr - 1)%nat) F)).
  { apply (col_lookup (-1) (nr - 1) nr); [|lia|exact HF].
    intros l Hl. rewrite <- Hl. apply (index_neg l 1); lia. }
  assert (Cl2 : Slice.col (-2) F
               = Return (fmap (M := list) (fun l => l !!! (nr - 2)%nat) F)).
  { apply (col_lookup (-2) (nr - 2) nr); [|lia|exact HF].
    intros l Hl. rewrite <- Hl. apply (index_neg l 2); lia. }
  erewrite run_bind_try_update_return; cycle 1.
  { rewrite C0, C1. cbn [mbind outcome_bind].
    apply (set_col_insert 0 0 nr); [|exact HF1].
    intros l x Hl. apply (set_index_nonneg l 0). lia. }
  erewrite run_try_update_return; cycle 1.
  { rewrite Cl, Cl2. cbn [mbind outcome_bind].
    apply (set_col_insert (-1) (nr - 1) nr).
    - intros l x Hl. rewrite <- Hl. apply (set_index_neg l 1); lia.
    - rewrite Forall_lookup. intros i l. rewrite lookup_zip_with.
      destruct (fmap (M := list) st F !! i) as [l0|] eqn:E0; [|discriminate].
      cbn. destruct (Slice.vadd _ _ !! i) as [y|]; [|discriminate].
      cbn. intros Heq. apply (inj Some) in Heq. subst l.
      rewrite length_insert. rewrite Forall_lookup in HF1. eauto. }
  f_equal. unfold Slice.vadd, Slice.vscal.
  apply list_eq. intros i.
  rewrite !lookup_zip_with, !list_lookup_fmap.
  destruct (F !! i) as [l|]; reflexivity.
Qed.

(** X5. On an array of shape [(nz, nr)] with at least two columns the
    filter along r returns and keeps the shape. In every row the cells
    strictly inside receive [0.25*F[j-1] + 0.5*F[j] + 0.25*F[j+1]]; the
    last cell receives [0.25*F[-1] + 0.5*F[-1] + 0.25*F[-2]]; the cell
    on the axis receives
    [0.25*sign_guard*F[0] + 0.5*F[0] + 0.5*F[1]], all from the values
    before the call. *)
Theorem binomial_filter_r_stencil (sign_guard : Z) (F : arr2 complex)
    (nz nr : nat) :
  shaped nz nr F -> (2 <= nr)%nat ->
  let F' := exec (binomial_filter "r" sign_guard) F in
  fst (binomial_filter "r" sign_guard F) = Return tt /\
  shaped nz nr F' /\
  forall i, (i < nz)%nat ->
    at2 F' i 0
    = (RtoC (0.25 * IZR sign_guard) * at2 F i 0 + RtoC 0.5 * at2 F i 0
       + RtoC 0.5 * at2 F i 1)%cx /\
    (forall j, (0 < j)%nat -> (j + 1 < nr)%nat ->
       at2 F' i j
       = (RtoC 0.25 * at2 F i (j - 1) + RtoC 0.5 * at2 F i j
          + RtoC 0.25 * at2 F i (j + 1))%cx) /\
    at2 F' i (nr - 1)
    = (RtoC 0.25 * at2 F i (nr - 1) + RtoC 0.5 * at2 F i (nr - 1)
       + RtoC 0.25 * at2 F i (nr - 2))%cx.
Proof.
  intros [HL HF] Hnr. cbv zeta. unfold exec.
  rewrite (binomial_filter_r_rows sign_guard F nr HF Hnr). cbn [fst snd].
  split; [reflexivity|].
  set (st := interior_stencil (Cmul (RtoC 0.25)) (Cmul (RtoC 0.5))
               (Cmul (RtoC 0.25)) Cadd).
  assert (Hst : forall l, length l = nr ->
            length (st l) = nr /\
            forall j, (0 < j)%nat -> (j + 1 < nr)%nat ->
              st l !! j = Some (RtoC 0.25 * l !!! (j - 1)%nat
                                + RtoC 0.5 * l !!! j
                                + RtoC 0.25 * l !!! (j + 1)%nat)%cx).
  { intros l Hl.
    destruct (interior_stencil_facts (Cmul (RtoC 0.25)) (Cmul (RtoC 0.5))
                (Cmul (RtoC 0.25)) Cadd l) as (E & Hin & _); [lia|].
    split; [fold st in E; lia|].
    intros j Hj0 Hj1.
    destruct (lookup_lt_is_Some_2 l (j - 1)) as [x Hx]; [lia|].
    destruct (lookup_lt_is_Some_2 l j) as [y Hy]; [lia|].
    destruct (lookup_lt_is_Some_2 l (j + 1)) as [z Hz]; [lia|].
    rewrite (list_lookup_total_correct _ _ _ Hx),
            (list_lookup_total_correct _ _ _ Hy),
            (list_lookup_total_correct _ _ _ Hz).
    apply Hin; try assumption; lia. }
  split.
  { split; [rewrite length_fmap; exact HL|].
    rewrite Forall_fmap. eapply Forall_impl; [exact HF|].
    intros l Hl. cbn in Hl. cbn. rewrite !length_insert.
    apply (Hst l Hl). }
  intros i Hi.
  destruct (lookup_lt_is_Some_2 F i) as [l Hl]; [lia|].
  assert (Ll : length l = nr) by (rewrite Forall_lookup in HF; eauto).
  destruct (Hst l Ll) as [Lst Hin].
  set (g := fun l : list complex =>
              <[(nr - 1)%nat := _]> (<[0%nat := _]> (st l))).
  assert (Hl' : fmap (M := list) g F !! i = Some (g l))
    by (rewrite list_lookup_fmap, Hl; reflexivity).
  assert (Lg : length (g l) = nr)
    by (unfold g; rewrite !length_insert; exact Lst).
  rewrite !(at2_lookup F i _ l Hl) by lia.
  rewrite !(at2_lookup _ i _ (g l) Hl') by lia.
  split; [|split].
  - apply list_lookup_total_correct. unfold g.
    rewrite list_lookup_insert_ne by lia.
    apply list_lookup_insert_eq. lia.
  - intros j Hj0 Hj1.
    rewrite !(at2_lookup F i _ l Hl) by lia.
    rewrite !(at2_lookup _ i _ (g l) Hl') by lia.
    apply list_lookup_total_correct. unfold g.
    rewrite !list_lookup_insert_ne by lia.
    apply Hin; lia.
  - apply list_lookup_total_correct. unfold g.
    apply list_lookup_insert_eq. rewrite length_insert. lia.
Qed.

(** X6. An array with at least one row and fewer than two columns cannot
    be filtered along r: the call raises an IndexError and the array is
    left as it was. *)
Theorem binomial_filter_r_narrow (sign_guard : Z) (F : arr2 complex)
    (nz nr : nat) :
  shaped nz nr F -> (0 < nz)%nat -> (nr < 2)%nat ->
  binomial_filter "r" sign_guard F = (Raise IndexError, F).
Proof.
  intros [HL HF] Hnz Hnr. unfold binomial_filter. rewrite run_bind_self.
  destruct (decide ("r" = "z")) as [E|_]; [discriminate E|].
  destruct (decide ("r" = "r")) as [_|E]; [|congruence].
  rewrite run_bind_modify, set_cols_rows.
  assert (E1 : fmap (M := list)
                 (interior_stencil (Cmul (RtoC 0.25)) (Cmul (RtoC 0.5))
                    (Cmul (RtoC 0.25)) Cadd) F = F).
  { clear HL Hnz. induction HF as [|l F Hl HF IH]; [reflexivity|].
    cbn [fmap list_fmap]. rewrite interior_stencil_short by lia.
    f_equal. exact IH. }
  rewrite E1.
  assert (Hne : F <> []) by (intros ->; cbn in HL; lia).
  apply run_bind_try_update_raise.
  destruct nr as [|[|nr]]; [| |lia].
  - rewrite (col_out 0 0 F); [reflexivity| |exact HF|exact Hne].
    intros l Hl. transitivity (l !! 0%nat); [apply (index_nonneg l 0)|].
    apply lookup_ge_None_2. lia.
  - rewrite (col_lookup 0 0 1 F); [| |lia|exact HF].
    2: { intros l _. apply (index_nonneg l 0). }
    rewrite (col_out 1 1 F); [reflexivity| |exact HF|exact Hne].
    intros l Hl. transitivity (l !! 1%nat); [apply (index_nonneg l 1)|].
    apply lookup_ge_None_2. lia.
Qed.

(** X9. An array with fewer than two rows cannot be filtered along z:
    the call raises an IndexError and the array is left as it was. *)
Theorem binomial_filter_z_short (sign_guard : Z) (F : arr2 complex) :
  (length F < 2)%nat ->
  binomial_filter "z" sign_guard F = (Raise IndexError, F).
Proof.
  destruct F as [|l [|l' F]]; [reflexivity|reflexivity|cbn; lia].
Qed.

Lemma assign_row_same {T} (old r : list T) :
  length old = length r -> zip_with (fun _ x => x) old r = r.
Proof.
  revert r. induction old as [|a old IH]; intros [|x r] Hl;
    try reflexivity; try discriminate.
  cbn. f_equal. apply IH. cbn in Hl. lia.
Qed.

Lemma row_nonneg {T} `{Inhabited T} (k : nat) (A : arr2 T) :
  (k < length A)%nat -> Slice.row (Z.of_nat k) A = Return (A !!! k).
Proof.
  intros Hk. unfold Slice.row. rewrite index_nonneg.
  destruct (lookup_lt_is_Some_2 A k Hk) as [r Hr].
  rewrite Hr, (list_lookup_total_correct _ _ _ Hr). reflexivity.
Qed.

Lemma row_neg {T} `{Inhabited T} (k : nat) (A : arr2 T) :
  (0 < k)%nat -> (k <= length A)%nat ->
  Slice.row (- Z.of_nat k) A = Return (A !!! (length A - k)%nat).
Proof.
  intros Hk Hl. unfold Slice.row. rewrite index_neg by lia.
  destruct (lookup_lt_is_Some_2 A (length A - k)) as [r Hr]; [lia|].
  rewrite Hr, (list_lookup_total_correct _ _ _ Hr). reflexivity.
Qed.

Lemma set_row_nonneg {T} (k : nat) (r old : list T) (A : arr2 T) :
  A !! k = Some old -> length old = length r ->
  Slice.set_row (Z.of_nat k) r A = Return (<[k := r]> A).
Proof.
  intros Hold Hl. unfold Slice.set_row. rewrite index_nonneg, Hold.
  rewrite (assign_row_same old r Hl).
  rewrite set_index_nonneg by (eapply lookup_lt_Some; eauto). reflexivity.
Qed.

Lemma set_row_neg {T} (k : nat) (r old : list T) (A : arr2 T) :
  (0 < k)%nat -> (k <= length A)%nat ->
  A !! (length A - k)%nat = Some old -> length old = length r ->
  Slice.set_row (- Z.of_nat k) r A = Return (<[(length A - k)%nat := r]> A).
Proof.
  intros Hk Hn Hold Hl. unfold Slice.set_row.
  rewrite index_neg by lia. rewrite Hold.
  rewrite (assign_row_same old r Hl).
  rewrite set_index_neg by lia. reflexivity.
Qed.


Lemma row_stencil_facts (x y z : list complex) (nr : nat) :
  length x = nr -> length y = nr -> length z = nr ->
  length (row_stencil x y z) = nr /\
  forall j, (j < nr)%nat ->
    row_stencil x y z !!! j
    = (RtoC 0.25 * x !!! j + RtoC 0.5 * y !!! j + RtoC 0.25 * z !!! j)%cx.
Proof.
  intros Hx Hy Hz. unfold row_stencil, Slice.vadd, Slice.vscal. split.
  - rewrite !length_zip_with, !length_fmap. lia.
  - intros j Hj. apply list_lookup_total_correct.
    rewrite !lookup_zip_with, !list_lookup_fmap.
    destruct (lookup_lt_is_Some_2 x j) as [a Ha]; [lia|].
    destruct (lookup_lt_is_Some_2 y j) as [b Hb]; [lia|].
    destruct (lookup_lt_is_Some_2 z j) as [d Hd]; [lia|].
    rewrite (list_lookup_total_correct _ _ _ Ha),
            (list_lookup_total_correct _ _ _ Hb),
            (list_lookup_total_correct _ _ _ Hd).
    rewrite Ha, Hb, Hd. reflexivity.
Qed.

Lemma binomial_filter_z_rows (sign_guard : Z) (F : arr2 complex) (nr : nat) :
  Forall (fun row => length row = nr) F -> (2 <= length F)%nat ->
  let n := length F in
  binomial_filter "z" sign_guard F =
  (Return tt,
   <[(n - 1)%nat :=
       row_stencil (F !!! (n - 2)%nat) (F !!! (n - 1)%nat) (F !!! 0%nat)]>
     (<[0%nat :=
          row_stencil (F !!! (n - 1)%nat) (F !!! 0%nat) (F !!! 1%nat)]>
        (interior_stencil (fmap (M := list) (Cmul (RtoC 0.25)))
           (fmap (M := list) (Cmul (RtoC 0.5)))
           (fmap (M := list) (Cmul (RtoC 0.25))) (zip_with Cadd) F))).
Proof.
  intros HF Hn n. unfold binomial_filter. rewrite run_bind_self.
  destruct (decide ("z" = "z")) as [_|E]; [|congruence].
  rewrite run_bind_modify.
  change (Slice.set_slice 1 (Some (-1)%Z) F _)
    with (interior_stencil (fmap (M := list) (Cmul (RtoC 0.25)))
           (fmap (M := list) (Cmul (RtoC 0.5)))
           (fmap (M := list) (Cmul (RtoC 0.25))) (zip_with Cadd) F).
  set (F1 := interior_stencil _ _ _ _ F).
  destruct (interior_stencil_facts (fmap (M := list) (Cmul (RtoC 0.25)))
           (fmap (M := list) (Cmul (RtoC 0.5)))
           (fmap (M := list) (Cmul (RtoC 0.25))) (zip_with Cadd) F Hn)
    as (L1 & _ & Hends).
  fold F1 in L1, Hends. fold n in L1, Hends.
  assert (Hrow : forall k, (k < n)%nat -> length (F !!! k) = nr).
  { intros k Hk. destruct (lookup_lt_is_Some_2 F k Hk) as [r Hr].
    rewrite (list_lookup_total_correct _ _ _ Hr).
    rewrite Forall_lookup in HF. eauto. }
  assert (Rl : Slice.row (-1) F = Return (F !!! (n - 1)%nat))
    by (apply (row_neg 1 F); lia).
  assert (Rl2 : Slice.row (-2) F = Return (F !!! (n - 2)%nat))
    by (apply (row_neg 2 F); lia).
  assert (R0 : Slice.row 0 F = Return (F !!! 0%nat))
    by (apply (row_nonneg 0 F); lia).
  assert (R1 : Slice.row 1 F = Return (F !!! 1%nat))
    by (apply (row_nonneg 1 F); lia).
  erewrite run_bind_try_update_return; cycle 1.
  { rewrite Rl, R0, R1. cbn [mbind outcome_bind].
    apply (set_row_nonneg 0 _ (F !!! 0%nat)).
    - rewrite Hends by lia. apply list_lookup_lookup_total_lt. lia.
    - rewrite Hrow by lia. symmetry.
      apply (row_stencil_facts _ _ _ nr); apply Hrow; lia. }
  erewrite run_try_update_return; cycle 1.
  { rewrite Rl2, Rl, R0. cbn [mbind outcome_bind].
    pose proof (set_row_neg 1 (row_stencil (F !!! (n - 2)%nat)
                  (F !!! (n - 1)%nat) (F !!! 0%nat)) (F !!! (n - 1)%nat)
                  (<[0%nat := row_stencil (F !!! (n - 1)%nat) (F !!! 0%nat)
                       (F !!! 1%nat)]> F1)) as Hs.
    rewrite length_insert, L1 in Hs. apply Hs; [lia|lia| |].
    - rewrite list_lookup_insert_ne by lia.
      rewrite Hends by lia. apply list_lookup_lookup_total_lt. lia.
    - rewrite Hrow by lia. symmetry.
      apply (row_stencil_facts _ _ _ nr); apply Hrow; lia. }
  reflexivity.
Qed.

Lemma at2_total {T} `{Inhabited T} nz nr (A : arr2 T) i j :
  shaped nz nr A -> (i < nz)%nat -> (j < nr)%nat ->
  at2 A i j = (A !!! i) !!! j.
Proof.
  intros [HL HA] Hi Hj.
  destruct (lookup_lt_is_Some_2 A i) as [l Hl]; [lia|].
  rewrite (list_lookup_total_correct _ _ _ Hl).
  apply at2_lookup; [exact Hl|].
  rewrite Forall_lookup in HA. rewrite (HA _ _ Hl). exact Hj.
Qed.

Lemma binomial_filter_z_row_at (sign_guard : Z) (F : arr2 complex)
    (nz nr : nat) i :
  shaped nz nr F -> (2 <= nz)%nat -> (i < nz)%nat ->
  exec (binomial_filter "z" sign_guard) F !! i
  = Some (row_stencil (F !!! ((i + nz - 1) mod nz)%nat) (F !!! i)
            (F !!! ((i + 1) mod nz)%nat)).
Proof.
  intros [HL HF] Hn Hi. unfold exec.
  rewrite (binomial_filter_z_rows sign_guard F nr HF) by lia.
  cbn [snd]. rewrite HL.
  destruct (interior_stencil_facts (fmap (M := list) (Cmul (RtoC 0.25)))
           (fmap (M := list) (Cmul (RtoC 0.5)))
           (fmap (M := list) (Cmul (RtoC 0.25))) (zip_with Cadd) F)
    as (L1 & Hin & _); [lia|].
  rewrite HL in L1, Hin.
  destruct (decide (i = nz - 1)%nat) as [->|Hlast].
  - rewrite list_lookup_insert_eq by (rewrite length_insert; lia).
    replace ((nz - 1 + nz - 1) mod nz)%nat with (nz - 2)%nat.
    2: { replace (nz - 1 + nz - 1)%nat with ((nz - 2) + 1 * nz)%nat by lia.
         rewrite Nat.Div0.mod_add. symmetry. apply Nat.mod_small. lia. }
    replace ((nz - 1 + 1) mod nz)%nat with 0%nat.
    2: { replace (nz - 1 + 1)%nat with nz by lia.
         symmetry. apply Nat.Div0.mod_same. }
    reflexivity.
  - rewrite list_lookup_insert_ne by lia.
    destruct (decide (i = 0)%nat) as [->|H0].
    + rewrite list_lookup_insert_eq by lia.
      replace ((0 + nz - 1) mod nz)%nat with (nz - 1)%nat
        by (symmetry; apply Nat.mod_small; lia).
      replace ((0 + 1) mod nz)%nat with 1%nat
        by (symmetry; apply Nat.mod_small; lia).
      reflexivity.
    + rewrite list_lookup_insert_ne by lia.
      replace ((i + nz - 1) mod nz)%nat with (i - 1)%nat.
      2: { replace (i + nz - 1)%nat with ((i - 1) + 1 * nz)%nat by lia.
           rewrite Nat.Div0.mod_add. symmetry. apply Nat.mod_small. lia. }
      replace ((i + 1) mod nz)%nat with (i + 1)%nat
        by (symmetry; apply Nat.mod_small; lia).
      apply Hin; try lia; apply list_lookup_lookup_total_lt; lia.
Qed.

(** X7. On an array of shape [(nz, nr)] with at least two rows the
    filter along z returns, keeps the shape and is the periodic stencil:
    every cell receives [0.25*F[i-1] + 0.5*F[i] + 0.25*F[i+1]] with the
    row indices taken modulo [nz], from the values before the call. *)
Theorem binomial_filter_z_stencil (sign_guard : Z) (F : arr2 complex)
    (nz nr : nat) :
  shaped nz nr F -> (2 <= nz)%nat ->
  let F' := exec (binomial_filter "z" sign_guard) F in
  fst (binomial_filter "z" sign_guard F) = Return tt /\
  shaped nz nr F' /\
  forall i j, (i < nz)%nat -> (j < nr)%nat ->
    at2 F' i j
    = (RtoC 0.25 * at2 F ((i + nz - 1) mod nz) j + RtoC 0.5 * at2 F i j
       + RtoC 0.25 * at2 F ((i + 1) mod nz) j)%cx.
Proof.
  intros HS Hn. cbv zeta.
  pose proof HS as [HL HF].
  assert (Hrow : forall k, (k < nz)%nat -> length (F !!! k) = nr).
  { intros k Hk. destruct (lookup_lt_is_Some_2 F k) as [r Hr]; [lia|].
    rewrite (list_lookup_total_correct _ _ _ Hr).
    rewrite Forall_lookup in HF. eauto. }
  assert (Hp : forall i, ((i + nz - 1) mod nz < nz)%nat)
    by (intros i; apply Nat.mod_upper_bound; lia).
  assert (Hs : forall i, ((i + 1) mod nz < nz)%nat)
    by (intros i; apply Nat.mod_upper_bound; lia).
  assert (HS' : shaped nz nr (exec (binomial_filter "z" sign_guard) F)).
  { split.
    - unfold exec. rewrite (binomial_filter_z_rows sign_guard F nr HF) by lia.
      cbn [snd]. rewrite !length_insert.
      rewrite (proj1 (interior_stencil_facts _ _ _ _ F ltac:(lia))).
      exact HL.
    - rewrite Forall_lookup. intros i r Hr.
      assert (Hi : (i < nz)%nat).
      { apply lookup_lt_Some in Hr. revert Hr. unfold exec.
        rewrite (binomial_filter_z_rows sign_guard F nr HF) by lia.
        cbn [snd]. rewrite !length_insert.
        rewrite (proj1 (interior_stencil_facts _ _ _ _ F ltac:(lia))). lia. }
      rewrite (binomial_filter_z_row_at sign_guard F nz nr i HS Hn Hi) in Hr.
      apply (inj Some) in Hr. subst r.
      apply (row_stencil_facts _ _ _ nr); apply Hrow; auto. }
  split.
  { rewrite (binomial_filter_z_rows sign_guard F nr HF) by lia. reflexivity. }
  split; [exact HS'|].
  intros i j Hi Hj.
  rewrite (at2_total nz nr _ i j HS' Hi Hj).
  rewrite !(at2_total nz nr F _ j HS) by auto.
  pose proof (binomial_filter_z_row_at sign_guard F nz nr i HS Hn Hi) as Hr.
  rewrite (list_lookup_total_correct _ _ _ Hr).
  apply (row_stencil_facts _ _ _ nr); auto.
Qed.


Lemma csum_ext n (f g : nat -> complex) :
  (forall i, (i < n)%nat -> f i = g i) -> csum n f = csum n g.
Proof.
  induction n as [|n IH]; intros Hfg; [reflexivity|].
  cbn [csum]. rewrite IH by (intros i Hi; apply Hfg; lia).
  rewrite Hfg by lia. reflexivity.
Qed.

Lemma csum_front n (f : nat -> complex) :
  csum (S n) f = (f 0%nat + csum n (fun i => f (S i)))%cx.
Proof.
  induction n as [|n IH].
  - cbn [csum]. destruct (f 0%nat) as [x y]. Csplit; ring.
  - change (csum (S (S n)) f) with (csum (S n) f + f (S n))%cx.
    rewrite IH. cbn [csum].
    destruct (f 0%nat) as [x y], (csum n (fun i => f (S i))) as [u v],
             (f (S n)) as [p q].
    Csplit; ring.
Qed.

Lemma csum_stencil n (a b d : complex) (f1 f2 f3 : nat -> complex) :
  csum n (fun i => a * f1 i + b * f2 i + d * f3 i)%cx
  = (a * csum n f1 + b * csum n f2 + d * csum n f3)%cx.
Proof.
  induction n as [|n IH].
  - cbn [csum]. destruct a, b, d. Csplit; ring.
  - cbn [csum]. rewrite IH.
    destruct a, b, d, (csum n f1), (csum n f2), (csum n f3),
             (f1 n), (f2 n), (f3 n).
    Csplit; ring.
Qed.

Lemma csum_next n (f : nat -> complex) :
  csum n (fun i => f ((i + 1) mod n)%nat) = csum n f.
Proof.
  destruct n as [|m]; [reflexivity|].
  rewrite (csum_front m f). cbn [csum].
  replace ((m + 1) mod S m)%nat with 0%nat
    by (replace (m + 1)%nat with (S m) by lia;
        symmetry; apply Nat.Div0.mod_same).
  rewrite (csum_ext m _ (fun i => f (S i))).
  - destruct (f 0%nat), (csum m (fun i => f (S i))). Csplit; ring.
  - intros i Hi. f_equal. rewrite Nat.mod_small by lia. lia.
Qed.

Lemma csum_prev n (f : nat -> complex) :
  csum n (fun i => f ((i + n - 1) mod n)%nat) = csum n f.
Proof.
  destruct n as [|m]; [reflexivity|].
  rewrite csum_front. cbv beta.
  assert (E0 : ((0 + S m - 1) mod S m)%nat = m).
  { replace (0 + S m - 1)%nat with m by lia. apply Nat.mod_small. lia. }
  rewrite E0.
  rewrite (csum_ext m _ f).
  - cbn [csum]. destruct (f m), (csum m f). Csplit; ring.
  - intros i Hi. f_equal.
    replace (S i + S m - 1)%nat with (i + 1 * S m)%nat by lia.
    rewrite Nat.Div0.mod_add. apply Nat.mod_small. lia.
Qed.

(** The sum of a column under the periodic stencil. *)
Lemma z_filter_column_sum (sign_guard : Z) (F : arr2 complex)
    (nz nr j : nat) :
  shaped nz nr F -> (2 <= nz)%nat -> (j < nr)%nat ->
  let F' := exec (binomial_filter "z" sign_guard) F in
  csum nz (fun i => at2 F' i j) = csum nz (fun i => at2 F i j).
Proof.
  intros HS Hn Hj. cbv zeta.
  assert (Hrow : forall k, (k < nz)%nat -> length (F !!! k) = nr).
  { intros k Hk. destruct HS as [HL HF].
    destruct (lookup_lt_is_Some_2 F k) as [r Hr]; [lia|].
    rewrite (list_lookup_total_correct _ _ _ Hr).
    rewrite Forall_lookup in HF. eauto. }
  rewrite (csum_ext nz _
    (fun i => RtoC 0.25 * (fun k => (F !!! k) !!! j) ((i + nz - 1) mod nz)%nat
              + RtoC 0.5 * (fun k => (F !!! k) !!! j) i
              + RtoC 0.25 * (fun k => (F !!! k) !!! j) ((i + 1) mod nz)%nat)%cx).
  2: { intros i Hi.
       pose proof (binomial_filter_z_row_at sign_guard F nz nr i HS Hn Hi) as Hr.
       rewrite (at2_lookup _ i j _ Hr).
       - apply (row_stencil_facts _ _ _ nr); try exact Hj; apply Hrow;
           try exact Hi; apply Nat.mod_upper_bound; lia.
       - rewrite (proj1 (row_stencil_facts _ _ _ nr
                   ltac:(apply Hrow; apply Nat.mod_upper_bound; lia)
                   ltac:(apply Hrow; exact Hi)
                   ltac:(apply Hrow; apply Nat.mod_upper_bound; lia))).
         exact Hj. }
  rewrite (csum_stencil nz (RtoC 0.25) (RtoC 0.5) (RtoC 0.25)
             (fun i => (fun k => (F !!! k) !!! j) ((i + nz - 1) mod nz)%nat)
             (fun k => (F !!! k) !!! j)
             (fun i => (fun k => (F !!! k) !!! j) ((i + 1) mod nz)%nat)).
  rewrite (csum_prev nz (fun k => (F !!! k) !!! j)).
  rewrite (csum_next nz (fun k => (F !!! k) !!! j)).
  rewrite (csum_ext nz (fun i => at2 F i j) (fun k => (F !!! k) !!! j))
    by (intros i Hi; apply (at2_total nz nr); assumption).
  destruct (csum nz (fun k => (F !!! k) !!! j)) as [x y].
  Csplit; lra.
Qed.

(** X8. The filter along z conserves the sum of every column: the sum
    over the rows of [F[i, j]] is the same before and after the call. *)
Theorem binomial_filter_z_conserves_sum (sign_guard : Z) (F : arr2 complex)
    (nz nr j : nat) :
  shaped nz nr F -> (2 <= nz)%nat -> (j < nr)%nat ->
  let F' := exec (binomial_filter "z" sign_guard) F in
  csum nz (fun i => at2 F' i j) = csum nz (fun i => at2 F i j).
Proof. exact (z_filter_column_sum sign_guard F nz nr j). Qed.

Lemma sample_array_shaped :
  shaped 2 3 [[(1, 0); (2, 0); (3, 0)]; [(4, 0); (5, 0); (6, 0)]].
Proof. split; [reflexivity|]. repeat constructor. Qed.

Lemma binomial_filter_r_stencil_witness :
  let F := [[(1, 0); (2, 0); (3, 0)]; [(4, 0); (5, 0); (6, 0)]] in
  shaped 2 3 F /\ (2 <= 3)%nat /\
  fst (binomial_filter "r" 1 F) = Return tt /\
  shaped 2 3 (exec (binomial_filter "r" 1) F).
Proof.
  cbv zeta. split; [exact sample_array_shaped|]. split; [lia|].
  pose proof (binomial_filter_r_stencil 1 _ 2 3 sample_array_shaped
                ltac:(lia)) as Hw.
  cbv zeta in Hw. split; [exact (proj1 Hw)|exact (proj1 (proj2 Hw))].
Defined.

Lemma binomial_filter_r_narrow_witness :
  shaped 1 1 [[(1, 0)]] /\
  binomial_filter "r" 1 [[(1, 0)]] = (Raise IndexError, [[(1, 0)]]).
Proof.
  assert (HS : shaped 1 1 [[(1, 0)]])
    by (split; [reflexivity|repeat constructor]).
  split; [exact HS|].
  apply (binomial_filter_r_narrow 1 _ 1 1 HS); lia.
Defined.

Lemma binomial_filter_z_short_witness :
  binomial_filter "z" 1 [[(1, 0); (2, 0)]]
  = (Raise IndexError, [[(1, 0); (2, 0)]]).
Proof. apply binomial_filter_z_short. cbn. lia. Defined.

Lemma binomial_filter_z_stencil_witness :
  let F := [[(1, 0); (2, 0); (3, 0)]; [(4, 0); (5, 0); (6, 0)]] in
  shaped 2 3 F /\ (2 <= 2)%nat /\
  fst (binomial_filter "z" 1 F) = Return tt /\
  shaped 2 3 (exec (binomial_filter "z" 1) F).
Proof.
  cbv zeta. split; [exact sample_array_shaped|]. split; [lia|].
  pose proof (binomial_filter_z_stencil 1 _ 2 3 sample_array_shaped
                ltac:(lia)) as Hw.
  cbv zeta in Hw. split; [exact (proj1 Hw)|exact (proj1 (proj2 Hw))].
Defined.

Lemma binomial_filter_z_conserves_sum_witness :
  let F := [[(1, 0); (2, 0); (3, 0)]; [(4, 0); (5, 0); (6, 0)]] in
  csum 2 (fun i => at2 (exec (binomial_filter "z" 1) F) i 1)
  = csum 2 (fun i => at2 F i 1).
Proof.
  cbv zeta.
  apply (binomial_filter_z_conserves_sum 1 _ 2 3 1 sample_array_shaped); lia.
Defined.

(** ** [get_filter_array], [SpectralGrid.__init__] and [SpectralGrid.filter] *)

(** [a.max()] is an element of the array and bounds every element. *)
Lemma foldl_Rmax_facts (l : list R) (x : R) :
  (foldl Rmax x l = x \/ foldl Rmax x l ∈ l) /\
  x <= foldl Rmax x l /\ Forall (fun y => y <= foldl Rmax x l) l.
Proof.
  revert x. induction l as [|a l IH]; intros x; cbn [foldl].
  - split; [left; reflexivity|]. split; [lra|constructor].
  - destruct (IH (Rmax x a)) as (Hin & Hle & Hall).
    pose proof (Rmax_l x a) as Hl. pose proof (Rmax_r x a) as Hr.
    split; [|split].
    + destruct Hin as [E|Hin].
      * rewrite E. unfold Rmax. destruct (Rle_dec x a).
        -- right. left.
        -- left. reflexivity.
      * right. right. exact Hin.
    + lra.
    + constructor; [lra|exact Hall].
Qed.

Lemma np_max_facts (l : list R) (x : R) :
  np_max l = Return x -> x ∈ l /\ Forall (fun y => y <= x) l.
Proof.
  destruct l as [|a l]; [discriminate|]. cbn [np_max].
  intros Heq. apply Return_inj in Heq. subst x.
  destruct (foldl_Rmax_facts l a) as (Hin & Hle & Hall). split.
  - destruct Hin as [-> |Hin]; [left|right; exact Hin].
  - constructor; assumption.
Qed.

Lemma np_max_nonempty (l : list R) :
  l <> [] -> exists x, np_max l = Return x.
Proof. destruct l as [|a l]; [congruence|]. intros _. eexists. reflexivity. Qed.

Lemma at2_outer (u v : list R) i j x y :
  u !! i = Some x -> v !! j = Some y -> at2 (outer u v) i j = x * y.
Proof.
  intros Hu Hv. unfold at2, get, outer.
  rewrite list_lookup_fmap, Hu. cbn. rewrite list_lookup_fmap, Hv. reflexivity.
Qed.

Lemma filter_weight (k kmax : R) :
  let w := 1 - sin (k * (1 / kmax * PI / 2)) ^ 2 in
  w = cos (k * (1 / kmax * PI / 2)) ^ 2 /\ 0 <= w <= 1 /\
  (kmax <> 0 -> k = kmax -> w = 0) /\ (k = 0 -> w = 1).
Proof.
  cbv zeta. set (t := k * (1 / kmax * PI / 2)).
  pose proof (sin2_cos2 t) as Hsc. unfold Rsqr in Hsc.
  assert (E : 1 - sin t ^ 2 = cos t ^ 2) by nra.
  split; [exact E|]. split; [nra|]. split.
  - intros Hk ->. rewrite E.
    replace t with (PI / 2) by (unfold t; field; exact Hk).
    rewrite cos_PI2. ring.
  - intros ->. replace t with 0 by (unfold t; ring).
    rewrite sin_0. ring.
Qed.

(** The weights of the filter, entry by entry. *)
Lemma filter_array_weights (kz kr : list R) (zmax rmax : R) :
  np_max kz = Return zmax -> np_max kr = Return rmax ->
  zmax <> 0 -> rmax <> 0 ->
  exists A,
    get_filter_array kz kr = Return A /\
    shaped (length kz) (length kr) A /\
    zmax ∈ kz /\ rmax ∈ kr /\
    forall i j zi rj, kz !! i = Some zi -> kr !! j = Some rj ->
      at2 A i j = cos (zi * (1 / zmax * PI / 2)) ^ 2
                  * cos (rj * (1 / rmax * PI / 2)) ^ 2 /\
      0 <= at2 A i j <= 1 /\
      (zi = zmax \/ rj = rmax -> at2 A i j = 0) /\
      (zi = 0 -> rj = 0 -> at2 A i j = 1).
Proof.
  intros Hz Hr Hz0 Hr0.
  assert (HA : get_filter_array kz kr = Return (outer
     (fmap (M := list) (fun k => 1 - sin (k * (1 / zmax * PI / 2)) ^ 2) kz)
     (fmap (M := list) (fun k => 1 - sin (k * (1 / rmax * PI / 2)) ^ 2) kr)))
    by (unfold get_filter_array; rewrite Hz, Hr; reflexivity).
  eexists. split; [exact HA|].
  split; [exact (get_filter_array_shaped _ _ _ HA)|].
  split; [exact (proj1 (np_max_facts _ _ Hz))|].
  split; [exact (proj1 (np_max_facts _ _ Hr))|].
  intros i j zi rj Hi Hj.
  rewrite (at2_outer _ _ i j (1 - sin (zi * (1 / zmax * PI / 2)) ^ 2)
             (1 - sin (rj * (1 / rmax * PI / 2)) ^ 2))
    by (rewrite list_lookup_fmap; first [rewrite Hi|rewrite Hj]; reflexivity).
  destruct (filter_weight zi zmax) as (Ez & Bz & Zz & Oz).
  destruct (filter_weight rj rmax) as (Er & Br & Zr & Or).
  cbv zeta in *.
  split; [rewrite Ez, Er; reflexivity|].
  split; [clear - Bz Br; nra|].
  split.
  - intros [E|E]; [rewrite (Zz Hz0 E)|rewrite (Zr Hr0 E)]; ring.
  - intros E1 E2. rewrite (Oz E1), (Or E2). ring.
Qed.

(** X10. For wavevector arrays whose maxima [zmax] and [rmax] are not
    zero, [get_filter_array] returns an array of shape
    [(len(kz), len(kr))] whose entry [(i, j)] is
    [cos(kz[i]/zmax*pi/2)^2 * cos(kr[j]/rmax*pi/2)^2]: it lies in
    [[0, 1]], it is 0 where [kz[i]] or [kr[j]] is the maximum (which is an
    element of the array) and 1 where both are 0. *)
Theorem get_filter_array_values (kz kr : list R) (zmax rmax : R) :
  np_max kz = Return zmax -> np_max kr = Return rmax ->
  zmax <> 0 -> rmax <> 0 ->
  exists A,
    get_filter_array kz kr = Return A /\
    shaped (length kz) (length kr) A /\
    zmax ∈ kz /\ rmax ∈ kr /\
    forall i j zi rj, kz !! i = Some zi -> kr !! j = Some rj ->
      at2 A i j = cos (zi * (1 / zmax * PI / 2)) ^ 2
                  * cos (rj * (1 / rmax * PI / 2)) ^ 2 /\
      0 <= at2 A i j <= 1 /\
      (zi = zmax \/ rj = rmax -> at2 A i j = 0) /\
      (zi = 0 -> rj = 0 -> at2 A i j = 1).
Proof. exact (filter_array_weights kz kr zmax rmax). Qed.


(** X11. [SpectralGrid.__init__] raises a ValueError when [kz] or [kr]
    is empty (the maximum of an empty array); otherwise it returns a grid
    of [len(kz)] by [len(kr)] points for the mode [m] whose field arrays
    and [F] are zero and whose arrays satisfy the invariant of the
    class. *)
Theorem spectral_grid_init_outcome (kz kr : list R) (m : nat) :
  (kz = [] \/ kr = [] ->
   exists msg, SpectralGrid.init kz kr m = Raise (ValueError msg)) /\
  (kz <> [] -> kr <> [] ->
   exists g, SpectralGrid.init kz kr m = Return g /\
     SpectralGrid.Nz g = length kz /\ SpectralGrid.Nr g = length kr /\
     SpectralGrid.m g = m /\ SpectralGrid.invariant g /\
     SpectralGrid.F g = zeros (length kz) (length kr) /\
     Forall (fun X => X = zeros (length kz) (length kr)) (spectral_fields g)).
Proof.
  split.
  - intros Hempty. unfold SpectralGrid.init, get_filter_array.
    destruct (meshgrid_ij kz kr) as [kz2 kr2].
    destruct kz as [|z kz].
    + eexists. reflexivity.
    + destruct Hempty as [E| ->]; [discriminate|].
      eexists. reflexivity.
  - intros Hz Hr.
    destruct (np_max_nonempty kz Hz) as [zmax Ez].
    destruct (np_max_nonempty kr Hr) as [rmax Er].
    assert (Hinit : exists g, SpectralGrid.init kz kr m = Return g /\
       SpectralGrid.Nz g = length kz /\ SpectralGrid.Nr g = length kr /\
       SpectralGrid.m g = m /\
       SpectralGrid.F g = zeros (length kz) (length kr) /\
       Forall (fun X => X = zeros (length kz) (length kr)) (spectral_fields g)).
    { unfold SpectralGrid.init, get_filter_array. rewrite Ez, Er.
      destruct (meshgrid_ij kz kr) as [kz2 kr2].
      eexists. split; [reflexivity|].
      repeat match goal with |- _ /\ _ => split end; try reflexivity.
      unfold spectral_fields. repeat constructor. }
    destruct Hinit as (g & Hg & H1 & H2 & H3 & H4 & H5).
    exists g. repeat match goal with |- _ /\ _ => split end; try assumption.
    exact (init_invariant _ _ _ _ Hg).
Qed.

Lemma filter_cell nz nr (X : arr2 complex) (fa : arr2 R) i j :
  shaped nz nr X -> shaped nz nr fa -> (i < nz)%nat -> (j < nr)%nat ->
  0 <= at2 fa i j <= 1 ->
  Cnorm2 (at2 (X ⊠ ⇑fa) i j) <= Cnorm2 (at2 X i j).
Proof.
  intros HX Hfa Hi Hj Hw. np_unfold. at2_simpl nz nr.
  destruct (at2 X i j) as [x y]. generalize dependent (at2 fa i j).
  intros w Hw. Cunfold.
  assert (Hww : 0 <= w * w <= 1) by nra.
  pose proof (Rle_0_sqr x) as Hx. pose proof (Rle_0_sqr y) as Hy.
  unfold Rsqr in Hx, Hy.
  replace ((x * w - y * 0) * (x * w - y * 0) + (x * 0 + y * w) * (x * 0 + y * w))
    with ((w * w) * (x * x + y * y)) by ring.
  rewrite <- (Rmult_1_l (x * x + y * y)) at 2.
  apply Rmult_le_compat_r; lra.
Qed.

(** X12. On a grid whose filter array is the one [__init__] computes
    (the maxima of [kz] and [kr] not zero), [SpectralGrid.filter] never
    increases the modulus of a field at a point: whatever the string
    [fieldtype], every field array after the call has at [(i, j)] a
    squared modulus at most the one before the call. *)
Theorem spectral_filter_contracts (g : SpectralGrid.t) (fieldtype : string)
    (kz kr : list R) (zmax rmax : R) (i j k : nat) (X X' : arr2 complex) :
  SpectralGrid.well_shaped g ->
  get_filter_array kz kr = Return (SpectralGrid.filter_array g) ->
  np_max kz = Return zmax -> np_max kr = Return rmax ->
  zmax <> 0 -> rmax <> 0 ->
  (i < SpectralGrid.Nz g)%nat -> (j < SpectralGrid.Nr g)%nat ->
  spectral_fields g !! k = Some X ->
  spectral_fields (exec (SpectralGrid.filter fieldtype) g) !! k = Some X' ->
  Cnorm2 (at2 X' i j) <= Cnorm2 (at2 X i j).
Proof.
  intros Hg Hget Hz Hr Hz0 Hr0 Hi Hj HX HX'.
  pose proof Hg as Hg'. shapes Hg'.
  assert (Hw : 0 <= at2 (SpectralGrid.filter_array g) i j <= 1).
  { destruct (filter_array_weights kz kr zmax rmax Hz Hr Hz0 Hr0)
      as (A & HA & HsA & _ & _ & Hval).
    rewrite Hget in HA. apply Return_inj in HA. subst A.
    destruct HsA as [L1 R1]. destruct Hfa as [L2 R2].
    destruct (lookup_lt_is_Some_2 kz i) as [zi Hzi]; [lia|].
    destruct (lookup_lt_is_Some_2 (SpectralGrid.filter_array g) i)
      as [row Hrow]; [lia|].
    rewrite Forall_lookup in R1. rewrite Forall_lookup in R2.
    pose proof (R1 _ _ Hrow) as E1. pose proof (R2 _ _ Hrow) as E2.
    destruct (lookup_lt_is_Some_2 kr j) as [rj Hrj]; [lia|].
    apply (Hval i j zi rj Hzi Hrj). }
  assert (Hcell : forall A, shaped (SpectralGrid.Nz g) (SpectralGrid.Nr g) A ->
            Cnorm2 (at2 (A ⊠ ⇑(SpectralGrid.filter_array g)) i j)
            <= Cnorm2 (at2 A i j)).
  { intros A HA. apply (filter_cell (SpectralGrid.Nz g) (SpectralGrid.Nr g));
      assumption. }
  revert HX'. unfold SpectralGrid.filter, exec.
  repeat case_decide;
    rewrite ?run_bind_modify; unfold modify, raise; cbn [snd];
    unfold spectral_fields in *;
    cbn [SpectralGrid.set_Ep SpectralGrid.set_Em SpectralGrid.set_Ez
         SpectralGrid.set_Bp SpectralGrid.set_Bm SpectralGrid.set_Bz
         SpectralGrid.set_Jp SpectralGrid.set_Jm SpectralGrid.set_Jz
         SpectralGrid.set_rho_prev SpectralGrid.set_rho_next
         SpectralGrid.Ep SpectralGrid.Em SpectralGrid.Ez
         SpectralGrid.Bp SpectralGrid.Bm SpectralGrid.Bz
         SpectralGrid.Jp SpectralGrid.Jm SpectralGrid.Jz
         SpectralGrid.rho_prev SpectralGrid.rho_next
         SpectralGrid.filter_array] in *;
    intros HX';
    do 11 (destruct k as [|k];
           [apply (inj Some) in HX; apply (inj Some) in HX'; subst X X';
            first [apply Hcell; assumption | apply Rle_refl]|]);
    discriminate HX.
Qed.

Lemma init_filter_array kz kr m g :
  SpectralGrid.init kz kr m = Return g ->
  get_filter_array kz kr = Return (SpectralGrid.filter_array g).
Proof.
  unfold SpectralGrid.init. destruct (meshgrid_ij kz kr) as [kz2 kr2].
  destruct (get_filter_array kz kr) as [fa|]; [|discriminate].
  intros Heq. apply Return_inj in Heq. subst g. reflexivity.
Qed.

Lemma sample_max_0_1 : np_max [0; 1] = Return 1.
Proof. cbn [np_max foldl]. rewrite Rmax_right by lra. reflexivity. Qed.

Lemma sample_max_1_2 : np_max [1; 2] = Return 2.
Proof. cbn [np_max foldl]. rewrite Rmax_right by lra. reflexivity. Qed.

Lemma get_filter_array_values_witness :
  np_max [0; 1] = Return 1 /\ np_max [1; 2] = Return 2 /\
  exists A, get_filter_array [0; 1] [1; 2] = Return A /\ shaped 2 2 A.
Proof.
  split; [exact sample_max_0_1|]. split; [exact sample_max_1_2|].
  destruct (get_filter_array_values [0; 1] [1; 2] 1 2 sample_max_0_1
              sample_max_1_2 ltac:(lra) ltac:(lra)) as (A & HA & HS & _).
  exists A. split; [exact HA|exact HS].
Defined.

Lemma spectral_filter_contracts_witness :
  exists g,
    SpectralGrid.init [0; 1] [1; 2] 0 = Return g /\
    let g1 := SpectralGrid.set_Ep Loaded.field_2_2 g in
    at2 (SpectralGrid.Ep g1) 0 0 = (1, 2) /\
    Cnorm2 (at2 (SpectralGrid.Ep (exec (SpectralGrid.filter "E") g1)) 0 0)
    <= Cnorm2 (at2 (SpectralGrid.Ep g1) 0 0).
Proof.
  assert (Hinit : exists g, SpectralGrid.init [0; 1] [1; 2] 0 = Return g
                    /\ SpectralGrid.Nz g = 2%nat /\ SpectralGrid.Nr g = 2%nat).
  { unfold SpectralGrid.init, get_filter_array.
    rewrite sample_max_0_1, sample_max_1_2. eexists.
    split; [reflexivity|]. split; reflexivity. }
  destruct Hinit as (g & Hg & HNz & HNr).
  exists g. split; [exact Hg|]. cbv zeta.
  split; [reflexivity|].
  apply (spectral_filter_contracts (SpectralGrid.set_Ep Loaded.field_2_2 g)
           "E" [0; 1] [1; 2] 1 2 0 0 0
           (SpectralGrid.Ep (SpectralGrid.set_Ep Loaded.field_2_2 g))
           (SpectralGrid.Ep
              (exec (SpectralGrid.filter "E")
                 (SpectralGrid.set_Ep Loaded.field_2_2 g)))).
  - pose proof (proj1 (init_invariant _ _ _ _ Hg)) as Hws.
    unfold SpectralGrid.well_shaped in *.
    cbn [SpectralGrid.set_Ep SpectralGrid.Nz SpectralGrid.Nr SpectralGrid.kz
         SpectralGrid.kr SpectralGrid.Ep SpectralGrid.Em SpectralGrid.Ez
         SpectralGrid.Bp SpectralGrid.Bm SpectralGrid.Bz SpectralGrid.Jp
         SpectralGrid.Jm SpectralGrid.Jz SpectralGrid.rho_prev
         SpectralGrid.rho_next SpectralGrid.F SpectralGrid.inv_k2
         SpectralGrid.filter_array].
    rewrite HNz, HNr in *.
    repeat match goal with |- _ /\ _ => split end;
      first [apply shaped_concrete_2_2 | tauto].
  - exact (init_filter_array _ _ _ _ Hg).
  - exact sample_max_0_1.
  - exact sample_max_1_2.
  - lra.
  - lra.
  - cbn [SpectralGrid.set_Ep SpectralGrid.Nz]. rewrite HNz. lia.
  - cbn [SpectralGrid.set_Ep SpectralGrid.Nr]. rewrite HNr. lia.
  - reflexivity.
  - reflexivity.
Defined.

(** ** [SpectralGrid.correct_currents]: a second call *)

(** X13. A second call of [correct_currents] changes no current: on a
    grid in the state the constructor and the methods leave it in, with
    [dt > 0], the arrays [Jp], [Jm] and [Jz] after two calls are the
    arrays after one call, and the second call leaves the zero array in
    [F]. *)
Theorem correct_currents_idempotent (g : SpectralGrid.t) (dt : R) :
  SpectralGrid.invariant g -> 0 < dt ->
  let g1 := exec (SpectralGrid.correct_currents dt) g in
  let g2 := exec (SpectralGrid.correct_currents dt) g1 in
  SpectralGrid.Jp g2 = SpectralGrid.Jp g1 /\
  SpectralGrid.Jm g2 = SpectralGrid.Jm g1 /\
  SpectralGrid.Jz g2 = SpectralGrid.Jz g1 /\
  SpectralGrid.F g2 = zeros (SpectralGrid.Nz g) (SpectralGrid.Nr g).
Proof.
  intros Hinv Hdt. cbv zeta.
  pose proof (correct_currents_invariant g dt Hinv Hdt) as Hinv1.
  set (g1 := exec (SpectralGrid.correct_currents dt) g) in *.
  destruct (correct_currents_state g dt Hdt)
    as (_ & (E1 & E2 & E3 & E4 & _) & _).
  cbv zeta in E1, E2, E3, E4. fold g1 in E1, E2, E3, E4.
  destruct (correct_currents_state g1 dt Hdt)
    as (_ & _ & _ & EF & EJp & EJm & EJz).
  cbv zeta in EF, EJp, EJm, EJz.
  pose proof Hinv1 as [Hg1 Hik1]. pose proof Hg1 as Hg1'. shapes Hg1'.
  assert (HF2 : assign (SpectralGrid.F g1)
            (⇑(rneg (SpectralGrid.inv_k2 g1))
             ⊠ SpectralGrid.continuity_residual dt g1)
          = zeros (SpectralGrid.Nz g1) (SpectralGrid.Nr g1)).
  { apply (arr2_ext_at2 (SpectralGrid.Nz g1) (SpectralGrid.Nr g1)).
    - unfold SpectralGrid.continuity_residual. np_unfold. auto 40 with shape.
    - apply shaped_zeros.
    - intros i j Hi Hj.
      assert (Hres : shaped (SpectralGrid.Nz g1) (SpectralGrid.Nr g1)
                (SpectralGrid.continuity_residual dt g1)).
      { unfold SpectralGrid.continuity_residual. np_unfold.
        auto 40 with shape. }
      transitivity (RtoC (- at2 (SpectralGrid.inv_k2 g1) i j)
                    * at2 (SpectralGrid.continuity_residual dt g1) i j)%cx.
      { revert Hres. generalize (SpectralGrid.continuity_residual dt g1).
        intros D HD. np_unfold.
        at2_simpl (SpectralGrid.Nz g1) (SpectralGrid.Nr g1). reflexivity. }
      unfold zeros. rewrite at2_afull by assumption.
      destruct (Req_dec_T (at2 (SpectralGrid.kz g1) i j ^ 2
                           + at2 (SpectralGrid.kr g1) i j ^ 2) 0) as [E0|Hk].
      + rewrite Hik1.
        rewrite (make_inv_k2_at (SpectralGrid.Nz g1) (SpectralGrid.Nr g1))
          by assumption.
        assert (Hb : Reqb (at2 (SpectralGrid.kz g1) i j) 0
                     && Reqb (at2 (SpectralGrid.kr g1) i j) 0 = true).
        { destruct (Reqb (at2 (SpectralGrid.kz g1) i j) 0
                    && Reqb (at2 (SpectralGrid.kr g1) i j) 0) eqn:Eb;
            [reflexivity|].
          apply both_zero_test in Eb. contradiction. }
        rewrite Hb.
        destruct (at2 (SpectralGrid.continuity_residual dt g1) i j) as [x y].
        Csplit; ring.
      + unfold g1 at 2.
        rewrite corrected_residual_at;
          try assumption; try (rewrite <- ?E1, <- ?E2; assumption).
        * generalize (at2 (SpectralGrid.inv_k2 g1) i j). intros q.
          Csplit; ring.
        * rewrite <- E3, <- E4. exact Hk. }
  rewrite HF2 in EF, EJp, EJm, EJz.
  rewrite E1, E2 in EF.
  split; [|split; [|split]]; try exact EF.
  - rewrite EJp.
    apply (arr2_ext_at2 (SpectralGrid.Nz g1) (SpectralGrid.Nr g1));
      [np_unfold; auto 40 with shape|assumption|].
    intros i j Hi Hj. np_unfold.
    at2_simpl (SpectralGrid.Nz g1) (SpectralGrid.Nr g1).
    destruct (at2 (SpectralGrid.Jp g1) i j) as [x y].
    generalize (0.5 * at2 (SpectralGrid.kr g1) i j). intros a.
    Csplit; ring.
  - rewrite EJm.
    apply (arr2_ext_at2 (SpectralGrid.Nz g1) (SpectralGrid.Nr g1));
      [np_unfold; auto 40 with shape|assumption|].
    intros i j Hi Hj. np_unfold.
    at2_simpl (SpectralGrid.Nz g1) (SpectralGrid.Nr g1).
    destruct (at2 (SpectralGrid.Jm g1) i j) as [x y].
    generalize (-0.5 * at2 (SpectralGrid.kr g1) i j). intros a.
    Csplit; ring.
  - rewrite EJz.
    apply (arr2_ext_at2 (SpectralGrid.Nz g1) (SpectralGrid.Nr g1));
      [np_unfold; auto 40 with shape|assumption|].
    intros i j Hi Hj. np_unfold.
    at2_simpl (SpectralGrid.Nz g1) (SpectralGrid.Nr g1).
    destruct (at2 (SpectralGrid.Jz g1) i j) as [x y].
    generalize (at2 (SpectralGrid.kz g1) i j). intros a.
    Csplit; ring.
Qed.

Lemma correct_currents_idempotent_witness :
  let g1 := exec (SpectralGrid.correct_currents 1) Samples.grid in
  SpectralGrid.Jp (exec (SpectralGrid.correct_currents 1) g1)
  = SpectralGrid.Jp g1.
Proof.
  cbv zeta.
  exact (proj1 (correct_currents_idempotent Samples.grid 1
                  sample_grid_invariant ltac:(lra))).
Defined.

(** ** [Fields]: the loops over the modes *)

Lemma run_bind_return {S A B} (m : M S A) (k : A -> M S B) (s s' : S) a :
  m s = (Return a, s') -> (x ← m; k x) s = k a s'.
Proof. intros Hm. unfold mbind, M_bind, bind. rewrite Hm. reflexivity. Qed.

Lemma mode_at_put_mode_same (m : nat) (x y : Fields.mode) (s : Fields.t) :
  Fields.mode_at s m = Some x ->
  Fields.mode_at (Fields.put_mode m y s) m = Some y.
Proof.
  destruct x as [[[tr ig] sg] ps], y as [[[tr' ig'] sg'] ps'].
  intros Hx. apply mode_at_components in Hx as (H1 & H2 & H3 & H4).
  apply mode_at_components. unfold Fields.put_mode.
  cbn [Fields.trans Fields.interp Fields.spect Fields.psatd].
  rewrite !list_lookup_insert_eq by (eapply lookup_lt_Some; eassumption).
  auto.
Qed.

Lemma put_mode_put_mode (m : nat) (x y : Fields.mode) (s : Fields.t) :
  Fields.put_mode m y (Fields.put_mode m x s) = Fields.put_mode m y s.
Proof.
  destruct x as [[[tr ig] sg] ps], y as [[[tr' ig'] sg'] ps'].
  unfold Fields.put_mode.
  cbn [Fields.trans Fields.interp Fields.spect Fields.psatd Fields.Nz
       Fields.Nr Fields.rmax Fields.Nm Fields.dt].
  rewrite !list_insert_insert_eq. reflexivity.
Qed.

Lemma put_mode_id (m : nat) (x : Fields.mode) (s : Fields.t) :
  Fields.mode_at s m = Some x -> Fields.put_mode m x s = s.
Proof.
  destruct x as [[[tr ig] sg] ps]. intros Hx.
  apply mode_at_components in Hx as (H1 & H2 & H3 & H4).
  unfold Fields.put_mode. rewrite !list_insert_id by assumption.
  destruct s; reflexivity.
Qed.

(** A loop over the first [n] modes whose body maps the objects of the
    mode, for modes that satisfy the precondition of the body. *)
Lemma for_range_modes_pre (body : nat -> M Fields.t unit)
    (f : nat -> Fields.mode -> Fields.mode)
    (P : nat -> Fields.mode -> Prop) (d : R) :
  (forall m s x, Fields.dt s = d -> Fields.mode_at s m = Some x -> P m x ->
     body m s = (Return tt, Fields.put_mode m (f m x) s)) ->
  forall n s, Fields.one_per_mode s -> Fields.dt s = d ->
  (n <= Fields.Nm s)%nat ->
  (forall m x, (m < n)%nat -> Fields.mode_at s m = Some x -> P m x) ->
  exists s',
    for_range n body s = (Return tt, s') /\
    Fields.one_per_mode s' /\ Fields.Nm s' = Fields.Nm s /\
    Fields.dt s' = Fields.dt s /\
    forall k, Fields.mode_at s' k =
      if (k <? n)%nat then f k <$> Fields.mode_at s k
      else Fields.mode_at s k.
Proof.
  intros Hbody n. induction n as [|n IH]; intros s Hs Hd Hn HP.
  - exists s. split; [reflexivity|]. split; [exact Hs|].
    split; [reflexivity|]. split; [reflexivity|]. intros k. reflexivity.
  - destruct (IH s Hs Hd ltac:(lia) ltac:(intros m x Hm; apply HP; lia))
      as (s1 & Hrun & Hs1 & HNm & Hdt & Hmodes).
    unfold for_range in *. rewrite seq_S, for_each_app, Hrun.
    cbn [for_each Nat.add]. unfold bind.
    destruct (mode_at_is_Some s n Hs ltac:(lia)) as [x Hx].
    assert (Hx1 : Fields.mode_at s1 n = Some x).
    { rewrite Hmodes. rewrite (proj2 (Nat.ltb_ge n n)) by lia. exact Hx. }
    rewrite (Hbody n s1 x ltac:(congruence) Hx1 (HP n x ltac:(lia) Hx)).
    cbn [ret].
    exists (Fields.put_mode n (f n x) s1).
    destruct (put_mode_one_per_mode n (f n x) s1 Hs1) as (Hs' & HNm' & Hdt').
    split; [reflexivity|]. split; [exact Hs'|].
    split; [congruence|]. split; [congruence|].
    intros k. rewrite mode_at_put_mode by (try assumption; lia).
    destruct (decide (k = n)) as [->|Hne].
    + rewrite (proj2 (Nat.ltb_lt n (S n))) by lia. rewrite Hx. reflexivity.
    + rewrite Hmodes.
      destruct (Nat.ltb_spec k n) as [Hlt|Hge].
      * rewrite (proj2 (Nat.ltb_lt k (S n))) by lia. reflexivity.
      * rewrite (proj2 (Nat.ltb_ge k (S n))) by lia. reflexivity.
Qed.

(** Methods called on the objects of one mode. *)
Lemma on_spect_body {A} (m : nat) (act : M SpectralGrid.t A) (s : Fields.t)
    tr ig sg ps :
  Fields.mode_at s m = Some (tr, ig, sg, ps) ->
  Fields.on_spect m act s
  = (fst (act sg), Fields.put_mode m (tr, ig, snd (act sg), ps) s).
Proof.
  intros Hx.
  pose proof (proj1 (mode_at_components s m tr ig sg ps) Hx)
    as (Htr & Hig & Hsg & Hps).
  unfold Fields.on_spect, Fields.on_item. rewrite Hsg.
  f_equal. unfold Fields.put_mode.
  rewrite (list_insert_id _ _ _ Htr), (list_insert_id _ _ _ Hig),
          (list_insert_id _ _ _ Hps).
  destruct s; reflexivity.
Qed.

Lemma on_interp_body {A} (m : nat) (act : M InterpolationGrid.t A)
    (s : Fields.t) tr ig sg ps :
  Fields.mode_at s m = Some (tr, ig, sg, ps) ->
  Fields.on_interp m act s
  = (fst (act ig), Fields.put_mode m (tr, snd (act ig), sg, ps) s).
Proof.
  intros Hx.
  pose proof (proj1 (mode_at_components s m tr ig sg ps) Hx)
    as (Htr & Hig & Hsg & Hps).
  unfold Fields.on_interp, Fields.on_item. rewrite Hig.
  f_equal. unfold Fields.put_mode.
  rewrite (list_insert_id _ _ _ Htr), (list_insert_id _ _ _ Hsg),
          (list_insert_id _ _ _ Hps).
  destruct s; reflexivity.
Qed.

Lemma on_spect_psatd_body {A} (m : nat)
    (act : M (SpectralGrid.t * PsatdCoeffs.t) A) (s : Fields.t)
    tr ig sg ps :
  Fields.mode_at s m = Some (tr, ig, sg, ps) ->
  Fields.on_spect_psatd m act s
  = (fst (act (sg, ps)),
     Fields.put_mode m (tr, ig, fst (snd (act (sg, ps))),
                        snd (snd (act (sg, ps)))) s).
Proof.
  intros Hx.
  pose proof (proj1 (mode_at_components s m tr ig sg ps) Hx)
    as (Htr & Hig & Hsg & Hps).
  unfold Fields.on_spect_psatd. rewrite Hsg, Hps.
  f_equal. unfold Fields.put_mode.
  rewrite (list_insert_id _ _ _ Htr), (list_insert_id _ _ _ Hig).
  destruct s; reflexivity.
Qed.

Section FieldsPush.
Context `{Constants}.

Lemma push_eb_with_returns (g : SpectralGrid.t) (ps : PsatdCoeffs.t)
    (pf utr : bool) :
  SpectralGrid.m g = PsatdCoeffs.m ps ->
  fst (SpectralGrid.push_eb_with pf utr (g, ps)) = Return tt.
Proof.
  intros Hm. unfold SpectralGrid.push_eb_with. rewrite outcome_bind_self.
  cbn [fst snd]. apply Nat.eqb_eq in Hm. rewrite Hm. cbn [negb].
  destruct pf; reflexivity.
Qed.

Lemma push_eb_with_raises (g : SpectralGrid.t) (ps : PsatdCoeffs.t)
    (pf utr : bool) :
  SpectralGrid.m g <> PsatdCoeffs.m ps ->
  SpectralGrid.push_eb_with pf utr (g, ps) = (Raise AssertionError, (g, ps)).
Proof.
  intros Hm. unfold SpectralGrid.push_eb_with. rewrite run_bind_self.
  cbn [fst snd]. apply Nat.eqb_neq in Hm. rewrite Hm. reflexivity.
Qed.

Lemma push_eb_with_keeps (g : SpectralGrid.t) (ps : PsatdCoeffs.t)
    (pf utr : bool) :
  let g' := fst (exec (SpectralGrid.push_eb_with pf utr) (g, ps)) in
  SpectralGrid.Nz g' = SpectralGrid.Nz g /\
  SpectralGrid.Nr g' = SpectralGrid.Nr g /\
  SpectralGrid.rho_prev g' = SpectralGrid.rho_prev g /\
  SpectralGrid.rho_next g' = SpectralGrid.rho_next g /\
  SpectralGrid.Jp g' = SpectralGrid.Jp g /\
  SpectralGrid.Jm g' = SpectralGrid.Jm g /\
  SpectralGrid.Jz g' = SpectralGrid.Jz g.
Proof.
  cbv zeta. unfold SpectralGrid.push_eb_with. rewrite !exec_bind_self.
  cbn [fst snd].
  destruct (SpectralGrid.m g =? PsatdCoeffs.m ps)%nat; cbn [negb];
    [destruct pf|];
    repeat match goal with |- _ /\ _ => split end; reflexivity.
Qed.

Lemma push_body (pf : bool) (m : nat) (s : Fields.t) (x : Fields.mode) :
  Fields.mode_at s m = Some x ->
  (let '(_, _, sg, ps) := x in SpectralGrid.m sg = PsatdCoeffs.m ps) ->
  (_ ← Fields.on_spect_psatd m
                          (SpectralGrid.push_eb_with pf false);
   Fields.on_spect m SpectralGrid.push_rho) s
  = (Return tt, Fields.put_mode m (push_mode pf x) s).
Proof.
  destruct x as [[[tr ig] sg] ps]. intros Hx Hm.
  erewrite run_bind_return; cycle 1.
  { rewrite (on_spect_psatd_body m _ s tr ig sg ps Hx).
    rewrite (push_eb_with_returns sg ps pf false Hm). reflexivity. }
  erewrite on_spect_body
    by (eapply mode_at_put_mode_same; exact Hx).
  rewrite put_mode_put_mode. reflexivity.
Qed.

(** X14. [Fields.push] pushes every mode: when the coefficients of every
    mode are those of its spectral grid (same [m]) and the arrays of the
    grids have their shape, the call returns and, in every mode, the
    transformer and the interpolation grid are untouched, [rho_prev] is
    the array [rho_next] held before the call, [rho_next] is zero and
    the currents are unchanged. *)
Theorem push_every_mode (s : Fields.t) (pf : bool) :
  Fields.one_per_mode s ->
  (forall m tr ig sg ps, Fields.mode_at s m = Some (tr, ig, sg, ps) ->
     SpectralGrid.m sg = PsatdCoeffs.m ps /\ SpectralGrid.well_shaped sg) ->
  exists s',
    Fields.push pf s = (Return tt, s') /\
    forall m tr ig sg ps, Fields.mode_at s m = Some (tr, ig, sg, ps) ->
      exists sg' ps',
        Fields.mode_at s' m = Some (tr, ig, sg', ps') /\
        SpectralGrid.rho_prev sg' = SpectralGrid.rho_next sg /\
        SpectralGrid.rho_next sg'
          = zeros (SpectralGrid.Nz sg) (SpectralGrid.Nr sg) /\
        SpectralGrid.Jp sg' = SpectralGrid.Jp sg /\
        SpectralGrid.Jm sg' = SpectralGrid.Jm sg /\
        SpectralGrid.Jz sg' = SpectralGrid.Jz sg.
Proof.
  intros Hs Hall. unfold Fields.push. rewrite run_bind_self.
  destruct (for_range_modes_pre
    (fun m => _ ← Fields.on_spect_psatd m (SpectralGrid.push_eb_with pf false);
              Fields.on_spect m SpectralGrid.push_rho)
    (fun _ => push_mode pf)
    (fun _ x => let '(_, _, sg, ps) := x in
                SpectralGrid.m sg = PsatdCoeffs.m ps)
    (Fields.dt s)
    (fun m s0 x _ Hx HP => push_body pf m s0 x Hx HP)
    (Fields.Nm s) s Hs eq_refl ltac:(lia))
    as (s' & Hrun & _ & _ & _ & Hmodes).
  { intros m [[[tr ig] sg] ps] _ Hx. exact (proj1 (Hall _ _ _ _ _ Hx)). }
  exists s'. split; [exact Hrun|].
  intros m tr ig sg ps Hx.
  destruct (Hall _ _ _ _ _ Hx) as [Hm Hg].
  eexists. eexists. split.
  { rewrite Hmodes.
    rewrite (proj2 (Nat.ltb_lt m (Fields.Nm s))) by (eapply mode_at_lt; eauto).
    rewrite Hx. reflexivity. }
  destruct (push_eb_with_keeps sg ps pf false)
    as (ENz & ENr & Erp & Ern & EJp & EJm & EJz).
  cbv zeta in *.
  set (g1 := fst (exec (SpectralGrid.push_eb_with pf false) (sg, ps))) in *.
  pose proof Hg as Hg'. shapes Hg'.
  change (SpectralGrid.rho_prev (exec SpectralGrid.push_rho g1))
    with (assign (SpectralGrid.rho_prev g1) (SpectralGrid.rho_next g1)).
  change (SpectralGrid.rho_next (exec SpectralGrid.push_rho g1))
    with (fill (SpectralGrid.rho_next g1) (RtoC 0)).
  change (SpectralGrid.Jp (exec SpectralGrid.push_rho g1))
    with (SpectralGrid.Jp g1).
  change (SpectralGrid.Jm (exec SpectralGrid.push_rho g1))
    with (SpectralGrid.Jm g1).
  change (SpectralGrid.Jz (exec SpectralGrid.push_rho g1))
    with (SpectralGrid.Jz g1).
  rewrite Erp, Ern, EJp, EJm, EJz.
  repeat match goal with |- _ /\ _ => split end; try reflexivity.
  - apply (assign_same_shape (SpectralGrid.Nz sg) (SpectralGrid.Nr sg));
      assumption.
  - apply fill_zeros. assumption.
Qed.

(** What [push_mode] leaves in the charge densities and the currents of
    a grid of well-shaped arrays. *)
Lemma push_mode_rotates (pf : bool) tr ig sg ps :
  SpectralGrid.well_shaped sg ->
  exists sg' ps',
    push_mode pf (tr, ig, sg, ps) = (tr, ig, sg', ps') /\
    SpectralGrid.rho_prev sg' = SpectralGrid.rho_next sg /\
    SpectralGrid.rho_next sg'
      = zeros (SpectralGrid.Nz sg) (SpectralGrid.Nr sg) /\
    SpectralGrid.Jp sg' = SpectralGrid.Jp sg /\
    SpectralGrid.Jm sg' = SpectralGrid.Jm sg /\
    SpectralGrid.Jz sg' = SpectralGrid.Jz sg.
Proof.
  intros Hg. unfold push_mode. eexists. eexists.
  split; [reflexivity|].
  destruct (push_eb_with_keeps sg ps pf false)
    as (ENz & ENr & Erp & Ern & EJp & EJm & EJz).
  cbv zeta in *.
  set (g1 := fst (exec (SpectralGrid.push_eb_with pf false) (sg, ps))) in *.
  pose proof Hg as Hg'. shapes Hg'.
  change (SpectralGrid.rho_prev (exec SpectralGrid.push_rho g1))
    with (assign (SpectralGrid.rho_prev g1) (SpectralGrid.rho_next g1)).
  change (SpectralGrid.rho_next (exec SpectralGrid.push_rho g1))
    with (fill (SpectralGrid.rho_next g1) (RtoC 0)).
  change (SpectralGrid.Jp (exec SpectralGrid.push_rho g1))
    with (SpectralGrid.Jp g1).
  change (SpectralGrid.Jm (exec SpectralGrid.push_rho g1))
    with (SpectralGrid.Jm g1).
  change (SpectralGrid.Jz (exec SpectralGrid.push_rho g1))
    with (SpectralGrid.Jz g1).
  rewrite Erp, Ern, EJp, EJm, EJz.
  repeat match goal with |- _ /\ _ => split end; try reflexivity.
  - apply (assign_same_shape (SpectralGrid.Nz sg) (SpectralGrid.Nr sg));
      assumption.
  - apply fill_zeros. assumption.
Qed.

(** X15. [Fields.push] stops at the first mode whose coefficients are
    not those of its grid: the call fails with an AssertionError, the
    modes before it have been pushed and stay so (where the arrays of the
    grid have their shape, [rho_prev] is the array [rho_next] held before
    the call, [rho_next] is zero and the currents are unchanged), the
    failing mode and the modes after it are untouched. *)
Theorem push_stops_at_mismatch (s : Fields.t) (pf : bool) (m0 : nat) :
  Fields.one_per_mode s -> (m0 < Fields.Nm s)%nat ->
  (forall m tr ig sg ps, (m < m0)%nat ->
     Fields.mode_at s m = Some (tr, ig, sg, ps) ->
     SpectralGrid.m sg = PsatdCoeffs.m ps) ->
  (forall tr ig sg ps, Fields.mode_at s m0 = Some (tr, ig, sg, ps) ->
     SpectralGrid.m sg <> PsatdCoeffs.m ps) ->
  exists s',
    Fields.push pf s = (Raise AssertionError, s') /\
    (forall k x, (k < m0)%nat -> Fields.mode_at s k = Some x ->
       Fields.mode_at s' k = Some (push_mode pf x)) /\
    (forall k tr ig sg ps, (k < m0)%nat ->
       Fields.mode_at s k = Some (tr, ig, sg, ps) ->
       SpectralGrid.well_shaped sg ->
       exists sg' ps',
         Fields.mode_at s' k = Some (tr, ig, sg', ps') /\
         SpectralGrid.rho_prev sg' = SpectralGrid.rho_next sg /\
         SpectralGrid.rho_next sg'
           = zeros (SpectralGrid.Nz sg) (SpectralGrid.Nr sg) /\
         SpectralGrid.Jp sg' = SpectralGrid.Jp sg /\
         SpectralGrid.Jm sg' = SpectralGrid.Jm sg /\
         SpectralGrid.Jz sg' = SpectralGrid.Jz sg) /\
    (forall k, (m0 <= k)%nat -> Fields.mode_at s' k = Fields.mode_at s k).
Proof.
  intros Hs Hm0 Hbefore Hat. unfold Fields.push. rewrite run_bind_self.
  destruct (for_range_modes_pre
    (fun m => _ ← Fields.on_spect_psatd m (SpectralGrid.push_eb_with pf false);
              Fields.on_spect m SpectralGrid.push_rho)
    (fun _ => push_mode pf)
    (fun _ x => let '(_, _, sg, ps) := x in
                SpectralGrid.m sg = PsatdCoeffs.m ps)
    (Fields.dt s)
    (fun m s0 x _ Hx HP => push_body pf m s0 x Hx HP)
    m0 s Hs eq_refl ltac:(lia))
    as (s1 & Hrun & Hs1 & HNm & _ & Hmodes).
  { intros m [[[tr ig] sg] ps] Hm Hx. exact (Hbefore _ _ _ _ _ Hm Hx). }
  exists s1. split; [|split; [|split]].
  - unfold for_range in *.
    replace (Fields.Nm s) with (m0 + S (Fields.Nm s - S m0))%nat by lia.
    rewrite seq_app, for_each_app, Hrun.
    cbn [seq for_each Nat.add]. unfold bind at 1.
    destruct (mode_at_is_Some s m0 Hs Hm0) as [[[[tr ig] sg] ps] Hx].
    assert (Hx1 : Fields.mode_at s1 m0 = Some (tr, ig, sg, ps)).
    { rewrite Hmodes. rewrite (proj2 (Nat.ltb_ge m0 m0)) by lia. exact Hx. }
    erewrite run_bind_raise; [reflexivity|].
    rewrite (on_spect_psatd_body m0 _ s1 tr ig sg ps Hx1).
    rewrite (push_eb_with_raises sg ps pf false (Hat _ _ _ _ Hx)).
    cbn [fst snd]. rewrite (put_mode_id m0 _ s1 Hx1). reflexivity.
  - intros k x Hk Hx. rewrite Hmodes.
    rewrite (proj2 (Nat.ltb_lt k m0)) by lia. rewrite Hx. reflexivity.
  - intros k tr ig sg ps Hk Hx Hg.
    destruct (push_mode_rotates pf tr ig sg ps Hg) as (sg' & ps' & E & Hrot).
    exists sg', ps'. split; [|exact Hrot].
    rewrite Hmodes.
    rewrite (proj2 (Nat.ltb_lt k m0)) by lia. rewrite Hx. cbn [fmap option_fmap option_map].
    rewrite E. reflexivity.
  - intros k Hk. rewrite Hmodes.
    rewrite (proj2 (Nat.ltb_ge k m0)) by lia. reflexivity.
Qed.

End FieldsPush.

Lemma correct_currents_returns (g : SpectralGrid.t) (dt : R) :
  0 < dt -> fst (SpectralGrid.correct_currents dt g) = Return tt.
Proof. intros Hdt. exact (proj1 (correct_currents_state g dt Hdt)). Qed.

(** X16. [Fields.correct_currents] corrects every mode: on an object with
    a positive time step whose spectral grids are in the state the
    constructor and the methods leave them in, the call returns; in every
    mode the transformer, the interpolation grid and the coefficients are
    untouched, the spectral grid is in such a state again, with the
    sizes, the meshes and the charge densities it had, and the continuity
    residual for the time step [self.dt] holds zero at every point where
    [kz^2 + kr^2] is not zero. *)
Theorem correct_currents_every_mode (s : Fields.t) :
  Fields.one_per_mode s -> 0 < Fields.dt s ->
  (forall m tr ig sg ps, Fields.mode_at s m = Some (tr, ig, sg, ps) ->
     SpectralGrid.invariant sg) ->
  exists s',
    Fields.correct_currents s = (Return tt, s') /\
    forall m tr ig sg ps, Fields.mode_at s m = Some (tr, ig, sg, ps) ->
      exists sg',
        Fields.mode_at s' m = Some (tr, ig, sg', ps) /\
        SpectralGrid.invariant sg' /\
        SpectralGrid.Nz sg' = SpectralGrid.Nz sg /\
        SpectralGrid.Nr sg' = SpectralGrid.Nr sg /\
        SpectralGrid.kz sg' = SpectralGrid.kz sg /\
        SpectralGrid.kr sg' = SpectralGrid.kr sg /\
        SpectralGrid.rho_prev sg' = SpectralGrid.rho_prev sg /\
        SpectralGrid.rho_next sg' = SpectralGrid.rho_next sg /\
        forall i j, (i < SpectralGrid.Nz sg)%nat ->
          (j < SpectralGrid.Nr sg)%nat ->
          at2 (SpectralGrid.kz sg) i j ^ 2 + at2 (SpectralGrid.kr sg) i j ^ 2
            <> 0 ->
          get (SpectralGrid.continuity_residual (Fields.dt s) sg') i j
            = Some (RtoC 0).
Proof.
  intros Hs Hdt Hall. unfold Fields.correct_currents. rewrite run_bind_self.
  destruct (for_range_modes_pre
    (fun m => s0 ← (self : M Fields.t Fields.t);
              Fields.on_spect m (SpectralGrid.correct_currents (Fields.dt s0)))
    (fun _ x => let '(tr, ig, sg, ps) := x in
       (tr, ig, exec (SpectralGrid.correct_currents (Fields.dt s)) sg, ps))
    (fun _ _ => True) (Fields.dt s))
    with (n := Fields.Nm s) (s := s)
    as (s' & Hrun & _ & _ & _ & Hmodes); try auto.
  { intros m s0 [[[tr ig] sg] ps] Hd Hx _. rewrite run_bind_self, Hd.
    rewrite (on_spect_body m _ s0 tr ig sg ps Hx).
    rewrite (correct_currents_returns sg (Fields.dt s) Hdt). reflexivity. }
  exists s'. split; [exact Hrun|].
  intros m tr ig sg ps Hx. eexists. split.
  { rewrite Hmodes.
    rewrite (proj2 (Nat.ltb_lt m (Fields.Nm s))) by (eapply mode_at_lt; eauto).
    rewrite Hx. reflexivity. }
  pose proof (Hall _ _ _ _ _ Hx) as Hinv.
  destruct (correct_currents_state sg (Fields.dt s) Hdt)
    as (_ & (E1 & E2 & E3 & E4 & _ & _ & E7 & E8) & _).
  cbv zeta in *.
  split; [exact (correct_currents_invariant sg (Fields.dt s) Hinv Hdt)|].
  repeat (split; [assumption|]).
  intros i j Hi Hj Hk.
  apply corrected_residual_get; assumption.
Qed.

(** ** [Fields]: the groups of arrays of the interpolation grids *)

Ltac ig_proj :=
  cbn [Component.get InterpolationGrid.Er InterpolationGrid.Et
       InterpolationGrid.Ez InterpolationGrid.Br InterpolationGrid.Bt
       InterpolationGrid.Bz InterpolationGrid.Jr InterpolationGrid.Jt
       InterpolationGrid.Jz InterpolationGrid.rho InterpolationGrid.invvol
       InterpolationGrid.Nz InterpolationGrid.Nr InterpolationGrid.m
       InterpolationGrid.set_Er InterpolationGrid.set_Et
       InterpolationGrid.set_Ez InterpolationGrid.set_Br
       InterpolationGrid.set_Bt InterpolationGrid.set_Bz
       InterpolationGrid.set_Jr InterpolationGrid.set_Jt
       InterpolationGrid.set_Jz InterpolationGrid.set_rho] in *.

(** Decides whether a component is in a group given by an explicit list. *)
Ltac in_group :=
  match goal with
  | H : _ ∈ _ |- _ =>
      exfalso;
      repeat (apply elem_of_cons in H as [H|H]; [discriminate H|]);
      apply elem_of_nil in H; exact H
  | H : ~ (_ ∈ _) |- _ => exfalso; apply H; repeat constructor
  end.

(** A map applied to the arrays of a group of one interpolation grid. *)
Lemma on_interp_modify_body (m : nat)
    (h : InterpolationGrid.t -> InterpolationGrid.t) (s : Fields.t)
    tr ig sg ps :
  Fields.mode_at s m = Some (tr, ig, sg, ps) ->
  Fields.on_interp m (modify h) s
  = (Return tt, Fields.put_mode m (tr, h ig, sg, ps) s).
Proof. intros Hx. rewrite (on_interp_body m _ s tr ig sg ps Hx). reflexivity. Qed.

Lemma group_map_body (m : nat)
    (h1 h2 h3 : InterpolationGrid.t -> InterpolationGrid.t) (s : Fields.t)
    tr ig sg ps :
  Fields.mode_at s m = Some (tr, ig, sg, ps) ->
  (Fields.on_interp m (modify h1) ;; Fields.on_interp m (modify h2) ;;
   Fields.on_interp m (modify h3)) s
  = (Return tt, Fields.put_mode m (tr, h3 (h2 (h1 ig)), sg, ps) s).
Proof.
  intros Hx.
  erewrite run_bind_return
    by (apply (on_interp_modify_body m h1 s tr ig sg ps Hx)).
  erewrite run_bind_return
    by (apply on_interp_modify_body;
        eapply mode_at_put_mode_same; exact Hx).
  erewrite on_interp_modify_body
    by (rewrite put_mode_put_mode; eapply mode_at_put_mode_same; exact Hx).
  rewrite !put_mode_put_mode. reflexivity.
Qed.

(** A loop that applies a map to the interpolation grid of every mode. *)
Lemma for_all_interp (body : nat -> M Fields.t unit)
    (h : InterpolationGrid.t -> InterpolationGrid.t) (s : Fields.t) :
  (forall m s tr ig sg ps, Fields.mode_at s m = Some (tr, ig, sg, ps) ->
     body m s = (Return tt, Fields.put_mode m (tr, h ig, sg, ps) s)) ->
  Fields.one_per_mode s ->
  exists s',
    for_range (Fields.Nm s) body s = (Return tt, s') /\
    forall m tr ig sg ps, Fields.mode_at s m = Some (tr, ig, sg, ps) ->
      Fields.mode_at s' m = Some (tr, h ig, sg, ps).
Proof.
  intros Hbody Hs.
  destruct (for_all_modes body
              (fun x => let '(tr, ig, sg, ps) := x in (tr, h ig, sg, ps)) s)
    as (s' & Hrun & _ & _ & Hm); [|exact Hs|].
  - intros m s0 [[[tr ig] sg] ps] Hx. apply Hbody. exact Hx.
  - exists s'. split; [exact Hrun|].
    intros m tr ig sg ps Hx. exact (Hm m _ Hx).
Qed.

(** X17. [Fields.erase] with one of the strings ['rho'], ['J'], ['E'],
    ['B'] returns and, in every mode, replaces each array of the group
    by zeros of the same shape; the other arrays of the interpolation
    grid, the transformer, the spectral grid and the coefficients are
    untouched. *)
Theorem erase_zeroes (s : Fields.t) (fieldtype : string) :
  fieldtype ∈ Fields.erase_kinds -> Fields.one_per_mode s ->
  exists s',
    Fields.erase fieldtype s = (Return tt, s') /\
    forall m tr ig sg ps, Fields.mode_at s m = Some (tr, ig, sg, ps) ->
      exists ig',
        Fields.mode_at s' m = Some (tr, ig', sg, ps) /\
        forall c, Component.get c ig'
          = if decide (c ∈ Component.group fieldtype)
            then fill (Component.get c ig) (RtoC 0)
            else Component.get c ig.
Proof.
  intros Hk Hs. unfold Fields.erase_kinds in Hk.
  unfold Fields.erase, Fields.erase_array. rewrite run_bind_self.
  repeat (apply elem_of_cons in Hk as [->|Hk]);
    [| | | |apply elem_of_nil in Hk; contradiction];
    unfold Component.group;
    repeat (case_decide; [discriminate|]); (case_decide; [|congruence]).
  - destruct (for_all_interp _
      (fun g => InterpolationGrid.set_rho
                  (fill (InterpolationGrid.rho g) (RtoC 0)) g) s
      (fun m s0 tr ig sg ps Hx => on_interp_modify_body m _ s0 tr ig sg ps Hx)
      Hs) as (s' & Hrun & Hm).
    exists s'. split; [exact Hrun|].
    intros m tr ig sg ps Hx. eexists. split; [exact (Hm _ _ _ _ _ Hx)|].
    intros c. destruct c; case_decide; ig_proj; try reflexivity; in_group.
  - set (h1 := fun g => InterpolationGrid.set_Jr
                           (fill (InterpolationGrid.Jr g) (RtoC 0)) g).
    set (h2 := fun g => InterpolationGrid.set_Jt
                           (fill (InterpolationGrid.Jt g) (RtoC 0)) g).
    set (h3 := fun g => InterpolationGrid.set_Jz
                           (fill (InterpolationGrid.Jz g) (RtoC 0)) g).
    destruct (for_all_interp _ (fun g => h3 (h2 (h1 g))) s
      (fun m s0 tr ig sg ps Hx => group_map_body m h1 h2 h3 s0 tr ig sg ps Hx)
      Hs) as (s' & Hrun & Hm). subst h1 h2 h3.
    exists s'. split; [exact Hrun|].
    intros m tr ig sg ps Hx. eexists. split; [exact (Hm _ _ _ _ _ Hx)|].
    intros c. destruct c; case_decide; ig_proj; try reflexivity; in_group.
  - set (h1 := fun g => InterpolationGrid.set_Er
                           (fill (InterpolationGrid.Er g) (RtoC 0)) g).
    set (h2 := fun g => InterpolationGrid.set_Et
                           (fill (InterpolationGrid.Et g) (RtoC 0)) g).
    set (h3 := fun g => InterpolationGrid.set_Ez
                           (fill (InterpolationGrid.Ez g) (RtoC 0)) g).
    destruct (for_all_interp _ (fun g => h3 (h2 (h1 g))) s
      (fun m s0 tr ig sg ps Hx => group_map_body m h1 h2 h3 s0 tr ig sg ps Hx)
      Hs) as (s' & Hrun & Hm). subst h1 h2 h3.
    exists s'. split; [exact Hrun|].
    intros m tr ig sg ps Hx. eexists. split; [exact (Hm _ _ _ _ _ Hx)|].
    intros c. destruct c; case_decide; ig_proj; try reflexivity; in_group.
  - set (h1 := fun g => InterpolationGrid.set_Br
                           (fill (InterpolationGrid.Br g) (RtoC 0)) g).
    set (h2 := fun g => InterpolationGrid.set_Bt
                           (fill (InterpolationGrid.Bt g) (RtoC 0)) g).
    set (h3 := fun g => InterpolationGrid.set_Bz
                           (fill (InterpolationGrid.Bz g) (RtoC 0)) g).
    destruct (for_all_interp _ (fun g => h3 (h2 (h1 g))) s
      (fun m s0 tr ig sg ps Hx => group_map_body m h1 h2 h3 s0 tr ig sg ps Hx)
      Hs) as (s' & Hrun & Hm). subst h1 h2 h3.
    exists s'. split; [exact Hrun|].
    intros m tr ig sg ps Hx. eexists. split; [exact (Hm _ _ _ _ _ Hx)|].
    intros c. destruct c; case_decide; ig_proj; try reflexivity; in_group.
Qed.

Lemma get_times_row (A : arr2 complex) (v : list R) i j x k :
  get A i j = Some x -> v !! j = Some k ->
  get (Fields.times_row A v) i j = Some (x * RtoC k)%cx.
Proof.
  unfold get, Fields.times_row. rewrite list_lookup_fmap.
  destruct (A !! i) as [row|]; [|discriminate]. cbn.
  intros Hx Hk. rewrite lookup_zip_with, Hx, Hk. reflexivity.
Qed.

(** X18. [Fields.divide_by_volume] with ['rho'] or ['J'] returns and, in
    every mode, multiplies the cell [(i, j)] of each array of the group
    by [invvol[j]]; [invvol], the other arrays and the other objects of
    the mode are untouched. *)
Theorem divide_by_volume_cells (s : Fields.t) (fieldtype : string) :
  fieldtype ∈ Fields.divide_by_volume_kinds -> Fields.one_per_mode s ->
  exists s',
    Fields.divide_by_volume fieldtype s = (Return tt, s') /\
    forall m tr ig sg ps, Fields.mode_at s m = Some (tr, ig, sg, ps) ->
      exists ig',
        Fields.mode_at s' m = Some (tr, ig', sg, ps) /\
        InterpolationGrid.invvol ig' = InterpolationGrid.invvol ig /\
        forall c,
          if decide (c ∈ Component.group fieldtype) then
            forall i j x k, get (Component.get c ig) i j = Some x ->
              InterpolationGrid.invvol ig !! j = Some k ->
              get (Component.get c ig') i j = Some (x * RtoC k)%cx
          else Component.get c ig' = Component.get c ig.
Proof.
  intros Hk Hs. unfold Fields.divide_by_volume_kinds in Hk.
  unfold Fields.divide_by_volume, Fields.divide_array. rewrite run_bind_self.
  repeat (apply elem_of_cons in Hk as [->|Hk]);
    [| |apply elem_of_nil in Hk; contradiction];
    unfold Component.group;
    repeat (case_decide; [discriminate|]); (case_decide; [|congruence]).
  - destruct (for_all_interp _
      (fun g => InterpolationGrid.set_rho
                  (Fields.times_row (InterpolationGrid.rho g)
                     (InterpolationGrid.invvol g)) g) s
      (fun m s0 tr ig sg ps Hx => on_interp_modify_body m _ s0 tr ig sg ps Hx)
      Hs) as (s' & Hrun & Hm).
    exists s'. split; [exact Hrun|].
    intros m tr ig sg ps Hx. eexists. split; [exact (Hm _ _ _ _ _ Hx)|].
    split; [reflexivity|].
    intros c. destruct c; case_decide; ig_proj; try reflexivity;
      try in_group; intros i j x k Hx0 Hk0; apply get_times_row; assumption.
  - set (h1 := fun g => InterpolationGrid.set_Jr
                 (Fields.times_row (InterpolationGrid.Jr g)
                    (InterpolationGrid.invvol g)) g).
    set (h2 := fun g => InterpolationGrid.set_Jt
                 (Fields.times_row (InterpolationGrid.Jt g)
                    (InterpolationGrid.invvol g)) g).
    set (h3 := fun g => InterpolationGrid.set_Jz
                 (Fields.times_row (InterpolationGrid.Jz g)
                    (InterpolationGrid.invvol g)) g).
    destruct (for_all_interp _ (fun g => h3 (h2 (h1 g))) s
      (fun m s0 tr ig sg ps Hx => group_map_body m h1 h2 h3 s0 tr ig sg ps Hx)
      Hs) as (s' & Hrun & Hm). subst h1 h2 h3.
    exists s'. split; [exact Hrun|].
    intros m tr ig sg ps Hx. eexists. split; [exact (Hm _ _ _ _ _ Hx)|].
    split; [reflexivity|].
    intros c. destruct c; case_decide; ig_proj; try reflexivity;
      try in_group; intros i j x k Hx0 Hk0; apply get_times_row; assumption.
Qed.

Lemma on_array_run (get : InterpolationGrid.t -> arr2 complex)
    (set : arr2 complex -> InterpolationGrid.t -> InterpolationGrid.t)
    (act : M (arr2 complex) unit) (g : InterpolationGrid.t) :
  fst (act (get g)) = Return tt ->
  InterpolationGrid.on_array get set act g
  = (Return tt, set (exec act (get g)) g).
Proof. intros E. unfold InterpolationGrid.on_array, exec. rewrite E. reflexivity. Qed.

Lemma binomial_filter_z_returns (sign_guard : Z) (F : arr2 complex) nz nr :
  shaped nz nr F -> (2 <= nz)%nat ->
  fst (binomial_filter "z" sign_guard F) = Return tt.
Proof.
  intros [HL HF] Hn.
  rewrite (binomial_filter_z_rows sign_guard F nr HF) by lia. reflexivity.
Qed.

(** [InterpolationGrid.filter] along z on one grid: the arrays of the
    group are filtered, each with some sign, the others are kept. *)
Lemma interp_filter_z (ig : InterpolationGrid.t) (fieldtype : string)
    (nz nr : nat) :
  fieldtype ∈ Fields.filter_interp_kinds -> (2 <= nz)%nat ->
  (forall c, shaped nz nr (Component.get c ig)) ->
  fst (InterpolationGrid.filter fieldtype "z" ig) = Return tt /\
  forall c, exists sign : Z,
    Component.get c (exec (InterpolationGrid.filter fieldtype "z") ig)
    = if decide (c ∈ Component.group fieldtype)
      then exec (binomial_filter "z" sign) (Component.get c ig)
      else Component.get c ig.
Proof.
  intros Hk Hn Hsh. unfold Fields.filter_interp_kinds in Hk.
  assert (Hret : forall c sg,
            fst (binomial_filter "z" sg (Component.get c ig)) = Return tt)
    by (intros c sg; apply (binomial_filter_z_returns sg _ nz nr); auto).
  unfold InterpolationGrid.filter, exec. rewrite run_bind_self.
  set (sign := ((-1) ^ Z.of_nat (InterpolationGrid.m ig))%Z).
  repeat (apply elem_of_cons in Hk as [->|Hk]);
    [| | | |apply elem_of_nil in Hk; contradiction];
    unfold Component.group;
    repeat (case_decide; [discriminate|]); (case_decide; [|congruence]).
  - rewrite on_array_run by apply (Hret Component.rho).
    split; [reflexivity|]. cbn [snd].
    intros c. exists sign.
    destruct c; case_decide; ig_proj; try reflexivity; in_group.
  - erewrite run_bind_return
      by (apply on_array_run; apply (Hret Component.Jr)).
    erewrite run_bind_return
      by (apply on_array_run; ig_proj; apply (Hret Component.Jt)).
    rewrite on_array_run by (ig_proj; apply (Hret Component.Jz)).
    split; [reflexivity|]. cbn [snd].
    intros c.
    destruct c; try (exists sign; case_decide; ig_proj;
                     first [reflexivity | in_group]);
      exists (- sign)%Z; case_decide; ig_proj; first [reflexivity | in_group].
  - erewrite run_bind_return
      by (apply on_array_run; apply (Hret Component.Er)).
    erewrite run_bind_return
      by (apply on_array_run; ig_proj; apply (Hret Component.Et)).
    rewrite on_array_run by (ig_proj; apply (Hret Component.Ez)).
    split; [reflexivity|]. cbn [snd].
    intros c.
    destruct c; try (exists sign; case_decide; ig_proj;
                     first [reflexivity | in_group]);
      exists (- sign)%Z; case_decide; ig_proj; first [reflexivity | in_group].
  - erewrite run_bind_return
      by (apply on_array_run; apply (Hret Component.Br)).
    erewrite run_bind_return
      by (apply on_array_run; ig_proj; apply (Hret Component.Bt)).
    rewrite on_array_run by (ig_proj; apply (Hret Component.Bz)).
    split; [reflexivity|]. cbn [snd].
    intros c.
    destruct c; try (exists sign; case_decide; ig_proj;
                     first [reflexivity | in_group]);
      exists (- sign)%Z; case_decide; ig_proj; first [reflexivity | in_group].
Qed.

(** X19. [Fields.filter_interp(fieldtype, 'z')] with a recognized string,
    on grids whose arrays have the shape [(nz, nr)] with [nz >= 2],
    returns and conserves, in every mode and for every field array, the
    sum of each column over z. *)
Theorem filter_interp_z_conserves (s : Fields.t) (fieldtype : string)
    (nz nr : nat) :
  fieldtype ∈ Fields.filter_interp_kinds -> Fields.one_per_mode s ->
  (2 <= nz)%nat ->
  (forall m tr ig sg ps c, Fields.mode_at s m = Some (tr, ig, sg, ps) ->
     shaped nz nr (Component.get c ig)) ->
  exists s',
    Fields.filter_interp fieldtype "z" s = (Return tt, s') /\
    forall m tr ig sg ps, Fields.mode_at s m = Some (tr, ig, sg, ps) ->
      exists ig',
        Fields.mode_at s' m = Some (tr, ig', sg, ps) /\
        forall c j, (j < nr)%nat ->
          csum nz (fun i => at2 (Component.get c ig') i j)
          = csum nz (fun i => at2 (Component.get c ig) i j).
Proof.
  intros Hk Hs Hn Hsh. unfold Fields.filter_interp. rewrite run_bind_self.
  destruct (for_range_modes_pre
    (fun m => Fields.on_interp m (InterpolationGrid.filter fieldtype "z"))
    (fun _ x => let '(tr, ig, sg, ps) := x in
       (tr, exec (InterpolationGrid.filter fieldtype "z") ig, sg, ps))
    (fun _ x => let '(_, ig, _, _) := x in
       forall c, shaped nz nr (Component.get c ig)) (Fields.dt s))
    with (n := Fields.Nm s) (s := s)
    as (s' & Hrun & _ & _ & _ & Hmodes); try auto.
  { intros m s0 [[[tr ig] sg] ps] _ Hx HP.
    rewrite (on_interp_body m _ s0 tr ig sg ps Hx).
    rewrite (proj1 (interp_filter_z ig fieldtype nz nr Hk Hn HP)).
    reflexivity. }
  { intros m [[[tr ig] sg] ps] _ Hx c. exact (Hsh _ _ _ _ _ c Hx). }
  exists s'. split; [exact Hrun|].
  intros m tr ig sg ps Hx. eexists. split.
  { rewrite Hmodes.
    rewrite (proj2 (Nat.ltb_lt m (Fields.Nm s))) by (eapply mode_at_lt; eauto).
    rewrite Hx. reflexivity. }
  intros c j Hj.
  assert (HP : forall c, shaped nz nr (Component.get c ig))
    by (intros c0; exact (Hsh _ _ _ _ _ c0 Hx)).
  destruct (proj2 (interp_filter_z ig fieldtype nz nr Hk Hn HP) c)
    as [sign Hc].
  rewrite Hc. case_decide; [|reflexivity].
  apply (z_filter_column_sum sign _ nz nr j (HP c) Hn Hj).
Qed.

Section FieldsSamples.
#[local] Existing Instance Samples.scipy_constants.

Lemma push_every_mode_witness :
  exists s', Fields.push true Samples.fields = (Return tt, s').
Proof.
  destruct (push_every_mode Samples.fields true sample_fields_one_per_mode)
    as (s' & Hrun & _).
  - intros m tr ig sg ps Hx.
    destruct (sample_fields_mode m tr ig sg ps Hx) as (_ & _ & _ & -> & ->).
    split; [reflexivity|exact (proj1 sample_spect_grid_invariant)].
  - exists s'. exact Hrun.
Defined.

Lemma push_stops_at_mismatch_witness :
  exists s' sg' ps',
    Fields.push true Loaded.two_modes = (Raise AssertionError, s') /\
    Fields.mode_at s' 0
    = Some (Samples.transformer, Samples.interp_grid, sg', ps') /\
    SpectralGrid.rho_prev sg' = SpectralGrid.rho_next Samples.spect_grid /\
    SpectralGrid.rho_next sg' = zeros 2 3 /\
    Fields.mode_at s' 1 = Fields.mode_at Loaded.two_modes 1.
Proof.
  destruct (push_stops_at_mismatch Loaded.two_modes true 1)
    as (s' & Hrun & _ & Hbefore & Hafter).
  - repeat split; reflexivity.
  - cbn. lia.
  - intros m tr ig sg ps Hm Hx.
    assert (m = 0%nat) as -> by lia.
    apply (inj Some) in Hx. injection Hx as _ _ <- <-. reflexivity.
  - intros tr ig sg ps Heq. apply (inj Some) in Heq.
    injection Heq as _ _ <- <-. cbn. lia.
  - destruct (Hbefore 0%nat Samples.transformer Samples.interp_grid
                Samples.spect_grid Samples.coeffs ltac:(lia) eq_refl
                (proj1 sample_spect_grid_invariant))
      as (sg' & ps' & Hx' & Hp & Hn & _).
    exists s', sg', ps'. split; [exact Hrun|]. split; [exact Hx'|].
    split; [exact Hp|]. split; [exact Hn|].
    apply Hafter. lia.
Defined.

End FieldsSamples.

Lemma correct_currents_every_mode_witness :
  exists s' sg',
    Fields.correct_currents Samples.fields = (Return tt, s') /\
    Fields.spect s' !! 0%nat = Some sg' /\
    shaped 2 3 (SpectralGrid.Jz sg') /\
    get (SpectralGrid.continuity_residual 1 sg') 1 0 = Some (RtoC 0).
Proof.
  destruct (correct_currents_every_mode Samples.fields
              sample_fields_one_per_mode) as (s' & Hrun & Hm).
  - cbn. lra.
  - intros m tr ig sg ps Hx.
    destruct (sample_fields_mode m tr ig sg ps Hx) as (_ & _ & _ & -> & _).
    exact sample_spect_grid_invariant.
  - destruct (Hm 0%nat Samples.transformer Samples.interp_grid
                Samples.spect_grid Samples.coeffs eq_refl)
      as (sg' & Hx' & [Hg' _] & E1 & E2 & _ & _ & _ & _ & Hres).
    exists s', sg'. split; [exact Hrun|].
    apply mode_at_components in Hx' as (_ & _ & Hsg' & _).
    split; [exact Hsg'|].
    split.
    + shapes Hg'. rewrite E1, E2 in HJz. exact HJz.
    + apply (Hres 1%nat 0%nat); [cbn; lia|cbn; lia|].
      unfold at2, get; simpl. lra.
Defined.

Lemma erase_zeroes_witness :
  exists s' ig',
    Fields.erase "rho" Samples.fields = (Return tt, s') /\
    Fields.interp s' !! 0%nat = Some ig' /\
    at2 (InterpolationGrid.rho Samples.interp_grid) 0 0 = (1, 0) /\
    InterpolationGrid.rho ig' = zeros 2 3.
Proof.
  destruct (erase_zeroes Samples.fields "rho") as (s' & Hrun & Hm).
  - unfold Fields.erase_kinds. repeat constructor.
  - exact sample_fields_one_per_mode.
  - destruct (Hm 0%nat Samples.transformer Samples.interp_grid
                Samples.spect_grid Samples.coeffs eq_refl)
      as (ig' & Hx' & Hc).
    exists s', ig'. split; [exact Hrun|].
    apply mode_at_components in Hx' as (_ & Hig' & _ & _).
    split; [exact Hig'|]. split; [reflexivity|].
    exact (Hc Component.rho).
Defined.

Lemma divide_by_volume_cells_witness :
  exists s', Fields.divide_by_volume "rho" Samples.fields = (Return tt, s').
Proof.
  destruct (divide_by_volume_cells Samples.fields "rho") as (s' & Hrun & _).
  - unfold Fields.divide_by_volume_kinds. repeat constructor.
  - exact sample_fields_one_per_mode.
  - exists s'. exact Hrun.
Defined.

Lemma filter_interp_z_conserves_witness :
  exists s', Fields.filter_interp "rho" "z" Samples.fields = (Return tt, s').
Proof.
  destruct (filter_interp_z_conserves Samples.fields "rho" 2 3)
    as (s' & Hrun & _).
  - unfold Fields.filter_interp_kinds. repeat constructor.
  - exact sample_fields_one_per_mode.
  - lia.
  - intros m tr ig sg ps c Hx.
    destruct (sample_fields_mode m tr ig sg ps Hx) as (_ & _ & -> & _).
    apply sample_interp_grid_shaped.
  - exists s'. exact Hrun.
Defined.

(** ** [Fields.interp2spect], [Fields.erase], [Fields.spect2interp] *)

Lemma vect_to_spect_body (m : nat) src_r src_t dst_p dst_m set_p set_m
    (s : Fields.t) x :
  Fields.mode_at s m = Some x ->
  Fields.vect_to_spect m src_r src_t dst_p dst_m set_p set_m s
  = (Return tt,
     Fields.put_mode m (Fields.vect_to_spect_mode src_r src_t set_p set_m x) s).
Proof.
  destruct x as [[[tr ig] sg] ps]. intros Hx.
  pose proof (proj1 (mode_at_components s m tr ig sg ps) Hx)
    as (Htr & Hig & Hsg & Hps).
  unfold Fields.vect_to_spect, Fields.item, Fields.on_trans, Fields.on_spect,
    Fields.on_item, mbind, M_bind, bind.
  rewrite Htr, Hig, Hsg.
  cbn [Fields.spect Fields.set_trans fst snd]. rewrite Htr.
  rewrite interp2spect_vect_eq. cbv zeta.
  cbn [Fields.spect Fields.set_trans fst snd modify]. rewrite Hsg.
  cbn [fst snd].
  unfold Fields.vect_to_spect_mode.
  rewrite <- (put_mode_eq s m tr ig sg ps _ _ _ _ Hx).
  rewrite (list_insert_id _ _ _ Hig), (list_insert_id _ _ _ Hps).
  destruct s; reflexivity.
Qed.

Lemma vect_to_interp_body (m : nat) src_p src_m dst_r dst_t set_r set_t
    (s : Fields.t) x :
  Fields.mode_at s m = Some x ->
  Fields.vect_to_interp m src_p src_m dst_r dst_t set_r set_t s
  = (Return tt,
     Fields.put_mode m
       (Fields.vect_to_interp_mode src_p src_m dst_r dst_t set_r set_t x) s).
Proof.
  destruct x as [[[tr ig] sg] ps]. intros Hx.
  pose proof (proj1 (mode_at_components s m tr ig sg ps) Hx)
    as (Htr & Hig & Hsg & Hps).
  unfold Fields.vect_to_interp, Fields.item, Fields.on_trans,
    Fields.on_interp, Fields.on_item, mbind, M_bind, bind.
  rewrite Htr, Hsg, Hig.
  cbn [Fields.interp Fields.set_trans fst snd]. rewrite Htr.
  rewrite spect2interp_vect_eq. cbv zeta.
  cbn [Fields.interp Fields.set_trans fst snd modify]. rewrite Hig.
  cbn [fst snd].
  unfold Fields.vect_to_interp_mode.
  rewrite <- (put_mode_eq s m tr ig sg ps _ _ _ _ Hx).
  rewrite (list_insert_id _ _ _ Hsg), (list_insert_id _ _ _ Hps).
  destruct s; reflexivity.
Qed.

Lemma to_spect_pair_body (m : nat) gz pz set_pz gr gt pp pm set_pp set_pm
    (s : Fields.t) x :
  Fields.mode_at s m = Some x ->
  (Fields.scal_to_spect m gz pz set_pz ;;
   Fields.vect_to_spect m gr gt pp pm set_pp set_pm) s
  = (Return tt,
     Fields.put_mode m
       (Fields.vect_to_spect_mode gr gt set_pp set_pm
          (Fields.scal_to_spect_mode gz set_pz x)) s).
Proof.
  intros Hx.
  erewrite run_bind_return by (apply scal_to_spect_body; exact Hx).
  erewrite vect_to_spect_body
    by (eapply mode_at_put_mode_same; exact Hx).
  rewrite put_mode_put_mode. reflexivity.
Qed.

Lemma to_interp_pair_body (m : nat) pz gz set_gz pp pm gr gt set_gr set_gt
    (s : Fields.t) x :
  Fields.mode_at s m = Some x ->
  (Fields.scal_to_interp m pz gz set_gz ;;
   Fields.vect_to_interp m pp pm gr gt set_gr set_gt) s
  = (Return tt,
     Fields.put_mode m
       (Fields.vect_to_interp_mode pp pm gr gt set_gr set_gt
          (Fields.scal_to_interp_mode pz gz set_gz x)) s).
Proof.
  intros Hx.
  erewrite run_bind_return by (apply scal_to_interp_body; exact Hx).
  erewrite vect_to_interp_body
    by (eapply mode_at_put_mode_same; exact Hx).
  rewrite put_mode_put_mode. reflexivity.
Qed.

(** One mode: the forward transforms of a scalar and of a vector field,
    then the three arrays overwritten with zeros, then the backward
    transforms: the interpolation grid is the one before the forward
    transforms. *)
Lemma mode_erase_round_trip (nz nr : nat)
    (gz gr gt : InterpolationGrid.t -> arr2 complex)
    (set_gz set_gr set_gt :
       arr2 complex -> InterpolationGrid.t -> InterpolationGrid.t)
    (pz pp pm : SpectralGrid.t -> arr2 complex)
    (set_pz set_pp set_pm : arr2 complex -> SpectralGrid.t -> SpectralGrid.t)
    (h : InterpolationGrid.t -> InterpolationGrid.t)
    tr ig sg ps :
  (forall a b c g, pz (set_pm a (set_pp b (set_pz c g))) = c /\
                   pp (set_pm a (set_pp b (set_pz c g))) = b /\
                   pm (set_pm a (set_pp b (set_pz c g))) = a) ->
  (forall g, gz (h g) = fill (gz g) (RtoC 0) /\
             gr (h g) = fill (gr g) (RtoC 0) /\
             gt (h g) = fill (gt g) (RtoC 0)) ->
  (forall a g, gr (set_gz a g) = gr g /\ gt (set_gz a g) = gt g) ->
  (forall g, set_gt (gt g) (set_gr (gr g) (set_gz (gz g) (h g))) = g) ->
  SpectralTransformer.contracts nz nr tr ->
  shaped nz nr (gz ig) -> shaped nz nr (gr ig) -> shaped nz nr (gt ig) ->
  exists tr1 sg1 tr',
    Fields.vect_to_spect_mode gr gt set_pp set_pm
      (Fields.scal_to_spect_mode gz set_pz (tr, ig, sg, ps))
    = (tr1, ig, sg1, ps) /\
    Fields.vect_to_interp_mode pp pm gr gt set_gr set_gt
      (Fields.scal_to_interp_mode pz gz set_gz (tr1, h ig, sg1, ps))
    = (tr', ig, sg1, ps).
Proof.
  intros Lsg Lh Lset Lv (H0 & Hp & Hm & Hfr & Hft & Hbir & Hbsr & Hbit & Hbst)
         Hgz Hgr Hgt.
  do 3 eexists. split; [reflexivity|].
  unfold Fields.scal_to_interp_mode, Fields.vect_to_interp_mode.
  cbv zeta. st_proj.
  destruct (Lh ig) as (Ehz & Ehr & Eht).
  match goal with |- context [set_gz ?a (h ig)] =>
    destruct (Lset a (h ig)) as (Esr & Est) end.
  rewrite Esr, Est, Ehz, Ehr, Eht.
  rewrite (fill_zeros nz nr _ Hgz), (fill_zeros nz nr _ Hgr),
    (fill_zeros nz nr _ Hgt).
  rewrite (assign_same_shape nz nr _ _ Hbir Hgz).
  rewrite (assign_same_shape nz nr _ _ Hgz Hgr).
  rewrite (assign_same_shape nz nr _ _ Hbit Hgt).
  destruct (Hfr _ Hgz) as (Hzz & _ & Ezz).
  destruct (Hfr _ Hgr) as (Hzr & _ & Ezr).
  destruct (Hft _ Hgt) as (Hzt & _ & Ezt).
  destruct (pm_round_trip_arrays nz nr _ _ Hzr Hzt) as (Hsp & Hsm & Er & Et).
  cbv zeta in Hsp, Hsm, Er, Et.
  rewrite (assign_same_shape nz nr _ _ Hzr Hsp).
  rewrite (assign_same_shape nz nr _ _ Hzt Hsm).
  match goal with |- context [set_pm ?a (set_pp ?b (set_pz ?c sg))] =>
    destruct (Lsg a b c sg) as (Ez & Ep & Em) end.
  rewrite Ez, Ep, Em.
  destruct (H0 _ Hzz) as (_ & _ & E0).
  destruct (Hp _ Hsp) as (_ & _ & Epp). destruct (Hm _ Hsm) as (_ & _ & Emm).
  rewrite E0, Ezz, Epp, Emm, Er, Et.
  rewrite (assign_same_shape nz nr _ _ (shaped_zeros nz nr) Hgz).
  rewrite (assign_same_shape nz nr _ _ Hsp Hzr).
  rewrite (assign_same_shape nz nr _ _ Hsm Hzt).
  rewrite Ezr, Ezt.
  rewrite (assign_same_shape nz nr _ _ (shaped_zeros nz nr) Hgr).
  rewrite (assign_same_shape nz nr _ _ (shaped_zeros nz nr) Hgt).
  rewrite Lv. reflexivity.
Qed.

(** The three loops of a vector field type, one after the other. *)
Lemma field_erase_round_trip_loops (nz nr : nat)
    (gz gr gt : InterpolationGrid.t -> arr2 complex)
    (set_gz set_gr set_gt :
       arr2 complex -> InterpolationGrid.t -> InterpolationGrid.t)
    (pz pp pm : SpectralGrid.t -> arr2 complex)
    (set_pz set_pp set_pm : arr2 complex -> SpectralGrid.t -> SpectralGrid.t)
    (s : Fields.t) :
  let h := fun g =>
    (fun g => set_gz (fill (gz g) (RtoC 0)) g)
      ((fun g => set_gt (fill (gt g) (RtoC 0)) g)
         ((fun g => set_gr (fill (gr g) (RtoC 0)) g) g)) in
  (forall a b c g, pz (set_pm a (set_pp b (set_pz c g))) = c /\
                   pp (set_pm a (set_pp b (set_pz c g))) = b /\
                   pm (set_pm a (set_pp b (set_pz c g))) = a) ->
  (forall g, gz (h g) = fill (gz g) (RtoC 0) /\
             gr (h g) = fill (gr g) (RtoC 0) /\
             gt (h g) = fill (gt g) (RtoC 0)) ->
  (forall a g, gr (set_gz a g) = gr g /\ gt (set_gz a g) = gt g) ->
  (forall g, set_gt (gt g) (set_gr (gr g) (set_gz (gz g) (h g))) = g) ->
  Fields.one_per_mode s ->
  (forall m tr ig sg ps, Fields.mode_at s m = Some (tr, ig, sg, ps) ->
     SpectralTransformer.contracts nz nr tr /\
     shaped nz nr (gz ig) /\ shaped nz nr (gr ig) /\ shaped nz nr (gt ig)) ->
  exists s1 s2 s3,
    for_range (Fields.Nm s) (fun m =>
      Fields.scal_to_spect m gz pz set_pz ;;
      Fields.vect_to_spect m gr gt pp pm set_pp set_pm) s = (Return tt, s1) /\
    for_range (Fields.Nm s1) (fun m =>
      Fields.erase_array m gr set_gr ;;
      Fields.erase_array m gt set_gt ;;
      Fields.erase_array m gz set_gz) s1 = (Return tt, s2) /\
    for_range (Fields.Nm s2) (fun m =>
      Fields.scal_to_interp m pz gz set_gz ;;
      Fields.vect_to_interp m pp pm gr gt set_gr set_gt) s2
      = (Return tt, s3) /\
    (forall m tr ig sg ps, Fields.mode_at s m = Some (tr, ig, sg, ps) ->
       exists tr1 sg1, Fields.mode_at s2 m = Some (tr1, h ig, sg1, ps)) /\
    forall m tr ig sg ps, Fields.mode_at s m = Some (tr, ig, sg, ps) ->
      exists tr' sg', Fields.mode_at s3 m = Some (tr', ig, sg', ps).
Proof.
  intros h Lsg Lh Lset Lv Hs Hall.
  destruct (for_all_modes _ _ s
    (fun m s0 x Hx =>
       to_spect_pair_body m gz pz set_pz gr gt pp pm set_pp set_pm s0 x Hx)
    Hs) as (s1 & Hrun1 & Hs1 & HNm1 & Hm1).
  destruct (for_all_modes
    (fun m =>
      Fields.erase_array m gr set_gr ;;
      Fields.erase_array m gt set_gt ;;
      Fields.erase_array m gz set_gz)
    (fun x => let '(tr, ig, sg, ps) := x in (tr, h ig, sg, ps)) s1)
    as (s2 & Hrun2 & Hs2 & HNm2 & Hm2); [|exact Hs1|].
  { intros m s0 [[[tr ig] sg] ps] Hx. unfold Fields.erase_array.
    apply (group_map_body m
             (fun g => set_gr (fill (gr g) (RtoC 0)) g)
             (fun g => set_gt (fill (gt g) (RtoC 0)) g)
             (fun g => set_gz (fill (gz g) (RtoC 0)) g) s0 tr ig sg ps Hx). }
  destruct (for_all_modes _ _ s2
    (fun m s0 x Hx =>
       to_interp_pair_body m pz gz set_gz pp pm gr gt set_gr set_gt s0 x Hx)
    Hs2) as (s3 & Hrun3 & Hs3 & HNm3 & Hm3).
  exists s1, s2, s3. split; [exact Hrun1|]. split; [exact Hrun2|].
  split; [exact Hrun3|].
  assert (Hmode : forall m tr ig sg ps,
            Fields.mode_at s m = Some (tr, ig, sg, ps) ->
            exists tr1 sg1 tr',
              Fields.mode_at s2 m = Some (tr1, h ig, sg1, ps) /\
              Fields.mode_at s3 m = Some (tr', ig, sg1, ps)).
  { intros m tr ig sg ps Hx.
    destruct (Hall _ _ _ _ _ Hx) as (Hc & Hz & Hr & Ht).
    destruct (mode_erase_round_trip nz nr gz gr gt set_gz set_gr set_gt
                pz pp pm set_pz set_pp set_pm h tr ig sg ps
                Lsg Lh Lset Lv Hc Hz Hr Ht) as (tr1 & sg1 & tr' & E1 & E3).
    exists tr1, sg1, tr'.
    pose proof (Hm2 _ _ (Hm1 _ _ Hx)) as Hx2. rewrite E1 in Hx2.
    split; [exact Hx2|].
    rewrite (Hm3 _ _ Hx2). rewrite E3. reflexivity. }
  split.
  - intros m tr ig sg ps Hx.
    destruct (Hmode _ _ _ _ _ Hx) as (tr1 & sg1 & _ & H2 & _). eauto.
  - intros m tr ig sg ps Hx.
    destruct (Hmode _ _ _ _ _ Hx) as (_ & sg1 & tr' & _ & H3). eauto.
Qed.

(** X20. For the field types E, B and J the spectral grids hold all of
    the field: [Fields.interp2spect], then [Fields.erase], which leaves
    zeros in the three arrays of the field type in the interpolation
    grids, then [Fields.spect2interp] all return, and give back in every
    mode the interpolation grid [interp2spect] started from (the
    coefficients are the ones they were), when the operators of every
    transformer satisfy their forward/inverse contracts on arrays of
    shape [(nz, nr)] and the three arrays of the field type have that
    shape. *)
Theorem transform_erase_round_trip (nz nr : nat) (s : Fields.t)
    (fieldtype : string) :
  fieldtype ∈ vector_kinds ->
  Fields.one_per_mode s ->
  (forall m tr ig sg ps, Fields.mode_at s m = Some (tr, ig, sg, ps) ->
     SpectralTransformer.contracts nz nr tr /\
     forall c, c ∈ Component.group fieldtype ->
               shaped nz nr (Component.get c ig)) ->
  exists s1 s2 s3,
    Fields.interp2spect fieldtype s = (Return tt, s1) /\
    Fields.erase fieldtype s1 = (Return tt, s2) /\
    Fields.spect2interp fieldtype s2 = (Return tt, s3) /\
    forall m tr ig sg ps, Fields.mode_at s m = Some (tr, ig, sg, ps) ->
      (exists tr1 ig2 sg1,
         Fields.mode_at s2 m = Some (tr1, ig2, sg1, ps) /\
         forall c, c ∈ Component.group fieldtype ->
                   Component.get c ig2 = zeros nz nr) /\
      exists tr' sg', Fields.mode_at s3 m = Some (tr', ig, sg', ps).
Proof.
  intros Hk Hs Hall. unfold vector_kinds in Hk.
  unfold Fields.interp2spect, Fields.erase, Fields.spect2interp.
  repeat (apply elem_of_cons in Hk as [-> |Hk]);
    [| | |apply elem_of_nil in Hk; contradiction].
  - destruct (field_erase_round_trip_loops nz nr
      InterpolationGrid.Ez InterpolationGrid.Er InterpolationGrid.Et
      InterpolationGrid.set_Ez InterpolationGrid.set_Er InterpolationGrid.set_Et
      SpectralGrid.Ez SpectralGrid.Ep SpectralGrid.Em
      SpectralGrid.set_Ez SpectralGrid.set_Ep SpectralGrid.set_Em s)
      as (s1 & s2 & s3 & Hr1 & Hr2 & Hr3 & Hmid & Hend);
      [intros; repeat split | intros []; repeat split
      | intros a []; split; reflexivity | intros []; reflexivity
      | exact Hs | |].
    + intros m tr ig sg ps Hx. destruct (Hall _ _ _ _ _ Hx) as (Hc & Hsh).
      split; [exact Hc|].
      split; [|split];
        [apply (Hsh Component.Ez)|apply (Hsh Component.Er)
        |apply (Hsh Component.Et)]; vm_compute; repeat constructor.
    + exists s1, s2, s3.
      rewrite !run_bind_self.
      repeat (case_decide; [discriminate|]). (case_decide; [|congruence]).
      split; [exact Hr1|]. split; [exact Hr2|]. split; [exact Hr3|].
      intros m tr ig sg ps Hx. split; [|exact (Hend _ _ _ _ _ Hx)].
      destruct (Hmid _ _ _ _ _ Hx) as (tr1 & sg1 & H2).
      destruct (Hall _ _ _ _ _ Hx) as (_ & Hsh).
      do 3 eexists. split; [exact H2|].
      intros c Hc. pose proof (Hsh c Hc) as Hshc.
      destruct c; ig_proj; try (apply (fill_zeros nz nr); exact Hshc);
        in_group.
  - destruct (field_erase_round_trip_loops nz nr
      InterpolationGrid.Bz InterpolationGrid.Br InterpolationGrid.Bt
      InterpolationGrid.set_Bz InterpolationGrid.set_Br InterpolationGrid.set_Bt
      SpectralGrid.Bz SpectralGrid.Bp SpectralGrid.Bm
      SpectralGrid.set_Bz SpectralGrid.set_Bp SpectralGrid.set_Bm s)
      as (s1 & s2 & s3 & Hr1 & Hr2 & Hr3 & Hmid & Hend);
      [intros; repeat split | intros []; repeat split
      | intros a []; split; reflexivity | intros []; reflexivity
      | exact Hs | |].
    + intros m tr ig sg ps Hx. destruct (Hall _ _ _ _ _ Hx) as (Hc & Hsh).
      split; [exact Hc|].
      split; [|split];
        [apply (Hsh Component.Bz)|apply (Hsh Component.Br)
        |apply (Hsh Component.Bt)]; vm_compute; repeat constructor.
    + exists s1, s2, s3.
      rewrite !run_bind_self.
      repeat (case_decide; [discriminate|]). (case_decide; [|congruence]).
      split; [exact Hr1|]. split; [exact Hr2|]. split; [exact Hr3|].
      intros m tr ig sg ps Hx. split; [|exact (Hend _ _ _ _ _ Hx)].
      destruct (Hmid _ _ _ _ _ Hx) as (tr1 & sg1 & H2).
      destruct (Hall _ _ _ _ _ Hx) as (_ & Hsh).
      do 3 eexists. split; [exact H2|].
      intros c Hc. pose proof (Hsh c Hc) as Hshc.
      destruct c; ig_proj; try (apply (fill_zeros nz nr); exact Hshc);
        in_group.
  - destruct (field_erase_round_trip_loops nz nr
      InterpolationGrid.Jz InterpolationGrid.Jr InterpolationGrid.Jt
      InterpolationGrid.set_Jz InterpolationGrid.set_Jr InterpolationGrid.set_Jt
      SpectralGrid.Jz SpectralGrid.Jp SpectralGrid.Jm
      SpectralGrid.set_Jz SpectralGrid.set_Jp SpectralGrid.set_Jm s)
      as (s1 & s2 & s3 & Hr1 & Hr2 & Hr3 & Hmid & Hend);
      [intros; repeat split | intros []; repeat split
      | intros a []; split; reflexivity | intros []; reflexivity
      | exact Hs | |].
    + intros m tr ig sg ps Hx. destruct (Hall _ _ _ _ _ Hx) as (Hc & Hsh).
      split; [exact Hc|].
      split; [|split];
        [apply (Hsh Component.Jz)|apply (Hsh Component.Jr)
        |apply (Hsh Component.Jt)]; vm_compute; repeat constructor.
    + exists s1, s2, s3.
      rewrite !run_bind_self.
      repeat (case_decide; [discriminate|]). (case_decide; [|congruence]).
      split; [exact Hr1|]. split; [exact Hr2|]. split; [exact Hr3|].
      intros m tr ig sg ps Hx. split; [|exact (Hend _ _ _ _ _ Hx)].
      destruct (Hmid _ _ _ _ _ Hx) as (tr1 & sg1 & H2).
      destruct (Hall _ _ _ _ _ Hx) as (_ & Hsh).
      do 3 eexists. split; [exact H2|].
      intros c Hc. pose proof (Hsh c Hc) as Hshc.
      destruct c; ig_proj; try (apply (fill_zeros nz nr); exact Hshc);
        in_group.
Qed.

Lemma sample_loaded_fields_one_per_mode : Fields.one_per_mode Loaded.fields.
Proof. repeat split; reflexivity. Qed.

Lemma sample_loaded_interp_grid_shaped (c : Component.t) :
  shaped 2 3 (Component.get c Loaded.interp_grid).
Proof.
  destruct c; first [apply shaped_zeros
                    | split; [reflexivity|repeat constructor]].
Qed.

Lemma sample_loaded_fields_mode (m : nat) tr ig sg ps :
  Fields.mode_at Loaded.fields m = Some (tr, ig, sg, ps) ->
  m = 0%nat /\ tr = Samples.transformer /\ ig = Loaded.interp_grid /\
  sg = Samples.spect_grid /\ ps = Samples.coeffs.
Proof.
  destruct m as [|m]; [|discriminate].
  intros Heq. apply (inj Some) in Heq.
  injection Heq as -> -> -> ->. repeat split; reflexivity.
Qed.

Lemma transform_erase_round_trip_witness :
  exists s1 s2 s3 ig2,
    Fields.interp2spect "E" Loaded.fields = (Return tt, s1) /\
    Fields.erase "E" s1 = (Return tt, s2) /\
    Fields.spect2interp "E" s2 = (Return tt, s3) /\
    Fields.interp s2 !! 0%nat = Some ig2 /\
    InterpolationGrid.Er ig2 = zeros 2 3 /\
    Fields.interp s3 !! 0%nat = Some Loaded.interp_grid /\
    at2 (InterpolationGrid.Er Loaded.interp_grid) 1 2 = (6, 0).
Proof.
  destruct (transform_erase_round_trip 2 3 Loaded.fields "E")
    as (s1 & s2 & s3 & H1 & H2 & H3 & Hm).
  - unfold vector_kinds. repeat constructor.
  - exact sample_loaded_fields_one_per_mode.
  - intros m tr ig sg ps Hx.
    destruct (sample_loaded_fields_mode m tr ig sg ps Hx) as (_ & -> & -> & _).
    split; [exact sample_transformer_contracts|].
    intros c _. apply sample_loaded_interp_grid_shaped.
  - destruct (Hm 0%nat Samples.transformer Loaded.interp_grid
                Samples.spect_grid Samples.coeffs eq_refl)
      as ((tr1 & ig2 & sg1 & Hx2 & Hz) & (tr' & sg' & Hx3)).
    exists s1, s2, s3, ig2.
    split; [exact H1|]. split; [exact H2|]. split; [exact H3|].
    apply mode_at_components in Hx2 as (_ & Hig2 & _ & _).
    apply mode_at_components in Hx3 as (_ & Hig3 & _ & _).
    split; [exact Hig2|].
    split; [apply (Hz Component.Er); vm_compute; repeat constructor|].
    split; [exact Hig3|reflexivity].
Defined.

(** ** [InterpolationGrid.__init__] *)

(** X21. [InterpolationGrid(z, r, m)] raises an IndexError when [r] or
    [z] has fewer than two points. Otherwise it returns a grid of
    [len(z)] by [len(r)] cells whose ten field arrays are zero, with
    [dr = r[1] - r[0]] and [dz = z[1] - z[0]], and whose [invvol[j]] is
    the inverse of the volume [2 pi r[j] dr dz] of the ring of radius
    [r[j]], wherever that volume is not 0. *)
Theorem interpolation_grid_init (z r : list R) (m : nat) :
  ((length r < 2)%nat \/ (length z < 2)%nat ->
   InterpolationGrid.init z r m = Raise IndexError) /\
  ((2 <= length r)%nat -> (2 <= length z)%nat ->
   exists g,
     InterpolationGrid.init z r m = Return g /\
     InterpolationGrid.Nz g = length z /\
     InterpolationGrid.Nr g = length r /\
     InterpolationGrid.z g = z /\ InterpolationGrid.r g = r /\
     InterpolationGrid.m g = m /\
     InterpolationGrid.dr g = r !!! 1%nat - r !!! 0%nat /\
     InterpolationGrid.dz g = z !!! 1%nat - z !!! 0%nat /\
     (forall c, Component.get c g = zeros (length z) (length r)) /\
     length (InterpolationGrid.invvol g) = length r /\
     forall j rj, r !! j = Some rj ->
       rj * InterpolationGrid.dr g * InterpolationGrid.dz g <> 0 ->
       InterpolationGrid.invvol g !! j
       = Some (1 / (2 * PI * rj * InterpolationGrid.dr g
                    * InterpolationGrid.dz g))).
Proof.
  split.
  - intros Hshort. unfold InterpolationGrid.init.
    destruct r as [|r0 [|r1 r']]; try reflexivity.
    destruct z as [|z0 [|z1 z']]; try reflexivity.
    cbn [length] in Hshort. lia.
  - intros Hr Hz.
    destruct r as [|r0 [|r1 r']]; cbn [length] in Hr; try lia.
    destruct z as [|z0 [|z1 z']]; cbn [length] in Hz; try lia.
    eexists. split; [reflexivity|].
    cbn [InterpolationGrid.Nz InterpolationGrid.Nr InterpolationGrid.z
         InterpolationGrid.r InterpolationGrid.m InterpolationGrid.dr
         InterpolationGrid.dz InterpolationGrid.invvol].
    repeat (split; [reflexivity|]).
    split; [intros c; destruct c; reflexivity|].
    split; [rewrite !length_fmap; reflexivity|].
    intros j rj Hj Hvol.
    rewrite !list_lookup_fmap, Hj. cbn [fmap option_fmap option_map].
    f_equal.
    assert (rj <> 0 /\ r1 - r0 <> 0 /\ z1 - z0 <> 0) as (H1 & H2 & H3).
    { repeat split; intros E; apply Hvol; rewrite E; ring. }
    f_equal. set (d := r1 - r0). set (e := z1 - z0). decimals. field.
Qed.

Lemma interpolation_grid_init_witness :
  exists g, InterpolationGrid.init [0; 1] [0.5; 1.5] 0 = Return g /\
            InterpolationGrid.invvol g !! 0%nat = Some (1 / (2 * PI * 0.5 * (1.5 - 0.5) * (1 - 0))).
Proof.
  destruct (proj2 (interpolation_grid_init [0; 1] [0.5; 1.5] 0))
    as (g & Hg & _ & _ & _ & _ & _ & Hdr & Hdz & _ & _ & Hv);
    [cbn; lia|cbn; lia|].
  exists g. split; [exact Hg|].
  rewrite (Hv 0%nat 0.5 eq_refl).
  - rewrite Hdr, Hdz. reflexivity.
  - rewrite Hdr, Hdz. cbn. lra.
Defined.

(** ** [Fields.filter_interp] along r *)

(** The value on the axis after the filter along r. *)
Lemma binomial_filter_r_axis (sign_guard : Z) (F : arr2 complex)
    (nz nr : nat) :
  shaped nz nr F -> (2 <= nr)%nat ->
  fst (binomial_filter "r" sign_guard F) = Return tt /\
  shaped nz nr (exec (binomial_filter "r" sign_guard) F) /\
  forall i, (i < nz)%nat ->
    at2 (exec (binomial_filter "r" sign_guard) F) i 0
    = (RtoC (0.25 * IZR sign_guard) * at2 F i 0 + RtoC 0.5 * at2 F i 0
       + RtoC 0.5 * at2 F i 1)%cx.
Proof.
  intros [HL HF] Hnr. unfold exec.
  rewrite (binomial_filter_r_rows sign_guard F nr HF Hnr). cbn [fst snd].
  split; [reflexivity|].
  set (st := interior_stencil (Cmul (RtoC 0.25)) (Cmul (RtoC 0.5))
               (Cmul (RtoC 0.25)) Cadd).
  assert (Hst : forall l, length l = nr -> length (st l) = nr).
  { intros l Hl.
    destruct (interior_stencil_facts (Cmul (RtoC 0.25)) (Cmul (RtoC 0.5))
                (Cmul (RtoC 0.25)) Cadd l) as (E & _); [lia|].
    fold st in E. lia. }
  split.
  { split; [rewrite length_fmap; exact HL|].
    rewrite Forall_fmap. eapply Forall_impl; [exact HF|].
    intros l Hl. cbn in Hl. cbn. rewrite !length_insert.
    apply (Hst l Hl). }
  intros i Hi.
  destruct (lookup_lt_is_Some_2 F i) as [l Hl]; [lia|].
  assert (Ll : length l = nr) by (rewrite Forall_lookup in HF; eauto).
  pose proof (Hst l Ll) as Lst.
  set (g := fun l : list complex =>
              <[(nr - 1)%nat := _]> (<[0%nat := _]> (st l))).
  assert (Hl' : fmap (M := list) g F !! i = Some (g l))
    by (rewrite list_lookup_fmap, Hl; reflexivity).
  assert (Lg : length (g l) = nr)
    by (unfold g; rewrite !length_insert; exact Lst).
  rewrite !(at2_lookup F i _ l Hl) by lia.
  rewrite !(at2_lookup _ i _ (g l) Hl') by lia.
  apply list_lookup_total_correct. unfold g.
  rewrite list_lookup_insert_ne by lia.
  apply list_lookup_insert_eq. lia.
Qed.

Lemma guard_sign_parity (m : nat) :
  ((-1) ^ Z.of_nat m)%Z = if Nat.even m then 1%Z else (-1)%Z.
Proof.
  induction m as [|m IH]; [reflexivity|].
  rewrite Nat2Z.inj_succ, Z.pow_succ_r by lia. rewrite IH.
  rewrite Nat.even_succ, <- Nat.negb_even.
  destruct (Nat.even m); reflexivity.
Qed.

(** [InterpolationGrid.filter] along r on one grid: the arrays of the
    group are filtered, the transverse ones with the sign [-(-1)**m] and
    the others with [(-1)**m]. *)
Lemma interp_filter_r (ig : InterpolationGrid.t) (fieldtype : string)
    (nz nr : nat) :
  fieldtype ∈ Fields.filter_interp_kinds -> (2 <= nr)%nat ->
  (forall c, shaped nz nr (Component.get c ig)) ->
  fst (InterpolationGrid.filter fieldtype "r" ig) = Return tt /\
  forall c,
    Component.get c (exec (InterpolationGrid.filter fieldtype "r") ig)
    = if decide (c ∈ Component.group fieldtype)
      then exec (binomial_filter "r"
                   (if decide (c ∈ Component.transverse)
                    then - (-1) ^ Z.of_nat (InterpolationGrid.m ig)
                    else (-1) ^ Z.of_nat (InterpolationGrid.m ig))%Z)
             (Component.get c ig)
      else Component.get c ig.
Proof.
  intros Hk Hn Hsh. unfold Fields.filter_interp_kinds in Hk.
  assert (Hret : forall c sg,
            fst (binomial_filter "r" sg (Component.get c ig)) = Return tt)
    by (intros c sg; apply (binomial_filter_r_axis sg _ nz nr); auto).
  unfold InterpolationGrid.filter, exec. rewrite run_bind_self.
  set (sign := ((-1) ^ Z.of_nat (InterpolationGrid.m ig))%Z).
  repeat (apply elem_of_cons in Hk as [-> |Hk]);
    [| | | |apply elem_of_nil in Hk; contradiction];
    unfold Component.group, Component.transverse;
    repeat (case_decide; [discriminate|]); (case_decide; [|congruence]).
  - rewrite on_array_run by apply (Hret Component.rho).
    split; [reflexivity|]. cbn [snd].
    intros c.
    destruct c; repeat case_decide; ig_proj; try reflexivity; in_group.
  - erewrite run_bind_return
      by (apply on_array_run; apply (Hret Component.Jr)).
    erewrite run_bind_return
      by (apply on_array_run; ig_proj; apply (Hret Component.Jt)).
    rewrite on_array_run by (ig_proj; apply (Hret Component.Jz)).
    split; [reflexivity|]. cbn [snd].
    intros c.
    destruct c; repeat case_decide; ig_proj; try reflexivity; in_group.
  - erewrite run_bind_return
      by (apply on_array_run; apply (Hret Component.Er)).
    erewrite run_bind_return
      by (apply on_array_run; ig_proj; apply (Hret Component.Et)).
    rewrite on_array_run by (ig_proj; apply (Hret Component.Ez)).
    split; [reflexivity|]. cbn [snd].
    intros c.
    destruct c; repeat case_decide; ig_proj; try reflexivity; in_group.
  - erewrite run_bind_return
      by (apply on_array_run; apply (Hret Component.Br)).
    erewrite run_bind_return
      by (apply on_array_run; ig_proj; apply (Hret Component.Bt)).
    rewrite on_array_run by (ig_proj; apply (Hret Component.Bz)).
    split; [reflexivity|]. cbn [snd].
    intros c.
    destruct c; repeat case_decide; ig_proj; try reflexivity; in_group.
Qed.

Lemma axis_weight (sign : Z) (x y : complex) :
  (RtoC (0.25 * IZR sign) * x + RtoC 0.5 * x + RtoC 0.5 * y)%cx
  = (RtoC (0.5 + 0.25 * IZR sign) * x + RtoC 0.5 * y)%cx.
Proof. destruct x as [x1 x2], y as [y1 y2]. Csplit; lra. Qed.

(** X22. [Fields.filter_interp(fieldtype, 'r')] with a recognized string,
    on grids whose arrays have the shape [(nz, nr)] with [nr >= 2],
    returns. In every mode the arrays outside the field type are kept;
    an array of the field type keeps its shape, and its cell on the axis
    becomes [w*F[i,0] + 0.5*F[i,1]], where the weight [w] is 0.75 for the
    z components and rho in a grid of even [m] and for the r and theta
    components in a grid of odd [m], and 0.25 otherwise. *)
Theorem filter_interp_r_axis (s : Fields.t) (fieldtype : string)
    (nz nr : nat) :
  fieldtype ∈ Fields.filter_interp_kinds -> Fields.one_per_mode s ->
  (2 <= nr)%nat ->
  (forall m tr ig sg ps c, Fields.mode_at s m = Some (tr, ig, sg, ps) ->
     shaped nz nr (Component.get c ig)) ->
  exists s',
    Fields.filter_interp fieldtype "r" s = (Return tt, s') /\
    forall m tr ig sg ps, Fields.mode_at s m = Some (tr, ig, sg, ps) ->
      exists ig',
        Fields.mode_at s' m = Some (tr, ig', sg, ps) /\
        forall c,
          if decide (c ∈ Component.group fieldtype)
          then
            shaped nz nr (Component.get c ig') /\
            forall i, (i < nz)%nat ->
              at2 (Component.get c ig') i 0
              = (RtoC (if decide (c ∈ Component.transverse)
                       then if Nat.even (InterpolationGrid.m ig)
                            then 0.25 else 0.75
                       else if Nat.even (InterpolationGrid.m ig)
                            then 0.75 else 0.25)
                 * at2 (Component.get c ig) i 0
                 + RtoC 0.5 * at2 (Component.get c ig) i 1)%cx
          else Component.get c ig' = Component.get c ig.
Proof.
  intros Hk Hs Hn Hsh. unfold Fields.filter_interp. rewrite run_bind_self.
  destruct (for_range_modes_pre
    (fun m => Fields.on_interp m (InterpolationGrid.filter fieldtype "r"))
    (fun _ x => let '(tr, ig, sg, ps) := x in
       (tr, exec (InterpolationGrid.filter fieldtype "r") ig, sg, ps))
    (fun _ x => let '(_, ig, _, _) := x in
       forall c, shaped nz nr (Component.get c ig)) (Fields.dt s))
    with (n := Fields.Nm s) (s := s)
    as (s' & Hrun & _ & _ & _ & Hmodes); try auto.
  { intros m s0 [[[tr ig] sg] ps] _ Hx HP.
    rewrite (on_interp_body m _ s0 tr ig sg ps Hx).
    rewrite (proj1 (interp_filter_r ig fieldtype nz nr Hk Hn HP)).
    reflexivity. }
  { intros m [[[tr ig] sg] ps] _ Hx c. exact (Hsh _ _ _ _ _ c Hx). }
  exists s'. split; [exact Hrun|].
  intros m tr ig sg ps Hx. eexists. split.
  { rewrite Hmodes.
    rewrite (proj2 (Nat.ltb_lt m (Fields.Nm s))) by (eapply mode_at_lt; eauto).
    rewrite Hx. reflexivity. }
  intros c.
  assert (HP : forall c, shaped nz nr (Component.get c ig))
    by (intros c0; exact (Hsh _ _ _ _ _ c0 Hx)).
  rewrite (proj2 (interp_filter_r ig fieldtype nz nr Hk Hn HP) c).
  case_decide; [|reflexivity].
  destruct (binomial_filter_r_axis
              (if decide (c ∈ Component.transverse)
               then - (-1) ^ Z.of_nat (InterpolationGrid.m ig)
               else (-1) ^ Z.of_nat (InterpolationGrid.m ig))%Z
              _ nz nr (HP c) Hn) as (_ & Hshape & Hax).
  split; [exact Hshape|].
  intros i Hi.
  rewrite (Hax i Hi), axis_weight, guard_sign_parity.
  do 3 f_equal.
  case_decide; destruct (Nat.even (InterpolationGrid.m ig));
    rewrite ?opp_IZR; lra.
Qed.

Lemma filter_interp_r_axis_witness :
  exists s' ig',
    Fields.filter_interp "E" "r" Loaded.fields = (Return tt, s') /\
    Fields.interp s' !! 0%nat = Some ig' /\
    at2 (InterpolationGrid.Er ig') 0 0
    = (RtoC 0.25 * (1, 0) + RtoC 0.5 * (2, 0))%cx /\
    at2 (InterpolationGrid.Ez ig') 0 0
    = (RtoC 0.75 * (1, 1) + RtoC 0.5 * (2, 2))%cx.
Proof.
  destruct (filter_interp_r_axis Loaded.fields "E" 2 3)
    as (s' & Hrun & Hm).
  - unfold Fields.filter_interp_kinds. repeat constructor.
  - exact sample_loaded_fields_one_per_mode.
  - lia.
  - intros m tr ig sg ps c Hx.
    destruct (sample_loaded_fields_mode m tr ig sg ps Hx) as (_ & _ & -> & _).
    apply sample_loaded_interp_grid_shaped.
  - destruct (Hm 0%nat Samples.transformer Loaded.interp_grid
                Samples.spect_grid Samples.coeffs eq_refl)
      as (ig' & Hx' & Hc).
    exists s', ig'. split; [exact Hrun|].
    apply mode_at_components in Hx' as (_ & Hig' & _ & _).
    split; [exact Hig'|].
    split.
    + exact (proj2 (Hc Component.Er) 0%nat ltac:(lia)).
    + exact (proj2 (Hc Component.Ez) 0%nat ltac:(lia)).
Defined.
